(** * ruby_dsl_parser: Gem and Pod dependency extractor

    A shallow embedding of the tokenizer, the string normalizer and the
    recursive-descent parser of [ruby_dsl_parser.ts], followed by the
    properties established about them.

    Conventions of the embedding:
    - a JavaScript string is the list of its UTF-16 code units ([jsstring]);
      [charCodeAt] past the end is [None] (JavaScript's [NaN]), which is
      different from every code unit, itself included;
    - indices, lines and columns are [nat]; code units, the counters that
      are compared with the large limits and the block depth of the parser,
      which [leave] can take below zero, are [Z];
    - a [while] loop of the tokenizer or the parser is a [Fixpoint] on a
      fuel argument and returns [OutOfFuel] when the fuel is spent; the
      index loops of [strip] recurse on the distance between their two
      indices, and the loops over the characters of one string on that
      string;
    - a thrown [RubyDslError] is [Throw e]; dereferencing [undefined]
      (reading a token past the end of the token array) is [TypeError]. *)

From Stdlib Require Import String Ascii HexadecimalString.
From Stdlib Require Import ZArith NArith Bool Arith Lia List Sorted.
Import ListNotations.

(* ------------------------------------------------------------------ *)
(** ** JavaScript strings *)

Definition jsstring := list Z.

Fixpoint js (s : string) : jsstring :=
  match s with
  | EmptyString => []
  | String a s' => Z.of_N (N_of_ascii a) :: js s'
  end.

Definition charCodeAt (s : jsstring) (i : nat) : option Z := nth_error s i.

(** [===] on two results of [charCodeAt]: [NaN] equals nothing. *)
Definition code_eq (a b : option Z) : bool :=
  match a, b with
  | Some x, Some y => Z.eqb x y
  | _, _ => false
  end.

(** [s.slice(a, b)] for non-negative [a] and [b]. *)
Definition slice (s : jsstring) (a b : nat) : jsstring :=
  firstn (b - a) (skipn a s).

Fixpoint jseq (a b : jsstring) : bool :=
  match a, b with
  | [], [] => true
  | x :: a', y :: b' => Z.eqb x y && jseq a' b'
  | _, _ => false
  end.

Fixpoint startsWith (s p : jsstring) : bool :=
  match p, s with
  | [], _ => true
  | y :: p', x :: s' => Z.eqb x y && startsWith s' p'
  | _ :: _, [] => false
  end.

Definition endsWith (s p : jsstring) : bool :=
  startsWith (rev s) (rev p).

(** [s.includes(p)]. *)
Fixpoint includes (s p : jsstring) : bool :=
  startsWith s p ||
  match s with
  | [] => false
  | _ :: s' => includes s' p
  end.

(** The code units [String.prototype.trim] removes: ECMAScript WhiteSpace
    and LineTerminator. *)
Definition isJsSpace (c : Z) : bool :=
  ((9 <=? c) && (c <=? 13) || (c =? 32) || (c =? 160) || (c =? 5760) ||
   (8192 <=? c) && (c <=? 8202) || (c =? 8232) || (c =? 8233) ||
   (c =? 8239) || (c =? 8287) || (c =? 12288) || (c =? 65279))%Z.

Fixpoint trimStart (s : jsstring) : jsstring :=
  match s with
  | c :: s' => if isJsSpace c then trimStart s' else s
  | [] => []
  end.

Definition trim (s : jsstring) : jsstring :=
  rev (trimStart (rev (trimStart s))).

(** [n.toString(16)] for a code unit. *)
Definition toString16 (c : Z) : string :=
  NilZero.string_of_uint (N.to_hex_uint (Z.to_N c)).

(* ------------------------------------------------------------------ *)
(** ** 0. Char codes *)

Local Open Scope Z_scope.

Definition CHARACTER_TAB := 9.
Definition LINE_FEED := 10.
Definition SPACE_CHARACTER := 32.
Definition SINGLE_QUOTE_CHARACTER := 39.
Definition DOUBLE_QUOTE_CHARACTER := 34.
Definition PERCENT_CHARACTER := 37.
Definition LEFT_PARENTHESIS := 40.
Definition RIGHT_PARENTHESIS := 41.
Definition LEFT_BRACKET := 91.
Definition RIGHT_BRACKET := 93.
Definition LEFT_CURLY_BRACE := 123.
Definition RIGHT_CURLY_BRACE := 125.
Definition LESS_THAN_CHARACTER := 60.
Definition GREATER_THAN_CHARACTER := 62.
Definition COMMA_CHARACTER := 44.
Definition DOT_CHARACTER := 46.
Definition COLON_CHARACTER := 58.
Definition EQUALS_CHARACTER := 61.
Definition HASH_CHARACTER := 35.
Definition BACKSLASH_CHARACTER := 92.
Definition PIPE_CHARACTER := 124.
Definition MINUS_CHARACTER := 45.
Definition PLUS_CHARACTER := 43.
Definition AMPERSAND_CHARACTER := 38.
Definition EXCLAMATION_CHARACTER := 33.
Definition ASTERISK_CHARACTER := 42.
Definition FORWARD_SLASH_CHARACTER := 47.
Definition SEMICOLON_CHARACTER := 59.
Definition DOLLAR_CHARACTER := 36.
Definition UNDERSCORE_CHARACTER := 95.
Definition QUESTION_CHARACTER := 63.
Definition LETTER_A_CHARACTER := 64.
Definition LETTER_Z_CHARACTER := 90.
Definition LOWERCASE_A_CHARACTER := 97.
Definition LOWERCASE_Z_CHARACTER := 122.
Definition DIGIT_ZERO_CHARACTER := 48.
Definition DIGIT_NINE_CHARACTER := 57.

(** ** 1. Limits *)

Definition MAX_TOKENS := 40000.
Definition MAX_ITERATIONS := 2%nat.
Definition MAX_STRING_LENGTH := 8 * 1024.
Definition MAX_BLOCK_DEPTH := 256.

Definition closingDelimiter (open : option Z) : option Z :=
  match open with
  | None => None
  | Some o =>
      if o =? LEFT_CURLY_BRACE then Some RIGHT_CURLY_BRACE
      else if o =? LEFT_BRACKET then Some RIGHT_BRACKET
      else if o =? LEFT_PARENTHESIS then Some RIGHT_PARENTHESIS
      else if o =? LESS_THAN_CHARACTER then Some GREATER_THAN_CHARACTER
      else Some o
  end.

Local Close Scope Z_scope.

(** ** 2. Errors *)

Record RubyDslError := mkError {
  message : string;
  offset : nat;
  err_line : nat;
  err_column : nat;
  previousHex : string;
  opener : option (nat * nat)
}.

Inductive Res (A : Type) : Type :=
| Ok (a : A)
| Throw (e : RubyDslError)
| TypeError
| OutOfFuel.

Arguments Ok {A} a.
Arguments Throw {A} e.
Arguments TypeError {A}.
Arguments OutOfFuel {A}.

(** ** 3. Token types *)

Inductive TokenKind :=
| Identifier | String_ | Symbol | Integer | Comma | Colon
| LeftParen | RightParen | LeftBracket | RightBracket | Dot | Equals
| NewLine | Do | End_ | If | Else | EndOfFile.

Definition TokenKind_eqb (a b : TokenKind) : bool :=
  match a, b with
  | Identifier, Identifier | String_, String_ | Symbol, Symbol
  | Integer, Integer | Comma, Comma | Colon, Colon
  | LeftParen, LeftParen | RightParen, RightParen
  | LeftBracket, LeftBracket | RightBracket, RightBracket
  | Dot, Dot | Equals, Equals | NewLine, NewLine | Do, Do
  | End_, End_ | If, If | Else, Else | EndOfFile, EndOfFile => true
  | _, _ => false
  end.

Record Token := mkToken {
  kind : TokenKind;
  text : jsstring;
  start : nat;
  end_ : nat;
  line : nat;
  column : nat
}.

(* ------------------------------------------------------------------ *)
(** ** 4. Tokenizer *)

Definition isSymbolChar (c : Z) : bool :=
  ((LETTER_A_CHARACTER <=? c) && (c <=? LETTER_Z_CHARACTER) ||
   (LOWERCASE_A_CHARACTER <=? c) && (c <=? LOWERCASE_Z_CHARACTER) ||
   (DIGIT_ZERO_CHARACTER <=? c) && (c <=? DIGIT_NINE_CHARACTER) ||
   (c =? UNDERSCORE_CHARACTER))%Z.

Definition isIdentifierStart (c : Z) : bool :=
  ((LETTER_A_CHARACTER <=? c) && (c <=? LETTER_Z_CHARACTER) ||
   (LOWERCASE_A_CHARACTER <=? c) && (c <=? LOWERCASE_Z_CHARACTER) ||
   (c =? UNDERSCORE_CHARACTER) || (c =? DOLLAR_CHARACTER))%Z.

Definition isIdentifierChar (c : Z) : bool :=
  ((LETTER_A_CHARACTER <=? c) && (c <=? LETTER_Z_CHARACTER) ||
   (LOWERCASE_A_CHARACTER <=? c) && (c <=? LOWERCASE_Z_CHARACTER) ||
   (DIGIT_ZERO_CHARACTER <=? c) && (c <=? DIGIT_NINE_CHARACTER) ||
   (c =? UNDERSCORE_CHARACTER) || (c =? DOLLAR_CHARACTER) ||
   (c =? QUESTION_CHARACTER) || (c =? EXCLAMATION_CHARACTER))%Z.

Definition isDigit (c : Z) : bool :=
  ((DIGIT_ZERO_CHARACTER <=? c) && (c <=? DIGIT_NINE_CHARACTER))%Z.

Definition isSingleCharacter (c : Z) : bool :=
  ((c =? COMMA_CHARACTER) || (c =? LEFT_PARENTHESIS) ||
   (c =? RIGHT_PARENTHESIS) || (c =? LEFT_BRACKET) ||
   (c =? RIGHT_BRACKET) || (c =? DOT_CHARACTER) ||
   (c =? EQUALS_CHARACTER))%Z.

Definition singleCharacterKind (c : Z) : TokenKind :=
  (if c =? COMMA_CHARACTER then Comma
   else if c =? LEFT_PARENTHESIS then LeftParen
   else if c =? RIGHT_PARENTHESIS then RightParen
   else if c =? LEFT_BRACKET then LeftBracket
   else if c =? RIGHT_BRACKET then RightBracket
   else if c =? DOT_CHARACTER then Dot
   else Equals)%Z.

Definition isOtherPunctuation (c : Z) : bool :=
  ((c =? LEFT_CURLY_BRACE) || (c =? RIGHT_CURLY_BRACE) ||
   (c =? LESS_THAN_CHARACTER) || (c =? GREATER_THAN_CHARACTER) ||
   (c =? MINUS_CHARACTER) || (c =? PLUS_CHARACTER) ||
   (c =? AMPERSAND_CHARACTER) || (c =? ASTERISK_CHARACTER) ||
   (c =? FORWARD_SLASH_CHARACTER) || (c =? SEMICOLON_CHARACTER))%Z.

Definition wordKind (word : jsstring) : TokenKind :=
  if jseq word (js "do") then Do
  else if jseq word (js "end") then End_
  else if jseq word (js "if") then If
  else if jseq word (js "else") then Else
  else Identifier.

(** The local variables of [tokenize] that live across iterations of its
    main loop. *)
Record LexState := mkLex {
  lx_tokens : list Token;
  lx_index : nat;
  lx_iterations : nat;
  lx_line : nat;
  lx_column : nat
}.

Section Tokenizer.

Variable source : jsstring.
(** [MAX_TOKENS], kept as a variable of the section so that the capped
    tokenizer can be compared with a more generous one. *)
Variable max_tokens : Z.

Definition previousHexOf (tokens : list Token) : string :=
  match rev tokens with
  | [] => "00"%string
  | t :: _ =>
      match charCodeAt (text t) 0 with
      | Some c => toString16 c
      | None => "NaN"%string
      end
  end.

(** [push(kind, start, end)]; [index], [line] and [column] are the
    values of the enclosing variables at the time of the call. *)
Definition push (tokens : list Token) (index line column : nat)
           (kind : TokenKind) (start end_ : nat) : Res (list Token) :=
  if (max_tokens <=? Z.of_nat (length tokens))%Z then
    Throw (mkError "token quota exceeded" index line column
                   (previousHexOf tokens) None)
  else
    Ok (tokens ++ [mkToken kind (slice source start end_) start end_
                           line column]).

(** [while (index < source.length && p(source.charCodeAt(index)))
      { index++; column++; }] *)
Fixpoint scanWhile (p : Z -> bool) (fuel index column : nat)
  : Res (nat * nat) :=
  match fuel with
  | 0 => OutOfFuel
  | S fuel' =>
      match charCodeAt source index with
      | None => Ok (index, column)
      | Some c =>
          if p c then scanWhile p fuel' (S index) (S column)
          else Ok (index, column)
      end
  end.

(** The body scan shared by quoted symbols ([escapes = false]), quoted
    strings and percent literals ([escapes = true]): runs to the closing
    delimiter or the end of the source. *)
Fixpoint scanLiteral (tooLong : string) (escapes : bool)
         (close : option Z) (opener : nat * nat) (tokens : list Token)
         (fuel : nat) (len : Z) (index line column : nat)
  : Res (nat * nat * nat) :=
  match fuel with
  | 0 => OutOfFuel
  | S fuel' =>
      match charCodeAt source index with
      | None => Ok (index, line, column)
      | Some c =>
          if code_eq (Some c) close then Ok (index, line, column)
          else
            let len := (len + 1)%Z in
            if (MAX_STRING_LENGTH <? len)%Z then
              Throw (mkError tooLong index line column
                             (previousHexOf tokens) (Some opener))
            else
              let '(index, column) :=
                if escapes && (c =? BACKSLASH_CHARACTER)%Z
                then (S index, S column) else (index, column) in
              let '(line, column) :=
                if code_eq (charCodeAt source index) (Some LINE_FEED)
                then (S line, 1) else (line, S column) in
              scanLiteral tooLong escapes close opener tokens
                          fuel' len (S index) line column
      end
  end.

(** One iteration of the main loop, entered with
    [index < source.length]. *)
Definition lexStep (st : LexState) : Res LexState :=
  let '(mkLex tokens index iterations line column) := st in
  let iterations := S iterations in
  let fuel := S (length source) in
  if length source * MAX_ITERATIONS <? iterations then
    Throw (mkError "runaway lexer" index line column
                   (previousHexOf tokens) None)
  else
    match charCodeAt source index with
    | None =>
        Throw (mkError "unknown character" index line column
                       (previousHexOf tokens) None)
    | Some cc =>
        (* whitespace *)
        if ((cc =? SPACE_CHARACTER) || (cc =? CHARACTER_TAB))%Z then
          Ok (mkLex tokens (S index) iterations line (S column))
        else if (cc =? LINE_FEED)%Z then
          match push tokens index line column NewLine index (index + 1) with
          | Ok tokens => Ok (mkLex tokens (S index) iterations (S line) 1)
          | Throw e => Throw e
          | TypeError => TypeError
          | OutOfFuel => OutOfFuel
          end
        (* single characters *)
        else if isSingleCharacter cc then
          match push tokens (S index) line column
                     (singleCharacterKind cc) index (S index) with
          | Ok tokens => Ok (mkLex tokens (S index) iterations line (S column))
          | Throw e => Throw e
          | TypeError => TypeError
          | OutOfFuel => OutOfFuel
          end
        (* colon / symbol *)
        else if (cc =? COLON_CHARACTER)%Z then
          let next := charCodeAt source (index + 1) in
          let prev := if 0 <? index then charCodeAt source (index - 1)
                      else Some 0%Z in
          if code_eq next (Some COLON_CHARACTER) ||
             code_eq prev (Some COLON_CHARACTER) then
            match push tokens index line column Colon index (index + 1) with
            | Ok tokens => Ok (mkLex tokens (S index) iterations line (S column))
            | Throw e => Throw e
            | TypeError => TypeError
            | OutOfFuel => OutOfFuel
            end
          else if code_eq next (Some SINGLE_QUOTE_CHARACTER) ||
                  code_eq next (Some DOUBLE_QUOTE_CHARACTER) then
            let start := index in
            let quoteChar := next in
            let index := S index in
            let column := S column in
            let opener := (line, column) in
            let index := S index in
            let column := S column in
            match scanLiteral "symbol literal too long" false quoteChar
                              opener tokens fuel 0%Z index line column with
            | Ok (index, line, column) =>
                if length source <=? index then
                  Throw (mkError "unterminated symbol" index line column
                                 (previousHexOf tokens) (Some opener))
                else
                  let index := S index in
                  let column := S column in
                  match push tokens index line column Symbol start index with
                  | Ok tokens => Ok (mkLex tokens index iterations line column)
                  | Throw e => Throw e
                  | TypeError => TypeError
                  | OutOfFuel => OutOfFuel
                  end
            | Throw e => Throw e
            | TypeError => TypeError
            | OutOfFuel => OutOfFuel
            end
          else
            let c2 := charCodeAt source (index + 1) in
            if match c2 with Some c => isSymbolChar c | None => false end then
              let start := index in
              match scanWhile isSymbolChar fuel (S index) (S column) with
              | Ok (index, column) =>
                  match push tokens index line column Symbol start index with
                  | Ok tokens => Ok (mkLex tokens index iterations line column)
                  | Throw e => Throw e
                  | TypeError => TypeError
                  | OutOfFuel => OutOfFuel
                  end
              | Throw e => Throw e
              | TypeError => TypeError
              | OutOfFuel => OutOfFuel
              end
            else
              match push tokens index line column Colon index (index + 1) with
              | Ok tokens => Ok (mkLex tokens (S index) iterations line (S column))
              | Throw e => Throw e
              | TypeError => TypeError
              | OutOfFuel => OutOfFuel
              end
        (* comment *)
        else if (cc =? HASH_CHARACTER)%Z then
          match scanWhile (fun c => negb (c =? LINE_FEED)%Z) fuel index column with
          | Ok (index, column) => Ok (mkLex tokens index iterations line column)
          | Throw e => Throw e
          | TypeError => TypeError
          | OutOfFuel => OutOfFuel
          end
        (* block parameter delimiter *)
        else if (cc =? PIPE_CHARACTER)%Z then
          match push tokens index line column Symbol index (index + 1) with
          | Ok tokens => Ok (mkLex tokens (S index) iterations line (S column))
          | Throw e => Throw e
          | TypeError => TypeError
          | OutOfFuel => OutOfFuel
          end
        (* quoted string *)
        else if ((cc =? SINGLE_QUOTE_CHARACTER) ||
                 (cc =? DOUBLE_QUOTE_CHARACTER))%Z then
          let quote := cc in
          let start := index in
          let opener := (line, column) in
          match scanLiteral "string literal too long" true (Some quote)
                            opener tokens fuel 0%Z (S index) line (S column) with
          | Ok (index, line, column) =>
              if length source <=? index then
                Throw (mkError "unterminated string" index line column
                               (previousHexOf tokens) (Some opener))
              else
                let index := S index in
                match push tokens index line column String_ start index with
                | Ok tokens => Ok (mkLex tokens index iterations line (S column))
                | Throw e => Throw e
                | TypeError => TypeError
                | OutOfFuel => OutOfFuel
                end
          | Throw e => Throw e
          | TypeError => TypeError
          | OutOfFuel => OutOfFuel
          end
        (* %q / %w *)
        else if (cc =? PERCENT_CHARACTER)%Z &&
                (code_eq (charCodeAt source (index + 1)) (Some 113%Z) ||
                 code_eq (charCodeAt source (index + 1)) (Some 119%Z)) then
          let start := index in
          let opener := (line, column) in
          let openDelim := charCodeAt source (index + 2) in
          let closeDelim := closingDelimiter openDelim in
          match scanLiteral "%q/%w literal too long" true closeDelim
                            opener tokens fuel 0%Z (index + 3) line (column + 3) with
          | Ok (index, line, column) =>
              if length source <=? index then
                Throw (mkError "unterminated %q/%w literal" index line column
                               (previousHexOf tokens) (Some opener))
              else
                let index := S index in
                let column := S column in
                match push tokens index line column String_ start index with
                | Ok tokens => Ok (mkLex tokens index iterations line column)
                | Throw e => Throw e
                | TypeError => TypeError
                | OutOfFuel => OutOfFuel
                end
          | Throw e => Throw e
          | TypeError => TypeError
          | OutOfFuel => OutOfFuel
          end
        (* other punctuation (braces, angle, math operators) *)
        else if isOtherPunctuation cc then
          Ok (mkLex tokens (S index) iterations line (S column))
        (* identifier *)
        else if isIdentifierStart cc then
          let start := index in
          match scanWhile isIdentifierChar fuel index column with
          | Ok (index, column) =>
              let word := slice source start index in
              match push tokens index line column (wordKind word) start index with
              | Ok tokens => Ok (mkLex tokens index iterations line column)
              | Throw e => Throw e
              | TypeError => TypeError
              | OutOfFuel => OutOfFuel
              end
          | Throw e => Throw e
          | TypeError => TypeError
          | OutOfFuel => OutOfFuel
          end
        (* integer *)
        else if isDigit cc then
          let start := index in
          match scanWhile isDigit fuel index column with
          | Ok (index, column) =>
              match push tokens index line column Integer start index with
              | Ok tokens => Ok (mkLex tokens index iterations line column)
              | Throw e => Throw e
              | TypeError => TypeError
              | OutOfFuel => OutOfFuel
              end
          | Throw e => Throw e
          | TypeError => TypeError
          | OutOfFuel => OutOfFuel
          end
        else
          Throw (mkError "unknown character" index line column
                         (previousHexOf tokens) None)
    end.

(** [while (index < source.length) { ... }] *)
Fixpoint lexLoop (fuel : nat) (st : LexState) : Res LexState :=
  match fuel with
  | 0 => OutOfFuel
  | S fuel' =>
      if lx_index st <? length source then
        match lexStep st with
        | Ok st' => lexLoop fuel' st'
        | Throw e => Throw e
        | TypeError => TypeError
        | OutOfFuel => OutOfFuel
        end
      else Ok st
  end.

Definition tokenizeFuel (fuel : nat) : Res (list Token) :=
  match lexLoop fuel (mkLex [] 0 0 1 1) with
  | Ok st =>
      push (lx_tokens st) (lx_index st) (lx_line st) (lx_column st)
           EndOfFile (lx_index st) (lx_index st)
  | Throw e => Throw e
  | TypeError => TypeError
  | OutOfFuel => OutOfFuel
  end.

End Tokenizer.

(** [tokenize] with a token cap of [cap]; the main loop is given one unit of
    fuel per code unit of the source, plus one for the final test. *)
Definition tokenizeWith (cap : Z) (source : jsstring) : Res (list Token) :=
  tokenizeFuel source cap (S (length source)).

Definition tokenize (source : jsstring) : Res (list Token) :=
  tokenizeWith MAX_TOKENS source.

(* ------------------------------------------------------------------ *)
(** ** 8. Utility: [strip] and [fromPercentW] *)

(** The four index loops of [strip]. Each runs while
    [startIndex < endIndex] (or a stricter bound), so it is written by
    recursion on [n = endIndex - startIndex], the room left between the two
    indices. *)

(** [while (startIndex + 1 < endIndex && raw[startIndex] === '>' &&
            raw[startIndex + 1] === '<') startIndex += 2;] *)
Fixpoint skipPairsStart (raw : jsstring) (n startIndex : nat) : nat :=
  match n with
  | S (S n') =>
      if code_eq (charCodeAt raw startIndex) (Some GREATER_THAN_CHARACTER) &&
         code_eq (charCodeAt raw (startIndex + 1)) (Some LESS_THAN_CHARACTER)
      then skipPairsStart raw n' (startIndex + 2)
      else startIndex
  | _ => startIndex
  end.

(** [while (endIndex - 2 > startIndex && raw[endIndex - 2] === '>' &&
            raw[endIndex - 1] === '<') endIndex -= 2;] *)
Fixpoint skipPairsEnd (raw : jsstring) (n endIndex : nat) : nat :=
  match n with
  | S (S (S _ as n')) =>
      if code_eq (charCodeAt raw (endIndex - 2)) (Some GREATER_THAN_CHARACTER) &&
         code_eq (charCodeAt raw (endIndex - 1)) (Some LESS_THAN_CHARACTER)
      then skipPairsEnd raw n' (endIndex - 2)
      else endIndex
  | _ => endIndex
  end.

(** [while (startIndex < endIndex && raw[startIndex] === d) startIndex++;] *)
Fixpoint skipStart (raw : jsstring) (d : option Z) (n startIndex : nat) : nat :=
  match n with
  | S n' =>
      if code_eq (charCodeAt raw startIndex) d
      then skipStart raw d n' (S startIndex)
      else startIndex
  | 0 => startIndex
  end.

(** [while (endIndex > startIndex && raw[endIndex - 1] === d) endIndex--;] *)
Fixpoint skipEnd (raw : jsstring) (d : option Z) (n endIndex : nat) : nat :=
  match n with
  | S n' =>
      if code_eq (charCodeAt raw (endIndex - 1)) d
      then skipEnd raw d n' (endIndex - 1)
      else endIndex
  | 0 => endIndex
  end.

Definition isQuote (c : option Z) : bool :=
  code_eq c (Some SINGLE_QUOTE_CHARACTER) ||
  code_eq c (Some DOUBLE_QUOTE_CHARACTER).

(** [while (content.length >= 2) { ... content = content.slice(1, -1) ... }];
    every round removes two code units, so [n = content.length] rounds are
    never all used. *)
Fixpoint unwrapQuotes (n : nat) (content : jsstring) : jsstring :=
  match n with
  | 0 => content
  | S n' =>
      if 2 <=? length content then
        let innerFirstChar := charCodeAt content 0 in
        let innerLastChar := charCodeAt content (length content - 1) in
        if isQuote innerFirstChar && code_eq innerFirstChar innerLastChar
        then unwrapQuotes n' (slice content 1 (length content - 1))
        else content
      else content
  end.

Definition tripleQuote : jsstring :=
  [SINGLE_QUOTE_CHARACTER; SINGLE_QUOTE_CHARACTER; SINGLE_QUOTE_CHARACTER].

Definition strip (raw : jsstring) : jsstring :=
  if startsWith raw (js "%q") || startsWith raw (js "%w") then
    let startIndex := 3 in
    let endIndex := length raw - 1 in
    let openDelim := charCodeAt raw 2 in
    let closeDelim := closingDelimiter openDelim in
    let '(startIndex, endIndex) :=
      if code_eq openDelim (Some LESS_THAN_CHARACTER) &&
         code_eq closeDelim (Some GREATER_THAN_CHARACTER) then
        let startIndex :=
          skipPairsStart raw (endIndex - startIndex) startIndex in
        let endIndex := skipPairsEnd raw (endIndex - startIndex) endIndex in
        let startIndex :=
          if (startIndex <? endIndex) &&
             code_eq (charCodeAt raw startIndex) (Some GREATER_THAN_CHARACTER)
          then S startIndex else startIndex in
        let endIndex :=
          if (startIndex <? endIndex) &&
             code_eq (charCodeAt raw (endIndex - 1)) (Some GREATER_THAN_CHARACTER)
          then endIndex - 1 else endIndex in
        (startIndex, endIndex)
      else
        let startIndex :=
          skipStart raw openDelim (endIndex - startIndex) startIndex in
        let endIndex :=
          skipEnd raw closeDelim (endIndex - startIndex) endIndex in
        (startIndex, endIndex) in
    let content := trim (slice raw startIndex endIndex) in
    if (6 <=? length content) && startsWith content tripleQuote &&
       endsWith content tripleQuote
    then slice content 3 (length content - 3)
    else content
  else
    let firstChar := charCodeAt raw 0 in
    if code_eq firstChar (Some COLON_CHARACTER) && (1 <? length raw) then
      let secondChar := charCodeAt raw 1 in
      if isQuote secondChar then slice raw 2 (length raw - 1)
      else slice raw 1 (length raw)
    else if isQuote firstChar then
      let quote := firstChar in
      let startIndex := 1 in
      let endIndex := length raw - 1 in
      let startIndex := skipStart raw quote (endIndex - startIndex) startIndex in
      let endIndex := skipEnd raw quote (endIndex - startIndex) endIndex in
      let content := slice raw startIndex endIndex in
      unwrapQuotes (length content) content
    else raw.

(** The [for] loop of [fromPercentW], by recursion on the part of
    [content] still to be read. *)
Fixpoint splitWords (content : jsstring) (items : list jsstring)
         (currentItem : jsstring) (inItem : bool) : list jsstring :=
  match content with
  | [] =>
      if inItem && negb (Nat.eqb (length currentItem) 0)
      then items ++ [currentItem] else items
  | char :: rest =>
      if ((char =? SPACE_CHARACTER) || (char =? CHARACTER_TAB) ||
          (char =? LINE_FEED))%Z then
        if inItem then splitWords rest (items ++ [currentItem]) [] false
        else splitWords rest items currentItem inItem
      else splitWords rest items (currentItem ++ [char]) true
  end.

Definition fromPercentW (raw : jsstring) : list jsstring :=
  if negb (startsWith raw (js "%w")) then [raw]
  else
    let startIndex := 3 in
    let endIndex := length raw - 1 in
    let content := trim (slice raw startIndex endIndex) in
    if Nat.eqb (length content) 0 then []
    else splitWords content [] [] false.

(** The inner loop of the version formatting in [parseDecl]:
    [while (j < v.length && (v[j] < '0' || v[j] > '9')) j++], where [rest]
    is [v] from [j] on. *)
Fixpoint firstDigit (rest : jsstring) (j : nat) : nat :=
  match rest with
  | [] => j
  | c :: rest' =>
      if ((c <? DIGIT_ZERO_CHARACTER) || (DIGIT_NINE_CHARACTER <? c))%Z
      then firstDigit rest' (S j) else j
  end.

Definition formatVersion (v : jsstring) : jsstring :=
  let j := firstDigit v 0 in
  if (0 <? j) && (j <? length v) &&
     negb (code_eq (charCodeAt v (j - 1)) (Some SPACE_CHARACTER))
  then slice v 0 j ++ [SPACE_CHARACTER] ++ slice v j (length v)
  else v.

(** [key.replace(/^:/, '')] *)
Definition dropLeadingColon (s : jsstring) : jsstring :=
  match s with
  | c :: s' => if (c =? COLON_CHARACTER)%Z then s' else s
  | [] => []
  end.

(* ------------------------------------------------------------------ *)
(** ** 5. AST *)

Record GemDeclaration := mkDecl {
  name : jsstring;
  versions : list jsstring;
  git : option jsstring;
  path : option jsstring;
  require : option bool;
  groups : option (list jsstring);
  platforms : list jsstring
}.

(** [ParseOutput]; [runtime] and [development] are the two arrays of its
    [groups] object. *)
Record ParseOutput := mkOutput {
  selfName : option jsstring;
  selfVersion : option jsstring;
  runtime : list GemDeclaration;
  development : list GemDeclaration
}.

(** [delete decl.groups] *)
Definition deleteGroups (d : GemDeclaration) : GemDeclaration :=
  mkDecl (name d) (versions d) (git d) (path d) (require d) None (platforms d).

(* ------------------------------------------------------------------ *)
(** ** 6. Parser *)

(** The mutable state of a parse: the two fields of the [Parser] object and
    the output record that [parse] creates and hands to every method. *)
Record PState := mkState {
  cursor : nat;
  depth : Z;
  out : ParseOutput
}.

Definition M (A : Type) : Type := PState -> Res (A * PState).

Definition ret {A} (a : A) : M A := fun s => Ok (a, s).

Definition bind {A B} (m : M A) (k : A -> M B) : M B :=
  fun s =>
    match m s with
    | Ok (a, s') => k a s'
    | Throw e => Throw e
    | TypeError => TypeError
    | OutOfFuel => OutOfFuel
    end.

Definition outOfFuel {A} : M A := fun _ => OutOfFuel.

Declare Scope parser_scope.
Delimit Scope parser_scope with parser.
Notation "x <- m ;; k" := (bind m (fun x => k))
  (at level 61, m at next level, right associativity) : parser_scope.
Notation "m ;;; k" := (bind m (fun _ => k))
  (at level 61, right associativity) : parser_scope.
Local Open Scope parser_scope.

Definition setCursor (c : nat) : M unit :=
  fun s => Ok (tt, mkState c (depth s) (out s)).

Definition getCursor : M nat := fun s => Ok (cursor s, s).

Definition setSelfName (v : jsstring) : M unit :=
  fun s =>
    let o := out s in
    Ok (tt, mkState (cursor s) (depth s)
                    (mkOutput (Some v) (selfVersion o) (runtime o) (development o))).

Definition setSelfVersion (v : jsstring) : M unit :=
  fun s =>
    let o := out s in
    Ok (tt, mkState (cursor s) (depth s)
                    (mkOutput (selfName o) (Some v) (runtime o) (development o))).

(** [(isDev ? out.groups.development : out.groups.runtime).push(decl)] *)
Definition appendDecl (isDev : bool) (decl : GemDeclaration)
           (o : ParseOutput) : ParseOutput :=
  if isDev
  then mkOutput (selfName o) (selfVersion o) (runtime o)
                (development o ++ [decl])
  else mkOutput (selfName o) (selfVersion o)
                (runtime o ++ [decl]) (development o).

Definition pushDecl (isDev : bool) (decl : GemDeclaration) : M unit :=
  fun s => Ok (tt, mkState (cursor s) (depth s) (appendDecl isDev decl (out s))).

(** The locals of [parseDecl] that its argument loop updates. *)
Record DeclArgs := mkArgs {
  a_versions : list jsstring;
  a_git : option jsstring;
  a_path : option jsstring;
  a_req : option bool;
  a_inlineGroups : list jsstring;
  a_inlinePlatforms : list jsstring
}.

(** [decl.groups && decl.groups.some((g) => g === 'development' ||
    g === 'test')] *)
Definition hasDevGroups (decl : GemDeclaration) : bool :=
  match groups decl with
  | Some gs =>
      existsb (fun g => jseq g (js "development") || jseq g (js "test")) gs
  | None => false
  end.

Definition depMethods : list jsstring :=
  [js "add_dependency"; js "add_runtime_dependency";
   js "add_development_dependency"; js "dependency"].

Section Parser.

Variable tokens : list Token.

(** [this.tokens[this.cursor]], dereferenced. *)
Definition peek : M Token :=
  fun s =>
    match nth_error tokens (cursor s) with
    | Some t => Ok (t, s)
    | None => TypeError
    end.

Definition peekKind : M TokenKind := t <- peek ;; ret (kind t).
Definition peekText : M jsstring := t <- peek ;; ret (text t).

(** [this.tokens[this.cursor++]]. Every caller either reads a field of
    the result at once or has just peeked at the same position, so a
    missing token surfaces as the [TypeError] of that read. *)
Definition advance : M Token :=
  t <- peek ;; c <- getCursor ;; setCursor (S c) ;;; ret t.

Definition throwError {A} (msg : string) : M A :=
  fun s =>
    match cursor s with
    | 0 => TypeError
    | S c =>
        match nth_error tokens c with
        | None => TypeError
        | Some p =>
            Throw (mkError msg (end_ p) (line p) (column p)
                           (match charCodeAt (text p) 0 with
                            | Some c => toString16 c
                            | None => "NaN"%string
                            end) None)
        end
    end.

Definition match_ (k : TokenKind) : M bool :=
  k' <- peekKind ;;
  if TokenKind_eqb k' k then advance ;;; ret true else ret false.

Definition matchWord (word : jsstring) : M bool :=
  k <- peekKind ;;
  if TokenKind_eqb k Identifier then
    t <- peekText ;;
    if jseq t word then advance ;;; ret true else ret false
  else ret false.

Definition matchSymbol (sym : jsstring) : M bool :=
  t <- peekText ;;
  if jseq t sym then advance ;;; ret true else ret false.

(** [a || b] and [a && b] on method calls. *)
Definition orM (a b : M bool) : M bool :=
  x <- a ;; if x then ret true else b.
Definition andM (a b : M bool) : M bool :=
  x <- a ;; if x then b else ret false.

(** ** helpers *)

Definition enter : M unit :=
  fun s =>
    let d := (depth s + 1)%Z in
    let s' := mkState (cursor s) d (out s) in
    if (MAX_BLOCK_DEPTH <? d)%Z
    then throwError "nesting too deep" s'
    else Ok (tt, s').

Definition leave : M unit :=
  fun s => Ok (tt, mkState (cursor s) (depth s - 1)%Z (out s)).

Definition looksSpecNew : M bool :=
  start <- getCursor ;;
  ok <- andM (orM (matchWord (js "Gem")) (matchWord (js "Pod")))
       (andM (match_ Colon)
       (andM (match_ Colon)
       (andM (orM (matchWord (js "Specification")) (matchWord (js "Spec")))
       (andM (match_ Dot)
             (matchWord (js "new")))))) ;;
  if ok then ret true else setCursor start ;;; ret false.

(** [while (peekKind() !== NewLine && peekKind() !== EndOfFile) advance()] *)
Fixpoint skipToEol (fuel : nat) : M unit :=
  match fuel with
  | 0 => outOfFuel
  | S fuel' =>
      k <- peekKind ;;
      if negb (TokenKind_eqb k NewLine) && negb (TokenKind_eqb k EndOfFile)
      then advance ;;; skipToEol fuel'
      else ret tt
  end.

Definition skipLine (fuel : nat) : M unit :=
  b <- match_ If ;;
  (if b then skipToEol fuel else ret tt) ;;;
  skipToEol fuel ;;;
  match_ NewLine ;;;
  ret tt.

(** The loop of [skipBlock]; [depth] is its local counter. *)
Fixpoint skipBlockLoop (fuel : nat) (depth : nat) : M unit :=
  match fuel with
  | 0 => outOfFuel
  | S fuel' =>
      if Nat.eqb depth 0 then ret tt
      else
        k <- peekKind ;;
        if TokenKind_eqb k EndOfFile then ret tt
        else
          opened <- orM (match_ Do) (match_ LeftParen) ;;
          if opened then skipBlockLoop fuel' (S depth)
          else
            closed <- orM (match_ End_) (match_ RightParen) ;;
            if closed then skipBlockLoop fuel' (depth - 1)
            else advance ;;; skipBlockLoop fuel' depth
  end.

Definition skipBlock (fuel : nat) : M unit := skipBlockLoop fuel 1.

Fixpoint labelsLoop (fuel : nat) (arr : list jsstring) : M (list jsstring) :=
  match fuel with
  | 0 => outOfFuel
  | S fuel' =>
      k <- peekKind ;;
      if TokenKind_eqb k Symbol || TokenKind_eqb k String_ then
        t <- advance ;;
        let arr := arr ++ [strip (text t)] in
        b <- match_ Comma ;;
        if b then labelsLoop fuel' arr else ret arr
      else if TokenKind_eqb k Identifier then
        t <- advance ;;
        let arr := arr ++ [text t] in
        b <- match_ Comma ;;
        if b then labelsLoop fuel' arr else ret arr
      else ret arr
  end.

Definition labels (fuel : nat) : M (list jsstring) := labelsLoop fuel [].

(** ** gem/pod line *)

(** [while (peekKind() === k) { arr.push(conv(advance().text));
      if (!match(Comma)) break; }], the loop that reads a bracketed list of
    versions ([k = String], [conv = strip] then [trim]) or of platforms
    ([k = Symbol], [conv = strip]). *)
Fixpoint listItems (fuel : nat) (k : TokenKind) (conv : jsstring -> jsstring)
         (arr : list jsstring) : M (list jsstring) :=
  match fuel with
  | 0 => outOfFuel
  | S fuel' =>
      k' <- peekKind ;;
      if TokenKind_eqb k' k then
        t <- advance ;;
        let arr := arr ++ [conv (text t)] in
        b <- match_ Comma ;;
        if b then listItems fuel' k conv arr else ret arr
      else ret arr
  end.

(** What follows [key =>] or [key:] in the argument loop. *)
Definition declValue (fuel : nat) (key : jsstring) (a : DeclArgs)
  : M DeclArgs :=
  if jseq key (js "group") then
    k <- peekKind ;;
    if TokenKind_eqb k Identifier then
      t <- advance ;;
      ret (mkArgs (a_versions a) (a_git a) (a_path a) (a_req a)
                  (a_inlineGroups a ++ [text t]) (a_inlinePlatforms a))
    else if TokenKind_eqb k Symbol then
      t <- advance ;;
      ret (mkArgs (a_versions a) (a_git a) (a_path a) (a_req a)
                  (a_inlineGroups a ++ [strip (text t)]) (a_inlinePlatforms a))
    else ret a
  else if jseq key (js "platforms") then
    b <- match_ LeftBracket ;;
    if b then
      pls <- listItems fuel Symbol strip (a_inlinePlatforms a) ;;
      match_ RightBracket ;;;
      ret (mkArgs (a_versions a) (a_git a) (a_path a) (a_req a)
                  (a_inlineGroups a) pls)
    else ret a
  else
    t <- advance ;;
    let val := strip (text t) in
    if jseq key (js "git") || jseq key (js "github") then
      ret (mkArgs (a_versions a) (Some val) (a_path a) (a_req a)
                  (a_inlineGroups a) (a_inlinePlatforms a))
    else if jseq key (js "path") then
      ret (mkArgs (a_versions a) (a_git a) (Some val) (a_req a)
                  (a_inlineGroups a) (a_inlinePlatforms a))
    else if jseq key (js "require") then
      ret (mkArgs (a_versions a) (a_git a) (a_path a)
                  (Some (negb (jseq val (js "false"))))
                  (a_inlineGroups a) (a_inlinePlatforms a))
    else ret a.

(** The body of the argument loop of [parseDecl], entered after a comma
    was matched. The boolean is [false] where the source says [break]. *)
Definition declArg (fuel : nat) (a : DeclArgs) : M (bool * DeclArgs) :=
  k <- peekKind ;;
  if TokenKind_eqb k String_ then
    t <- advance ;;
    let lit := text t in
    ret (true,
         mkArgs (a_versions a ++
                   (if startsWith lit (js "%w") then fromPercentW lit
                    else [trim (strip lit)]))
                (a_git a) (a_path a) (a_req a)
                (a_inlineGroups a) (a_inlinePlatforms a))
  else
    b <- match_ LeftBracket ;;
    if b then
      vs <- listItems fuel String_ (fun s => trim (strip s)) (a_versions a) ;;
      match_ RightBracket ;;;
      ret (true, mkArgs vs (a_git a) (a_path a) (a_req a)
                        (a_inlineGroups a) (a_inlinePlatforms a))
    else
      k <- peekKind ;;
      key <- (if TokenKind_eqb k Symbol then
                t <- advance ;; ret (Some (dropLeadingColon (strip (text t))))
              else if TokenKind_eqb k Identifier then
                t <- advance ;; ret (Some (text t))
              else ret None) ;;
      match key with
      | None => ret (false, a)
      | Some key =>
          sep <- orM (match_ Equals) (match_ Colon) ;;
          if negb sep then ret (false, a)
          else a' <- declValue fuel key a ;; ret (true, a')
      end.

(** [while (this.match(TokenKind.Comma)) { ... }] *)
Fixpoint declArgs (fuel : nat) (a : DeclArgs) : M DeclArgs :=
  match fuel with
  | 0 => outOfFuel
  | S fuel' =>
      b <- match_ Comma ;;
      if b then
        r <- declArg fuel' a ;;
        if fst r then declArgs fuel' (snd r) else ret (snd r)
      else ret a
  end.

Definition parseDecl (fuel : nat) (groups platforms : list jsstring)
  : M GemDeclaration :=
  hasParens <- match_ LeftParen ;;
  nameTok <- advance ;;
  (if negb (TokenKind_eqb (kind nameTok) String_) &&
      negb (TokenKind_eqb (kind nameTok) Symbol) &&
      negb (TokenKind_eqb (kind nameTok) Identifier)
   then throwError "name literal expected" else ret tt) ;;;
  let name := if TokenKind_eqb (kind nameTok) Identifier
              then text nameTok else strip (text nameTok) in
  andM (match_ Dot) (matchWord (js "freeze")) ;;;
  a <- declArgs fuel (mkArgs [] None None None [] []) ;;
  (if hasParens then match_ RightParen else ret false) ;;;
  let versions := map formatVersion (a_versions a) in
  let allGroups := groups ++ a_inlineGroups a in
  let allPlatforms := platforms ++ a_inlinePlatforms a in
  ret (mkDecl name versions (a_git a) (a_path a) (a_req a)
              (Some allGroups) allPlatforms).

(** ** Gem::Specification / Pod::Spec *)

Definition parseSpecStatement (fuel : nat) (blockVar : option jsstring)
  : M unit :=
  k <- peekKind ;;
  isVar <- (if TokenKind_eqb k Identifier then
              match blockVar with
              | None | Some [] => ret true
              | Some b => t <- peekText ;; ret (jseq t b)
              end
            else ret false) ;;
  if isVar then
    advance ;;;
    dot <- match_ Dot ;;
    if negb dot then skipLine fuel
    else
      method <- advance ;;
      if negb (TokenKind_eqb (kind method) Identifier) then skipLine fuel
      else
        assign <- andM (match_ Equals)
                       (k <- peekKind ;; ret (TokenKind_eqb k String_)) ;;
        if assign then
          t <- advance ;;
          let lit := strip (text t) in
          (if jseq (text method) (js "name") then setSelfName lit
           else if jseq (text method) (js "version") then setSelfVersion lit
           else ret tt) ;;;
          skipLine fuel
        else if jseq (text method) (js "send") then
          match_ LeftParen ;;;
          k <- peekKind ;;
          (if TokenKind_eqb k Symbol then
             t <- advance ;;
             let sym := dropLeadingColon (strip (text t)) in
             if includes sym (js "dependency") then
               let isDev := includes sym (js "development") in
               match_ Comma ;;;
               decl <- parseDecl fuel [] [] ;;
               pushDecl isDev decl
             else ret tt
           else ret tt) ;;;
          skipLine fuel
        else if existsb (jseq (text method)) depMethods then
          let isDev := includes (text method) (js "development") in
          decl <- parseDecl fuel [] [] ;;
          let decl := if jseq (text method) (js "dependency")
                      then deleteGroups decl else decl in
          pushDecl isDev decl ;;;
          skipLine fuel
        else skipLine fuel
  else skipLine fuel.

(** [while (peekKind() !== EndOfFile && peekKind() !== Else &&
           peekKind() !== End) parseSpecStatement(out, blockVar)] *)
Fixpoint specBranch (fuel : nat) (blockVar : option jsstring) : M unit :=
  match fuel with
  | 0 => outOfFuel
  | S fuel' =>
      k <- peekKind ;;
      if negb (TokenKind_eqb k EndOfFile) && negb (TokenKind_eqb k Else) &&
         negb (TokenKind_eqb k End_)
      then parseSpecStatement fuel' blockVar ;;; specBranch fuel' blockVar
      else ret tt
  end.

(** [while (peekKind() !== EndOfFile && peekKind() !== End) advance()] *)
Fixpoint skipToEnd (fuel : nat) : M unit :=
  match fuel with
  | 0 => outOfFuel
  | S fuel' =>
      k <- peekKind ;;
      if negb (TokenKind_eqb k EndOfFile) && negb (TokenKind_eqb k End_)
      then advance ;;; skipToEnd fuel'
      else ret tt
  end.

(** The main loop of [parseSpec]. *)
Fixpoint specLoop (fuel : nat) (blockVar : option jsstring) : M unit :=
  match fuel with
  | 0 => outOfFuel
  | S fuel' =>
      k <- peekKind ;;
      if TokenKind_eqb k EndOfFile then ret tt
      else
        e <- match_ End_ ;;
        if e then ret tt
        else
          i <- match_ If ;;
          if i then
            skipToEol fuel' ;;;
            match_ NewLine ;;;
            specBranch fuel' blockVar ;;;
            el <- match_ Else ;;
            (if el then skipToEnd fuel' ;;; match_ End_
             else match_ End_) ;;;
            specLoop fuel' blockVar
          else
            parseSpecStatement fuel' blockVar ;;;
            specLoop fuel' blockVar
  end.

Definition parseSpec (fuel : nat) : M unit :=
  k <- peekKind ;;
  (if TokenKind_eqb k String_
   then t <- advance ;; setSelfName (strip (text t))
   else ret tt) ;;;
  d <- match_ Do ;;
  blockVar <-
    (if d then
       bar <- matchSymbol (js "|") ;;
       bv <- (if bar then
                k <- peekKind ;;
                bv <- (if TokenKind_eqb k Identifier
                       then t <- advance ;; ret (Some (text t))
                       else ret None) ;;
                matchSymbol (js "|") ;;;
                ret bv
              else ret None) ;;
       enter ;;;
       ret bv
     else ret None) ;;
  specLoop fuel blockVar ;;;
  fun s => if Z.eqb (depth s) 0 then Ok (tt, s) else leave s.

(** ** dispatcher *)

Fixpoint statement (fuel : nat) (groups platforms : list jsstring)
  : M unit :=
  match fuel with
  | 0 => outOfFuel
  | S fuel' =>
      isGem <- orM (matchWord (js "gem")) (matchWord (js "pod")) ;;
      if isGem then
        decl <- parseDecl fuel' groups platforms ;;
        let hasDevGroups := hasDevGroups decl in
        let decl := if hasDevGroups then deleteGroups decl else decl in
        k <- peekKind ;;
        let hasTrailingConditional := TokenKind_eqb k If in
        decl <- (if hasTrailingConditional then
                   advance ;;; skipToEol fuel' ;;; ret (deleteGroups decl)
                 else ret decl) ;;
        pushDecl hasDevGroups decl ;;;
        skipLine fuel'
      else
        isGroup <- orM (matchWord (js "group")) (matchWord (js "target")) ;;
        if isGroup then
          newGroups <- labels fuel' ;;
          d <- match_ Do ;;
          if d then enter ;;; block fuel' newGroups platforms ;;; leave
          else ret tt
        else
          isPlatforms <- matchWord (js "platforms") ;;
          if isPlatforms then
            pls <- labels fuel' ;;
            d <- match_ Do ;;
            if d then enter ;;; block fuel' groups pls ;;; leave
            else ret tt
          else
            isSource <- matchWord (js "source") ;;
            if isSource then skipLine fuel'
            else
              isSpec <- looksSpecNew ;;
              if isSpec then parseSpec fuel'
              else
                b <- orM (match_ Do) (match_ LeftParen) ;;
                if b then skipBlock fuel'
                else skipLine fuel'
  end
(** [while (!this.match(TokenKind.End)) this.statement(out, groups,
    platforms)] *)
with block (fuel : nat) (groups platforms : list jsstring) : M unit :=
  match fuel with
  | 0 => outOfFuel
  | S fuel' =>
      e <- match_ End_ ;;
      if e then ret tt
      else statement fuel' groups platforms ;;; block fuel' groups platforms
  end.

(** [while (peekKind() !== EndOfFile) statement(out, [], [])] *)
Fixpoint parseLoop (fuel : nat) : M unit :=
  match fuel with
  | 0 => outOfFuel
  | S fuel' =>
      k <- peekKind ;;
      if TokenKind_eqb k EndOfFile then ret tt
      else statement fuel' [] [] ;;; parseLoop fuel'
  end.

Definition parse (fuel : nat) : Res ParseOutput :=
  match parseLoop fuel (mkState 0 0 (mkOutput None None [] [])) with
  | Ok (_, s) => Ok (out s)
  | Throw e => Throw e
  | TypeError => TypeError
  | OutOfFuel => OutOfFuel
  end.

End Parser.

(** ** 7. Public API *)

Definition parseRubyDsl (fuel : nat) (source : jsstring) : Res ParseOutput :=
  match tokenize source with
  | Ok tokens => parse tokens fuel
  | Throw e => Throw e
  | TypeError => TypeError
  | OutOfFuel => OutOfFuel
  end.

(* ================================================================== *)
(** * Vocabulary of the properties *)

(** ** Predicates *)

(** Two of the messages a [RubyDslError] carries. *)
Definition quotaMessage : string := "token quota exceeded".
Definition runawayMessage : string := "runaway lexer".

(** What one iteration does to the loop variables. *)
Definition stepPost (source : jsstring) (max_tokens : Z)
           (st : LexState) (r : Res LexState) : Prop :=
  match r with
  | Ok st' =>
      lx_index st < lx_index st' /\
      lx_iterations st' = S (lx_iterations st) /\
      (lx_tokens st' = lx_tokens st \/
       exists t, lx_tokens st' = lx_tokens st ++ [t] /\
                 lx_index st <= start t /\ start t <= end_ t /\
                 end_ t <= lx_index st' /\
                 (Z.of_nat (length (lx_tokens st)) < max_tokens)%Z /\
                 text t <> [])
  | Throw e =>
      message e = runawayMessage ->
      length source * MAX_ITERATIONS < S (lx_iterations st)
  | TypeError => False
  | OutOfFuel => False
  end.

(** The invariant of the main loop: the iteration counter trails the
    index, every token lies wholly before the index, and the tokens are
    in order of their start offsets. *)
Definition lexInv (source : jsstring) (st : LexState) : Prop :=
  lx_iterations st <= lx_index st /\
  lx_iterations st <= length source /\
  Forall (fun t => start t <= end_ t /\ end_ t <= lx_index st)
         (lx_tokens st) /\
  StronglySorted le (map start (lx_tokens st)).

(** How the replay of one iteration under [k] relates to the observed
    one: identical while no token is pushed or the cap [k] has room, a
    quota error as soon as a token is pushed without room. *)
Definition capPost (k : Z) (st : LexState) (rm rk : Res LexState) : Prop :=
  match rm with
  | Ok st' =>
      (length (lx_tokens st') = length (lx_tokens st) /\ rk = Ok st') \/
      (length (lx_tokens st') = S (length (lx_tokens st)) /\
       if (k <=? Z.of_nat (length (lx_tokens st)))%Z
       then exists e, rk = Throw e /\ message e = quotaMessage
       else rk = Ok st')
  | _ => True
  end.

(** An input that needs more than 40 000 tokens: a run of commas, one
    token each. *)
Definition commas (n : nat) : jsstring := repeat COMMA_CHARACTER n.

(** [post m s Q]: if [m] returns from state [s], its result and final state
    satisfy [Q]. *)
Definition post {A} (m : M A) (s : PState) (Q : A -> PState -> Prop) : Prop :=
  match m s with
  | Ok (a, s') => Q a s'
  | _ => True
  end.

(** [pureOut m]: [m] never touches the output record. *)
Definition pureOut {A} (m : M A) : Prop :=
  forall s, post m s (fun _ s' => out s' = out s).

(** The state [s] with its cursor moved one token on. *)
Definition stepped (s : PState) : PState :=
  mkState (S (cursor s)) (depth s) (out s).

(** A group label that makes a declaration a development dependency. *)
Definition isDevelopmentGroup (g : jsstring) : Prop :=
  g = js "development" \/ g = js "test".

(** A string [strip] has nothing to remove from: it does not start with
    [%q] or [%w], nor with a quote, nor with a colon followed by more. *)
Definition isBare (s : jsstring) : bool :=
  negb (startsWith s (js "%q") || startsWith s (js "%w")) &&
  negb (code_eq (charCodeAt s 0) (Some COLON_CHARACTER) && (1 <? length s)) &&
  negb (isQuote (charCodeAt s 0)).

(** [resultSat phi m]: what [m] returns satisfies [phi]. *)
Definition resultSat {A} (phi : A -> Prop) (m : M A) : Prop :=
  forall s, post m s (fun a _ => phi a).

(** [refines x y]: wherever [x] does not run out of fuel, [y] agrees. *)
Definition refines {A} (x y : M A) : Prop :=
  forall s, x s <> OutOfFuel -> y s = x s.

(** ** What the token array spells *)

(** [hasKind k t]: the token [t] is of kind [k]. *)
Definition hasKind (k : TokenKind) (t : Token) : bool :=
  TokenKind_eqb (kind t) k.

(** The tokens that can stand for a name or a label, for the value of a
    [group] key, and for the separator between a key and its value. *)
Definition isLabel (t : Token) : bool :=
  hasKind Symbol t || hasKind String_ t || hasKind Identifier t.

Definition isGroupValue (t : Token) : bool :=
  hasKind Identifier t || hasKind Symbol t.

Definition isSeparator (t : Token) : bool :=
  hasKind Equals t || hasKind Colon t.

(** The string a name or label token stands for: an identifier is taken
    as it is, a string or a symbol is stripped. *)
Definition labelText (t : Token) : jsstring :=
  if hasKind Identifier t then text t else strip (text t).

(** The key a token spells: a symbol without its colon, or an
    identifier. *)
Definition keyOf (t : Token) : option jsstring :=
  if hasKind Symbol t then Some (dropLeadingColon (strip (text t)))
  else if hasKind Identifier t then Some (text t)
  else None.

(** An optional token of kind [k] at position [c]: [c'] is past it if it
    is there, and [c] if another token is. *)
Definition optionalAt (tokens : list Token) (k : TokenKind) (c c' : nat)
  : Prop :=
  exists t, nth_error tokens c = Some t /\
            c' = if hasKind k t then S c else c.

(** [commaList tokens isItem c ts c']: from position [c] the tokens
    spell the items [ts] separated by commas, and [c'] is where the list
    ends: on a token that is no item, at the start or after a comma, or
    after an item that no comma follows. *)
Inductive commaList (tokens : list Token) (isItem : Token -> bool)
  : nat -> list Token -> nat -> Prop :=
| cl_none c t :
    nth_error tokens c = Some t -> isItem t = false ->
    commaList tokens isItem c [] c
| cl_last c t t' :
    nth_error tokens c = Some t -> isItem t = true ->
    nth_error tokens (S c) = Some t' -> hasKind Comma t' = false ->
    commaList tokens isItem c [t] (S c)
| cl_more c t t' ts c' :
    nth_error tokens c = Some t -> isItem t = true ->
    nth_error tokens (S c) = Some t' -> hasKind Comma t' = true ->
    commaList tokens isItem (S (S c)) ts c' ->
    commaList tokens isItem c (t :: ts) c'.

(** One argument of a declaration. *)
Inductive Argument :=
| Version (lit : Token)
| VersionList (lits : list Token)
| Group (value : option Token)
| Platforms (values : list Token)
| Pair (key : jsstring) (value : Token).

(** [argument tokens c a c']: from position [c], just after a comma, the
    tokens spell the argument [a], which ends before [c']. *)
Inductive argument (tokens : list Token) : nat -> Argument -> nat -> Prop :=
| arg_version c t :
    nth_error tokens c = Some t -> hasKind String_ t = true ->
    argument tokens c (Version t) (S c)
| arg_versionList c t ts c1 c' :
    nth_error tokens c = Some t -> hasKind LeftBracket t = true ->
    commaList tokens (hasKind String_) (S c) ts c1 ->
    optionalAt tokens RightBracket c1 c' ->
    argument tokens c (VersionList ts) c'
| arg_group c t sep v :
    nth_error tokens c = Some t -> keyOf t = Some (js "group") ->
    nth_error tokens (S c) = Some sep -> isSeparator sep = true ->
    nth_error tokens (S (S c)) = Some v -> isGroupValue v = true ->
    argument tokens c (Group (Some v)) (S (S (S c)))
| arg_group_none c t sep v :
    nth_error tokens c = Some t -> keyOf t = Some (js "group") ->
    nth_error tokens (S c) = Some sep -> isSeparator sep = true ->
    nth_error tokens (S (S c)) = Some v -> isGroupValue v = false ->
    argument tokens c (Group None) (S (S c))
| arg_platforms c t sep b ts c1 c' :
    nth_error tokens c = Some t -> keyOf t = Some (js "platforms") ->
    nth_error tokens (S c) = Some sep -> isSeparator sep = true ->
    nth_error tokens (S (S c)) = Some b -> hasKind LeftBracket b = true ->
    commaList tokens (hasKind Symbol) (S (S (S c))) ts c1 ->
    optionalAt tokens RightBracket c1 c' ->
    argument tokens c (Platforms ts) c'
| arg_platforms_none c t sep b :
    nth_error tokens c = Some t -> keyOf t = Some (js "platforms") ->
    nth_error tokens (S c) = Some sep -> isSeparator sep = true ->
    nth_error tokens (S (S c)) = Some b -> hasKind LeftBracket b = false ->
    argument tokens c (Platforms []) (S (S c))
| arg_pair c t key sep v :
    nth_error tokens c = Some t -> keyOf t = Some key ->
    jseq key (js "group") = false -> jseq key (js "platforms") = false ->
    nth_error tokens (S c) = Some sep -> isSeparator sep = true ->
    nth_error tokens (S (S c)) = Some v ->
    argument tokens c (Pair key v) (S (S (S c))).

(** [strayAt tokens c c']: what stands at [c], just after a comma, is no
    argument: a token that is neither a string, an opening bracket nor a
    key, or a key that no separator follows; [c'] is past the key. *)
Definition strayAt (tokens : list Token) (c c' : nat) : Prop :=
  exists t,
    nth_error tokens c = Some t /\
    hasKind String_ t = false /\ hasKind LeftBracket t = false /\
    ((keyOf t = None /\ c' = c) \/
     (keyOf t <> None /\
      exists sep, nth_error tokens (S c) = Some sep /\
                  isSeparator sep = false /\ c' = S c)).

(** [arguments tokens c args c']: from position [c] the tokens spell the
    arguments [args], each after a comma; the list ends at [c'], on a
    token that is no comma or past a comma that no argument follows. *)
Inductive arguments (tokens : list Token)
  : nat -> list Argument -> nat -> Prop :=
| args_end c t :
    nth_error tokens c = Some t -> hasKind Comma t = false ->
    arguments tokens c [] c
| args_stray c t c' :
    nth_error tokens c = Some t -> hasKind Comma t = true ->
    strayAt tokens (S c) c' ->
    arguments tokens c [] c'
| args_cons c t a c1 args c' :
    nth_error tokens c = Some t -> hasKind Comma t = true ->
    argument tokens (S c) a c1 ->
    arguments tokens c1 args c' ->
    arguments tokens c (a :: args) c'.

(** An optional [.freeze] at position [c]; the dot is passed even when
    another word follows it. *)
Definition freezeAt (tokens : list Token) (c c' : nat) : Prop :=
  exists t,
    nth_error tokens c = Some t /\
    ((hasKind Dot t = false /\ c' = c) \/
     (hasKind Dot t = true /\
      exists t', nth_error tokens (S c) = Some t' /\
                 c' = if hasKind Identifier t' && jseq (text t') (js "freeze")
                      then S (S c) else S c)).

(** [declaration tokens c nameTok args c']: from position [c] the tokens
    spell a declaration: an optional opening parenthesis, the name token,
    an optional [.freeze], the arguments and, if the parenthesis was
    opened, an optional closing one. *)
Inductive declaration (tokens : list Token)
  : nat -> Token -> list Argument -> nat -> Prop :=
| decl_plain c nameTok c1 args c' :
    nth_error tokens c = Some nameTok -> isLabel nameTok = true ->
    freezeAt tokens (S c) c1 ->
    arguments tokens c1 args c' ->
    declaration tokens c nameTok args c'
| decl_parens c p nameTok c1 args c2 c' :
    nth_error tokens c = Some p -> hasKind LeftParen p = true ->
    nth_error tokens (S c) = Some nameTok -> isLabel nameTok = true ->
    freezeAt tokens (S (S c)) c1 ->
    arguments tokens c1 args c2 ->
    optionalAt tokens RightParen c2 c' ->
    declaration tokens c nameTok args c'.

(** What the arguments say. *)
Definition versionsOf (a : Argument) : list jsstring :=
  match a with
  | Version t =>
      if startsWith (text t) (js "%w") then fromPercentW (text t)
      else [trim (strip (text t))]
  | VersionList ts => map (fun t => trim (strip (text t))) ts
  | _ => []
  end.

Definition groupsOf (a : Argument) : list jsstring :=
  match a with
  | Group (Some v) => [labelText v]
  | _ => []
  end.

Definition platformsOf (a : Argument) : list jsstring :=
  match a with
  | Platforms ts => map (fun t => strip (text t)) ts
  | _ => []
  end.

(** The value token of the last pair whose key is one of [keys]. *)
Fixpoint lastValue (keys : list jsstring) (args : list Argument)
  : option Token :=
  match args with
  | [] => None
  | a :: rest =>
      match lastValue keys rest with
      | Some v => Some v
      | None =>
          match a with
          | Pair key v => if existsb (jseq key) keys then Some v else None
          | _ => None
          end
      end
  end.

Definition gitOf (args : list Argument) : option jsstring :=
  option_map (fun v => strip (text v))
             (lastValue [js "git"; js "github"] args).

Definition pathOf (args : list Argument) : option jsstring :=
  option_map (fun v => strip (text v)) (lastValue [js "path"] args).

Definition requireOf (args : list Argument) : option bool :=
  option_map (fun v => negb (jseq (strip (text v)) (js "false")))
             (lastValue [js "require"] args).

(** The declaration that a name token and arguments spell, within blocks
    that give it the groups [groups] and the platforms [platforms]. *)
Definition declared (groups platforms : list jsstring) (nameTok : Token)
           (args : list Argument) : GemDeclaration :=
  mkDecl (labelText nameTok)
         (map formatVersion (flat_map versionsOf args))
         (gitOf args) (pathOf args) (requireOf args)
         (Some (groups ++ flat_map groupsOf args))
         (platforms ++ flat_map platformsOf args).

(** The locals of the argument loop after the arguments [args]. *)
Definition readInto (a : DeclArgs) (args : list Argument) : DeclArgs :=
  mkArgs (a_versions a ++ flat_map versionsOf args)
         (match gitOf args with Some v => Some v | None => a_git a end)
         (match pathOf args with Some v => Some v | None => a_path a end)
         (match requireOf args with Some b => Some b | None => a_req a end)
         (a_inlineGroups a ++ flat_map groupsOf args)
         (a_inlinePlatforms a ++ flat_map platformsOf args).

(** [s'] differs from [s] by its cursor at most. *)
Definition cursorOnly (s s' : PState) : Prop :=
  depth s' = depth s /\ out s' = out s.

(** [declSite tokens c]: [c] is a position at which the parser reads a
    declaration: past the word [gem] or [pod], past one of the dependency
    methods of a gemspec and the [=] that may follow it, or past the
    symbol argument of [send] that names such a method and the comma that
    may follow it. *)
Inductive declSite (tokens : list Token) : nat -> Prop :=
| site_gem p t :
    nth_error tokens p = Some t -> kind t = Identifier ->
    text t = js "gem" \/ text t = js "pod" ->
    declSite tokens (S p)
| site_method p t :
    nth_error tokens p = Some t -> kind t = Identifier ->
    existsb (jseq (text t)) depMethods = true ->
    declSite tokens (S p)
| site_method_equals p t e :
    nth_error tokens p = Some t -> kind t = Identifier ->
    existsb (jseq (text t)) depMethods = true ->
    nth_error tokens (S p) = Some e -> kind e = Equals ->
    declSite tokens (S (S p))
| site_send p t :
    nth_error tokens p = Some t -> kind t = Symbol ->
    includes (dropLeadingColon (strip (text t))) (js "dependency") = true ->
    declSite tokens (S p)
| site_send_comma p t e :
    nth_error tokens p = Some t -> kind t = Symbol ->
    includes (dropLeadingColon (strip (text t))) (js "dependency") = true ->
    nth_error tokens (S p) = Some e -> kind e = Comma ->
    declSite tokens (S (S p)).

(** [d] is named after its own name token: the name token of a
    declaration that the tokens spell at a position where the parser
    reads one. *)
Definition nameSource (tokens : list Token) (d : GemDeclaration) : Prop :=
  exists c nameTok args c',
    declSite tokens c /\
    declaration tokens c nameTok args c' /\
    name d = labelText nameTok.

(** Every declaration of [o] is named after its own name token. *)
Definition outNamed (tokens : list Token) (o : ParseOutput) : Prop :=
  Forall (nameSource tokens) (runtime o) /\
  Forall (nameSource tokens) (development o).

(** [keepsNames tokens m]: [m] keeps every declaration of the output named
    after its own name token. *)
Definition keepsNames {A} (tokens : list Token) (m : M A) : Prop :=
  forall s, outNamed tokens (out s) ->
            post m s (fun _ s' => outNamed tokens (out s')).

(** ** Inputs used as examples *)

(** The tokens of [gem 'a'], listed. *)
Definition gemLineTokens : list Token :=
  [mkToken Identifier (js "gem") 0 3 1 4;
   mkToken String_ (js "'a'") 4 7 1 7;
   mkToken EndOfFile [] 7 7 1 8].

(** The tokens of [gem 'a', group: test] followed by a line break. *)
Definition devLineTokens : list Token :=
  Eval vm_compute in
    match tokenize (js "gem 'a', group: test
") with
    | Ok l => l
    | _ => []
    end.

(** The tokens of [gem 'a', group: test if x], a line break and [gem 'b']. *)
Definition conditionalLineTokens : list Token :=
  Eval vm_compute in
    match tokenize (js "gem 'a', group: test if x
gem 'b'") with
    | Ok l => l
    | _ => []
    end.

(** Scenario 3 of the specification. *)
Definition gemspecWordArray : jsstring :=
  js "Gem::Specification.new do |s|
  s.add_runtime_dependency 'foo', %w[~>1.0 >=1.5]
end".

(** A [require] key whose value is the bare identifier [false]. *)
Definition requireBareFalse : jsstring := js "gem 'unicorn', require: false".

(** The tokens of [gem 'a', require: false, require: true]. *)
Definition requireTwiceTokens : list Token :=
  Eval vm_compute in
    match tokenize (js "gem 'a', require: false, require: true") with
    | Ok l => l
    | _ => []
    end.

(** The tokens of a [group] block with one declaration. *)
Definition devBlockTokens : list Token :=
  Eval vm_compute in
    match tokenize (js "group :test do
gem 'b'
end") with
    | Ok l => l
    | _ => []
    end.

(** A [group] block that is never closed, and its tokens. *)
Definition unclosedGroup : jsstring := js "group :x do".

Definition unclosedGroupTokens : list Token :=
  [mkToken Identifier (js "group") 0 5 1 6;
   mkToken Symbol (js ":x") 6 8 1 9;
   mkToken Do (js "do") 9 11 1 12;
   mkToken EndOfFile [] 11 11 1 12].

(** ** Vocabulary of the further properties *)

(** [x] is a contiguous part of [s]. *)
Definition substringOf (x s : jsstring) : Prop :=
  exists a b, a <= b /\ b <= length s /\ x = slice s a b.

(** The code units that separate the words of a [%w] literal. *)
Definition isWordBreak (c : Z) : bool :=
  ((c =? SPACE_CHARACTER) || (c =? CHARACTER_TAB) || (c =? LINE_FEED))%Z.

(** The test of the inner loop of the version formatting: [c] is not a
    decimal digit. *)
Definition notDigit (c : Z) : bool :=
  ((c <? DIGIT_ZERO_CHARACTER) || (DIGIT_NINE_CHARACTER <? c))%Z.

(** A version string is spaced when the code unit before its first digit,
    if the string has a digit that is not its first code unit, is a
    space. *)
Definition spaced (v : jsstring) : Prop :=
  let j := firstDigit v 0 in
  0 < j -> j < length v -> charCodeAt v (j - 1) = Some SPACE_CHARACTER.

(** The code units the tokenizer passes without a token: space, tab and
    the punctuation it ignores. *)
Definition isSilent (c : Z) : bool :=
  ((c =? SPACE_CHARACTER) || (c =? CHARACTER_TAB))%Z || isOtherPunctuation c.

(** The messages the tokenizer gives to the errors it throws, the
    "runaway lexer" of its iteration guard apart. *)
Definition lexerMessages : list string :=
  [ "token quota exceeded"; "unknown character";
    "unterminated symbol"; "symbol literal too long";
    "unterminated string"; "string literal too long";
    "unterminated %q/%w literal"; "%q/%w literal too long" ]%string.

Definition firstIs (p : Z -> bool) (x : jsstring) : bool :=
  match x with
  | c :: _ => p c
  | [] => false
  end.

(** What the text [x] of a token of kind [k] looks like. *)
Definition kindShape (k : TokenKind) (x : jsstring) : Prop :=
  match k with
  | Identifier | Do | End_ | If | Else =>
      k = wordKind x /\
      firstIs isIdentifierStart x = true /\
      forallb isIdentifierChar x = true
  | Integer => x <> [] /\ forallb isDigit x = true
  | NewLine => x = [LINE_FEED]
  | Colon => x = [COLON_CHARACTER]
  | Comma | LeftParen | RightParen | LeftBracket | RightBracket | Dot
  | Equals =>
      exists c, x = [c] /\ isSingleCharacter c = true /\
                k = singleCharacterKind c
  | Symbol =>
      x = [PIPE_CHARACTER] \/
      (charCodeAt x 0 = Some COLON_CHARACTER /\
       ((2 <= length x /\ forallb isSymbolChar (skipn 1 x) = true) \/
        (3 <= length x /\ isQuote (charCodeAt x 1) = true /\
         charCodeAt x (length x - 1) = charCodeAt x 1 /\
         (Z.of_nat (length x) <= MAX_STRING_LENGTH + 3)%Z)))
  | String_ =>
      (2 <= length x /\ isQuote (charCodeAt x 0) = true /\
       charCodeAt x (length x - 1) = charCodeAt x 0 /\
       (Z.of_nat (length x) <= 2 * MAX_STRING_LENGTH + 2)%Z) \/
      (4 <= length x /\
       startsWith x (js "%q") || startsWith x (js "%w") = true /\
       charCodeAt x (length x - 1) = closingDelimiter (charCodeAt x 2) /\
       (Z.of_nat (length x) <= 2 * MAX_STRING_LENGTH + 4)%Z)
  | EndOfFile => x = []
  end.

(** A token that the main loop of the tokenizer pushes: its text is the
    part of the source between its offsets, which is not empty, and fits
    its kind. *)
Definition tokenShape (source : jsstring) (t : Token) : Prop :=
  text t = slice source (start t) (end_ t) /\
  start t < end_ t /\ end_ t <= length source /\
  kindShape (kind t) (text t).

(** What one iteration of the main loop does to the token list. *)
Definition stepShape (source : jsstring) (st : LexState) (r : Res LexState)
  : Prop :=
  match r with
  | Ok st' =>
      lx_index st' <= length source /\
      (lx_tokens st' = lx_tokens st \/
       exists t, lx_tokens st' = lx_tokens st ++ [t] /\
                 start t = lx_index st /\ end_ t = lx_index st' /\
                 tokenShape source t)
  | Throw e => In (message e) (runawayMessage :: lexerMessages)
  | TypeError => True
  | OutOfFuel => True
  end.

(** The invariant of the main loop that goes with [stepShape]: the tokens
    pushed so far are well shaped, lie before the index, and do not
    overlap. *)
Definition shapeInv (source : jsstring) (st : LexState) : Prop :=
  lx_index st <= length source /\
  Forall (tokenShape source) (lx_tokens st) /\
  Forall (fun t => end_ t <= lx_index st) (lx_tokens st) /\
  StronglySorted (fun a b => end_ a <= start b) (lx_tokens st).

(** The messages the parser gives to the errors it throws. *)
Definition parserMessages : list string :=
  [ "name literal expected"; "nesting too deep" ]%string.

(** [extends P tokens s s']: from [s] to [s'] the cursor has not moved
    back and has not left the token array, and each list of the output
    has only grown at its end, by declarations that satisfy [P]. *)
Definition extends (P : GemDeclaration -> Prop) (tokens : list Token)
           (s s' : PState) : Prop :=
  cursor s <= cursor s' /\
  (cursor s <= length tokens -> cursor s' <= length tokens) /\
  (exists l, runtime (out s') = runtime (out s) ++ l /\ Forall P l) /\
  (exists l, development (out s') = development (out s) ++ l /\ Forall P l).

(** [runs P tokens m]: when [m] returns, the state it leaves extends the
    one it found; when it throws, the error carries a parser message. *)
Definition runs {A} (P : GemDeclaration -> Prop) (tokens : list Token)
           (m : M A) : Prop :=
  forall s,
    match m s with
    | Ok (_, s') => extends P tokens s s'
    | Throw e => In (message e) parserMessages
    | TypeError => True
    | OutOfFuel => True
    end.

(** [consumes tokens m]: [m] throws nothing and changes nothing but the
    cursor, which it moves forward within the token array. *)
Definition consumes {A} (tokens : list Token) (m : M A) : Prop :=
  forall s,
    match m s with
    | Ok (_, s') =>
        depth s' = depth s /\ out s' = out s /\
        cursor s <= cursor s' /\
        (cursor s <= length tokens -> cursor s' <= length tokens)
    | Throw _ => False
    | TypeError => True
    | OutOfFuel => True
    end.

(** [guards tokens m]: [m] is a test that, when it succeeds, has moved
    the cursor forward and changed nothing else, and, when it fails, has
    left the state as it found it; it throws nothing. *)
Definition guards (tokens : list Token) (m : M bool) : Prop :=
  forall s,
    match m s with
    | Ok (b, s') =>
        if b
        then depth s' = depth s /\ out s' = out s /\
             cursor s < cursor s' /\ cursor s' <= length tokens
        else s' = s
    | Throw _ => False
    | TypeError => True
    | OutOfFuel => True
    end.

(** [fuelFree m]: [m] has no loop, so it never runs out of fuel. *)
Definition fuelFree {A} (m : M A) : Prop :=
  forall s, m s <> OutOfFuel.

(** [lands tokens k n m]: [m] does not run out of fuel from a state that
    has fewer than [n - k] tokens left to read. *)
Definition lands {A} (tokens : list Token) (k n : nat) (m : M A) : Prop :=
  forall s, length tokens - cursor s + k < n -> m s <> OutOfFuel.

(** [advancesFrom s m]: when [m] returns from the state [s], it has
    moved the cursor forward. *)
Definition advancesFrom {A} (s : PState) (m : M A) : Prop :=
  match m s with
  | Ok (_, s') => cursor s < cursor s'
  | _ => True
  end.

(** The tokens that [skipBlock] counts as opening and as closing a
    block. *)
Definition opens (t : Token) : bool :=
  TokenKind_eqb (kind t) Do || TokenKind_eqb (kind t) LeftParen.

Definition closes (t : Token) : bool :=
  TokenKind_eqb (kind t) End_ || TokenKind_eqb (kind t) RightParen.

(** The value of the counter of [skipBlock] after the tokens [l], from
    the value [d]. *)
Fixpoint nesting (d : nat) (l : list Token) : nat :=
  match l with
  | [] => d
  | t :: l' =>
      nesting (if opens t then S d else if closes t then d - 1 else d) l'
  end.

(** The tokens from position [a] up to position [b]. *)
Definition between (tokens : list Token) (a b : nat) : list Token :=
  firstn (b - a) (skipn a tokens).

(** [balanced tokens d s s']: from [s] to [s'] only the cursor has moved,
    forward, over tokens none of which is [EndOfFile]; the counter, which
    started at [d], stayed positive before each of them; and the cursor
    has stopped on [EndOfFile] or with the counter at zero. *)
Definition balanced (tokens : list Token) (d : nat) (s s' : PState) : Prop :=
  depth s' = depth s /\ out s' = out s /\ cursor s <= cursor s' /\
  Forall (fun t => kind t <> EndOfFile)
         (between tokens (cursor s) (cursor s')) /\
  (forall n, n < length (between tokens (cursor s) (cursor s')) ->
             0 < nesting d (firstn n (between tokens (cursor s) (cursor s')))) /\
  ((exists t, nth_error tokens (cursor s') = Some t /\ kind t = EndOfFile) \/
   nesting d (between tokens (cursor s) (cursor s')) = 0).

(** [l] is the label a token of the array stands for: the text of an
    identifier, or the stripped text of a symbol or a string. *)
Definition labelOf (tokens : list Token) (l : jsstring) : Prop :=
  exists t, In t tokens /\
    ((kind t = Identifier /\ l = text t) \/
     ((kind t = Symbol \/ kind t = String_) /\ l = strip (text t))).

(** Every version string of [d] is spaced. *)
Definition versionsSpaced (d : GemDeclaration) : Prop :=
  Forall spaced (versions d).

(** ** Further inputs used as examples *)

(** The tokens of [gem ,], a declaration without a name. *)
Definition missingNameTokens : list Token :=
  Eval vm_compute in
    match tokenize (js "gem ,") with Ok l => l | _ => [] end.

(** The tokens of a declaration with an unspaced version requirement. *)
Definition versionLineTokens : list Token :=
  Eval vm_compute in
    match tokenize (js "gem 'a', '>=1.0'") with Ok l => l | _ => [] end.

(** The tokens of the head of a gemspec. *)
Definition specHeadTokens : list Token :=
  Eval vm_compute in
    match tokenize (js "Gem::Specification.new do |s|") with
    | Ok l => l
    | _ => []
    end.

(** The tokens of two lines of the body of a gemspec. *)
Definition specDependencyTokens : list Token :=
  Eval vm_compute in
    match tokenize (js "s.add_development_dependency 'rake'") with
    | Ok l => l
    | _ => []
    end.

Definition specNameTokens : list Token :=
  Eval vm_compute in
    match tokenize (js "s.name = 'foo'") with
    | Ok l => l
    | _ => []
    end.

(** The tokens of a parenthesised call, and those of a declaration whose
    last argument has a key and no value. *)
Definition nestedCallTokens : list Token :=
  Eval vm_compute in
    match tokenize (js "( a ( b ) ) c") with Ok l => l | _ => [] end.

Definition keyAtEndTokens : list Token :=
  Eval vm_compute in
    match tokenize (js "gem 'a', git:") with Ok l => l | _ => [] end.

(** The tokens of the head of a group block with two labels. *)
Definition groupHeadTokens : list Token :=
  Eval vm_compute in
    match tokenize (js "group :a, :b do") with Ok l => l | _ => [] end.

(* ================================================================== *)
(** * Properties *)

(** ** The tokenizer's inner loops *)

Section TokenizerFacts.

Variable source : jsstring.

Lemma charCodeAt_Some_lt (i : nat) (c : Z) :
  charCodeAt source i = Some c -> i < length source.
Proof.
  unfold charCodeAt; intros H.
  apply nth_error_Some; congruence.
Qed.

Lemma charCodeAt_None_ge (i : nat) :
  charCodeAt source i = None -> length source <= i.
Proof. unfold charCodeAt; apply nth_error_None. Qed.

(** With one unit of fuel per code unit left (and one to spare) the
    simple scan returns, never moves backwards, stays within the source
    and moves forward when the code unit it starts on is accepted. *)
Lemma scanWhile_spec (p : Z -> bool) :
  forall fuel index column,
    0 < fuel -> length source < fuel + index ->
    exists index' column',
      scanWhile source p fuel index column = Ok (index', column') /\
      index <= index' /\
      (index <= length source -> index' <= length source) /\
      (forall c, charCodeAt source index = Some c -> p c = true ->
                 index < index').
Proof.
  induction fuel as [|fuel IH]; intros index column Hpos Hfuel.
  - exfalso; lia.
  - simpl. destruct (charCodeAt source index) as [c|] eqn:Hc.
    + destruct (p c) eqn:Hp.
      * pose proof (charCodeAt_Some_lt _ _ Hc) as Hlt.
        destruct (IH (S index) (S column)) as (i & c' & E & Hle & Hin & _);
          [lia|lia|].
        exists i, c'. repeat split; auto; try lia.
      * exists index, column. repeat split; auto.
        intros c0 E0 Hp0. congruence.
    + exists index, column. repeat split; auto.
      intros c0 E0; discriminate.
Qed.

(** The literal scan, with the same fuel, returns or throws its own
    "too long" error, and never moves backwards. *)
Lemma scanLiteral_spec tooLong escapes close opener tokens :
  forall fuel len index line column,
    0 < fuel -> length source < fuel + index ->
    match scanLiteral source tooLong escapes close opener tokens
                      fuel len index line column with
    | Ok (index', _, _) => index <= index'
    | Throw e => message e = tooLong
    | TypeError => False
    | OutOfFuel => False
    end.
Proof.
  induction fuel as [|fuel IH]; intros len index line column Hpos Hfuel.
  - exfalso; lia.
  - cbn [scanLiteral].
    destruct (charCodeAt source index) as [c|] eqn:Hc; [|cbn; lia].
    destruct (code_eq (Some c) close); [cbn; lia|].
    destruct (MAX_STRING_LENGTH <? len + 1)%Z; [reflexivity|].
    pose proof (charCodeAt_Some_lt _ _ Hc) as Hlt.
    destruct (escapes && (c =? BACKSLASH_CHARACTER)%Z);
      [ destruct (code_eq (charCodeAt source (S index)) (Some LINE_FEED))
      | rewrite Hc; destruct (code_eq (Some c) (Some LINE_FEED)) ];
      match goal with
      | |- context [scanLiteral _ _ _ _ _ _ fuel ?l ?i ?ln ?cl] =>
          generalize (IH l i ln cl);
          destruct (scanLiteral source tooLong escapes close opener tokens
                                fuel l i ln cl) as [[[i' l'] c']| | |];
          intros IH'
      end;
      try (apply IH'; lia);
      assert (Hpos' : 0 < fuel) by lia;
      specialize (IH' Hpos'); lia.
Qed.

End TokenizerFacts.

(** ** One iteration of the tokenizer's main loop *)

Lemma isIdentifierStart_char (c : Z) :
  isIdentifierStart c = true -> isIdentifierChar c = true.
Proof.
  unfold isIdentifierStart, isIdentifierChar; intros H.
  repeat (apply orb_true_iff in H; destruct H as [H|H]);
    rewrite H; repeat rewrite orb_true_r; reflexivity.
Qed.

Lemma slice_nonempty (s : jsstring) (a b : nat) :
  a < b -> b <= length s -> slice s a b <> [].
Proof.
  intros Hab Hb H. apply (f_equal (@length Z)) in H.
  unfold slice in H. rewrite length_firstn, length_skipn in H.
  cbn [length] in H. lia.
Qed.

Lemma StronglySorted_snoc (l : list nat) (y : nat) :
  StronglySorted le l -> Forall (fun x => x <= y) l ->
  StronglySorted le (l ++ [y]).
Proof.
  induction l as [|x l IH]; intros Hs Hall; cbn.
  - constructor; constructor.
  - inversion Hs as [|? ? Hs' Hx]; subst.
    inversion Hall as [|? ? Hxy Hall']; subst.
    constructor; [apply IH; assumption|].
    apply Forall_app; split; [exact Hx|].
    constructor; [exact Hxy | constructor].
Qed.

Lemma StronglySorted_nth (l : list nat) :
  StronglySorted le l ->
  forall i j x y, i <= j -> nth_error l i = Some x -> nth_error l j = Some y ->
                  x <= y.
Proof.
  induction 1 as [|a l Hs IH Ha]; intros i j x y Hij Hi Hj.
  - destruct i; discriminate.
  - destruct i as [|i], j as [|j]; cbn in *.
    + injection Hi as <-; injection Hj as <-; lia.
    + injection Hi as <-. apply nth_error_In in Hj.
      rewrite Forall_forall in Ha. apply Ha; exact Hj.
    + lia.
    + eapply IH; [|eassumption|eassumption]; lia.
Qed.

Section LexStepFacts.

Variable source : jsstring.
Variable max_tokens : Z.

Lemma push_spec tokens index line column k s e :
  match push source max_tokens tokens index line column k s e with
  | Ok tokens' =>
      tokens' = tokens ++ [mkToken k (slice source s e) s e line column] /\
      (Z.of_nat (length tokens) < max_tokens)%Z
  | Throw err =>
      message err = quotaMessage /\
      (max_tokens <= Z.of_nat (length tokens))%Z
  | TypeError => False
  | OutOfFuel => False
  end.
Proof.
  unfold push.
  destruct (max_tokens <=? Z.of_nat (length tokens))%Z eqn:E; cbn.
  - split; [reflexivity | apply Z.leb_le; exact E].
  - split; [reflexivity | apply Z.leb_gt; exact E].
Qed.

Ltac step_case :=
  match goal with
  | |- stepPost _ _ _ (match scanWhile ?s ?p ?f ?i ?c with _ => _ end) =>
      let H := fresh "Hscan" in
      destruct (scanWhile_spec s p f i c)
        as (? & ? & H & ? & ? & ?); [lia | lia |]; rewrite H
  | |- stepPost _ _ _ (match scanLiteral ?s ?m ?e ?cl ?o ?t ?f ?l ?i ?ln ?c
                   with _ => _ end) =>
      let H := fresh "Hlit" in
      assert (H := scanLiteral_spec s m e cl o t f l i ln c
                     ltac:(lia) ltac:(lia));
      destruct (scanLiteral s m e cl o t f l i ln c) as [[[? ?] ?]| | |]
  | |- stepPost _ _ _ (match push ?s ?m ?t ?i ?l ?c ?k ?a ?b with _ => _ end) =>
      let H := fresh "Hpush" in
      assert (H := push_spec t i l c k a b);
      destruct (push s m t i l c k a b)
  | |- stepPost _ _ _ (match ?x with _ => _ end) => destruct x eqn:?
  end.

Ltac step_leaf :=
  unfold stepPost; cbn [lx_index lx_iterations lx_tokens message];
  repeat match goal with
         | H : False |- _ => destruct H
         | H : _ /\ _ |- _ => destruct H
         | H : (_ <=? _) = false |- _ => apply Nat.leb_gt in H
         end;
  match goal with
  | |- _ = runawayMessage -> _ =>
      let Hm := fresh "Hm" in
      intros Hm;
      first [ discriminate Hm
            | match goal with
              | H : message _ = _ |- _ => rewrite H in Hm; discriminate Hm
              end ]
  | |- _ /\ _ =>
      subst;
      split; [lia | split; [reflexivity |]];
      first [ left; reflexivity
            | right; eexists; split; [reflexivity |];
              cbn [start end_ text]; repeat split;
              first [ assumption | lia | apply slice_nonempty; lia ] ]
  end.

Lemma lexStep_spec (st : LexState) :
  lx_index st < length source ->
  stepPost source max_tokens st (lexStep source max_tokens st).
Proof.
  destruct st as [tokens index iterations line column].
  cbn [lx_index]; intros Hlt.
  unfold lexStep.
  destruct (length source * MAX_ITERATIONS <? S iterations) eqn:Hrun.
  { intros _. apply Nat.ltb_lt. exact Hrun. }
  destruct (charCodeAt source index) as [cc|] eqn:Hcc;
    [| intros Hm; discriminate Hm].
  repeat step_case.
  all: try match goal with
           | H : forall c : Z, @?P c |- _ =>
               specialize (H cc Hcc);
               match type of H with
               | ?prem -> _ =>
                   let Hp := fresh "Hp" in
                   assert (Hp : prem)
                     by first
                          [ assumption
                          | apply isIdentifierStart_char; assumption
                          | match goal with
                            | Hh : (_ =? HASH_CHARACTER)%Z = true |- _ =>
                                apply Z.eqb_eq in Hh; rewrite Hh; reflexivity
                            end ];
                   specialize (H Hp)
               end
           end.
  all: step_leaf.
Qed.

Lemma lexInv_init : lexInv source (mkLex [] 0 0 1 1).
Proof.
  unfold lexInv; cbn. repeat split; try lia; constructor.
Qed.

Lemma lexStep_inv (st st' : LexState) :
  lx_index st < length source ->
  lexInv source st ->
  lexStep source max_tokens st = Ok st' ->
  lexInv source st' /\ lx_index st < lx_index st'.
Proof.
  intros Hlt (Hit & Hlen & Hall & Hsorted) Hstep.
  pose proof (lexStep_spec st Hlt) as Hpost.
  rewrite Hstep in Hpost. cbn [stepPost] in Hpost.
  destruct Hpost as (Hadv & Hiter & Htok).
  split; [|exact Hadv].
  unfold lexInv. rewrite Hiter.
  split; [lia|]. split; [lia|].
  assert (Hall' : Forall (fun t => start t <= end_ t /\ end_ t <= lx_index st')
                         (lx_tokens st)).
  { eapply Forall_impl; [|exact Hall]. cbn; intros t [? ?]; lia. }
  destruct Htok as [Heq | (t & Heq & Hs & Hse & He & _)]; rewrite Heq.
  - split; assumption.
  - split.
    + apply Forall_app; split; [exact Hall'|].
      constructor; [lia | constructor].
    + rewrite map_app; cbn [map].
      apply StronglySorted_snoc; [exact Hsorted|].
      apply Forall_map.
      eapply Forall_impl; [|exact Hall]. cbn; intros t0 [? ?]; lia.
Qed.

(** The main loop, given a unit of fuel per code unit left and one to
    spare, returns or throws; it never reports a runaway. *)
Lemma lexLoop_spec :
  forall fuel st,
    0 < fuel -> length source < fuel + lx_index st ->
    lexInv source st ->
    match lexLoop source max_tokens fuel st with
    | Ok st' => lexInv source st' /\ length source <= lx_index st'
    | Throw e => message e <> runawayMessage
    | TypeError => False
    | OutOfFuel => False
    end.
Proof.
  induction fuel as [|fuel IH]; intros st Hpos Hfuel Hinv; [lia|].
  cbn [lexLoop].
  destruct (lx_index st <? length source) eqn:Hlt.
  - apply Nat.ltb_lt in Hlt.
    pose proof (lexStep_spec st Hlt) as Hpost.
    pose proof (lexStep_inv st) as Hstep.
    destruct (lexStep source max_tokens st) as [st'| e | |].
    + destruct (Hstep st' Hlt Hinv eq_refl) as [Hinv' Hadv].
      apply IH; [lia | lia | exact Hinv'].
    + cbn [stepPost] in Hpost. intros Hm. specialize (Hpost Hm).
      destruct Hinv as (Hit & _). unfold MAX_ITERATIONS in Hpost. lia.
    + exact Hpost.
    + exact Hpost.
  - apply Nat.ltb_ge in Hlt. split; assumption.
Qed.

(** Whatever the fuel, a main loop that returns has kept the invariant. *)
Lemma lexLoop_inv :
  forall fuel st st',
    lexInv source st ->
    lexLoop source max_tokens fuel st = Ok st' ->
    lexInv source st'.
Proof.
  induction fuel as [|fuel IH]; intros st st' Hinv Hrun; [discriminate|].
  cbn [lexLoop] in Hrun.
  destruct (lx_index st <? length source) eqn:Hlt.
  - apply Nat.ltb_lt in Hlt.
    destruct (lexStep source max_tokens st) as [st1| | |] eqn:Hstep;
      try discriminate.
    destruct (lexStep_inv st st1 Hlt Hinv Hstep) as [Hinv1 _].
    apply (IH st1 st' Hinv1 Hrun).
  - injection Hrun as <-. exact Hinv.
Qed.

End LexStepFacts.

(** ** The token cap *)

Section TokenCap.

Variable source : jsstring.
(** Two caps: [m], under which a run is observed, and [k], under which it
    is replayed. *)
Variables m k : Z.

Ltac cap_case :=
  match goal with
  | |- capPost _ _ (match push ?s _ ?t ?i ?l ?c ?kd ?a ?b with _ => _ end) _ =>
      unfold push;
      destruct (m <=? Z.of_nat (length t))%Z eqn:?;
      destruct (k <=? Z.of_nat (length t))%Z eqn:?
  | |- capPost _ _ (match ?x with _ => _ end) _ => destruct x eqn:?
  end.

Lemma lexStep_cap (st : LexState) :
  capPost k st (lexStep source m st) (lexStep source k st).
Proof.
  destruct st as [tokens index iterations line column].
  unfold lexStep.
  repeat cap_case.
  all: unfold capPost; cbn [lx_tokens]; try exact I.
  all: try (left; split; reflexivity).
  all: right; rewrite length_app, Nat.add_comm; cbn [length Nat.add].
  all: split; [reflexivity|].
  all: match goal with H : (k <=? _)%Z = _ |- _ => rewrite H end.
  all: first [reflexivity | eexists; split; reflexivity].
Qed.

Lemma lexLoop_tokens_mono :
  forall fuel st st',
    lexLoop source m fuel st = Ok st' ->
    length (lx_tokens st) <= length (lx_tokens st').
Proof.
  induction fuel as [|fuel IH]; intros st st' Hrun; [discriminate|].
  cbn [lexLoop] in Hrun.
  destruct (lx_index st <? length source).
  - pose proof (lexStep_cap st) as Hcap.
    destruct (lexStep source m st) as [st1| | |]; try discriminate.
    specialize (IH st1 st' Hrun). cbn [capPost] in Hcap.
    destruct Hcap as [[Hlen _] | [Hlen _]]; lia.
  - injection Hrun as <-. lia.
Qed.

Lemma lexLoop_cap :
  forall fuel st st',
    (Z.of_nat (length (lx_tokens st)) <= k)%Z ->
    lexLoop source m fuel st = Ok st' ->
    length (lx_tokens st) <= length (lx_tokens st') /\
    ((Z.of_nat (length (lx_tokens st')) <= k)%Z ->
     lexLoop source k fuel st = Ok st') /\
    ((k < Z.of_nat (length (lx_tokens st')))%Z ->
     exists e, lexLoop source k fuel st = Throw e /\
               message e = quotaMessage).
Proof.
  induction fuel as [|fuel IH]; intros st st' Hroom0 Hrun; [discriminate|].
  cbn [lexLoop] in *.
  destruct (lx_index st <? length source).
  - pose proof (lexStep_cap st) as Hcap.
    destruct (lexStep source m st) as [st1| | |]; try discriminate.
    cbn [capPost] in Hcap.
    destruct Hcap as [[Hlen Hk] | [Hlen Hk]].
    + destruct (IH st1 st') as (Hmono & Hle & Hgt); [lia | exact Hrun |].
      rewrite Hk. split; [lia | split; [exact Hle | exact Hgt]].
    + destruct (k <=? Z.of_nat (length (lx_tokens st)))%Z eqn:Hroom.
      * apply Z.leb_le in Hroom. destruct Hk as (e & Hk & Hmsg).
        rewrite Hk.
        pose proof (lexLoop_tokens_mono _ _ _ Hrun) as Hmono.
        split; [lia | split].
        -- intros Hfit. exfalso. lia.
        -- intros _. exists e. split; [reflexivity | exact Hmsg].
      * apply Z.leb_gt in Hroom.
        destruct (IH st1 st') as (Hmono & Hle & Hgt); [lia | exact Hrun |].
        rewrite Hk. split; [lia | split; [exact Hle | exact Hgt]].
  - injection Hrun as <-.
    split; [lia | split; [reflexivity | intros Hover; exfalso; lia]].
Qed.

(** A run that returns under [m] is replayed under [k] with the same
    result when the result fits, and with a quota error when it does
    not. *)
Lemma tokenizeWith_cap (toks : list Token) :
  (0 <= k)%Z ->
  tokenizeWith m source = Ok toks ->
  ((Z.of_nat (length toks) <= k)%Z -> tokenizeWith k source = Ok toks) /\
  ((k < Z.of_nat (length toks))%Z ->
   exists e, tokenizeWith k source = Throw e /\ message e = quotaMessage).
Proof.
  unfold tokenizeWith, tokenizeFuel. intros Hk0 Hrun.
  destruct (lexLoop source m (S (length source)) (mkLex [] 0 0 1 1))
    as [st| | |] eqn:Hloop; try discriminate.
  destruct (lexLoop_cap _ (mkLex [] 0 0 1 1) st Hk0 Hloop) as (_ & Hle & Hgt).
  pose proof (push_spec source m (lx_tokens st) (lx_index st) (lx_line st)
                        (lx_column st) EndOfFile (lx_index st) (lx_index st))
    as Hpush.
  rewrite Hrun in Hpush. destruct Hpush as [Htoks _].
  assert (Hlen : length toks = S (length (lx_tokens st))).
  { rewrite Htoks, length_app; cbn; lia. }
  split.
  - intros Hfit. rewrite Hle by lia.
    unfold push in *.
    destruct (k <=? Z.of_nat (length (lx_tokens st)))%Z eqn:Hroom;
      [apply Z.leb_le in Hroom; lia|].
    rewrite Htoks; reflexivity.
  - intros Hover.
    destruct (Z_lt_le_dec k (Z.of_nat (length (lx_tokens st)))) as [Hlt|Hge].
    + destruct (Hgt Hlt) as (e & He & Hmsg). rewrite He.
      exists e; split; [reflexivity | exact Hmsg].
    + rewrite Hle by lia. unfold push.
      destruct (k <=? Z.of_nat (length (lx_tokens st)))%Z eqn:Hroom;
        [| apply Z.leb_gt in Hroom; lia].
      eexists; split; reflexivity.
Qed.

End TokenCap.

(** ** Properties of the tokenizer *)

Lemma tokenize_inv (source : jsstring) (cap : Z) :
  match lexLoop source cap (S (length source)) (mkLex [] 0 0 1 1) with
  | Ok st' => lexInv source st'
  | Throw e => message e <> runawayMessage
  | TypeError => False
  | OutOfFuel => False
  end.
Proof.
  pose proof (lexLoop_spec source cap (S (length source)) (mkLex [] 0 0 1 1))
    as H.
  cbn [lx_index] in H.
  specialize (H ltac:(lia) ltac:(lia) (lexInv_init source)).
  destruct (lexLoop source cap (S (length source)) (mkLex [] 0 0 1 1));
    try exact H.
  apply H.
Qed.

(** C10: every iteration of the tokenizer's main loop either throws or
    advances the index by at least one; so the iteration counter never
    exceeds the input length, the "runaway lexer" error is never thrown, and
    [tokenize] terminates on every input: with one unit of fuel per code
    unit it returns its tokens or throws a lexer error, and never runs out
    of fuel. *)
Theorem tokenize_advances_and_terminates (source : jsstring) :
  (forall st,
      lx_index st < length source ->
      match lexStep source MAX_TOKENS st with
      | Ok st' => lx_index st < lx_index st'
      | Throw _ => True
      | TypeError => False
      | OutOfFuel => False
      end) /\
  (forall fuel st',
      lexLoop source MAX_TOKENS fuel (mkLex [] 0 0 1 1) = Ok st' ->
      lx_iterations st' <= length source) /\
  (forall e, tokenize source = Throw e -> message e <> "runaway lexer"%string) /\
  ((exists toks, tokenize source = Ok toks) \/
   (exists e, tokenize source = Throw e)).
Proof.
  split; [|split; [|split]].
  - intros st Hlt. pose proof (lexStep_spec source MAX_TOKENS st Hlt) as H.
    destruct (lexStep source MAX_TOKENS st); cbn [stepPost] in H;
      first [exact I | exact H | apply H].
  - intros fuel st' Hrun.
    apply (lexLoop_inv source MAX_TOKENS fuel _ st' (lexInv_init source) Hrun).
  - intros e. unfold tokenize, tokenizeWith, tokenizeFuel.
    pose proof (tokenize_inv source MAX_TOKENS) as H.
    destruct (lexLoop source MAX_TOKENS (S (length source)) (mkLex [] 0 0 1 1))
      as [st| e' | |]; try contradiction.
    + intros Hpush.
      pose proof (push_spec source MAX_TOKENS (lx_tokens st) (lx_index st)
                            (lx_line st) (lx_column st) EndOfFile
                            (lx_index st) (lx_index st)) as Hp.
      rewrite Hpush in Hp. destruct Hp as [Hm _]. rewrite Hm. discriminate.
    + intros Heq. injection Heq as <-. exact H.
  - unfold tokenize, tokenizeWith, tokenizeFuel.
    pose proof (tokenize_inv source MAX_TOKENS) as H.
    destruct (lexLoop source MAX_TOKENS (S (length source)) (mkLex [] 0 0 1 1))
      as [st| e' | |]; try contradiction.
    + pose proof (push_spec source MAX_TOKENS (lx_tokens st) (lx_index st)
                            (lx_line st) (lx_column st) EndOfFile
                            (lx_index st) (lx_index st)) as Hp.
      destruct (push source MAX_TOKENS (lx_tokens st) (lx_index st)
                     (lx_line st) (lx_column st) EndOfFile
                     (lx_index st) (lx_index st)) as [toks| e | |];
        try contradiction.
      * left; exists toks; reflexivity.
      * right; exists e; reflexivity.
    + right; exists e'; reflexivity.
Qed.

Lemma tokenize_advances_and_terminates_witness :
  match lexStep (js "gem 'a'") MAX_TOKENS (mkLex [] 0 0 1 1) with
  | Ok st' => 0 < lx_index st'
  | Throw _ => True
  | TypeError => False
  | OutOfFuel => False
  end /\
  exists st',
    lexLoop (js "gem 'a'") MAX_TOKENS (S (length (js "gem 'a'")))
            (mkLex [] 0 0 1 1) = Ok st' /\
    lx_iterations st' <= length (js "gem 'a'").
Proof.
  split.
  - apply (proj1 (tokenize_advances_and_terminates (js "gem 'a'"))
                 (mkLex [] 0 0 1 1)).
    vm_compute. lia.
  - eexists. split; [vm_compute; reflexivity|].
    apply (proj1 (proj2 (tokenize_advances_and_terminates (js "gem 'a'")))
                 (S (length (js "gem 'a'")))).
    vm_compute; reflexivity.
Defined.

(** C9: the tokens [tokenize] returns come in order of their start
    offsets, and no token starts after it ends. *)
Theorem tokenize_offsets_monotone (source : jsstring) (toks : list Token) :
  tokenize source = Ok toks ->
  (forall i j ti tj,
      i <= j -> nth_error toks i = Some ti -> nth_error toks j = Some tj ->
      start ti <= start tj) /\
  (forall t, In t toks -> start t <= end_ t).
Proof.
  unfold tokenize, tokenizeWith, tokenizeFuel.
  pose proof (tokenize_inv source MAX_TOKENS) as H.
  destruct (lexLoop source MAX_TOKENS (S (length source)) (mkLex [] 0 0 1 1))
    as [st| | |]; try discriminate.
  destruct H as (_ & _ & Hall & Hsorted).
  intros Hpush.
  pose proof (push_spec source MAX_TOKENS (lx_tokens st) (lx_index st)
                        (lx_line st) (lx_column st) EndOfFile
                        (lx_index st) (lx_index st)) as Hp.
  rewrite Hpush in Hp. destruct Hp as [-> _].
  split.
  - intros i j ti tj Hij Hi Hj.
    assert (Hs : StronglySorted le
                   (map start (lx_tokens st ++
                                 [mkToken EndOfFile
                                          (slice source (lx_index st) (lx_index st))
                                          (lx_index st) (lx_index st)
                                          (lx_line st) (lx_column st)]))).
    { rewrite map_app. apply StronglySorted_snoc; [exact Hsorted|].
      apply Forall_map. eapply Forall_impl; [|exact Hall].
      cbn; intros t [? ?]; lia. }
    apply (StronglySorted_nth _ Hs i j); [exact Hij | |];
      rewrite nth_error_map; [rewrite Hi | rewrite Hj]; reflexivity.
  - intros t Hin. apply in_app_or in Hin. destruct Hin as [Hin | [<- | []]].
    + rewrite Forall_forall in Hall. apply (Hall t Hin).
    + cbn. lia.
Qed.

Lemma tokenize_offsets_monotone_witness :
  tokenize (js "gem 'a'") = Ok gemLineTokens /\
  (forall i j ti tj,
      i <= j -> nth_error gemLineTokens i = Some ti ->
      nth_error gemLineTokens j = Some tj -> start ti <= start tj) /\
  (forall t, In t gemLineTokens -> start t <= end_ t).
Proof.
  split; [vm_compute; reflexivity|].
  apply (tokenize_offsets_monotone (js "gem 'a'")).
  vm_compute; reflexivity.
Defined.

(** C7: [tokenize] never returns more than 40 000 tokens, the final
    [EndOfFile] token included; and when a tokenizer with any other cap
    returns more than 40 000 tokens for an input, [tokenize] fails on that
    input with "token quota exceeded". *)
Theorem tokenize_token_quota (source : jsstring) :
  (forall toks,
      tokenize source = Ok toks -> (Z.of_nat (length toks) <= 40000)%Z) /\
  (forall cap toks,
      tokenizeWith cap source = Ok toks ->
      (40000 < Z.of_nat (length toks))%Z ->
      exists e, tokenize source = Throw e /\
                message e = "token quota exceeded"%string).
Proof.
  split.
  - unfold tokenize, tokenizeWith, tokenizeFuel. intros toks.
    destruct (lexLoop source MAX_TOKENS (S (length source)) (mkLex [] 0 0 1 1))
      as [st| | |]; try discriminate.
    intros Hpush.
    pose proof (push_spec source MAX_TOKENS (lx_tokens st) (lx_index st)
                          (lx_line st) (lx_column st) EndOfFile
                          (lx_index st) (lx_index st)) as Hp.
    rewrite Hpush in Hp. destruct Hp as [-> Hroom].
    rewrite length_app; cbn [length]. unfold MAX_TOKENS in Hroom. lia.
  - intros cap toks Hrun Hover.
    destruct (tokenizeWith_cap source cap MAX_TOKENS toks) as [_ H];
      [unfold MAX_TOKENS; lia | exact Hrun |].
    apply H. exact Hover.
Qed.

Lemma lexStep_comma (n : nat) (cap : Z) (tokens : list Token)
      (index iterations line column : nat) :
  index < n -> iterations <= index ->
  (Z.of_nat (length tokens) < cap)%Z ->
  exists t,
    lexStep (commas n) cap (mkLex tokens index iterations line column) =
    Ok (mkLex (tokens ++ [t]) (S index) (S iterations) line (S column)).
Proof.
  intros Hlt Hit Hroom. unfold lexStep.
  assert (Hlen : length (commas n) = n) by apply repeat_length.
  rewrite Hlen.
  assert (Hrun : (n * MAX_ITERATIONS <? S iterations) = false)
    by (apply Nat.ltb_ge; unfold MAX_ITERATIONS; lia).
  rewrite Hrun.
  assert (Hcc : charCodeAt (commas n) index = Some COMMA_CHARACTER)
    by (apply nth_error_repeat; exact Hlt).
  rewrite Hcc.
  change ((COMMA_CHARACTER =? SPACE_CHARACTER)%Z ||
          (COMMA_CHARACTER =? CHARACTER_TAB)%Z) with false.
  change (COMMA_CHARACTER =? LINE_FEED)%Z with false.
  change (isSingleCharacter COMMA_CHARACTER) with true.
  cbv iota. unfold push.
  destruct (cap <=? Z.of_nat (length tokens))%Z eqn:E;
    [apply Z.leb_le in E; lia|].
  eexists; reflexivity.
Qed.

Lemma lexLoop_commas (n : nat) (cap : Z) :
  forall fuel tokens index iterations line column,
    index <= n -> n - index < fuel -> iterations <= index ->
    (Z.of_nat (length tokens + (n - index)) < cap)%Z ->
    exists st',
      lexLoop (commas n) cap fuel (mkLex tokens index iterations line column)
      = Ok st' /\
      length (lx_tokens st') = length tokens + (n - index).
Proof.
  induction fuel as [|fuel IH];
    intros tokens index iterations line column Hle Hfuel Hit Hroom; [lia|].
  cbn [lexLoop lx_index].
  assert (Hlen : length (commas n) = n) by apply repeat_length.
  rewrite Hlen.
  destruct (index <? n) eqn:Hlt.
  - apply Nat.ltb_lt in Hlt.
    destruct (lexStep_comma n cap tokens index iterations line column)
      as [t Hstep]; [exact Hlt | exact Hit | lia |].
    rewrite Hstep.
    destruct (IH (tokens ++ [t]) (S index) (S iterations) line (S column))
      as (st' & Hrun & Hcount); [lia | lia | lia | |].
    + rewrite length_app; cbn [length]. lia.
    + exists st'. split; [exact Hrun|].
      rewrite Hcount, length_app; cbn [length]. lia.
  - apply Nat.ltb_ge in Hlt. eexists; split; [reflexivity|].
    cbn [lx_tokens]. lia.
Qed.

Lemma tokenizeWith_commas (n : nat) (cap : Z) :
  (Z.of_nat (S n) < cap)%Z ->
  exists toks,
    tokenizeWith cap (commas n) = Ok toks /\ length toks = S n.
Proof.
  intros Hroom. unfold tokenizeWith, tokenizeFuel.
  destruct (lexLoop_commas n cap (S (length (commas n))) [] 0 0 1 1)
    as (st' & Hrun & Hcount).
  - lia.
  - unfold commas; rewrite repeat_length; lia.
  - lia.
  - cbn [length]. lia.
  - rewrite Hrun. unfold push. cbn [length] in Hcount.
    destruct (cap <=? Z.of_nat (length (lx_tokens st')))%Z eqn:E;
      [apply Z.leb_le in E; lia|].
    eexists; split; [reflexivity|].
    rewrite length_app; cbn [length]. lia.
Qed.

Lemma tokenize_token_quota_witness :
  (Z.of_nat (length gemLineTokens) <= 40000)%Z /\
  exists e, tokenize (commas (Z.to_nat 40000)) = Throw e /\
            message e = "token quota exceeded"%string.
Proof.
  split.
  - apply (proj1 (tokenize_token_quota (js "gem 'a'"))).
    vm_compute; reflexivity.
  - destruct (tokenizeWith_commas (Z.to_nat 40000) 40002%Z) as (toks & Hrun & Hlen);
      [lia|].
    apply (proj2 (tokenize_token_quota (commas (Z.to_nat 40000))) 40002%Z toks Hrun).
    lia.
Defined.

(* ------------------------------------------------------------------ *)
(** ** Parser methods that leave the output record alone *)

Lemma pureOut_ret {A} (a : A) : pureOut (ret a).
Proof. intros s; reflexivity. Qed.

Lemma pureOut_outOfFuel {A} : pureOut (@outOfFuel A).
Proof. intros s; exact I. Qed.

Lemma pureOut_bind {A B} (m : M A) (k : A -> M B) :
  pureOut m -> (forall a, pureOut (k a)) -> pureOut (bind m k).
Proof.
  intros Hm Hk s. unfold post, bind.
  specialize (Hm s). unfold post in Hm.
  destruct (m s) as [[a s1]| | |]; try exact I.
  specialize (Hk a s1). unfold post in Hk.
  destruct (k a s1) as [[b s2]| | |]; try exact I.
  congruence.
Qed.

Lemma pureOut_setCursor (c : nat) : pureOut (setCursor c).
Proof. intros s; reflexivity. Qed.

Lemma pureOut_getCursor : pureOut getCursor.
Proof. intros s; reflexivity. Qed.

Create HintDb pure discriminated.

Lemma pureOut_peek (tokens : list Token) : pureOut (peek tokens).
Proof.
  intros s. unfold post, peek.
  destruct (nth_error tokens (cursor s)); [reflexivity | exact I].
Qed.

Lemma pureOut_throwError (tokens : list Token) {A} (msg : string) : pureOut (@throwError tokens A msg).
Proof.
  intros s. unfold post, throwError.
  destruct (cursor s); [exact I|].
  destruct (nth_error tokens n); exact I.
Qed.

Lemma pureOut_enter (tokens : list Token) : pureOut (enter tokens).
Proof.
  intros s. unfold post, enter.
  destruct (MAX_BLOCK_DEPTH <? (depth s + 1))%Z; [|reflexivity].
  apply (pureOut_throwError tokens (A := unit) "nesting too deep"
                            (mkState (cursor s) (depth s + 1)%Z (out s))).
Qed.

Lemma pureOut_leave : pureOut leave.
Proof. intros s; reflexivity. Qed.

#[local] Hint Resolve pureOut_ret pureOut_outOfFuel pureOut_setCursor
  pureOut_getCursor pureOut_peek pureOut_throwError pureOut_enter
  pureOut_leave : pure.

(** Takes a goal [pureOut m] apart along the structure of [m]: a method
    already known to be pure is closed by its lemma, a [bind] is split, a
    case distinction is followed. *)
Ltac pure_step :=
  first
    [ solve [auto 1 with pure nocore]
    | assumption
    | match goal with
      | H : forall _, pureOut _ |- _ => apply H
      | H : forall _ _, pureOut _ |- _ => apply H
      | |- pureOut (if ?b then _ else _) => destruct b
      | |- pureOut (match ?x with _ => _ end) => destruct x
      | |- pureOut (bind _ _) => apply pureOut_bind; [| intros ?]
      end ].

Ltac pure_all := repeat pure_step.

Lemma pureOut_peekKind (tokens : list Token) : pureOut (peekKind tokens).
Proof. unfold peekKind. pure_all. Qed.

Lemma pureOut_peekText (tokens : list Token) : pureOut (peekText tokens).
Proof. unfold peekText. pure_all. Qed.

Lemma pureOut_advance (tokens : list Token) : pureOut (advance tokens).
Proof. unfold advance. pure_all. Qed.

#[local] Hint Resolve pureOut_peekKind pureOut_peekText pureOut_advance : pure.

Lemma pureOut_match (tokens : list Token) (k : TokenKind) : pureOut (match_ tokens k).
Proof. unfold match_. pure_all. Qed.

Lemma pureOut_matchWord (tokens : list Token) (w : jsstring) : pureOut (matchWord tokens w).
Proof. unfold matchWord. pure_all. Qed.

Lemma pureOut_matchSymbol (tokens : list Token) (w : jsstring) : pureOut (matchSymbol tokens w).
Proof. unfold matchSymbol. pure_all. Qed.

Lemma pureOut_orM (a b : M bool) : pureOut a -> pureOut b -> pureOut (orM a b).
Proof. intros Ha Hb. unfold orM. pure_all. Qed.

Lemma pureOut_andM (a b : M bool) : pureOut a -> pureOut b -> pureOut (andM a b).
Proof. intros Ha Hb. unfold andM. pure_all. Qed.

#[local] Hint Resolve pureOut_match pureOut_matchWord pureOut_matchSymbol
  pureOut_orM pureOut_andM : pure.

Ltac pure_deep :=
  repeat first
         [ pure_step
         | match goal with
           | |- pureOut (orM _ _) => apply pureOut_orM
           | |- pureOut (andM _ _) => apply pureOut_andM
           end ].

Lemma pureOut_looksSpecNew (tokens : list Token) : pureOut (looksSpecNew tokens).
Proof. unfold looksSpecNew. pure_all; auto 12 with pure nocore. Qed.

Lemma pureOut_skipToEol (tokens : list Token) (fuel : nat) : pureOut (skipToEol tokens fuel).
Proof. induction fuel as [|fuel IH]; cbn [skipToEol]; pure_all. Qed.

#[local] Hint Resolve pureOut_looksSpecNew pureOut_skipToEol : pure.

Lemma pureOut_skipLine (tokens : list Token) (fuel : nat) : pureOut (skipLine tokens fuel).
Proof. unfold skipLine. pure_all. Qed.

Lemma pureOut_skipBlockLoop (tokens : list Token) (fuel : nat) :
  forall depth, pureOut (skipBlockLoop tokens fuel depth).
Proof.
  induction fuel as [|fuel IH]; intros d; cbn [skipBlockLoop]; pure_all;
    auto 3 with pure nocore.
Qed.

Lemma pureOut_skipBlock (tokens : list Token) (fuel : nat) : pureOut (skipBlock tokens fuel).
Proof. apply pureOut_skipBlockLoop. Qed.

Lemma pureOut_labelsLoop (tokens : list Token) (fuel : nat) :
  forall arr, pureOut (labelsLoop tokens fuel arr).
Proof. induction fuel as [|fuel IH]; intros arr; cbn [labelsLoop]; pure_all. Qed.

Lemma pureOut_labels (tokens : list Token) (fuel : nat) : pureOut (labels tokens fuel).
Proof. apply pureOut_labelsLoop. Qed.

Lemma pureOut_listItems (tokens : list Token) (fuel : nat) (k : TokenKind) (conv : jsstring -> jsstring) :
  forall arr, pureOut (listItems tokens fuel k conv arr).
Proof. induction fuel as [|fuel IH]; intros arr; cbn [listItems]; pure_all. Qed.

#[local] Hint Resolve pureOut_skipLine pureOut_skipBlock pureOut_labels
  pureOut_listItems : pure.

Lemma pureOut_declValue (tokens : list Token) (fuel : nat) (key : jsstring) (a : DeclArgs) :
  pureOut (declValue tokens fuel key a).
Proof. unfold declValue. pure_all. Qed.

#[local] Hint Resolve pureOut_declValue : pure.

Lemma pureOut_declArg (tokens : list Token) (fuel : nat) (a : DeclArgs) :
  pureOut (declArg tokens fuel a).
Proof. unfold declArg. pure_all; auto 3 with pure nocore. Qed.

#[local] Hint Resolve pureOut_declArg : pure.

Lemma pureOut_declArgs (tokens : list Token) (fuel : nat) :
  forall a, pureOut (declArgs tokens fuel a).
Proof. induction fuel as [|fuel IH]; intros a; cbn [declArgs]; pure_all. Qed.

#[local] Hint Resolve pureOut_declArgs : pure.

Lemma pureOut_parseDecl (tokens : list Token) (fuel : nat) (groups platforms : list jsstring) :
  pureOut (parseDecl tokens fuel groups platforms).
Proof. unfold parseDecl. pure_all; auto 3 with pure nocore. Qed.

Lemma pureOut_skipToEnd (tokens : list Token) (fuel : nat) : pureOut (skipToEnd tokens fuel).
Proof. induction fuel as [|fuel IH]; cbn [skipToEnd]; pure_all. Qed.


(* ------------------------------------------------------------------ *)
(** ** Reading the parser's primitives backwards *)

Lemma TokenKind_eqb_eq (a b : TokenKind) : TokenKind_eqb a b = true <-> a = b.
Proof. split; [destruct a, b; (reflexivity || discriminate) | intros ->; destruct b; reflexivity]. Qed.

Lemma TokenKind_eqb_neq (a b : TokenKind) : TokenKind_eqb a b = false <-> a <> b.
Proof.
  split.
  - intros H Heq. apply TokenKind_eqb_eq in Heq. congruence.
  - intros H. destruct (TokenKind_eqb a b) eqn:E; [|reflexivity].
    apply TokenKind_eqb_eq in E. contradiction.
Qed.

Lemma jseq_eq (a b : jsstring) : jseq a b = true <-> a = b.
Proof.
  revert b; induction a as [|x a IH]; intros [|y b]; cbn;
    try (split; (reflexivity || discriminate)).
  rewrite andb_true_iff, Z.eqb_eq, IH.
  split; [intros [-> ->]; reflexivity | intros H; injection H; auto].
Qed.

Lemma bind_Ok {A B} (m : M A) (k : A -> M B) (s : PState) (r : B * PState) :
  bind m k s = Ok r -> exists a s1, m s = Ok (a, s1) /\ k a s1 = Ok r.
Proof.
  unfold bind. destruct (m s) as [[a s1]| | |]; try discriminate.
  intros H; exists a, s1; split; [reflexivity | exact H].
Qed.

Lemma ret_Ok {A} (a : A) (s : PState) (r : A * PState) :
  ret a s = Ok r -> r = (a, s).
Proof. unfold ret; congruence. Qed.

Lemma pushDecl_Ok (isDev : bool) (decl : GemDeclaration) (s s' : PState) :
  pushDecl isDev decl s = Ok (tt, s') ->
  cursor s' = cursor s /\ out s' = appendDecl isDev decl (out s).
Proof.
  unfold pushDecl. intros H. injection H as Hs. subst s'.
  split; reflexivity.
Qed.

Section PrimitiveFacts.

Variable tokens : list Token.

Lemma peek_Ok (s s' : PState) (t : Token) :
  peek tokens s = Ok (t, s') ->
  s' = s /\ nth_error tokens (cursor s) = Some t.
Proof.
  unfold peek. destruct (nth_error tokens (cursor s)); [|discriminate].
  intros H; injection H as -> ->. split; reflexivity.
Qed.

Lemma peekKind_Ok (s s' : PState) (k : TokenKind) :
  peekKind tokens s = Ok (k, s') ->
  s' = s /\ exists t, nth_error tokens (cursor s) = Some t /\ kind t = k.
Proof.
  unfold peekKind. intros H.
  apply bind_Ok in H. destruct H as (t & s1 & Hp & Hr).
  apply peek_Ok in Hp. destruct Hp as [-> Hn].
  apply ret_Ok in Hr. injection Hr as -> ->.
  split; [reflexivity | exists t; split; [exact Hn | reflexivity]].
Qed.

Lemma peekKind_at (s : PState) (t : Token) :
  nth_error tokens (cursor s) = Some t ->
  peekKind tokens s = Ok (kind t, s).
Proof. intros H. unfold peekKind, bind, peek. rewrite H. reflexivity. Qed.

Lemma peekText_at (s : PState) (t : Token) :
  nth_error tokens (cursor s) = Some t ->
  peekText tokens s = Ok (text t, s).
Proof. intros H. unfold peekText, bind, peek. rewrite H. reflexivity. Qed.

Lemma advance_at (s : PState) (t : Token) :
  nth_error tokens (cursor s) = Some t ->
  advance tokens s = Ok (t, stepped s).
Proof. intros H. unfold advance, bind, peek. rewrite H. reflexivity. Qed.

Lemma advance_Ok (s s' : PState) (t : Token) :
  advance tokens s = Ok (t, s') ->
  s' = stepped s /\ nth_error tokens (cursor s) = Some t.
Proof.
  intros H. unfold advance, bind, peek in H.
  destruct (nth_error tokens (cursor s)) as [t0|] eqn:E; [|discriminate].
  cbn in H. injection H as <- <-. split; reflexivity.
Qed.

Lemma match_at (k : TokenKind) (s : PState) (t : Token) :
  nth_error tokens (cursor s) = Some t ->
  match_ tokens k s =
  if TokenKind_eqb (kind t) k then Ok (true, stepped s) else Ok (false, s).
Proof.
  intros H. unfold match_, bind. rewrite (peekKind_at _ _ H).
  destruct (TokenKind_eqb (kind t) k); [|reflexivity].
  rewrite (advance_at _ _ H). reflexivity.
Qed.

Lemma matchWord_at (w : jsstring) (s : PState) (t : Token) :
  nth_error tokens (cursor s) = Some t ->
  matchWord tokens w s =
  if TokenKind_eqb (kind t) Identifier && jseq (text t) w
  then Ok (true, stepped s) else Ok (false, s).
Proof.
  intros H. unfold matchWord, bind. rewrite (peekKind_at _ _ H).
  destruct (TokenKind_eqb (kind t) Identifier); [|reflexivity].
  rewrite (peekText_at _ _ H). cbn [andb].
  destruct (jseq (text t) w); [|reflexivity].
  rewrite (advance_at _ _ H). reflexivity.
Qed.

(** [skipToEol] stops on the first [NewLine] or [EndOfFile] token at or
    after the cursor, having changed nothing but the cursor. *)
Lemma skipToEol_spec :
  forall fuel s s',
    skipToEol tokens fuel s = Ok (tt, s') ->
    depth s' = depth s /\ out s' = out s /\ cursor s <= cursor s' /\
    (forall i, cursor s <= i < cursor s' ->
               exists t, nth_error tokens i = Some t /\
                         kind t <> NewLine /\ kind t <> EndOfFile) /\
    (exists t, nth_error tokens (cursor s') = Some t /\
               (kind t = NewLine \/ kind t = EndOfFile)).
Proof.
  induction fuel as [|fuel IH]; intros s s' H; [discriminate|].
  cbn [skipToEol] in H.
  apply bind_Ok in H. destruct H as (k & s1 & Hk & H).
  apply peekKind_Ok in Hk. destruct Hk as (-> & t & Hn & <-).
  destruct (TokenKind_eqb (kind t) NewLine) eqn:Enl;
    [| destruct (TokenKind_eqb (kind t) EndOfFile) eqn:Eeof].
  - cbn in H. apply ret_Ok in H. injection H as <-.
    apply TokenKind_eqb_eq in Enl.
    split; [reflexivity|]. split; [reflexivity|]. split; [lia|].
    split; [intros i Hi; lia|].
    exists t; split; [exact Hn | left; exact Enl].
  - cbn in H. apply ret_Ok in H. injection H as <-.
    apply TokenKind_eqb_eq in Eeof.
    split; [reflexivity|]. split; [reflexivity|]. split; [lia|].
    split; [intros i Hi; lia|].
    exists t; split; [exact Hn | right; exact Eeof].
  - cbn [negb andb] in H.
    apply bind_Ok in H. destruct H as (t' & s2 & Ha & H).
    apply advance_Ok in Ha. destruct Ha as [-> _].
    apply IH in H. cbn [stepped cursor depth out] in H.
    destruct H as (Hd & Ho & Hc & Hall & Hend).
    apply TokenKind_eqb_neq in Enl, Eeof.
    split; [exact Hd|]. split; [exact Ho|]. split; [lia|].
    split; [|exact Hend].
    intros i Hi.
    destruct (Nat.eq_dec i (cursor s)) as [->|Hne].
    + exists t. repeat split; assumption.
    + apply Hall. lia.
Qed.

End PrimitiveFacts.

(* ------------------------------------------------------------------ *)
(** ** The gem/pod branch of the dispatcher *)

Section GemBranch.

Variable tokens : list Token.

Lemma skipLine_at_eol (fuel : nat) (s s' : PState) (t : Token) :
  nth_error tokens (cursor s) = Some t ->
  kind t = NewLine \/ kind t = EndOfFile ->
  skipLine tokens fuel s = Ok (tt, s') ->
  out s' = out s /\
  cursor s' = if TokenKind_eqb (kind t) NewLine then S (cursor s) else cursor s.
Proof.
  intros Hn Hk H. unfold skipLine in H.
  apply bind_Ok in H. destruct H as (b & s1 & Hif & H).
  rewrite (match_at tokens If s t Hn) in Hif.
  assert (Hnot : TokenKind_eqb (kind t) If = false)
    by (destruct Hk as [-> | ->]; reflexivity).
  rewrite Hnot in Hif. injection Hif as Hb Hs1. subst b s1.
  apply bind_Ok in H. destruct H as ([] & s2 & Hr & H).
  apply ret_Ok in Hr. injection Hr as Hs2. subst s2.
  apply bind_Ok in H. destruct H as ([] & s3 & Hskip & H).
  apply skipToEol_spec in Hskip.
  destruct Hskip as (Hd & Ho & Hc & Hall & _).
  assert (Hcur : cursor s3 = cursor s).
  { destruct (Nat.eq_dec (cursor s3) (cursor s)) as [E|E]; [exact E|].
    destruct (Hall (cursor s)) as (t0 & Hn0 & Hnl & Heof); [lia|].
    rewrite Hn in Hn0. injection Hn0 as Ht0. subst t0.
    destruct Hk; contradiction. }
  apply bind_Ok in H. destruct H as (b & s4 & Hnl & H).
  assert (Hn3 : nth_error tokens (cursor s3) = Some t) by (rewrite Hcur; exact Hn).
  rewrite (match_at tokens NewLine s3 t Hn3) in Hnl.
  apply ret_Ok in H. injection H as Hs'. subst s'.
  destruct (TokenKind_eqb (kind t) NewLine); injection Hnl as Hb Hs4; subst b s4;
    cbn [stepped out cursor]; split; congruence.
Qed.

(** What [statement] does on a [gem] or [pod] identifier: it reads the
    declaration [d] with [parseDecl], looks at the kind [k] of the token
    that follows, and appends either [d] or [d] without its groups to the
    list chosen by [hasDevGroups d]; after a trailing [if] the cursor is
    left just past the end of the line. *)
Lemma statement_gem (fuel : nat) (outer pls : list jsstring)
      (s s' : PState) (t : Token) :
  nth_error tokens (cursor s) = Some t ->
  kind t = Identifier ->
  text t = js "gem" \/ text t = js "pod" ->
  statement tokens (S fuel) outer pls s = Ok (tt, s') ->
  exists d s1 tk,
    parseDecl tokens fuel outer pls (stepped s) = Ok (d, s1) /\
    nth_error tokens (cursor s1) = Some tk /\
    let emitted :=
      if TokenKind_eqb (kind tk) If then deleteGroups d
      else if hasDevGroups d then deleteGroups d else d in
    (if hasDevGroups d
     then development (out s') = development (out s) ++ [emitted] /\
          runtime (out s') = runtime (out s)
     else runtime (out s') = runtime (out s) ++ [emitted] /\
          development (out s') = development (out s)) /\
    (kind tk = If ->
     exists j tj,
       cursor s1 < j /\
       (forall i, cursor s1 < i < j ->
                  exists ti, nth_error tokens i = Some ti /\
                             kind ti <> NewLine /\ kind ti <> EndOfFile) /\
       nth_error tokens j = Some tj /\
       ((kind tj = NewLine /\ cursor s' = S j) \/
        (kind tj = EndOfFile /\ cursor s' = j))).
Proof.
  intros Hn Hkind Htext H.
  cbn [statement] in H.
  apply bind_Ok in H. destruct H as (isGem & s0 & Hgem & H).
  assert (Hstep : isGem = true /\ s0 = stepped s).
  { unfold orM, bind in Hgem.
    rewrite (matchWord_at tokens (js "gem") s t Hn) in Hgem.
    rewrite Hkind in Hgem. cbn [TokenKind_eqb andb] in Hgem.
    destruct Htext as [Ht | Ht]; rewrite Ht in Hgem.
    - cbn in Hgem. injection Hgem as Hb Hs0. split; congruence.
    - change (jseq (js "pod") (js "gem")) with false in Hgem. cbv iota in Hgem.
      rewrite (matchWord_at tokens (js "pod") s t Hn) in Hgem.
      rewrite Hkind, Ht in Hgem. cbn in Hgem.
      injection Hgem as Hb Hs0. split; congruence. }
  destruct Hstep as [Hb Hs0]. subst isGem s0.
  apply bind_Ok in H. destruct H as (d & s1 & Hd & H).
  pose proof (pureOut_parseDecl tokens fuel outer pls (stepped s)) as Hpure.
  unfold post in Hpure. rewrite Hd in Hpure. cbn [stepped out] in Hpure.
  cbv zeta in H.
  apply bind_Ok in H. destruct H as (k & s2 & Hk & H).
  apply peekKind_Ok in Hk. destruct Hk as (Hs2 & tk & Hntk & Hkk). subst s2 k.
  apply bind_Ok in H. destruct H as (emitted & s3 & Hem & H).
  apply bind_Ok in H. destruct H as ([] & s4 & Hpush & H).
  apply pushDecl_Ok in Hpush. destruct Hpush as (Hc4 & Ho4).
  exists d, s1, tk. split; [exact Hd|]. split; [exact Hntk|].
  cbv zeta.
  destruct (TokenKind_eqb (kind tk) If) eqn:Eif.
  - (* trailing conditional *)
    apply bind_Ok in Hem. destruct Hem as (ift & s5 & Hadv & Hem).
    apply advance_Ok in Hadv. destruct Hadv as [Hs5 _]. subst s5.
    apply bind_Ok in Hem. destruct Hem as ([] & s6 & Hskip & Hem).
    apply ret_Ok in Hem. injection Hem as Hemitted Hs6. subst emitted s6.
    apply skipToEol_spec in Hskip. cbn [stepped cursor depth out] in Hskip.
    destruct Hskip as (_ & Ho & Hc & Hall & (tj & Hntj & Htj)).
    rewrite <- Hc4 in Hntj.
    destruct (skipLine_at_eol fuel s4 s' tj Hntj Htj H) as [Hout Hcur].
    assert (Hdd : deleteGroups (if hasDevGroups d then deleteGroups d else d)
                  = deleteGroups d) by (destruct (hasDevGroups d); reflexivity).
    rewrite Hdd in Ho4.
    split.
    + rewrite Hout, Ho4, Ho, Hpure. unfold appendDecl.
      destruct (hasDevGroups d); cbn; split; reflexivity.
    + intros _. exists (cursor s3), tj.
      split; [lia|]. split; [intros i Hi; apply Hall; lia|].
      rewrite Hc4 in Hntj, Hcur.
      split; [exact Hntj|].
      destruct Htj as [Hnl | Heof].
      * left. rewrite Hnl in Hcur. cbn in Hcur. split; assumption.
      * right. rewrite Heof in Hcur. cbn in Hcur. split; assumption.
  - (* no trailing conditional *)
    apply ret_Ok in Hem. injection Hem as Hemitted Hs3. subst emitted s3.
    pose proof (pureOut_skipLine tokens fuel s4) as Hline.
    unfold post in Hline. rewrite H in Hline.
    split.
    + rewrite Hline, Ho4, Hpure. unfold appendDecl.
      destruct (hasDevGroups d); cbn; split; reflexivity.
    + intros Hk. apply TokenKind_eqb_neq in Eif. contradiction.
Qed.

End GemBranch.

(* ------------------------------------------------------------------ *)
(** ** The declaration that the tokens spell *)

Lemma cursorOnly_refl (s : PState) : cursorOnly s s.
Proof. split; reflexivity. Qed.

Lemma cursorOnly_trans (s1 s2 s3 : PState) :
  cursorOnly s1 s2 -> cursorOnly s2 s3 -> cursorOnly s1 s3.
Proof. intros [A B] [C D]. split; congruence. Qed.

Lemma cursorOnly_stepped (s : PState) : cursorOnly s (stepped s).
Proof. split; reflexivity. Qed.

Lemma readInto_nil (a : DeclArgs) : readInto a [] = a.
Proof.
  destruct a. unfold readInto. cbn. rewrite !app_nil_r. reflexivity.
Qed.

Lemma lastValue_cons (keys : list jsstring) (x : Argument)
      (l : list Argument) :
  lastValue keys (x :: l) =
  match lastValue keys l with
  | Some v => Some v
  | None => lastValue keys [x]
  end.
Proof.
  cbn [lastValue]. destruct (lastValue keys l); reflexivity.
Qed.

Lemma readInto_cons (a : DeclArgs) (x : Argument) (l : list Argument) :
  readInto (readInto a [x]) l = readInto a (x :: l).
Proof.
  unfold readInto, gitOf, pathOf, requireOf.
  rewrite !(lastValue_cons _ x l).
  cbn [a_versions a_git a_path a_req a_inlineGroups a_inlinePlatforms flat_map].
  rewrite !app_nil_r, <- !app_assoc.
  f_equal.
  - destruct (lastValue [js "git"; js "github"] l); reflexivity.
  - destruct (lastValue [js "path"] l); reflexivity.
  - destruct (lastValue [js "require"] l); reflexivity.
Qed.

Ltac eta_args :=
  match goal with
  | |- ?x = mkArgs _ _ _ _ _ _ => destruct x; reflexivity
  | |- mkArgs _ _ _ _ _ _ = ?x => destruct x; reflexivity
  end.

Ltac readInto_one :=
  unfold readInto, gitOf, pathOf, requireOf;
  cbn [flat_map versionsOf groupsOf platformsOf lastValue option_map
       existsb orb];
  rewrite ?app_nil_r; try reflexivity.

Section Reading.

Variable tokens : list Token.

Lemma match_reads (k : TokenKind) (s s' : PState) (b : bool) :
  match_ tokens k s = Ok (b, s') ->
  exists t, nth_error tokens (cursor s) = Some t /\
            b = hasKind k t /\
            s' = if b then stepped s else s.
Proof.
  intros H. unfold match_ in H.
  apply bind_Ok in H. destruct H as (k' & s1 & Hk & H).
  apply peekKind_Ok in Hk. destruct Hk as (-> & t & Hn & <-).
  exists t. split; [exact Hn|]. unfold hasKind.
  destruct (TokenKind_eqb (kind t) k).
  - apply bind_Ok in H. destruct H as (t0 & s2 & Ha & H).
    apply advance_Ok in Ha. destruct Ha as [-> _].
    apply ret_Ok in H. injection H as Hr1 Hr2; subst. split; reflexivity.
  - apply ret_Ok in H. injection H as Hr1 Hr2; subst. split; reflexivity.
Qed.

Lemma optional_reads (k : TokenKind) (s s' : PState) (b : bool) :
  match_ tokens k s = Ok (b, s') ->
  optionalAt tokens k (cursor s) (cursor s') /\ cursorOnly s s'.
Proof.
  intros H. apply match_reads in H. destruct H as (t & Hn & -> & ->).
  split.
  - exists t. split; [exact Hn|]. destruct (hasKind k t); reflexivity.
  - destruct (hasKind k t); [apply cursorOnly_stepped | apply cursorOnly_refl].
Qed.

Lemma separator_reads (s s' : PState) (b : bool) :
  orM (match_ tokens Equals) (match_ tokens Colon) s = Ok (b, s') ->
  exists t, nth_error tokens (cursor s) = Some t /\
            b = isSeparator t /\
            s' = if b then stepped s else s.
Proof.
  intros H. unfold orM in H.
  apply bind_Ok in H. destruct H as (x & s1 & Hx & H).
  apply match_reads in Hx. destruct Hx as (t & Hn & -> & ->).
  exists t. split; [exact Hn|]. unfold isSeparator.
  destruct (hasKind Equals t) eqn:E.
  - apply ret_Ok in H. injection H as Hr1 Hr2; subst. split; reflexivity.
  - apply match_reads in H. destruct H as (t' & Hn' & -> & ->).
    rewrite Hn in Hn'. injection Hn' as <-. split; reflexivity.
Qed.

(** The loop over a bracketed list reads a comma list. *)
Lemma listItems_reads (k : TokenKind) (conv : jsstring -> jsstring) :
  forall fuel arr s arr' s',
    listItems tokens fuel k conv arr s = Ok (arr', s') ->
    exists ts,
      commaList tokens (hasKind k) (cursor s) ts (cursor s') /\
      arr' = arr ++ map (fun t => conv (text t)) ts /\
      cursorOnly s s'.
Proof.
  induction fuel as [|fuel IH]; intros arr s arr' s' H; [discriminate|].
  cbn [listItems] in H.
  apply bind_Ok in H. destruct H as (k' & s1 & Hk & H).
  apply peekKind_Ok in Hk. destruct Hk as (-> & t & Hn & <-).
  destruct (TokenKind_eqb (kind t) k) eqn:E.
  - apply bind_Ok in H. destruct H as (t0 & s2 & Ha & H).
    apply advance_Ok in Ha. destruct Ha as [-> Hn0].
    rewrite Hn in Hn0. injection Hn0 as <-.
    apply bind_Ok in H. destruct H as (b & s3 & Hc & H).
    apply match_reads in Hc. destruct Hc as (t' & Hn' & -> & ->).
    cbn [stepped cursor] in Hn'.
    destruct (hasKind Comma t') eqn:Ec.
    + apply IH in H. destruct H as (ts & Hl & -> & Hs).
      exists (t :: ts). split; [|split].
      * apply (cl_more tokens _ _ t t'); assumption.
      * cbn [map]. rewrite <- app_assoc. reflexivity.
      * exact Hs.
    + apply ret_Ok in H. injection H as Hr1 Hr2; subst.
      exists [t]. split; [|split].
      * apply (cl_last tokens _ _ t t'); assumption.
      * reflexivity.
      * apply cursorOnly_stepped.
  - apply ret_Ok in H. injection H as Hr1 Hr2; subst.
    exists []. split; [|split].
    + apply (cl_none tokens _ _ t); assumption.
    + cbn. rewrite app_nil_r. reflexivity.
    + apply cursorOnly_refl.
Qed.

(** So does the loop of [labels]. *)
Lemma labelsLoop_reads :
  forall fuel arr s arr' s',
    labelsLoop tokens fuel arr s = Ok (arr', s') ->
    exists ts,
      commaList tokens isLabel (cursor s) ts (cursor s') /\
      arr' = arr ++ map labelText ts /\
      cursorOnly s s'.
Proof.
  induction fuel as [|fuel IH]; intros arr s arr' s' H; [discriminate|].
  cbn [labelsLoop] in H.
  apply bind_Ok in H. destruct H as (k' & s1 & Hk & H).
  apply peekKind_Ok in Hk. destruct Hk as (-> & t & Hn & <-).
  assert (Hitem :
            forall lbl,
              isLabel t = true -> lbl = labelText t ->
              bind (advance tokens)
                   (fun t0 =>
                      bind (match_ tokens Comma)
                           (fun b => if b
                                     then labelsLoop tokens fuel (arr ++ [lbl])
                                     else ret (arr ++ [lbl]))) s
              = Ok (arr', s') ->
              exists ts,
                commaList tokens isLabel (cursor s) ts (cursor s') /\
                arr' = arr ++ map labelText ts /\ cursorOnly s s').
  { intros lbl Hl -> H1.
    apply bind_Ok in H1. destruct H1 as (t0 & s2 & Ha & H1).
    apply advance_Ok in Ha. destruct Ha as [-> _].
    apply bind_Ok in H1. destruct H1 as (b & s3 & Hc & H1).
    apply match_reads in Hc. destruct Hc as (t' & Hn' & -> & ->).
    cbn [stepped cursor] in Hn'.
    destruct (hasKind Comma t') eqn:Ec.
    - apply IH in H1. destruct H1 as (ts & Hcl & -> & Hs).
      exists (t :: ts). split; [|split].
      + apply (cl_more tokens _ _ t t'); assumption.
      + cbn [map]. rewrite <- app_assoc. reflexivity.
      + exact Hs.
    - apply ret_Ok in H1. injection H1 as Hr1 Hr2; subst.
      exists [t]. split; [|split].
      + apply (cl_last tokens _ _ t t'); assumption.
      + reflexivity.
      + apply cursorOnly_stepped. }
  destruct (TokenKind_eqb (kind t) Symbol || TokenKind_eqb (kind t) String_)
    eqn:E1.
  - apply bind_Ok in H. destruct H as (t0 & s2 & Ha & H).
    pose proof Ha as Ha'. apply advance_Ok in Ha'. destruct Ha' as [_ Hn0].
    rewrite Hn in Hn0. injection Hn0 as <-.
    apply (Hitem (strip (text t))).
    + unfold isLabel, hasKind. rewrite E1. reflexivity.
    + unfold labelText, hasKind.
      destruct (kind t); try reflexivity; discriminate.
    + unfold bind at 1. rewrite Ha. exact H.
  - destruct (TokenKind_eqb (kind t) Identifier) eqn:E2.
    + apply bind_Ok in H. destruct H as (t0 & s2 & Ha & H).
      pose proof Ha as Ha'. apply advance_Ok in Ha'. destruct Ha' as [_ Hn0].
      rewrite Hn in Hn0. injection Hn0 as <-.
      apply (Hitem (text t)).
      * unfold isLabel, hasKind. rewrite E2. apply orb_true_r.
      * unfold labelText, hasKind. rewrite E2. reflexivity.
      * unfold bind at 1. rewrite Ha. exact H.
    + apply ret_Ok in H. injection H as Hr1 Hr2; subst.
      exists []. split; [|split].
      * apply (cl_none tokens _ _ t); [exact Hn|].
        unfold isLabel, hasKind. rewrite E1, E2. reflexivity.
      * cbn. rewrite app_nil_r. reflexivity.
      * apply cursorOnly_refl.
Qed.


Lemma keyOf_reads (s s' : PState) (t : Token) (key : option jsstring) :
  nth_error tokens (cursor s) = Some t ->
  (if TokenKind_eqb (kind t) Symbol
   then bind (advance tokens)
             (fun t0 => ret (Some (dropLeadingColon (strip (text t0)))))
   else if TokenKind_eqb (kind t) Identifier
        then bind (advance tokens) (fun t0 => ret (Some (text t0)))
        else ret None) s = Ok (key, s') ->
  key = keyOf t /\
  s' = match key with Some _ => stepped s | None => s end.
Proof.
  intros Hn H. unfold keyOf, hasKind.
  destruct (TokenKind_eqb (kind t) Symbol);
    [| destruct (TokenKind_eqb (kind t) Identifier)].
  - unfold bind in H. rewrite (advance_at tokens s t Hn) in H.
    apply ret_Ok in H. injection H as Hr1 Hr2; subst. split; reflexivity.
  - unfold bind in H. rewrite (advance_at tokens s t Hn) in H.
    apply ret_Ok in H. injection H as Hr1 Hr2; subst. split; reflexivity.
  - apply ret_Ok in H. injection H as Hr1 Hr2; subst. split; reflexivity.
Qed.

(** What follows a key and its separator. *)
Lemma declValue_reads (fuel : nat) (key : jsstring) (a a' : DeclArgs)
      (s s' : PState) (c : nat) (t sep : Token) :
  nth_error tokens c = Some t -> keyOf t = Some key ->
  nth_error tokens (S c) = Some sep -> isSeparator sep = true ->
  cursor s = S (S c) ->
  declValue tokens fuel key a s = Ok (a', s') ->
  cursorOnly s s' /\
  exists x, argument tokens c x (cursor s') /\ a' = readInto a [x].
Proof.
  intros Hn Hkey Hsep Hissep Hc H. unfold declValue in H.
  destruct (jseq key (js "group")) eqn:Eg.
  { apply jseq_eq in Eg. subst key.
    apply bind_Ok in H. destruct H as (k & s1 & Hk & H).
    apply peekKind_Ok in Hk. destruct Hk as (-> & v & Hv & <-).
    rewrite Hc in Hv.
    destruct (TokenKind_eqb (kind v) Identifier) eqn:Ei.
    - apply bind_Ok in H. destruct H as (v0 & s2 & Ha & H).
      apply advance_Ok in Ha. destruct Ha as [-> Hv0].
      rewrite Hc, Hv in Hv0. injection Hv0 as <-.
      apply ret_Ok in H. injection H as Hr1 Hr2; subst.
      split; [apply cursorOnly_stepped|].
      exists (Group (Some v)). cbn [stepped cursor]. rewrite Hc. split.
      + apply (arg_group tokens c t sep v); try assumption.
        unfold isGroupValue, hasKind. rewrite Ei. reflexivity.
      + readInto_one. unfold labelText, hasKind. rewrite Ei. reflexivity.
    - destruct (TokenKind_eqb (kind v) Symbol) eqn:Ey.
      + apply bind_Ok in H. destruct H as (v0 & s2 & Ha & H).
        apply advance_Ok in Ha. destruct Ha as [-> Hv0].
        rewrite Hc, Hv in Hv0. injection Hv0 as <-.
        apply ret_Ok in H. injection H as Hr1 Hr2; subst.
        split; [apply cursorOnly_stepped|].
        exists (Group (Some v)). cbn [stepped cursor]. rewrite Hc. split.
        * apply (arg_group tokens c t sep v); try assumption.
          unfold isGroupValue, hasKind. rewrite Ey. apply orb_true_r.
        * readInto_one. unfold labelText, hasKind. rewrite Ei. reflexivity.
      + apply ret_Ok in H. injection H as Hr1 Hr2; subst.
        split; [apply cursorOnly_refl|].
        exists (Group None). rewrite Hc. split.
        * apply (arg_group_none tokens c t sep v); try assumption.
          unfold isGroupValue, hasKind. rewrite Ei, Ey. reflexivity.
        * readInto_one. eta_args. }
  destruct (jseq key (js "platforms")) eqn:Ep.
  { apply jseq_eq in Ep. subst key.
    apply bind_Ok in H. destruct H as (b & s1 & Hb & H).
    apply match_reads in Hb. destruct Hb as (br & Hbr & -> & ->).
    rewrite Hc in Hbr.
    destruct (hasKind LeftBracket br) eqn:Eb.
    - apply bind_Ok in H. destruct H as (pls & s2 & Hl & H).
      apply listItems_reads in Hl. destruct Hl as (ts & Hcl & -> & Hs2).
      cbn [stepped cursor] in Hcl. rewrite Hc in Hcl.
      apply bind_Ok in H. destruct H as (b2 & s3 & Hrb & H).
      apply optional_reads in Hrb. destruct Hrb as [Hopt Hs3].
      apply ret_Ok in H. injection H as Hr1 Hr2; subst.
      split.
      + apply (cursorOnly_trans s (stepped s)); [apply cursorOnly_stepped|].
        apply (cursorOnly_trans _ s2); assumption.
      + exists (Platforms ts). split.
        * apply (arg_platforms tokens c t sep br ts (cursor s2));
            assumption.
        * readInto_one.
    - apply ret_Ok in H. injection H as Hr1 Hr2; subst.
      split; [apply cursorOnly_refl|].
      exists (Platforms []). rewrite Hc. split.
      + apply (arg_platforms_none tokens c t sep br); assumption.
      + readInto_one. eta_args. }
  apply bind_Ok in H. destruct H as (v & s1 & Ha & H).
  apply advance_Ok in Ha. destruct Ha as [-> Hv]. rewrite Hc in Hv.
  split.
  { cbv zeta in H.
    destruct (jseq key (js "git") || jseq key (js "github"));
      [| destruct (jseq key (js "path"));
         [| destruct (jseq key (js "require"))]];
      apply ret_Ok in H; injection H as Hr1 Hr2; subst;
      apply cursorOnly_stepped. }
  exists (Pair key v).
  assert (Hcur : cursor s' = S (S (S c))).
  { cbv zeta in H.
    destruct (jseq key (js "git") || jseq key (js "github"));
      [| destruct (jseq key (js "path"));
         [| destruct (jseq key (js "require"))]];
      apply ret_Ok in H; injection H as Hr1 Hr2; subst;
      cbn [stepped cursor]; rewrite Hc; reflexivity. }
  rewrite Hcur. split.
  { apply (arg_pair tokens c t key sep v); assumption. }
  cbv zeta in H.
  unfold readInto, gitOf, pathOf, requireOf.
  cbn [flat_map versionsOf groupsOf platformsOf lastValue option_map existsb].
  rewrite !app_nil_r, !orb_false_r.
  destruct (jseq key (js "git") || jseq key (js "github")) eqn:E1.
  { apply ret_Ok in H. injection H as Hr1 Hr2; subst.
    assert (jseq key (js "path") = false /\ jseq key (js "require") = false)
      as [-> ->].
    { apply orb_true_iff in E1. destruct E1 as [E|E]; apply jseq_eq in E;
        subst key; split; reflexivity. }
    reflexivity. }
  destruct (jseq key (js "path")) eqn:E2.
  { apply ret_Ok in H. injection H as Hr1 Hr2; subst.
    assert (jseq key (js "require") = false) as ->.
    { apply jseq_eq in E2. subst key. reflexivity. }
    reflexivity. }
  destruct (jseq key (js "require")) eqn:E3.
  { apply ret_Ok in H. injection H as Hr1 Hr2; subst. reflexivity. }
  apply ret_Ok in H. injection H as Hr1 Hr2; subst.
  eta_args.
Qed.


(** One round of the argument loop, after its comma. *)
Lemma declArg_reads (fuel : nat) (a a' : DeclArgs) (s s' : PState)
      (b : bool) :
  declArg tokens fuel a s = Ok ((b, a'), s') ->
  cursorOnly s s' /\
  if b
  then exists x, argument tokens (cursor s) x (cursor s') /\
                 a' = readInto a [x]
  else strayAt tokens (cursor s) (cursor s') /\ a' = a.
Proof.
  intros H. unfold declArg in H.
  apply bind_Ok in H. destruct H as (k & s1 & Hk & H).
  apply peekKind_Ok in Hk. destruct Hk as (-> & t & Hn & <-).
  destruct (TokenKind_eqb (kind t) String_) eqn:Es.
  { apply bind_Ok in H. destruct H as (t0 & s2 & Ha & H).
    apply advance_Ok in Ha. destruct Ha as [-> Hn0].
    rewrite Hn in Hn0. injection Hn0 as <-.
    apply ret_Ok in H. injection H as Hr1 Hr2 Hr3; subst.
    split; [apply cursorOnly_stepped|].
    exists (Version t). split.
    - apply (arg_version tokens (cursor s) t); assumption.
    - readInto_one. }
  apply bind_Ok in H. destruct H as (br & s1 & Hb & H).
  apply match_reads in Hb. destruct Hb as (t1 & Hn1 & -> & ->).
  rewrite Hn in Hn1. injection Hn1 as <-.
  destruct (hasKind LeftBracket t) eqn:Eb.
  { apply bind_Ok in H. destruct H as (vs & s2 & Hl & H).
    apply listItems_reads in Hl. destruct Hl as (ts & Hcl & -> & Hs2).
    cbn [stepped cursor] in Hcl.
    apply bind_Ok in H. destruct H as (b2 & s3 & Hrb & H).
    apply optional_reads in Hrb. destruct Hrb as [Hopt Hs3].
    apply ret_Ok in H. injection H as Hr1 Hr2 Hr3; subst.
    split.
    - apply (cursorOnly_trans s (stepped s)); [apply cursorOnly_stepped|].
      apply (cursorOnly_trans _ s2); assumption.
    - exists (VersionList ts). split.
      + apply (arg_versionList tokens (cursor s) t ts (cursor s2));
          assumption.
      + readInto_one. }
  apply bind_Ok in H. destruct H as (k & s1 & Hk & H).
  apply peekKind_Ok in Hk. destruct Hk as (-> & t1 & Hn1 & <-).
  rewrite Hn in Hn1. injection Hn1 as <-.
  apply bind_Ok in H. destruct H as (key & s1 & Hkey & H).
  apply (keyOf_reads s s1 t key Hn) in Hkey.
  destruct Hkey as [Hkey ->].
  destruct key as [key|].
  2:{ apply ret_Ok in H. injection H as Hr1 Hr2 Hr3; subst.
      split; [apply cursorOnly_refl|]. split; [|reflexivity].
      exists t. split; [exact Hn|]. split; [exact Es|]. split; [exact Eb|].
      left. split; [symmetry; exact Hkey | reflexivity]. }
  apply bind_Ok in H. destruct H as (sep & s2 & Hsep & H).
  apply separator_reads in Hsep. destruct Hsep as (ts & Hns & -> & ->).
  cbn [stepped cursor] in Hns.
  destruct (isSeparator ts) eqn:Esep; cbn [negb] in H.
  - apply bind_Ok in H. destruct H as (a1 & s3 & Hv & H).
    apply ret_Ok in H. injection H as Hr1 Hr2 Hr3. subst b a' s'.
    apply (declValue_reads fuel key a a1 (stepped (stepped s)) s3
                           (cursor s) t ts Hn (eq_sym Hkey) Hns Esep eq_refl)
      in Hv.
    destruct Hv as [Hs Hx]. split; [exact Hs | exact Hx].
  - apply ret_Ok in H. injection H as Hr1 Hr2 Hr3; subst.
    split; [apply cursorOnly_stepped|]. split; [|reflexivity].
    exists t. split; [exact Hn|]. split; [exact Es|]. split; [exact Eb|].
    right. split; [rewrite <- Hkey; discriminate|].
    exists ts. split; [exact Hns|]. split; [exact Esep | reflexivity].
Qed.

(** The argument loop reads the arguments that the tokens spell. *)
Lemma declArgs_reads :
  forall fuel a s a' s',
    declArgs tokens fuel a s = Ok (a', s') ->
    cursorOnly s s' /\
    exists args,
      arguments tokens (cursor s) args (cursor s') /\
      a' = readInto a args.
Proof.
  induction fuel as [|fuel IH]; intros a s a' s' H; [discriminate|].
  cbn [declArgs] in H.
  apply bind_Ok in H. destruct H as (b & s1 & Hc & H).
  apply match_reads in Hc. destruct Hc as (t & Hn & -> & ->).
  destruct (hasKind Comma t) eqn:Ec.
  - apply bind_Ok in H. destruct H as ([b a1] & s2 & Harg & H).
    apply declArg_reads in Harg. destruct Harg as [Hs2 Harg].
    cbn [stepped cursor] in Harg. cbn [fst snd] in H.
    destruct b.
    + destruct Harg as (x & Hx & ->).
      apply IH in H. destruct H as [Hs' (args & Hargs & ->)].
      split.
      * apply (cursorOnly_trans s s2); [exact Hs2 | exact Hs'].
      * exists (x :: args). split.
        -- apply (args_cons tokens (cursor s) t x (cursor s2)); assumption.
        -- apply readInto_cons.
    + destruct Harg as [Hstray ->].
      apply ret_Ok in H. injection H as Hr1 Hr2; subst.
      split; [exact Hs2|].
      exists []. split.
      * apply (args_stray tokens (cursor s) t); assumption.
      * symmetry. apply readInto_nil.
  - apply ret_Ok in H. injection H as Hr1 Hr2; subst.
    split; [apply cursorOnly_refl|].
    exists []. split.
    + apply (args_end tokens (cursor s) t); assumption.
    + symmetry. apply readInto_nil.
Qed.

Lemma freeze_reads (s s' : PState) (b : bool) :
  andM (match_ tokens Dot) (matchWord tokens (js "freeze")) s = Ok (b, s') ->
  freezeAt tokens (cursor s) (cursor s') /\ cursorOnly s s'.
Proof.
  intros H. unfold andM in H.
  apply bind_Ok in H. destruct H as (x & s1 & Hd & H).
  apply match_reads in Hd. destruct Hd as (t & Hn & -> & ->).
  destruct (hasKind Dot t) eqn:Ed.
  - destruct (nth_error tokens (S (cursor s))) as [t'|] eqn:Hn'.
    + rewrite (matchWord_at tokens (js "freeze") (stepped s) t' Hn') in H.
      split.
      * exists t. split; [exact Hn|]. right. split; [exact Ed|].
        exists t'. split; [exact Hn'|]. unfold hasKind.
        destruct (TokenKind_eqb (kind t') Identifier && jseq (text t') (js "freeze"));
          injection H as Hr1 Hr2; subst; reflexivity.
      * destruct (TokenKind_eqb (kind t') Identifier && jseq (text t') (js "freeze"));
          injection H as Hr1 Hr2; subst; split; reflexivity.
    + assert (Hpk : peekKind tokens (stepped s) = TypeError)
        by (unfold peekKind, bind, peek; cbn [stepped cursor];
            rewrite Hn'; reflexivity).
      unfold matchWord in H. unfold bind at 1 in H.
      rewrite Hpk in H. discriminate.
  - apply ret_Ok in H. injection H as Hr1 Hr2; subst.
    split; [|apply cursorOnly_refl].
    exists t. split; [exact Hn|]. left. split; [exact Ed | reflexivity].
Qed.

Lemma readInto_declared (groups platforms : list jsstring) (nameTok : Token)
      (args : list Argument) :
  let a := readInto (mkArgs [] None None None [] []) args in
  mkDecl (labelText nameTok) (map formatVersion (a_versions a))
         (a_git a) (a_path a) (a_req a)
         (Some (groups ++ a_inlineGroups a))
         (platforms ++ a_inlinePlatforms a)
  = declared groups platforms nameTok args.
Proof.
  unfold readInto, declared. cbn.
  destruct (gitOf args), (pathOf args), (requireOf args); reflexivity.
Qed.

(** [parseDecl] returns the declaration that the tokens spell from the
    cursor on, and leaves the cursor where that declaration ends. *)
Lemma parseDecl_reads (fuel : nat) (groups platforms : list jsstring)
      (s s' : PState) (d : GemDeclaration) :
  parseDecl tokens fuel groups platforms s = Ok (d, s') ->
  cursorOnly s s' /\
  exists nameTok args,
    declaration tokens (cursor s) nameTok args (cursor s') /\
    d = declared groups platforms nameTok args.
Proof.
  intros H. unfold parseDecl in H.
  apply bind_Ok in H. destruct H as (hasParens & s1 & Hp & H).
  apply match_reads in Hp. destruct Hp as (p & Hnp & -> & ->).
  apply bind_Ok in H. destruct H as (nameTok & s2 & Ha & H).
  apply advance_Ok in Ha. destruct Ha as [-> Hname].
  apply bind_Ok in H. destruct H as ([] & s3 & Hchk & H).
  assert (Hlabel : isLabel nameTok = true /\ s3 = stepped (if hasKind LeftParen p then stepped s else s)).
  { unfold isLabel, hasKind.
    destruct (TokenKind_eqb (kind nameTok) String_) eqn:E1;
      [cbn [negb andb] in Hchk; apply ret_Ok in Hchk;
       apply (f_equal snd) in Hchk; cbn [snd] in Hchk; subst s3; split; [apply orb_true_iff; left; apply orb_true_r
                        | reflexivity]|].
    destruct (TokenKind_eqb (kind nameTok) Symbol) eqn:E2;
      [cbn [negb andb] in Hchk; apply ret_Ok in Hchk;
       apply (f_equal snd) in Hchk; cbn [snd] in Hchk; subst s3; split; reflexivity|].
    destruct (TokenKind_eqb (kind nameTok) Identifier) eqn:E3;
      [cbn [negb andb] in Hchk; apply ret_Ok in Hchk;
       apply (f_equal snd) in Hchk; cbn [snd] in Hchk; subst s3; split; reflexivity|].
    cbn [negb andb] in Hchk. unfold throwError in Hchk.
    cbn [stepped cursor] in Hchk.
    match type of Hchk with
    | context [nth_error tokens ?c] => destruct (nth_error tokens c)
    end; discriminate. }
  destruct Hlabel as [Hlabel ->].
  apply bind_Ok in H. destruct H as (fr & s4 & Hfr & H).
  apply freeze_reads in Hfr. destruct Hfr as [Hfreeze Hs4].
  apply bind_Ok in H. destruct H as (a & s5 & Hargs & H).
  apply declArgs_reads in Hargs. destruct Hargs as [Hs5 (args & Hargs & ->)].
  apply bind_Ok in H. destruct H as (cl & s6 & Hcl & H).
  apply ret_Ok in H. injection H as Hr1 Hr2; subst.
  destruct (hasKind LeftParen p) eqn:Ep.
  - apply optional_reads in Hcl. destruct Hcl as [Hopt Hs6].
    cbn [stepped cursor] in *.
    split.
    + apply (cursorOnly_trans s s4); [exact Hs4|].
      apply (cursorOnly_trans s4 s5); assumption.
    + exists nameTok, args.
      split; [|exact (readInto_declared groups platforms nameTok args)].
      apply (decl_parens tokens (cursor s) p nameTok (cursor s4) args
                         (cursor s5)); assumption.
  - apply ret_Ok in Hcl. injection Hcl as Hr1 Hr2; subst.
    cbn [stepped cursor] in *.
    split.
    + apply (cursorOnly_trans s s4); [exact Hs4 | exact Hs5].
    + exists nameTok, args.
      split; [|exact (readInto_declared groups platforms nameTok args)].
      apply (decl_plain tokens (cursor s) nameTok (cursor s4) args);
        assumption.
Qed.

End Reading.

(** ** The tokens spell one declaration at most *)

(** Makes the tokens that two hypotheses find at one position the same. *)
Ltac same_token :=
  repeat match goal with
         | H1 : nth_error ?l ?c = Some ?a, H2 : nth_error ?l ?c = Some ?b |- _ =>
             assert (a = b) by congruence; subst b; clear H2
         end.

Lemma keyOf_isLabel (t : Token) (key : jsstring) :
  keyOf t = Some key ->
  hasKind String_ t = false /\ hasKind LeftBracket t = false.
Proof.
  unfold keyOf, hasKind. destruct (kind t); try discriminate;
    intros _; split; reflexivity.
Qed.

Lemma commaList_functional (tokens : list Token) (isItem : Token -> bool)
      (c c1 : nat) (ts1 : list Token) :
  commaList tokens isItem c ts1 c1 ->
  forall ts2 c2, commaList tokens isItem c ts2 c2 -> ts1 = ts2 /\ c1 = c2.
Proof.
  induction 1 as [c t Hn Hi | c t t' Hn Hi Hn' Hc | c t t' ts c' Hn Hi Hn' Hc Hl IH];
    intros ts2 c2 H2; inversion H2; subst; same_token;
    try congruence; try (split; reflexivity).
  match goal with
  | H : commaList _ _ (S (S c)) _ _ |- _ => apply IH in H; destruct H as [-> ->]
  end.
  split; reflexivity.
Qed.

Lemma optionalAt_functional (tokens : list Token) (k : TokenKind)
      (c c1 c2 : nat) :
  optionalAt tokens k c c1 -> optionalAt tokens k c c2 -> c1 = c2.
Proof.
  intros (t1 & H1 & ->) (t2 & H2 & ->). same_token. reflexivity.
Qed.

Lemma argument_functional (tokens : list Token) (c c1 c2 : nat)
      (x1 x2 : Argument) :
  argument tokens c x1 c1 -> argument tokens c x2 c2 ->
  x1 = x2 /\ c1 = c2.
Proof.
  intros H1 H2.
  destruct H1; inversion H2; subst; same_token;
    repeat match goal with
           | H : keyOf ?t = Some _ |- _ =>
               lazymatch goal with
               | _ : hasKind String_ t = false |- _ => fail
               | _ => destruct (keyOf_isLabel _ _ H)
               end
           end;
    try congruence;
    try (split; reflexivity);
    try match goal with
        | Ha : keyOf ?t = Some ?k1, Hb : keyOf ?t = Some ?k2 |- _ =>
            assert (k1 = k2) by congruence; subst; discriminate
        end;
    try match goal with
        | Ha : hasKind String_ ?t = true, Hb : hasKind LeftBracket ?t = true
          |- _ =>
            unfold hasKind in Ha, Hb; destruct (kind t); discriminate
        end.
  - match goal with
    | Ha : commaList _ _ ?c ?a _, Hb : commaList _ _ ?c ?b _ |- _ =>
        destruct (commaList_functional _ _ _ _ _ Ha _ _ Hb) as [-> ->]
    end.
    match goal with
    | Ha : optionalAt _ _ ?c ?a, Hb : optionalAt _ _ ?c ?b |- _ =>
        rewrite (optionalAt_functional _ _ _ _ _ Ha Hb)
    end.
    split; reflexivity.
  - match goal with
    | Ha : commaList _ _ ?c ?a _, Hb : commaList _ _ ?c ?b _ |- _ =>
        destruct (commaList_functional _ _ _ _ _ Ha _ _ Hb) as [-> ->]
    end.
    match goal with
    | Ha : optionalAt _ _ ?c ?a, Hb : optionalAt _ _ ?c ?b |- _ =>
        rewrite (optionalAt_functional _ _ _ _ _ Ha Hb)
    end.
    split; reflexivity.
  - match goal with
    | Ha : keyOf ?t = Some ?k1, Hb : keyOf ?t = Some ?k2 |- _ =>
        assert (k1 = k2) by congruence; subst
    end.
    split; reflexivity.
Qed.

Lemma stray_no_argument (tokens : list Token) (c c1 c2 : nat)
      (x : Argument) :
  strayAt tokens c c1 -> argument tokens c x c2 -> False.
Proof.
  intros (t & Hn & Hstr & Hbr & Hkey) Hx.
  destruct Hx; same_token; try congruence;
    destruct Hkey as [[Hnone _] | [_ (sep' & Hsep' & Hs' & _)]];
    same_token; congruence.
Qed.

Lemma strayAt_functional (tokens : list Token) (c c1 c2 : nat) :
  strayAt tokens c c1 -> strayAt tokens c c2 -> c1 = c2.
Proof.
  intros (t1 & Hn1 & _ & _ & H1) (t2 & Hn2 & _ & _ & H2). same_token.
  destruct H1 as [[Ha ->] | [Ha (s1 & _ & _ & ->)]],
           H2 as [[Hb ->] | [Hb (s2 & _ & _ & ->)]];
    try reflexivity; contradiction.
Qed.

Lemma arguments_functional (tokens : list Token) (c c1 : nat)
      (args1 : list Argument) :
  arguments tokens c args1 c1 ->
  forall args2 c2, arguments tokens c args2 c2 -> args1 = args2 /\ c1 = c2.
Proof.
  induction 1 as [c t Hn Hk | c t c' Hn Hk Hstray
                 | c t x c1 args c' Hn Hk Hx Hargs IH];
    intros args2 c2 H2; inversion H2; subst; same_token;
    try congruence; try (split; reflexivity).
  - split; [reflexivity|].
    match goal with
    | H : strayAt _ (S c) c2 |- _ => apply (strayAt_functional _ _ _ _ Hstray H)
    end.
  - exfalso.
    match goal with
    | H : argument _ (S c) _ _ |- _ => apply (stray_no_argument _ _ _ _ _ Hstray H)
    end.
  - exfalso.
    match goal with
    | H : strayAt _ (S c) _ |- _ => apply (stray_no_argument _ _ _ _ _ H Hx)
    end.
  - match goal with
    | H : argument _ (S c) _ _ |- _ =>
        destruct (argument_functional _ _ _ _ _ _ Hx H) as [-> ->]
    end.
    match goal with
    | H : arguments _ _ _ c2 |- _ => apply IH in H; destruct H as [-> ->]
    end.
    split; reflexivity.
Qed.

Lemma freezeAt_functional (tokens : list Token) (c c1 c2 : nat) :
  freezeAt tokens c c1 -> freezeAt tokens c c2 -> c1 = c2.
Proof.
  intros (t1 & Hn1 & H1) (t2 & Hn2 & H2). same_token.
  destruct H1 as [[Ha ->] | [Ha (u1 & Hu1 & ->)]],
           H2 as [[Hb ->] | [Hb (u2 & Hu2 & ->)]];
    same_token; try reflexivity; congruence.
Qed.

(** From one position the tokens spell one declaration at most. *)
Lemma declaration_functional (tokens : list Token) (c c1 c2 : nat)
      (n1 n2 : Token) (args1 args2 : list Argument) :
  declaration tokens c n1 args1 c1 ->
  declaration tokens c n2 args2 c2 ->
  n1 = n2 /\ args1 = args2 /\ c1 = c2.
Proof.
  intros H1 H2.
  destruct H1 as [c n1 f1 args1 c1 Hn1 Hl1 Hf1 Ha1
                 | c p1 n1 f1 args1 e1 c1 Hp1 Hk1 Hn1 Hl1 Hf1 Ha1 Ho1];
    inversion H2; subst; same_token.
  - match goal with
    | H : freezeAt _ _ _ |- _ =>
        pose proof (freezeAt_functional _ _ _ _ Hf1 H); subst; clear H
    end.
    match goal with
    | H : arguments _ _ _ c2 |- _ =>
        destruct (arguments_functional _ _ _ _ Ha1 _ _ H) as [-> ->]
    end.
    repeat split; reflexivity.
  - exfalso. unfold isLabel, hasKind in *. destruct (kind n1); discriminate.
  - exfalso. unfold isLabel, hasKind in *. destruct (kind p1); discriminate.
  - match goal with
    | H : freezeAt _ _ _ |- _ =>
        pose proof (freezeAt_functional _ _ _ _ Hf1 H); subst; clear H
    end.
    match goal with
    | H : arguments _ _ _ _ |- _ =>
        destruct (arguments_functional _ _ _ _ Ha1 _ _ H) as [-> ->]
    end.
    match goal with
    | H : optionalAt _ _ _ c2 |- _ =>
        rewrite (optionalAt_functional _ _ _ _ _ Ho1 H)
    end.
    repeat split; reflexivity.
Qed.

(** ** The head of a block *)

Section Heads.

Variable tokens : list Token.

Lemma labels_reads (fuel : nat) (s s' : PState) (ls : list jsstring) :
  labels tokens fuel s = Ok (ls, s') ->
  cursorOnly s s' /\
  exists ts, commaList tokens isLabel (cursor s) ts (cursor s') /\
             ls = map labelText ts.
Proof.
  unfold labels. intros H. apply labelsLoop_reads in H.
  destruct H as (ts & Hcl & -> & Hs).
  split; [exact Hs|]. exists ts. split; [exact Hcl | reflexivity].
Qed.

(** What [statement] does on the word that opens a block: it reads the
    labels, and if [do] follows it runs the block with them. *)
Lemma statement_head (fuel : nat) (g p : list jsstring) (s s' : PState)
      (t : Token) :
  nth_error tokens (cursor s) = Some t ->
  kind t = Identifier ->
  text t = js "group" \/ text t = js "target" \/ text t = js "platforms" ->
  statement tokens (S fuel) g p s = Ok (tt, s') ->
  exists ts s1 tk,
    commaList tokens isLabel (S (cursor s)) ts (cursor s1) /\
    cursorOnly s s1 /\
    nth_error tokens (cursor s1) = Some tk /\
    if hasKind Do tk
    then (enter tokens ;;;
          (if jseq (text t) (js "platforms")
           then block tokens fuel g (map labelText ts)
           else block tokens fuel (map labelText ts) p) ;;;
          leave) (stepped s1) = Ok (tt, s')
    else s' = s1.
Proof.
  intros Hn Hk Ht H. cbn [statement] in H.
  unfold orM in H. unfold bind at 1 2 in H.
  rewrite (matchWord_at tokens (js "gem") s t Hn), Hk in H.
  cbn [TokenKind_eqb andb] in H.
  assert (Hgem : jseq (text t) (js "gem") = false)
    by (destruct Ht as [-> | [-> | ->]]; reflexivity).
  rewrite Hgem in H. cbv iota in H.
  rewrite (matchWord_at tokens (js "pod") s t Hn), Hk in H.
  cbn [TokenKind_eqb andb] in H.
  assert (Hpod : jseq (text t) (js "pod") = false)
    by (destruct Ht as [-> | [-> | ->]]; reflexivity).
  rewrite Hpod in H. cbv iota in H.
  unfold bind at 1 2 in H.
  rewrite (matchWord_at tokens (js "group") s t Hn), Hk in H.
  cbn [TokenKind_eqb andb] in H.
  assert (Hblock :
            forall (run : list jsstring -> M unit),
              (newGroups <- labels tokens fuel ;;
               d <- match_ tokens Do ;;
               if d then enter tokens ;;; run newGroups ;;; leave
               else ret tt) (stepped s) = Ok (tt, s') ->
              exists ts s1 tk,
                commaList tokens isLabel (S (cursor s)) ts (cursor s1) /\
                cursorOnly s s1 /\
                nth_error tokens (cursor s1) = Some tk /\
                if hasKind Do tk
                then (enter tokens ;;; run (map labelText ts) ;;; leave)
                       (stepped s1) = Ok (tt, s')
                else s' = s1).
  { intros run Hrun.
    apply bind_Ok in Hrun. destruct Hrun as (ls & s1 & Hl & Hrun).
    apply labels_reads in Hl. destruct Hl as [Hs1 (ts & Hcl & ->)].
    apply bind_Ok in Hrun. destruct Hrun as (d & s2 & Hd & Hrun).
    apply match_reads in Hd. destruct Hd as (tk & Hntk & -> & ->).
    exists ts, s1, tk. split; [exact Hcl|]. split; [exact Hs1|].
    split; [exact Hntk|].
    destruct (hasKind Do tk); [exact Hrun|].
    apply ret_Ok in Hrun. injection Hrun as Hr. exact Hr. }
  destruct (jseq (text t) (js "group")) eqn:Egroup.
  { cbv iota in H.
    assert (Hpl : jseq (text t) (js "platforms") = false)
      by (apply jseq_eq in Egroup; rewrite Egroup; reflexivity).
    rewrite Hpl. apply (Hblock (fun l => block tokens fuel l p)). exact H. }
  cbv iota in H.
  rewrite (matchWord_at tokens (js "target") s t Hn), Hk in H.
  cbn [TokenKind_eqb andb] in H.
  destruct (jseq (text t) (js "target")) eqn:Etarget.
  { cbv iota in H.
    assert (Hpl : jseq (text t) (js "platforms") = false)
      by (apply jseq_eq in Etarget; rewrite Etarget; reflexivity).
    rewrite Hpl. apply (Hblock (fun l => block tokens fuel l p)). exact H. }
  cbv iota in H.
  assert (Hpl : text t = js "platforms").
  { destruct Ht as [E | [E | E]]; [| | exact E]; rewrite E in *; discriminate. }
  unfold bind at 1 in H.
  rewrite (matchWord_at tokens (js "platforms") s t Hn), Hk, Hpl in H.
  rewrite Hpl.
  change (TokenKind_eqb Identifier Identifier &&
          jseq (js "platforms") (js "platforms")) with true in H.
  change (jseq (js "platforms") (js "platforms")) with true.
  cbv iota in H |- *.
  apply (Hblock (fun l => block tokens fuel g l)). exact H.
Qed.

End Heads.


Lemma hasDevGroups_Exists (d : GemDeclaration) (gs : list jsstring) :
  groups d = Some gs ->
  (hasDevGroups d = true <-> Exists isDevelopmentGroup gs).
Proof.
  intros Hg. unfold hasDevGroups. rewrite Hg.
  rewrite existsb_exists, Exists_exists.
  split; intros (g & Hin & H); exists g; (split; [exact Hin|]).
  - apply orb_true_iff in H. destruct H as [H|H]; apply jseq_eq in H;
      [left | right]; exact H.
  - apply orb_true_iff. destruct H as [H|H]; [left | right];
      apply jseq_eq; exact H.
Qed.

(** The loop of a block runs one statement after the other with the
    groups and the platforms of the block, until it finds [end]. *)
Lemma block_runs (tokens : list Token) (fuel : nat) (g p : list jsstring)
      (s s' : PState) :
  block tokens (S fuel) g p s = Ok (tt, s') ->
  exists tk,
    nth_error tokens (cursor s) = Some tk /\
    if hasKind End_ tk then s' = stepped s
    else exists s1, statement tokens fuel g p s = Ok (tt, s1) /\
                    block tokens fuel g p s1 = Ok (tt, s').
Proof.
  intros H. cbn [block] in H.
  apply bind_Ok in H. destruct H as (e & s0 & He & H).
  apply match_reads in He. destruct He as (tk & Hn & -> & ->).
  exists tk. split; [exact Hn|].
  destruct (hasKind End_ tk).
  - apply ret_Ok in H. injection H as Hr. exact Hr.
  - apply bind_Ok in H. destruct H as ([] & s1 & Hst & H).
    exists s1. split; [exact Hst | exact H].
Qed.

(** The loop of [parse] runs one statement after the other without
    groups or platforms, until it finds the end of the file. *)
Lemma parseLoop_runs (tokens : list Token) (fuel : nat) (s s' : PState) :
  parseLoop tokens (S fuel) s = Ok (tt, s') ->
  exists tk,
    nth_error tokens (cursor s) = Some tk /\
    if hasKind EndOfFile tk then s' = s
    else exists s1, statement tokens fuel [] [] s = Ok (tt, s1) /\
                    parseLoop tokens fuel s1 = Ok (tt, s').
Proof.
  intros H. cbn [parseLoop] in H.
  apply bind_Ok in H. destruct H as (k & s0 & Hk & H).
  apply peekKind_Ok in Hk. destruct Hk as (-> & tk & Hn & <-).
  exists tk. split; [exact Hn|]. unfold hasKind.
  destruct (TokenKind_eqb (kind tk) EndOfFile).
  - apply ret_Ok in H. injection H as Hr. exact Hr.
  - apply bind_Ok in H. destruct H as ([] & s1 & Hst & H).
    exists s1. split; [exact Hst | exact H].
Qed.

(** The gem/pod branch of [statement], with the declaration spelled
    out. *)
Lemma statement_gem_reads (tokens : list Token) (fuel : nat)
      (outer pls : list jsstring) (s s' : PState) (t : Token) :
  nth_error tokens (cursor s) = Some t ->
  kind t = Identifier ->
  text t = js "gem" \/ text t = js "pod" ->
  statement tokens (S fuel) outer pls s = Ok (tt, s') ->
  exists s1 nameTok args tk,
    parseDecl tokens fuel outer pls (stepped s) =
    Ok (declared outer pls nameTok args, s1) /\
    declaration tokens (S (cursor s)) nameTok args (cursor s1) /\
    nth_error tokens (cursor s1) = Some tk /\
    let d := declared outer pls nameTok args in
    let emitted :=
      if TokenKind_eqb (kind tk) If then deleteGroups d
      else if hasDevGroups d then deleteGroups d else d in
    if hasDevGroups d
    then development (out s') = development (out s) ++ [emitted] /\
         runtime (out s') = runtime (out s)
    else runtime (out s') = runtime (out s) ++ [emitted] /\
         development (out s') = development (out s).
Proof.
  intros Hn Hk Ht H.
  destruct (statement_gem tokens fuel outer pls s s' t Hn Hk Ht H)
    as (d & s1 & tk & Hd & Hntk & Hout & _).
  destruct (parseDecl_reads tokens fuel outer pls (stepped s) s1 d Hd)
    as [_ (nameTok & args & Hdecl & ->)].
  exists s1, nameTok, args, tk.
  split; [exact Hd|]. split; [exact Hdecl|]. split; [exact Hntk|].
  exact Hout.
Qed.





(* ------------------------------------------------------------------ *)
(** ** The [require] key *)


(** What [lastValue] finds. *)
Lemma lastValue_none (keys : list jsstring) (args : list Argument) :
  (forall key v, In (Pair key v) args -> existsb (jseq key) keys = false) ->
  lastValue keys args = None.
Proof.
  induction args as [|a args IH]; intros Hno; [reflexivity|].
  cbn [lastValue]. rewrite IH by (intros k v Hin; apply (Hno k v); right; exact Hin).
  destruct a; try reflexivity.
  rewrite (Hno key value) by (left; reflexivity). reflexivity.
Qed.

Lemma lastValue_last (keys : list jsstring) (pre post : list Argument)
      (key : jsstring) (v : Token) :
  existsb (jseq key) keys = true ->
  (forall key' v', In (Pair key' v') post ->
                   existsb (jseq key') keys = false) ->
  lastValue keys (pre ++ Pair key v :: post) = Some v.
Proof.
  intros Hkey Hpost. induction pre as [|a pre IH].
  - cbn [app lastValue]. rewrite (lastValue_none keys post Hpost), Hkey.
    reflexivity.
  - cbn [app lastValue]. rewrite IH. reflexivity.
Qed.



(* ------------------------------------------------------------------ *)
(** ** Idempotence of [strip] *)

(** A quoted string whose content starts with a colon: the first [strip]
    removes the quotes, the second removes the colon. *)
Lemma strip_not_idempotent_counterexample :
  strip (js "':a'") = js ":a" /\
  strip (strip (js "':a'")) = js "a" /\
  strip (strip (js "':a'")) <> strip (js "':a'").
Proof.
  split; [vm_compute; reflexivity|].
  split; [vm_compute; reflexivity|].
  vm_compute. discriminate.
Qed.

Lemma strip_bare (s : jsstring) : isBare s = true -> strip s = s.
Proof.
  unfold isBare, strip. intros H.
  apply andb_true_iff in H. destruct H as [H Hq].
  apply andb_true_iff in H. destruct H as [Hp Hc].
  apply negb_true_iff in Hp, Hc, Hq.
  rewrite Hp, Hc, Hq. reflexivity.
Qed.

Lemma length_trimStart_le (s : jsstring) : length (trimStart s) <= length s.
Proof.
  induction s as [|c s IH]; cbn; [lia|].
  destruct (isJsSpace c); cbn; lia.
Qed.

Lemma length_trim_le (s : jsstring) : length (trim s) <= length s.
Proof.
  unfold trim. rewrite length_rev.
  pose proof (length_trimStart_le (rev (trimStart s))) as H1.
  rewrite length_rev in H1.
  pose proof (length_trimStart_le s). lia.
Qed.

Lemma length_slice_le (s : jsstring) (a b : nat) : length (slice s a b) <= b - a.
Proof. unfold slice. rewrite length_firstn. lia. Qed.

Lemma skipStart_ge (raw : jsstring) (d : option Z) :
  forall n startIndex, startIndex <= skipStart raw d n startIndex.
Proof.
  induction n as [|n IH]; intros i; cbn; [lia|].
  destruct (code_eq (charCodeAt raw i) d); [|lia].
  specialize (IH (S i)). lia.
Qed.

Lemma skipEnd_le (raw : jsstring) (d : option Z) :
  forall n endIndex, skipEnd raw d n endIndex <= endIndex.
Proof.
  induction n as [|n IH]; intros i; cbn; [lia|].
  destruct (code_eq (charCodeAt raw (i - 1)) d); [|lia].
  specialize (IH (i - 1)). lia.
Qed.

Lemma skipPairsStart_ge (raw : jsstring) :
  forall n startIndex, startIndex <= skipPairsStart raw n startIndex.
Proof.
  induction n as [n IH] using lt_wf_ind. intros i.
  destruct n as [|[|n]]; cbn; try lia.
  destruct (code_eq (charCodeAt raw i) (Some GREATER_THAN_CHARACTER) &&
            code_eq (charCodeAt raw (i + 1)) (Some LESS_THAN_CHARACTER));
    [|lia].
  specialize (IH n ltac:(lia) (i + 2)). lia.
Qed.

Lemma skipPairsEnd_le (raw : jsstring) :
  forall n endIndex, skipPairsEnd raw n endIndex <= endIndex.
Proof.
  induction n as [n IH] using lt_wf_ind. intros i.
  destruct n as [|[|[|n]]]; try (cbn; lia).
  change (skipPairsEnd raw (S (S (S n))) i)
    with (if code_eq (charCodeAt raw (i - 2)) (Some GREATER_THAN_CHARACTER) &&
             code_eq (charCodeAt raw (i - 1)) (Some LESS_THAN_CHARACTER)
          then skipPairsEnd raw (S n) (i - 2) else i).
  destruct (code_eq (charCodeAt raw (i - 2)) (Some GREATER_THAN_CHARACTER) &&
            code_eq (charCodeAt raw (i - 1)) (Some LESS_THAN_CHARACTER));
    [|lia].
  specialize (IH (S n) ltac:(lia) (i - 2)). lia.
Qed.

Lemma length_unwrapQuotes_le :
  forall n content, length (unwrapQuotes n content) <= length content.
Proof.
  induction n as [|n IH]; intros c; cbn [unwrapQuotes]; [lia|].
  destruct (2 <=? length c); [|lia].
  destruct (isQuote (charCodeAt c 0) &&
            code_eq (charCodeAt c 0) (charCodeAt c (length c - 1))); [|lia].
  specialize (IH (slice c 1 (length c - 1))).
  pose proof (length_slice_le c 1 (length c - 1)). lia.
Qed.

(** The rounds given to [unwrapQuotes] suffice: on its result the loop
    condition is false, so one more round changes nothing. *)
Lemma unwrapQuotes_done :
  forall n content,
    length content <= n ->
    unwrapQuotes 1 (unwrapQuotes n content) = unwrapQuotes n content.
Proof.
  induction n as [|n IH]; intros c Hlen.
  - destruct c; [reflexivity | cbn in Hlen; lia].
  - cbn [unwrapQuotes].
    destruct (2 <=? length c) eqn:E2.
    + destruct (isQuote (charCodeAt c 0) &&
                code_eq (charCodeAt c 0) (charCodeAt c (length c - 1))) eqn:Ew.
      * apply IH. pose proof (length_slice_le c 1 (length c - 1)). lia.
      * rewrite E2, Ew. reflexivity.
    + rewrite E2. reflexivity.
Qed.

Lemma startsWith_length (s p : jsstring) :
  startsWith s p = true -> length p <= length s.
Proof.
  revert s; induction p as [|y p IH]; intros [|x s]; cbn; try lia;
    try discriminate.
  intros H. apply andb_true_iff in H. destruct H as [_ H].
  specialize (IH s H). lia.
Qed.

(** Whatever [strip] recognises, it removes: a string that is not bare
    gets strictly shorter. *)
Lemma strip_shortens (s : jsstring) :
  isBare s = false -> length (strip s) < length s.
Proof.
  unfold isBare, strip. intros H.
  destruct (startsWith s (js "%q") || startsWith s (js "%w")) eqn:Hp.
  - assert (Hlen : 2 <= length s).
    { apply orb_true_iff in Hp.
      destruct Hp as [Hp|Hp]; apply startsWith_length in Hp; exact Hp. }
    clear H Hp.
    match goal with
    | |- context [let '(a, b) := ?pair in _] =>
        remember pair as ab eqn:Hab;
        assert (Hb : 3 <= fst ab /\ snd ab <= length s - 1)
    end.
    { subst ab.
      destruct (code_eq (charCodeAt s 2) (Some LESS_THAN_CHARACTER) &&
                code_eq (closingDelimiter (charCodeAt s 2))
                        (Some GREATER_THAN_CHARACTER)); cbn [fst snd].
      - pose proof (skipPairsStart_ge s (length s - 1 - 3) 3) as H1.
        pose proof (skipPairsEnd_le s
                      (length s - 1 - skipPairsStart s (length s - 1 - 3) 3)
                      (length s - 1)) as H2.
        repeat match goal with
               | |- context [if ?c then _ else _] => destruct c
               end; cbn [fst snd]; lia.
      - pose proof (skipStart_ge s (charCodeAt s 2) (length s - 1 - 3) 3) as H1.
        pose proof (skipEnd_le s (closingDelimiter (charCodeAt s 2))
                      (length s - 1 -
                       skipStart s (charCodeAt s 2) (length s - 1 - 3) 3)
                      (length s - 1)) as H2.
        lia. }
    clear Hab. destruct ab as [a b].
    cbn [fst snd] in Hb.
    pose proof (length_trim_le (slice s a b)) as Ht.
    pose proof (length_slice_le s a b) as Hs.
    match goal with
    | |- context [if ?c then _ else _] => destruct c
    end.
    + pose proof (length_slice_le (trim (slice s a b)) 3
                    (length (trim (slice s a b)) - 3)). lia.
    + lia.
  - cbn [negb andb] in H.
    destruct (code_eq (charCodeAt s 0) (Some COLON_CHARACTER) &&
              (1 <? length s)) eqn:Hc.
    + apply andb_true_iff in Hc. destruct Hc as [_ Hc].
      apply Nat.ltb_lt in Hc.
      destruct (isQuote (charCodeAt s 1)).
      * pose proof (length_slice_le s 2 (length s - 1)). lia.
      * pose proof (length_slice_le s 1 (length s)). lia.
    + cbn [negb andb] in H. apply negb_false_iff in H. rewrite H.
      assert (Hlen : 1 <= length s).
      { destruct s; [discriminate H | cbn; lia]. }
      pose proof (skipStart_ge s (charCodeAt s 0) (length s - 1 - 1) 1) as H1.
      pose proof (skipEnd_le s (charCodeAt s 0)
                    (length s - 1 - skipStart s (charCodeAt s 0) (length s - 1 - 1) 1)
                    (length s - 1)) as H2.
      match goal with
      | |- length (unwrapQuotes _ ?c) < _ =>
          pose proof (length_unwrapQuotes_le (length c) c) as H3
      end.
      match type of H3 with
      | _ <= length (slice ?r ?a ?b) =>
          pose proof (length_slice_le r a b) as H4
      end.
      lia.
Qed.

(** C8, amended: stripping an already-stripped string is a no-op exactly
    when the stripped string is bare, that is, has no quoting left that
    [strip] recognises (no leading [%q] or [%w], quote, or colon followed by
    more). *)
Theorem strip_idempotent_iff_bare (s : jsstring) :
  strip (strip s) = strip s <-> isBare (strip s) = true.
Proof.
  split.
  - intros H. destruct (isBare (strip s)) eqn:E; [reflexivity|].
    apply strip_shortens in E. rewrite H in E. lia.
  - apply strip_bare.
Qed.

Lemma strip_idempotent_iff_bare_witness :
  strip (strip (js "'rails'")) = strip (js "'rails'").
Proof.
  apply (proj2 (strip_idempotent_iff_bare (js "'rails'"))).
  vm_compute; reflexivity.
Defined.

(* ------------------------------------------------------------------ *)
(** ** Names of declarations *)


(* ------------------------------------------------------------------ *)
(** ** An unclosed [group] block *)

Section UnclosedBlock.

Variable tokens : list Token.

Lemma matchWord_eof (w : jsstring) (s : PState) (t : Token) :
  nth_error tokens (cursor s) = Some t -> kind t = EndOfFile ->
  matchWord tokens w s = Ok (false, s).
Proof. intros Hn Hk. rewrite (matchWord_at tokens w s t Hn), Hk. reflexivity. Qed.

Lemma match_eof (k : TokenKind) (s : PState) (t : Token) :
  nth_error tokens (cursor s) = Some t -> kind t = EndOfFile ->
  k <> EndOfFile ->
  match_ tokens k s = Ok (false, s).
Proof.
  intros Hn Hk Hne. rewrite (match_at tokens k s t Hn), Hk.
  destruct k; try reflexivity. contradiction.
Qed.

Lemma looksSpecNew_eof (s : PState) (t : Token) :
  nth_error tokens (cursor s) = Some t -> kind t = EndOfFile ->
  looksSpecNew tokens s = Ok (false, s).
Proof.
  intros Hn Hk. unfold looksSpecNew, andM, orM, bind, getCursor.
  rewrite !(matchWord_eof _ s t Hn Hk).
  destruct s; reflexivity.
Qed.

Lemma skipLine_eof (n : nat) (s : PState) (t : Token) :
  nth_error tokens (cursor s) = Some t -> kind t = EndOfFile ->
  skipLine tokens n s = OutOfFuel \/ skipLine tokens n s = Ok (tt, s).
Proof.
  intros Hn Hk. unfold skipLine, bind.
  rewrite (match_eof If s t Hn Hk) by discriminate.
  unfold ret.
  destruct n as [|n]; [left; reflexivity|].
  cbn [skipToEol]. unfold bind.
  rewrite (peekKind_at tokens s t Hn), Hk.
  cbn [TokenKind_eqb negb andb]. unfold ret.
  rewrite (match_eof NewLine s t Hn Hk) by discriminate.
  right; reflexivity.
Qed.

(** On the [EndOfFile] token [statement] consumes nothing. *)
Lemma statement_at_eof (n : nat) (g p : list jsstring) (s : PState) (t : Token) :
  nth_error tokens (cursor s) = Some t ->
  kind t = EndOfFile ->
  statement tokens n g p s = OutOfFuel \/ statement tokens n g p s = Ok (tt, s).
Proof.
  intros Hn Hk.
  destruct n as [|n]; [left; reflexivity|].
  cbn [statement]. unfold orM, bind.
  rewrite !(matchWord_eof _ s t Hn Hk).
  rewrite (looksSpecNew_eof s t Hn Hk).
  rewrite !(match_eof _ s t Hn Hk) by discriminate.
  apply (skipLine_eof n s t Hn Hk).
Qed.

(** So the loop [while (!this.match(TokenKind.End)) this.statement(...)]
    never leaves the [EndOfFile] token: whatever the fuel, it is spent. *)
Lemma block_at_eof (g p : list jsstring) (s : PState) (t : Token) :
  nth_error tokens (cursor s) = Some t ->
  kind t = EndOfFile ->
  forall n, block tokens n g p s = OutOfFuel.
Proof.
  intros Hn Hk. induction n as [|n IH]; [reflexivity|].
  cbn [block]. unfold bind at 1.
  rewrite (match_at tokens End_ s t Hn), Hk. cbn [TokenKind_eqb].
  unfold bind.
  destruct (statement_at_eof n g p s t Hn Hk) as [-> | ->];
    [reflexivity | exact IH].
Qed.

End UnclosedBlock.

(** C3, refuted: [tokenize] returns the four tokens of [group :x do], and
    [parse] then never returns on them: the block loop of [statement] sits
    on the [EndOfFile] token without consuming it, so every amount of fuel
    is spent. *)
Theorem parse_diverges_on_unclosed_group :
  tokenize unclosedGroup = Ok unclosedGroupTokens /\
  forall fuel, parseRubyDsl fuel unclosedGroup = OutOfFuel.
Proof.
  assert (Htok : tokenize unclosedGroup = Ok unclosedGroupTokens)
    by (vm_compute; reflexivity).
  split; [exact Htok|].
  intros fuel. unfold parseRubyDsl. rewrite Htok. unfold parse.
  destruct fuel as [|[|[|fuel]]]; try reflexivity.
  cbn [parseLoop]. unfold bind at 1.
  change (peekKind unclosedGroupTokens (mkState 0 0 (mkOutput None None [] [])))
    with (Ok (Identifier, mkState 0 0 (mkOutput None None [] []))).
  cbn [TokenKind_eqb]. unfold bind at 1.
  assert (Hst : statement unclosedGroupTokens (S (S fuel)) [] []
                          (mkState 0 0 (mkOutput None None [] [])) = OutOfFuel).
  { cbn [statement]. unfold bind at 1.
    change (orM (matchWord unclosedGroupTokens (js "gem"))
                (matchWord unclosedGroupTokens (js "pod"))
                (mkState 0 0 (mkOutput None None [] [])))
      with (Ok (false, mkState 0 0 (mkOutput None None [] []))).
    cbv iota. unfold bind at 1.
    change (orM (matchWord unclosedGroupTokens (js "group"))
                (matchWord unclosedGroupTokens (js "target"))
                (mkState 0 0 (mkOutput None None [] [])))
      with (Ok (true, mkState 1 0 (mkOutput None None [] []))).
    cbv iota. unfold bind at 1.
    change (labels unclosedGroupTokens (S fuel)
                   (mkState 1 0 (mkOutput None None [] [])))
      with (Ok ([js "x"], mkState 2 0 (mkOutput None None [] []))).
    unfold bind at 1.
    change (match_ unclosedGroupTokens Do
                   (mkState 2 0 (mkOutput None None [] [])))
      with (Ok (true, mkState 3 0 (mkOutput None None [] []))).
    cbv iota. unfold bind at 1.
    change (enter unclosedGroupTokens (mkState 3 0 (mkOutput None None [] [])))
      with (Ok (tt, mkState 3 1 (mkOutput None None [] []))).
    unfold bind at 1.
    rewrite (block_at_eof unclosedGroupTokens [js "x"] []
               (mkState 3 1 (mkOutput None None [] []))
               (mkToken EndOfFile [] 11 11 1 12) eq_refl eq_refl (S fuel)).
    reflexivity. }
  rewrite Hst. reflexivity.
Qed.

(* ------------------------------------------------------------------ *)
(** ** Where the names of declarations come from *)

(** Every token the main loop pushes has a non-empty text. *)
Lemma lexLoop_texts (source : jsstring) (cap : Z) :
  forall fuel st st',
    Forall (fun t => text t <> []) (lx_tokens st) ->
    lexLoop source cap fuel st = Ok st' ->
    Forall (fun t => text t <> []) (lx_tokens st').
Proof.
  induction fuel as [|fuel IH]; intros st st' Hall Hrun; [discriminate|].
  cbn [lexLoop] in Hrun.
  destruct (lx_index st <? length source) eqn:Hlt.
  - apply Nat.ltb_lt in Hlt.
    pose proof (lexStep_spec source cap st Hlt) as Hpost.
    destruct (lexStep source cap st) as [st1| | |]; try discriminate.
    cbn [stepPost] in Hpost. destruct Hpost as (_ & _ & Htok).
    apply (IH st1 st'); [|exact Hrun].
    destruct Htok as [-> | (t & -> & _ & _ & _ & _ & Htext)]; [exact Hall|].
    apply Forall_app; split; [exact Hall|].
    constructor; [exact Htext | constructor].
  - injection Hrun as <-. exact Hall.
Qed.

(** So the only token of [tokenize] with an empty text is the final
    [EndOfFile]. *)
Lemma tokenize_texts (source : jsstring) (toks : list Token) :
  tokenize source = Ok toks ->
  forall t, In t toks -> kind t <> EndOfFile -> text t <> [].
Proof.
  unfold tokenize, tokenizeWith, tokenizeFuel. intros Hrun.
  destruct (lexLoop source MAX_TOKENS (S (length source)) (mkLex [] 0 0 1 1))
    as [st| | |] eqn:Hloop; try discriminate.
  apply lexLoop_texts in Hloop; [|constructor].
  pose proof (push_spec source MAX_TOKENS (lx_tokens st) (lx_index st)
                        (lx_line st) (lx_column st) EndOfFile
                        (lx_index st) (lx_index st)) as Hp.
  rewrite Hrun in Hp. destruct Hp as [-> _].
  intros t Hin Hk. apply in_app_or in Hin. destruct Hin as [Hin | [<- | []]].
  - rewrite Forall_forall in Hloop. apply Hloop; exact Hin.
  - cbn in Hk. contradiction.
Qed.

Lemma keepsNames_pure {A} (tokens : list Token) (m : M A) :
  pureOut m -> keepsNames tokens m.
Proof.
  intros Hp s Hs. specialize (Hp s). unfold post in *.
  destruct (m s) as [[a s']| | |]; try exact I.
  rewrite Hp. exact Hs.
Qed.

Lemma keepsNames_bind_sat {A B} (tokens : list Token) (phi : A -> Prop)
      (m : M A) (k : A -> M B) :
  resultSat phi m -> keepsNames tokens m ->
  (forall a, phi a -> keepsNames tokens (k a)) ->
  keepsNames tokens (bind m k).
Proof.
  intros Hphi Hm Hk s Hs. unfold post, bind.
  specialize (Hphi s). specialize (Hm s Hs). unfold post in Hphi, Hm.
  destruct (m s) as [[a s1]| | |]; try exact I.
  apply (Hk a Hphi s1 Hm).
Qed.

Lemma keepsNames_bind {A B} (tokens : list Token) (m : M A) (k : A -> M B) :
  keepsNames tokens m -> (forall a, keepsNames tokens (k a)) ->
  keepsNames tokens (bind m k).
Proof.
  intros Hm Hk.
  apply (keepsNames_bind_sat tokens (fun _ => True)); auto.
  intros s. unfold post. destruct (m s) as [[a s1]| | |]; exact I.
Qed.

Lemma keepsNames_setSelfName (tokens : list Token) (v : jsstring) :
  keepsNames tokens (setSelfName v).
Proof. intros s Hs. exact Hs. Qed.

Lemma keepsNames_setSelfVersion (tokens : list Token) (v : jsstring) :
  keepsNames tokens (setSelfVersion v).
Proof. intros s Hs. exact Hs. Qed.

Lemma keepsNames_pushDecl (tokens : list Token) (isDev : bool)
      (d : GemDeclaration) :
  nameSource tokens d -> keepsNames tokens (pushDecl isDev d).
Proof.
  intros Hd s [Hr Hdv]. unfold post, pushDecl, appendDecl.
  cbn [out]. destruct isDev; split; cbn; try assumption;
    apply Forall_app; (split; [assumption | constructor; [exact Hd | constructor]]).
Qed.

Lemma nameSource_deleteGroups (tokens : list Token) (d : GemDeclaration) :
  nameSource tokens d -> nameSource tokens (deleteGroups d).
Proof. intros H. exact H. Qed.

(** To follow a [bind] from a given state, follow its first part and
    then, from the state that leaves, the rest. *)
Lemma post_bind {A B} (m : M A) (k : A -> M B) (s : PState)
      (Q : B -> PState -> Prop) :
  (forall a s1, m s = Ok (a, s1) -> post (k a) s1 Q) ->
  post (bind m k) s Q.
Proof.
  intros H. unfold post, bind.
  destruct (m s) as [[a s1]| | |] eqn:E; try exact I.
  apply (H a s1 eq_refl).
Qed.

Lemma keepsNames_at {A} (tokens : list Token) (m : M A) (s s0 : PState) :
  keepsNames tokens m ->
  outNamed tokens (out s0) -> out s = out s0 ->
  post m s (fun _ s' => outNamed tokens (out s')).
Proof. intros Hm Hs Ho. apply Hm. rewrite Ho. exact Hs. Qed.

(** The declaration that [parseDecl] reads at a site is named after its
    own name token. *)
Lemma parseDecl_named (tokens : list Token) (fuel : nat)
      (outer pls : list jsstring) (s s1 : PState) (d : GemDeclaration) :
  declSite tokens (cursor s) ->
  parseDecl tokens fuel outer pls s = Ok (d, s1) ->
  nameSource tokens d /\ out s1 = out s.
Proof.
  intros Hsite H.
  destruct (parseDecl_reads tokens fuel outer pls s s1 d H)
    as [[_ Ho] (nameTok & args & Hdecl & ->)].
  split; [|exact Ho].
  exists (cursor s), nameTok, args, (cursor s1).
  split; [exact Hsite|]. split; [exact Hdecl | reflexivity].
Qed.

Lemma resultSat_ret {A} (phi : A -> Prop) (a : A) :
  phi a -> resultSat phi (ret a).
Proof. intros H s. exact H. Qed.

Lemma resultSat_bind {A B} (phi : B -> Prop) (m : M A) (k : A -> M B) :
  (forall a, resultSat phi (k a)) -> resultSat phi (bind m k).
Proof.
  intros Hk s. unfold post, bind.
  destruct (m s) as [[a s1]| | |]; try exact I.
  apply (Hk a s1).
Qed.

#[local] Hint Resolve pureOut_parseDecl pureOut_skipToEnd
  pureOut_skipBlockLoop pureOut_labelsLoop : pure.

(** Takes a goal [keepsNames tokens m] apart along the structure of [m]. *)
Ltac names_step tokens :=
  first
    [ solve [apply keepsNames_pure; pure_deep]
    | assumption
    | apply keepsNames_setSelfName
    | apply keepsNames_setSelfVersion
    | match goal with
      | H : forall _, keepsNames _ _ |- _ => apply H
      | H : forall _ _, keepsNames _ _ |- _ => apply H
      | |- keepsNames _ (pushDecl _ (if ?c then _ else _)) =>
          destruct c
      | |- keepsNames _ (pushDecl _ _) =>
          apply keepsNames_pushDecl; assumption
      | |- keepsNames _ (let _ := _ in _) => cbv zeta
      | |- keepsNames _ (if ?b then _ else _) => destruct b
      | |- keepsNames _ (match ?x with _ => _ end) => destruct x
      | |- keepsNames _ (bind _ _) => apply keepsNames_bind; [| intros ?]
      end ].

Ltac names_all tokens := repeat names_step tokens.

Section NamesInSpec.

Variable tokens : list Token.

Lemma assign_reads (s s' : PState) (b : bool) :
  andM (match_ tokens Equals)
       (k <- peekKind tokens ;; ret (TokenKind_eqb k String_)) s
  = Ok (b, s') ->
  exists te, nth_error tokens (cursor s) = Some te /\
             s' = if hasKind Equals te then stepped s else s.
Proof.
  intros H. unfold andM in H.
  apply bind_Ok in H. destruct H as (x & s1 & Hx & H).
  apply match_reads in Hx. destruct Hx as (te & Hn & -> & ->).
  exists te. split; [exact Hn|].
  destruct (hasKind Equals te).
  - apply bind_Ok in H. destruct H as (k & s2 & Hk & H).
    apply peekKind_Ok in Hk. destruct Hk as (-> & _).
    apply ret_Ok in H. injection H as _ Hr. exact Hr.
  - apply ret_Ok in H. injection H as _ Hr. exact Hr.
Qed.

Lemma gemWord_reads (w1 w2 : jsstring) (s s' : PState) :
  orM (matchWord tokens w1) (matchWord tokens w2) s = Ok (true, s') ->
  exists t, nth_error tokens (cursor s) = Some t /\
            kind t = Identifier /\
            (text t = w1 \/ text t = w2) /\
            s' = stepped s.
Proof.
  intros H. unfold orM, bind in H.
  destruct (nth_error tokens (cursor s)) as [t|] eqn:Hn.
  - rewrite (matchWord_at tokens w1 s t Hn) in H.
    destruct (TokenKind_eqb (kind t) Identifier && jseq (text t) w1) eqn:E1.
    + apply andb_true_iff in E1. destruct E1 as [Ek Et].
      apply TokenKind_eqb_eq in Ek. apply jseq_eq in Et.
      apply ret_Ok in H. injection H as Hr.
      exists t. split; [reflexivity|]. split; [exact Ek|].
      split; [left; exact Et | exact Hr].
    + rewrite (matchWord_at tokens w2 s t Hn) in H.
      destruct (TokenKind_eqb (kind t) Identifier && jseq (text t) w2) eqn:E2;
        [|discriminate].
      apply andb_true_iff in E2. destruct E2 as [Ek Et].
      apply TokenKind_eqb_eq in Ek. apply jseq_eq in Et.
      injection H as Hr.
      exists t. split; [reflexivity|]. split; [exact Ek|].
      split; [right; exact Et | symmetry; exact Hr].
  - unfold matchWord, peekKind, bind, peek in H. rewrite Hn in H.
    discriminate.
Qed.

Lemma keepsNames_skipLine (fuel : nat) :
  keepsNames tokens (skipLine tokens fuel).
Proof. apply keepsNames_pure. apply pureOut_skipLine. Qed.

Lemma keepsNames_parseSpecStatement (fuel : nat)
      (blockVar : option jsstring) :
  keepsNames tokens (parseSpecStatement tokens fuel blockVar).
Proof.
  intros s Hs. unfold parseSpecStatement.
  apply post_bind; intros k s1 Hk.
  apply peekKind_Ok in Hk. destruct Hk as (-> & t & Hn & <-).
  apply post_bind; intros isVar s1 Hv.
  assert (Hs1 : s1 = s).
  { destruct (TokenKind_eqb (kind t) Identifier);
      [destruct blockVar as [[|c b]|]|];
      try (apply ret_Ok in Hv; congruence).
    unfold bind in Hv. rewrite (peekText_at tokens s t Hn) in Hv.
    apply ret_Ok in Hv. congruence. }
  subst s1.
  destruct isVar;
    [| apply (keepsNames_at tokens _ s s (keepsNames_skipLine fuel) Hs
                            eq_refl)].
  apply post_bind; intros t0 s2 Ha.
  apply advance_Ok in Ha. destruct Ha as [-> _].
  apply post_bind; intros dot s3 Hd.
  apply match_reads in Hd. destruct Hd as (td & Hnd & -> & ->).
  destruct (hasKind Dot td); cbn [negb];
    [| apply (keepsNames_at tokens _ _ s (keepsNames_skipLine fuel) Hs);
       reflexivity].
  apply post_bind; intros method s4 Ha.
  apply advance_Ok in Ha. destruct Ha as [-> Hm].
  cbn [stepped cursor] in Hm.
  destruct (TokenKind_eqb (kind method) Identifier) eqn:Em; cbn [negb];
    [| apply (keepsNames_at tokens _ _ s (keepsNames_skipLine fuel) Hs);
       reflexivity].
  apply TokenKind_eqb_eq in Em.
  apply post_bind; intros assign s5 Has.
  apply assign_reads in Has. destruct Has as (te & Hte & ->).
  cbn [stepped cursor] in Hte.
  destruct assign.
  { apply (keepsNames_at tokens _ _ s); [names_all tokens | exact Hs |].
    destruct (hasKind Equals te); reflexivity. }
  destruct (jseq (text method) (js "send")).
  { apply post_bind; intros lp s6 Hlp.
    apply match_reads in Hlp. destruct Hlp as (tl & Hntl & -> & ->).
    set (s6 := if hasKind LeftParen tl
               then stepped (if hasKind Equals te
                             then stepped (stepped (stepped (stepped s)))
                             else stepped (stepped (stepped s)))
               else if hasKind Equals te
                    then stepped (stepped (stepped (stepped s)))
                    else stepped (stepped (stepped s))).
    assert (Ho6 : out s6 = out s)
      by (unfold s6; destruct (hasKind LeftParen tl), (hasKind Equals te);
          reflexivity).
    clearbody s6.
    apply post_bind; intros k s8 Hk.
    apply peekKind_Ok in Hk. destruct Hk as (-> & tsym & Hnsym & <-).
    apply post_bind; intros [] s7 Hinner.
    apply (keepsNames_at tokens _ s7 s7 (keepsNames_skipLine fuel));
      [|reflexivity].
    destruct (TokenKind_eqb (kind tsym) Symbol) eqn:Esym;
      [| apply ret_Ok in Hinner; injection Hinner as Hr; subst s7;
         rewrite Ho6; exact Hs].
    apply TokenKind_eqb_eq in Esym.
    apply bind_Ok in Hinner. destruct Hinner as (t1 & s8 & Ha & Hinner).
    apply advance_Ok in Ha. destruct Ha as [-> Hn1].
    rewrite Hnsym in Hn1. injection Hn1 as <-.
    cbv zeta in Hinner.
    destruct (includes (dropLeadingColon (strip (text tsym)))
                       (js "dependency")) eqn:Einc;
      [| apply ret_Ok in Hinner; injection Hinner as Hr; subst s7;
         cbn [stepped out]; rewrite Ho6; exact Hs].
    apply bind_Ok in Hinner. destruct Hinner as (cm & s9 & Hcm & Hinner).
    apply match_reads in Hcm. destruct Hcm as (tc & Hntc & -> & ->).
    cbn [stepped cursor] in Hntc.
    apply bind_Ok in Hinner. destruct Hinner as (decl & s10 & Hdecl & Hinner).
    apply parseDecl_named in Hdecl.
    - destruct Hdecl as [Hd Ho10].
      pose proof (keepsNames_pushDecl tokens
                    (includes (dropLeadingColon (strip (text tsym)))
                              (js "development")) decl Hd s10) as Hpush.
      unfold post in Hpush. rewrite Hinner in Hpush.
      apply Hpush. rewrite Ho10.
      destruct (hasKind Comma tc); cbn [stepped out]; rewrite Ho6; exact Hs.
    - destruct (hasKind Comma tc) eqn:Ec; cbn [stepped cursor].
      + apply (site_send_comma tokens (cursor s6) tsym tc); try assumption.
        apply TokenKind_eqb_eq. exact Ec.
      + apply (site_send tokens (cursor s6) tsym); assumption. }
  destruct (existsb (jseq (text method)) depMethods) eqn:Edep;
    [| apply (keepsNames_at tokens _ _ s (keepsNames_skipLine fuel) Hs);
       destruct (hasKind Equals te); reflexivity].
  cbv zeta.
  apply post_bind; intros decl s6 Hdecl.
  apply parseDecl_named in Hdecl.
  - destruct Hdecl as [Hd Ho6].
    apply (keepsNames_at tokens _ _ s); [names_all tokens | exact Hs |].
    rewrite Ho6. destruct (hasKind Equals te); reflexivity.
  - destruct (hasKind Equals te) eqn:Ee; cbn [stepped cursor].
    + apply (site_method_equals tokens (S (S (cursor s))) method te);
        try assumption.
      apply TokenKind_eqb_eq. exact Ee.
    + apply (site_method tokens (S (S (cursor s))) method); assumption.
Qed.

Lemma keepsNames_specBranch (blockVar : option jsstring) :
  forall fuel, keepsNames tokens (specBranch tokens fuel blockVar).
Proof.
  induction fuel as [|fuel IH]; cbn [specBranch]; names_all tokens.
  apply keepsNames_parseSpecStatement.
Qed.

Lemma keepsNames_specLoop (blockVar : option jsstring) :
  forall fuel, keepsNames tokens (specLoop tokens fuel blockVar).
Proof.
  induction fuel as [|fuel IH]; cbn [specLoop]; names_all tokens;
    first [ apply keepsNames_specBranch | apply keepsNames_parseSpecStatement ].
Qed.

Lemma keepsNames_parseSpec (fuel : nat) :
  keepsNames tokens (parseSpec tokens fuel).
Proof.
  unfold parseSpec. names_all tokens;
    try apply keepsNames_specLoop.
  all: intros s Hs; unfold post, leave;
    destruct (Z.eqb (depth s) 0); exact Hs.
Qed.

Lemma keepsNames_statement_block :
  forall fuel,
    (forall g p, keepsNames tokens (statement tokens fuel g p)) /\
    (forall g p, keepsNames tokens (block tokens fuel g p)).
Proof.
  induction fuel as [|fuel [IHs IHb]].
  - split; intros g p s Hs; exact I.
  - split; intros g p.
    + cbn [statement]. intros s Hs.
      apply post_bind; intros isGem s0 Hgem.
      destruct isGem.
      * apply gemWord_reads in Hgem.
        destruct Hgem as (t & Hn & Hk & Ht & ->).
        apply post_bind; intros d s1 Hd.
        apply parseDecl_named in Hd;
          [| apply (site_gem tokens (cursor s) t); assumption].
        destruct Hd as [Hd Ho1]. cbv zeta.
        apply (keepsNames_at tokens _ _ s); [| exact Hs | exact Ho1].
        apply keepsNames_bind; [names_all tokens | intros k].
        apply (keepsNames_bind_sat tokens (nameSource tokens)).
        -- destruct (TokenKind_eqb k If).
           ++ apply resultSat_bind; intros ?.
              apply resultSat_bind; intros ?.
              apply resultSat_ret. destruct (hasDevGroups d); exact Hd.
           ++ apply resultSat_ret. destruct (hasDevGroups d); exact Hd.
        -- names_all tokens.
        -- intros emitted He. names_all tokens.
      * apply (keepsNames_at tokens _ _ s); [| exact Hs |].
        -- names_all tokens; apply keepsNames_parseSpec.
        -- pose proof (pureOut_orM _ _ (pureOut_matchWord tokens (js "gem"))
                                   (pureOut_matchWord tokens (js "pod")) s)
             as Hp.
           unfold post in Hp. rewrite Hgem in Hp. exact Hp.
    + cbn [block]. names_all tokens.
Qed.

Lemma keepsNames_parseLoop :
  forall fuel, keepsNames tokens (parseLoop tokens fuel).
Proof.
  induction fuel as [|fuel IH]; cbn [parseLoop]; names_all tokens.
  apply keepsNames_statement_block.
Qed.

End NamesInSpec.

(** Every declaration [parse] returns is named after its own name
    token. *)
Lemma parse_names (tokens : list Token) (fuel : nat) (o : ParseOutput) :
  parse tokens fuel = Ok o ->
  forall d, In d (runtime o ++ development o) -> nameSource tokens d.
Proof.
  unfold parse. intros H d Hin.
  pose proof (keepsNames_parseLoop tokens fuel
                (mkState 0 0 (mkOutput None None [] []))) as Hk.
  unfold post in Hk.
  destruct (parseLoop tokens fuel (mkState 0 0 (mkOutput None None [] [])))
    as [[[] s]| | |]; try discriminate.
  injection H as <-.
  destruct Hk as [Hr Hd]; [split; constructor|].
  rewrite Forall_forall in Hr, Hd.
  apply in_app_or in Hin. destruct Hin as [Hin | Hin]; auto.
Qed.

Lemma declaration_name (tokens : list Token) (c c' : nat) (nameTok : Token)
      (args : list Argument) :
  declaration tokens c nameTok args c' ->
  In nameTok tokens /\ isLabel nameTok = true.
Proof.
  intros H. destruct H as [c nameTok c1 args c' Hn Hl _ _
                          | c p nameTok c1 args c2 c' _ _ Hn Hl _ _ _];
    (split; [apply (nth_error_In _ _ Hn) | exact Hl]).
Qed.



(* ------------------------------------------------------------------ *)
(** ** Fuel

    More fuel never changes a result: a loop that returned or threw with
    some fuel does the same with any larger amount. *)

Lemma refines_refl {A} (x : M A) : refines x x.
Proof. intros s _. reflexivity. Qed.

Lemma refines_bind {A B} (x y : M A) (k k' : A -> M B) :
  refines x y -> (forall a, refines (k a) (k' a)) ->
  refines (bind x k) (bind y k').
Proof.
  intros Hx Hk s. unfold bind. intros H.
  assert (Hxs : x s <> OutOfFuel) by (intros E; rewrite E in H; congruence).
  rewrite (Hx s Hxs).
  destruct (x s) as [[a s1]| | |]; try reflexivity.
  apply Hk. exact H.
Qed.

Lemma refines_orM (a b a' b' : M bool) :
  refines a a' -> refines b b' -> refines (orM a b) (orM a' b').
Proof.
  intros Ha Hb. unfold orM. apply refines_bind; [exact Ha|].
  intros [|]; [apply refines_refl | exact Hb].
Qed.

Lemma refines_andM (a b a' b' : M bool) :
  refines a a' -> refines b b' -> refines (andM a b) (andM a' b').
Proof.
  intros Ha Hb. unfold andM. apply refines_bind; [exact Ha|].
  intros [|]; [exact Hb | apply refines_refl].
Qed.

Create HintDb fuel discriminated.

(** Takes a goal [refines x y], where [y] is [x] with more fuel, apart
    along their common structure. *)
Ltac fuel_step :=
  first
    [ apply refines_refl
    | solve [auto 2 with fuel nocore]
    | match goal with
      | H : forall m, _ <= m -> refines _ _ |- _ => apply H; assumption
      | H : forall m, _ <= m -> forall _, refines _ _ |- _ =>
          apply H; assumption
      | H : forall m, _ <= m -> forall _ _, refines _ _ |- _ =>
          apply H; assumption
      | |- refines (bind _ _) (bind _ _) => apply refines_bind; [| intros ?]
      | |- refines (orM _ _) (orM _ _) => apply refines_orM
      | |- refines (andM _ _) (andM _ _) => apply refines_andM
      | |- refines (if ?b then _ else _) (if ?b then _ else _) => destruct b
      | |- refines (match ?x with _ => _ end) (match ?x with _ => _ end) =>
          destruct x
      end ].

Ltac fuel_all := repeat fuel_step.

(** Sets up the induction for a loop [f] that is a [Fixpoint] on its
    fuel. *)
Ltac fuel_loop :=
  let n := fresh "n" in
  let IH := fresh "IH" in
  let Hle := fresh "Hle" in
  intros n; induction n as [|n IH]; intros [|?m] Hle;
  [ intros; intros ? Hne; exfalso; apply Hne; reflexivity
  | intros; intros ? Hne; exfalso; apply Hne; reflexivity
  | exfalso; lia
  | apply le_S_n in Hle ].

Lemma fuel_skipToEol (tokens : list Token) :
  forall n m, n <= m -> refines (skipToEol tokens n) (skipToEol tokens m).
Proof. fuel_loop. cbn [skipToEol]. fuel_all. Qed.

#[local] Hint Resolve fuel_skipToEol : fuel.

Lemma fuel_skipLine (tokens : list Token) :
  forall n m, n <= m -> refines (skipLine tokens n) (skipLine tokens m).
Proof. intros n m Hle. unfold skipLine. fuel_all. Qed.

Lemma fuel_skipBlockLoop (tokens : list Token) :
  forall n m, n <= m ->
  forall d, refines (skipBlockLoop tokens n d) (skipBlockLoop tokens m d).
Proof. fuel_loop. intros d. cbn [skipBlockLoop]. fuel_all. Qed.

Lemma fuel_skipBlock (tokens : list Token) :
  forall n m, n <= m -> refines (skipBlock tokens n) (skipBlock tokens m).
Proof. intros n m Hle. apply fuel_skipBlockLoop; exact Hle. Qed.

Lemma fuel_labelsLoop (tokens : list Token) :
  forall n m, n <= m ->
  forall arr, refines (labelsLoop tokens n arr) (labelsLoop tokens m arr).
Proof. fuel_loop. intros arr. cbn [labelsLoop]. fuel_all. Qed.

Lemma fuel_labels (tokens : list Token) :
  forall n m, n <= m -> refines (labels tokens n) (labels tokens m).
Proof. intros n m Hle. apply fuel_labelsLoop; exact Hle. Qed.

Lemma fuel_listItems (tokens : list Token) (k : TokenKind)
      (conv : jsstring -> jsstring) :
  forall n m, n <= m ->
  forall arr, refines (listItems tokens n k conv arr)
                      (listItems tokens m k conv arr).
Proof. fuel_loop. intros arr. cbn [listItems]. fuel_all. Qed.

#[local] Hint Resolve fuel_skipLine fuel_skipBlock fuel_labels
  fuel_listItems : fuel.

Lemma fuel_declValue (tokens : list Token) (key : jsstring) (a : DeclArgs) :
  forall n m, n <= m ->
  refines (declValue tokens n key a) (declValue tokens m key a).
Proof. intros n m Hle. unfold declValue. fuel_all. Qed.

#[local] Hint Resolve fuel_declValue : fuel.

Lemma fuel_declArg (tokens : list Token) (a : DeclArgs) :
  forall n m, n <= m -> refines (declArg tokens n a) (declArg tokens m a).
Proof. intros n m Hle. unfold declArg. fuel_all. Qed.

#[local] Hint Resolve fuel_declArg : fuel.

Lemma fuel_declArgs (tokens : list Token) :
  forall n m, n <= m ->
  forall a, refines (declArgs tokens n a) (declArgs tokens m a).
Proof. fuel_loop. intros a. cbn [declArgs]. fuel_all. Qed.

#[local] Hint Resolve fuel_declArgs : fuel.

Lemma fuel_parseDecl (tokens : list Token) (g p : list jsstring) :
  forall n m, n <= m ->
  refines (parseDecl tokens n g p) (parseDecl tokens m g p).
Proof. intros n m Hle. unfold parseDecl. fuel_all. Qed.

#[local] Hint Resolve fuel_parseDecl : fuel.

Lemma fuel_parseSpecStatement (tokens : list Token) (bv : option jsstring) :
  forall n m, n <= m ->
  refines (parseSpecStatement tokens n bv) (parseSpecStatement tokens m bv).
Proof. intros n m Hle. unfold parseSpecStatement. fuel_all. Qed.

#[local] Hint Resolve fuel_parseSpecStatement : fuel.

Lemma fuel_specBranch (tokens : list Token) (bv : option jsstring) :
  forall n m, n <= m ->
  refines (specBranch tokens n bv) (specBranch tokens m bv).
Proof. fuel_loop. cbn [specBranch]. fuel_all. Qed.

Lemma fuel_skipToEnd (tokens : list Token) :
  forall n m, n <= m -> refines (skipToEnd tokens n) (skipToEnd tokens m).
Proof. fuel_loop. cbn [skipToEnd]. fuel_all. Qed.

#[local] Hint Resolve fuel_specBranch fuel_skipToEnd : fuel.

Lemma fuel_specLoop (tokens : list Token) (bv : option jsstring) :
  forall n m, n <= m ->
  refines (specLoop tokens n bv) (specLoop tokens m bv).
Proof. fuel_loop. cbn [specLoop]. fuel_all. Qed.

#[local] Hint Resolve fuel_specLoop : fuel.

Lemma fuel_parseSpec (tokens : list Token) :
  forall n m, n <= m -> refines (parseSpec tokens n) (parseSpec tokens m).
Proof. intros n m Hle. unfold parseSpec. fuel_all. Qed.

#[local] Hint Resolve fuel_parseSpec : fuel.

Lemma fuel_statement_block (tokens : list Token) :
  forall n m, n <= m ->
  (forall g p, refines (statement tokens n g p) (statement tokens m g p)) /\
  (forall g p, refines (block tokens n g p) (block tokens m g p)).
Proof.
  induction n as [|n IH]; intros [|m] Hle.
  - split; intros g p s Hne; exfalso; apply Hne; reflexivity.
  - split; intros g p s Hne; exfalso; apply Hne; reflexivity.
  - exfalso; lia.
  - apply le_S_n in Hle. destruct (IH m Hle) as [IHs IHb].
    split; intros g p.
    + cbn [statement]. fuel_all.
    + cbn [block]. fuel_all.
Qed.

Lemma fuel_parseLoop (tokens : list Token) :
  forall n m, n <= m -> refines (parseLoop tokens n) (parseLoop tokens m).
Proof.
  fuel_loop. cbn [parseLoop]. fuel_all.
  apply fuel_statement_block; exact Hle.
Qed.

(** [parse], and so [parseRubyDsl], returns the same output with any
    larger amount of fuel. *)
Lemma fuel_parse (tokens : list Token) (n m : nat) (o : ParseOutput) :
  n <= m -> parse tokens n = Ok o -> parse tokens m = Ok o.
Proof.
  unfold parse. intros Hle H.
  rewrite (fuel_parseLoop tokens n m Hle (mkState 0 0 (mkOutput None None [] [])));
    [exact H|].
  intros E. rewrite E in H. discriminate.
Qed.

Lemma fuel_parseRubyDsl (source : jsstring) (n m : nat) (o : ParseOutput) :
  n <= m -> parseRubyDsl n source = Ok o -> parseRubyDsl m source = Ok o.
Proof.
  unfold parseRubyDsl. intros Hle.
  destruct (tokenize source); try discriminate.
  apply fuel_parse; exact Hle.
Qed.

(* ------------------------------------------------------------------ *)
(** ** A gemspec with a word array of versions *)

Lemma parse_gemspec_word_array_8 :
  parseRubyDsl 8 gemspecWordArray =
  Ok (mkOutput None None
               [mkDecl (js "foo") [js "~> 1.0"; js ">= 1.5"]
                       None None None (Some []) []]
               []).
Proof. vm_compute. reflexivity. Qed.

(** C6: parsing the three-line gemspec yields one runtime declaration, with
    name [foo], versions [~> 1.0] and [>= 1.5], empty groups and empty
    platforms, and no development declaration; eight units of fuel are
    enough, and more change nothing. *)
Theorem parse_gemspec_word_array (fuel : nat) :
  parseRubyDsl (8 + fuel) gemspecWordArray =
  Ok (mkOutput None None
               [mkDecl (js "foo") [js "~> 1.0"; js ">= 1.5"]
                       None None None (Some []) []]
               []).
Proof.
  apply (fuel_parseRubyDsl gemspecWordArray 8 (8 + fuel)); [lia|].
  exact parse_gemspec_word_array_8.
Qed.

(* ================================================================== *)
(** * Further properties *)

(* ------------------------------------------------------------------ *)
(** ** Version formatting *)

Lemma code_eq_true (a b : option Z) :
  code_eq a b = true -> exists x, a = Some x /\ b = Some x.
Proof.
  destruct a as [x|], b as [y|]; cbn; try discriminate.
  intros H. apply Z.eqb_eq in H. subst y. exists x. split; reflexivity.
Qed.

Lemma code_eq_refl (x : Z) : code_eq (Some x) (Some x) = true.
Proof. cbn. apply Z.eqb_refl. Qed.

Lemma firstDigit_shift (rest : jsstring) :
  forall j, firstDigit rest j = j + firstDigit rest 0.
Proof.
  induction rest as [|c rest IH]; intros j; cbn [firstDigit]; [lia|].
  fold (notDigit c). destruct (notDigit c); [|lia].
  rewrite (IH (S j)), (IH 1). lia.
Qed.

Lemma firstDigit_le (v : jsstring) : firstDigit v 0 <= length v.
Proof.
  induction v as [|c v IH]; cbn [firstDigit length]; [lia|].
  fold (notDigit c). destruct (notDigit c); [|lia].
  rewrite firstDigit_shift. lia.
Qed.

(** [firstDigit] cuts a string into a digit-free part and a rest that is
    empty or starts with a digit. *)
Lemma firstDigit_split (v : jsstring) :
  Forall (fun c => notDigit c = true) (firstn (firstDigit v 0) v) /\
  match skipn (firstDigit v 0) v with
  | [] => True
  | c :: _ => notDigit c = false
  end.
Proof.
  induction v as [|c v [IH1 IH2]]; cbn [firstDigit].
  - split; [constructor | exact I].
  - fold (notDigit c). destruct (notDigit c) eqn:E.
    + rewrite firstDigit_shift. cbn [Nat.add firstn skipn].
      split; [constructor; assumption | exact IH2].
    + cbn [firstn skipn]. split; [constructor | exact E].
Qed.

Lemma firstDigit_app (a b : jsstring) :
  Forall (fun c => notDigit c = true) a ->
  firstDigit (a ++ b) 0 = length a + firstDigit b 0.
Proof.
  induction 1 as [|c a Hc Ha IH]; cbn [app firstDigit length]; [reflexivity|].
  fold (notDigit c). rewrite Hc, firstDigit_shift, IH. lia.
Qed.

(** What the formatting does when it changes its argument. *)
Lemma formatVersion_cases (v : jsstring) :
  (formatVersion v = v /\
   (firstDigit v 0 = 0 \/ firstDigit v 0 = length v \/
    charCodeAt v (firstDigit v 0 - 1) = Some SPACE_CHARACTER)) \/
  (exists op c rest,
      v = op ++ c :: rest /\
      op <> [] /\
      Forall (fun c => notDigit c = true) op /\
      notDigit c = false /\
      charCodeAt op (length op - 1) <> Some SPACE_CHARACTER /\
      formatVersion v = op ++ SPACE_CHARACTER :: c :: rest).
Proof.
  unfold formatVersion.
  pose proof (firstDigit_le v) as Hle.
  pose proof (firstDigit_split v) as [Hop Hrest].
  set (j := firstDigit v 0) in *.
  destruct (0 <? j) eqn:E0; [|left; apply Nat.ltb_ge in E0; split; [reflexivity | lia]].
  destruct (j <? length v) eqn:E1;
    [|left; apply Nat.ltb_ge in E1; split; [reflexivity | lia]].
  destruct (code_eq (charCodeAt v (j - 1)) (Some SPACE_CHARACTER)) eqn:E2.
  - left. split; [reflexivity|]. right; right.
    apply code_eq_true in E2. destruct E2 as (x & Hx & Hs). congruence.
  - right. cbn [andb negb].
    apply Nat.ltb_lt in E0, E1.
    destruct (skipn j v) as [|c rest] eqn:Hsk.
    { apply (f_equal (@length Z)) in Hsk. rewrite length_skipn in Hsk.
      cbn in Hsk. lia. }
    exists (firstn j v), c, rest.
    assert (Hlen : length (firstn j v) = j) by (rewrite length_firstn; lia).
    assert (Hv : v = firstn j v ++ c :: rest)
      by (rewrite <- Hsk; symmetry; apply firstn_skipn).
    split; [exact Hv|].
    split; [intros Hnil; rewrite Hnil in Hlen; cbn in Hlen; lia|].
    split; [exact Hop|]. split; [exact Hrest|].
    split.
    + rewrite Hlen. intros Hsp.
      assert (Hsame : charCodeAt v (j - 1) = Some SPACE_CHARACTER).
      { unfold charCodeAt in *. rewrite nth_error_firstn in Hsp.
        destruct (j - 1 <? j) eqn:Ej; [exact Hsp|].
        apply Nat.ltb_ge in Ej. lia. }
      rewrite Hsame, code_eq_refl in E2. discriminate.
    + unfold slice. rewrite Nat.sub_0_r. cbn [skipn].
      rewrite Hsk.
      assert (Hall : firstn (length v - j) (c :: rest) = c :: rest).
      { apply firstn_all2. rewrite <- Hsk, length_skipn. lia. }
      rewrite Hall. reflexivity.
Qed.

Lemma firstDigit_formatted (op rest : jsstring) (c : Z) :
  Forall (fun c => notDigit c = true) op -> notDigit c = false ->
  firstDigit (op ++ SPACE_CHARACTER :: c :: rest) 0 = S (length op).
Proof.
  intros Hop Hc. rewrite (firstDigit_app op _ Hop).
  cbn [firstDigit].
  change ((SPACE_CHARACTER <? DIGIT_ZERO_CHARACTER)%Z ||
          (DIGIT_NINE_CHARACTER <? SPACE_CHARACTER)%Z) with true.
  cbv iota. fold (notDigit c). rewrite Hc. lia.
Qed.

Lemma charCodeAt_app_mid (a b : jsstring) (x : Z) :
  charCodeAt (a ++ x :: b) (length a) = Some x.
Proof.
  unfold charCodeAt. rewrite nth_error_app2 by lia.
  rewrite Nat.sub_diag. reflexivity.
Qed.

(** X1: formatting a formatted version string changes nothing. *)
Theorem formatVersion_idempotent (v : jsstring) :
  formatVersion (formatVersion v) = formatVersion v.
Proof.
  destruct (formatVersion_cases v)
    as [[Hsame _] | (op & c & rest & _ & _ & Hop & Hc & _ & Hfmt)].
  - rewrite Hsame. exact Hsame.
  - rewrite Hfmt. unfold formatVersion at 1.
    rewrite (firstDigit_formatted op rest c Hop Hc).
    cbn [Nat.sub]. rewrite Nat.sub_0_r, charCodeAt_app_mid, code_eq_refl.
    rewrite andb_false_r. reflexivity.
Qed.

(** A formatted version string is spaced: when it has a digit that is
    not its first code unit, a space stands before its first digit. *)
Lemma spaced_formatVersion (v : jsstring) : spaced (formatVersion v).
Proof.
  unfold spaced. cbv zeta.
  destruct (formatVersion_cases v)
    as [[Hsame Hwhy] | (op & c & rest & _ & _ & Hop & Hc & _ & Hfmt)].
  - rewrite Hsame. intros H0 H1.
    destruct Hwhy as [H | [H | H]]; [lia | lia | exact H].
  - rewrite Hfmt, (firstDigit_formatted op rest c Hop Hc). intros _ _.
    cbn [Nat.sub]. rewrite Nat.sub_0_r. apply charCodeAt_app_mid.
Qed.

(** X2: the formatting either returns its argument, or inserts one space
    between a non-empty digit-free prefix that does not end in a space and
    the first digit; it changes nothing else. *)
Theorem formatVersion_inserts_one_space (v : jsstring) :
  formatVersion v = v \/
  exists op c rest,
    v = op ++ c :: rest /\
    op <> [] /\
    Forall (fun c => notDigit c = true) op /\
    isDigit c = true /\
    charCodeAt op (length op - 1) <> Some SPACE_CHARACTER /\
    formatVersion v = op ++ SPACE_CHARACTER :: c :: rest.
Proof.
  destruct (formatVersion_cases v)
    as [[Hsame _] | (op & c & rest & Hv & Hne & Hop & Hc & Hsp & Hfmt)].
  - left; exact Hsame.
  - right. exists op, c, rest.
    repeat (split; [assumption|]).
    split; [|split; assumption].
    unfold notDigit in Hc. unfold isDigit.
    apply orb_false_iff in Hc. destruct Hc as [H1 H2].
    apply Z.ltb_ge in H1, H2.
    apply andb_true_iff. split; apply Z.leb_le; assumption.
Qed.

(* ------------------------------------------------------------------ *)
(** ** What [strip] returns is a part of its argument *)

Lemma substringOf_refl (s : jsstring) : substringOf s s.
Proof.
  exists 0, (length s). split; [lia|]. split; [lia|].
  unfold slice. rewrite Nat.sub_0_r. cbn [skipn].
  symmetry. apply firstn_all.
Qed.

Lemma substringOf_nil (s : jsstring) : substringOf [] s.
Proof.
  exists 0, 0. split; [lia|]. split; [lia|]. reflexivity.
Qed.

Lemma substringOf_slice (s : jsstring) (a b : nat) : substringOf (slice s a b) s.
Proof.
  destruct (le_lt_dec (length s) a) as [Ha|Ha].
  - assert (E : slice s a b = []).
    { unfold slice. rewrite skipn_all2 by exact Ha. apply firstn_nil. }
    rewrite E. apply substringOf_nil.
  - destruct (le_lt_dec b a) as [Hb|Hb].
    + assert (E : slice s a b = []).
      { unfold slice. replace (b - a) with 0 by lia. reflexivity. }
      rewrite E. apply substringOf_nil.
    + destruct (le_lt_dec b (length s)) as [Hl|Hl].
      * exists a, b. split; [lia|]. split; [lia | reflexivity].
      * exists a, (length s). split; [lia|]. split; [lia|].
        unfold slice. rewrite !firstn_all2; [reflexivity | |];
          rewrite length_skipn; lia.
Qed.

Lemma substringOf_trans (x y s : jsstring) :
  substringOf x y -> substringOf y s -> substringOf x s.
Proof.
  intros (c & d & Hcd & Hd & ->) (a & b & Hab & Hb & ->).
  assert (Hlen : length (slice s a b) = b - a).
  { unfold slice. rewrite length_firstn, length_skipn. lia. }
  rewrite Hlen in Hd.
  exists (a + c), (a + d). split; [lia|]. split; [lia|].
  unfold slice at 1 2.
  rewrite skipn_firstn_comm, firstn_firstn, skipn_skipn.
  unfold slice. f_equal; [lia | f_equal; lia].
Qed.

Lemma trimStart_skipn (s : jsstring) :
  exists k, k <= length s /\ trimStart s = skipn k s.
Proof.
  induction s as [|c s (k & Hk & IH)]; cbn [trimStart].
  - exists 0. split; [cbn; lia | reflexivity].
  - destruct (isJsSpace c).
    + exists (S k). split; [cbn; lia | exact IH].
    + exists 0. split; [cbn; lia | reflexivity].
Qed.

Lemma substringOf_trimStart (s : jsstring) : substringOf (trimStart s) s.
Proof.
  destruct (trimStart_skipn s) as (k & Hk & ->).
  exists k, (length s). split; [exact Hk|]. split; [lia|].
  unfold slice. symmetry. apply firstn_all2. rewrite length_skipn. lia.
Qed.

Lemma substringOf_trim (s : jsstring) : substringOf (trim s) s.
Proof.
  unfold trim.
  apply (substringOf_trans _ (trimStart s)); [|apply substringOf_trimStart].
  destruct (trimStart_skipn (rev (trimStart s))) as (k & Hk & ->).
  rewrite length_rev in Hk.
  rewrite skipn_rev, rev_involutive.
  exists 0, (length (trimStart s) - k). split; [lia|]. split; [lia|].
  unfold slice. rewrite Nat.sub_0_r. reflexivity.
Qed.

Lemma substringOf_unwrapQuotes :
  forall n content, substringOf (unwrapQuotes n content) content.
Proof.
  induction n as [|n IH]; intros c; cbn [unwrapQuotes];
    [apply substringOf_refl|].
  destruct (2 <=? length c); [|apply substringOf_refl].
  destruct (isQuote (charCodeAt c 0) &&
            code_eq (charCodeAt c 0) (charCodeAt c (length c - 1)));
    [|apply substringOf_refl].
  apply (substringOf_trans _ (slice c 1 (length c - 1)));
    [apply IH | apply substringOf_slice].
Qed.

(** X3: [strip] only removes code units from the two ends of its argument:
    what it returns is a contiguous part of it. *)
Theorem strip_substring (raw : jsstring) : substringOf (strip raw) raw.
Proof.
  unfold strip.
  destruct (startsWith raw (js "%q") || startsWith raw (js "%w")).
  - match goal with
    | |- context [let '(a, b) := ?pair in _] => remember pair as ab eqn:Hab
    end.
    clear Hab. destruct ab as [a b].
    assert (Hc : substringOf (trim (slice raw a b)) raw)
      by (apply (substringOf_trans _ (slice raw a b));
          [apply substringOf_trim | apply substringOf_slice]).
    match goal with
    | |- context [if ?c then _ else _] => destruct c
    end; [|exact Hc].
    apply (substringOf_trans _ (trim (slice raw a b)));
      [apply substringOf_slice | exact Hc].
  - destruct (code_eq (charCodeAt raw 0) (Some COLON_CHARACTER) &&
              (1 <? length raw)).
    + destruct (isQuote (charCodeAt raw 1)); apply substringOf_slice.
    + destruct (isQuote (charCodeAt raw 0)); [|apply substringOf_refl].
      match goal with
      | |- substringOf (unwrapQuotes _ ?c) _ =>
          apply (substringOf_trans _ c);
          [apply substringOf_unwrapQuotes | apply substringOf_slice]
      end.
Qed.

(* ------------------------------------------------------------------ *)
(** ** The words of a [%w] literal *)

Lemma splitWords_words :
  forall content items currentItem inItem,
    Forall (fun w => w <> [] /\ Forall (fun c => isWordBreak c = false) w) items ->
    Forall (fun c => isWordBreak c = false) currentItem ->
    (inItem = true -> currentItem <> []) ->
    Forall (fun w => w <> [] /\ Forall (fun c => isWordBreak c = false) w)
           (splitWords content items currentItem inItem).
Proof.
  induction content as [|char rest IH]; intros items cur inItem Hitems Hcur Hin;
    cbn [splitWords].
  - destruct inItem; cbn [andb]; [|exact Hitems].
    destruct (Nat.eqb (length cur) 0); cbn [negb]; [exact Hitems|].
    apply Forall_app. split; [exact Hitems|].
    constructor; [|constructor]. split; [apply Hin; reflexivity | exact Hcur].
  - fold (isWordBreak char). destruct (isWordBreak char) eqn:E.
    + destruct inItem.
      * apply IH; [|constructor | discriminate].
        apply Forall_app. split; [exact Hitems|].
        constructor; [|constructor].
        split; [apply Hin; reflexivity | exact Hcur].
      * apply IH; assumption.
    + apply IH; [exact Hitems | |].
      * apply Forall_app. split; [exact Hcur|]. constructor; [exact E | constructor].
      * intros _ H. destruct cur; discriminate H.
Qed.

Lemma splitWords_concat :
  forall content items currentItem inItem,
    (inItem = false -> currentItem = []) ->
    concat (splitWords content items currentItem inItem) =
    concat items ++ currentItem ++
    filter (fun c => negb (isWordBreak c)) content.
Proof.
  induction content as [|char rest IH]; intros items cur inItem Hin;
    cbn [splitWords filter].
  - rewrite app_nil_r. destruct inItem; cbn [andb].
    + destruct cur as [|c cur]; cbn [length Nat.eqb negb].
      * rewrite app_nil_r. reflexivity.
      * rewrite concat_app. cbn [concat]. rewrite app_nil_r. reflexivity.
    + rewrite (Hin eq_refl), app_nil_r. reflexivity.
  - fold (isWordBreak char). destruct (isWordBreak char) eqn:E; cbn [negb].
    + destruct inItem.
      * rewrite IH by reflexivity.
        rewrite concat_app. cbn [concat app]. rewrite !app_nil_r.
        rewrite app_assoc. reflexivity.
      * rewrite IH by exact Hin. reflexivity.
    + rewrite IH by discriminate. cbn [negb].
      rewrite <- !app_assoc. reflexivity.
Qed.

(** X4: the words [fromPercentW] cuts a [%w] literal into are not empty
    and hold no space, tab or line feed. *)
Theorem fromPercentW_words (raw : jsstring) :
  startsWith raw (js "%w") = true ->
  Forall (fun w => w <> [] /\ Forall (fun c => isWordBreak c = false) w)
         (fromPercentW raw).
Proof.
  intros Hw. unfold fromPercentW. rewrite Hw. cbn [negb].
  destruct (Nat.eqb (length (trim (slice raw 3 (length raw - 1)))) 0);
    [constructor|].
  apply splitWords_words; [constructor | constructor | discriminate].
Qed.

Lemma fromPercentW_words_witness :
  Forall (fun w => w <> [] /\ Forall (fun c => isWordBreak c = false) w)
         (fromPercentW (js "%w[~>1.0 >=1.5]")).
Proof.
  apply (fromPercentW_words (js "%w[~>1.0 >=1.5]")).
  vm_compute; reflexivity.
Defined.

(** X5: put end to end, the words of a [%w] literal are the trimmed text
    between its delimiters with the spaces, tabs and line feeds left out:
    no other code unit is lost, added or moved. *)
Theorem fromPercentW_concat (raw : jsstring) :
  startsWith raw (js "%w") = true ->
  concat (fromPercentW raw) =
  filter (fun c => negb (isWordBreak c))
         (trim (slice raw 3 (length raw - 1))).
Proof.
  intros Hw. unfold fromPercentW. rewrite Hw. cbn [negb].
  destruct (trim (slice raw 3 (length raw - 1))) as [|c content] eqn:E.
  - reflexivity.
  - cbn [length Nat.eqb]. rewrite splitWords_concat by reflexivity.
    reflexivity.
Qed.

Lemma fromPercentW_concat_witness :
  concat (fromPercentW (js "%w[~>1.0 >=1.5]")) =
  filter (fun c => negb (isWordBreak c))
         (trim (slice (js "%w[~>1.0 >=1.5]") 3
                      (length (js "%w[~>1.0 >=1.5]") - 1))).
Proof.
  apply (fromPercentW_concat (js "%w[~>1.0 >=1.5]")).
  vm_compute; reflexivity.
Defined.

(* ------------------------------------------------------------------ *)
(** ** The shape of the tokens *)

Lemma slice_cons (s : jsstring) (a b : nat) (c : Z) :
  charCodeAt s a = Some c -> a < b -> slice s a b = c :: slice s (S a) b.
Proof.
  unfold slice, charCodeAt. intros Hc Hab.
  replace (b - a) with (S (b - S a)) by lia.
  revert a b Hc Hab. induction s as [|x s IH]; intros a b Hc Hab.
  - destruct a; discriminate.
  - destruct a as [|a].
    + cbn in Hc. injection Hc as ->. reflexivity.
    + cbn [skipn]. cbn [nth_error] in Hc.
      destruct b as [|b]; [lia|].
      apply (IH a b Hc). lia.
Qed.

Lemma slice_empty (s : jsstring) (a : nat) : slice s a a = [].
Proof. unfold slice. rewrite Nat.sub_diag. reflexivity. Qed.

Lemma slice_one (s : jsstring) (a : nat) (c : Z) :
  charCodeAt s a = Some c -> slice s a (S a) = [c].
Proof.
  intros Hc. rewrite (slice_cons s a (S a) c Hc) by lia.
  rewrite slice_empty. reflexivity.
Qed.

Lemma length_slice (s : jsstring) (a b : nat) :
  b <= length s -> length (slice s a b) = b - a.
Proof.
  intros Hb. unfold slice. rewrite length_firstn, length_skipn. lia.
Qed.

Lemma charCodeAt_slice (s : jsstring) (a b k : nat) :
  k < b - a -> charCodeAt (slice s a b) k = charCodeAt s (a + k).
Proof.
  intros Hk. unfold charCodeAt, slice.
  rewrite nth_error_firstn.
  destruct (k <? b - a) eqn:E; [|apply Nat.ltb_ge in E; lia].
  apply nth_error_skipn.
Qed.

Lemma skipn_slice (s : jsstring) (a b k : nat) :
  skipn k (slice s a b) = slice s (a + k) b.
Proof.
  unfold slice. rewrite skipn_firstn_comm, skipn_skipn.
  f_equal; [lia | f_equal; lia].
Qed.

Section ScanShapes.

Variable source : jsstring.

(** The simple scan accepts every code unit it passes. *)
Lemma scanWhile_shape (p : Z -> bool) :
  forall fuel index column index' column',
    scanWhile source p fuel index column = Ok (index', column') ->
    index <= index' /\
    (index <= length source -> index' <= length source) /\
    forallb p (slice source index index') = true /\
    (forall c, charCodeAt source index = Some c -> p c = true ->
               index < index').
Proof.
  induction fuel as [|fuel IH]; intros index column index' column' H;
    [discriminate|].
  cbn [scanWhile] in H.
  destruct (charCodeAt source index) as [c|] eqn:Hc.
  - destruct (p c) eqn:Hp.
    + apply IH in H. destruct H as (Hle & Hin & Hall & _).
      pose proof (charCodeAt_Some_lt _ _ _ Hc) as Hlt.
      split; [lia|]. split; [intros _; apply Hin; lia|].
      split; [|intros; lia].
      rewrite (slice_cons source index index' c Hc) by lia.
      cbn [forallb]. rewrite Hp, Hall. reflexivity.
    + injection H as <- <-. split; [lia|]. split; [auto|].
      split; [rewrite slice_empty; reflexivity|].
      intros c0 E0 Hp0. congruence.
  - injection H as <- <-. split; [lia|]. split; [auto|].
    split; [rewrite slice_empty; reflexivity|].
    intros c0 E0. discriminate.
Qed.

(** The literal scan stops on the closing delimiter or past the end of the
    source. *)
Lemma scanLiteral_shape tooLong escapes close opener tokens :
  forall fuel len index line column index' line' column',
    scanLiteral source tooLong escapes close opener tokens
                fuel len index line column = Ok (index', line', column') ->
    index <= index' /\
    (index' < length source ->
     code_eq (charCodeAt source index') close = true) /\
    ((len <= MAX_STRING_LENGTH)%Z ->
     (Z.of_nat index' <=
      Z.of_nat index +
      (if escapes then 2 else 1) * (MAX_STRING_LENGTH - len))%Z).
Proof.
  induction fuel as [|fuel IH];
    intros len index line column index' line' column' H; [discriminate|].
  cbn [scanLiteral] in H.
  destruct (charCodeAt source index) as [c|] eqn:Hc.
  - destruct (code_eq (Some c) close) eqn:Hclose.
    + injection H as <- <- <-. split; [lia|].
      split; [intros _; rewrite Hc; exact Hclose|].
      intros Hlen. destruct escapes; lia.
    + destruct (MAX_STRING_LENGTH <? len + 1)%Z eqn:Elen; [discriminate|].
      apply Z.ltb_ge in Elen.
      destruct escapes; cbn [andb] in H;
        [ destruct (c =? BACKSLASH_CHARACTER)%Z;
          [ destruct (code_eq (charCodeAt source (S index)) (Some LINE_FEED))
          | rewrite Hc in H; destruct (code_eq (Some c) (Some LINE_FEED)) ]
        | rewrite Hc in H; destruct (code_eq (Some c) (Some LINE_FEED)) ];
        apply IH in H; destruct H as (Hle & Hstop & Hbound);
        (split; [lia | split; [exact Hstop | intros _; lia]]).
  - injection H as <- <- <-. split; [lia|].
    split; [intros Hlt; apply charCodeAt_None_ge in Hc; lia|].
    intros Hlen. destruct escapes; lia.
Qed.

End ScanShapes.

Lemma kindShape_single (c : Z) :
  isSingleCharacter c = true -> kindShape (singleCharacterKind c) [c].
Proof.
  intros H. destruct (singleCharacterKind c) eqn:E; cbn [kindShape];
    try (exists c; split; [reflexivity | split; [exact H | symmetry; exact E]]);
    exfalso; unfold singleCharacterKind in E;
    repeat match type of E with
           | (if ?b then _ else _) = _ => destruct b
           end; discriminate E.
Qed.

Lemma kindShape_word (w : jsstring) :
  firstIs isIdentifierStart w = true ->
  forallb isIdentifierChar w = true ->
  kindShape (wordKind w) w.
Proof.
  intros H1 H2. destruct (wordKind w) eqn:E; cbn [kindShape];
    try (split; [symmetry; exact E | split; assumption]);
    exfalso; unfold wordKind in E;
    repeat match type of E with
           | (if ?b then _ else _) = _ => destruct b
           end; discriminate E.
Qed.

Lemma scanWhile_no_throw (source : jsstring) (p : Z -> bool) :
  forall fuel index column e,
    scanWhile source p fuel index column <> Throw e.
Proof.
  induction fuel as [|fuel IH]; intros index column e; cbn [scanWhile];
    [discriminate|].
  destruct (charCodeAt source index) as [c|]; [|discriminate].
  destruct (p c); [apply IH | discriminate].
Qed.

Lemma scanLiteral_throw (source : jsstring) tooLong escapes close opener tokens :
  forall fuel len index line column e,
    scanLiteral source tooLong escapes close opener tokens
                fuel len index line column = Throw e ->
    message e = tooLong.
Proof.
  induction fuel as [|fuel IH]; intros len index line column e H;
    [discriminate|].
  cbn [scanLiteral] in H.
  destruct (charCodeAt source index) as [c|] eqn:Hc; [|discriminate].
  destruct (code_eq (Some c) close); [discriminate|].
  destruct (MAX_STRING_LENGTH <? len + 1)%Z;
    [injection H as <-; reflexivity|].
  destruct (escapes && (c =? BACKSLASH_CHARACTER)%Z);
    [ destruct (code_eq (charCodeAt source (S index)) (Some LINE_FEED))
    | rewrite Hc in H; destruct (code_eq (Some c) (Some LINE_FEED)) ];
    apply IH in H; exact H.
Qed.

Lemma startsWith_nil (s : jsstring) : startsWith s [] = true.
Proof. destruct s; reflexivity. Qed.

Section TokenShapes.

Variable source : jsstring.

Lemma shape_newline (index : nat) (cc : Z) :
  charCodeAt source index = Some cc -> (cc =? LINE_FEED)%Z = true ->
  kindShape NewLine (slice source index (index + 1)).
Proof.
  intros Hcc E. apply Z.eqb_eq in E. subst cc.
  rewrite Nat.add_1_r, (slice_one _ _ _ Hcc). reflexivity.
Qed.

Lemma shape_single (index : nat) (cc : Z) :
  charCodeAt source index = Some cc -> isSingleCharacter cc = true ->
  kindShape (singleCharacterKind cc) (slice source index (S index)).
Proof.
  intros Hcc E. rewrite (slice_one _ _ _ Hcc). apply kindShape_single; exact E.
Qed.

Lemma shape_colon (index : nat) (cc : Z) :
  charCodeAt source index = Some cc -> (cc =? COLON_CHARACTER)%Z = true ->
  kindShape Colon (slice source index (index + 1)).
Proof.
  intros Hcc E. apply Z.eqb_eq in E. subst cc.
  rewrite Nat.add_1_r, (slice_one _ _ _ Hcc). reflexivity.
Qed.

Lemma shape_pipe (index : nat) (cc : Z) :
  charCodeAt source index = Some cc -> (cc =? PIPE_CHARACTER)%Z = true ->
  kindShape Symbol (slice source index (index + 1)).
Proof.
  intros Hcc E. apply Z.eqb_eq in E. subst cc.
  rewrite Nat.add_1_r, (slice_one _ _ _ Hcc). left; reflexivity.
Qed.

Lemma last_of_slice (index n : nat) :
  index <= n -> n < length source ->
  charCodeAt (slice source index (S n))
             (length (slice source index (S n)) - 1) =
  charCodeAt source n.
Proof.
  intros Hle Hn. rewrite length_slice by lia.
  rewrite charCodeAt_slice by lia. f_equal. lia.
Qed.

Lemma shape_quoted_symbol (index n : nat) (cc : Z) :
  charCodeAt source index = Some cc -> (cc =? COLON_CHARACTER)%Z = true ->
  code_eq (charCodeAt source (index + 1)) (Some SINGLE_QUOTE_CHARACTER) ||
  code_eq (charCodeAt source (index + 1)) (Some DOUBLE_QUOTE_CHARACTER) = true ->
  S (S index) <= n -> n < length source ->
  (n < length source ->
   code_eq (charCodeAt source n) (charCodeAt source (index + 1)) = true) ->
  ((0 <= MAX_STRING_LENGTH)%Z ->
   (Z.of_nat n <= Z.of_nat (S (S index)) + 1 * (MAX_STRING_LENGTH - 0))%Z) ->
  kindShape Symbol (slice source index (S n)).
Proof.
  intros Hcc E Hq Hle Hn Hclose Hbound. apply Z.eqb_eq in E. subst cc.
  specialize (Hbound ltac:(unfold MAX_STRING_LENGTH; lia)).
  right. split.
  - rewrite charCodeAt_slice by lia. rewrite Nat.add_0_r. exact Hcc.
  - right. split; [rewrite length_slice by lia; lia|].
    rewrite last_of_slice by lia.
    rewrite charCodeAt_slice by lia.
    split; [exact Hq|].
    split; [|rewrite length_slice by lia; lia].
    destruct (code_eq_true _ _ (Hclose Hn)) as (x & -> & ->). reflexivity.
Qed.

Lemma shape_bare_symbol (index n : nat) (cc : Z) :
  charCodeAt source index = Some cc -> (cc =? COLON_CHARACTER)%Z = true ->
  match charCodeAt source (index + 1) with
  | Some c => isSymbolChar c
  | None => false
  end = true ->
  (forall c, charCodeAt source (S index) = Some c -> isSymbolChar c = true ->
             S index < n) ->
  n <= length source ->
  forallb isSymbolChar (slice source (S index) n) = true ->
  kindShape Symbol (slice source index n).
Proof.
  intros Hcc E Hc2 Hadv Hn Hall. apply Z.eqb_eq in E. subst cc.
  rewrite Nat.add_1_r in Hc2.
  destruct (charCodeAt source (S index)) as [c|] eqn:Hc; [|discriminate].
  specialize (Hadv c eq_refl Hc2).
  right. split.
  - rewrite charCodeAt_slice by lia. rewrite Nat.add_0_r. exact Hcc.
  - left. split; [rewrite length_slice by lia; lia|].
    rewrite skipn_slice, Nat.add_1_r. exact Hall.
Qed.

Lemma shape_quoted_string (index n : nat) (cc : Z) :
  charCodeAt source index = Some cc ->
  ((cc =? SINGLE_QUOTE_CHARACTER) || (cc =? DOUBLE_QUOTE_CHARACTER))%Z = true ->
  S index <= n -> n < length source ->
  (n < length source -> code_eq (charCodeAt source n) (Some cc) = true) ->
  ((0 <= MAX_STRING_LENGTH)%Z ->
   (Z.of_nat n <= Z.of_nat (S index) + 2 * (MAX_STRING_LENGTH - 0))%Z) ->
  kindShape String_ (slice source index (S n)).
Proof.
  intros Hcc Hq Hle Hn Hclose Hbound.
  specialize (Hbound ltac:(unfold MAX_STRING_LENGTH; lia)).
  left. split; [rewrite length_slice by lia; lia|].
  rewrite last_of_slice by lia.
  rewrite charCodeAt_slice by lia. rewrite Nat.add_0_r, Hcc.
  split; [exact Hq|].
  split; [|rewrite length_slice by lia; lia].
  destruct (code_eq_true _ _ (Hclose Hn)) as (x & -> & Hx).
  symmetry. exact Hx.
Qed.

Lemma shape_percent (index n : nat) (cc : Z) :
  charCodeAt source index = Some cc ->
  (cc =? PERCENT_CHARACTER)%Z &&
  (code_eq (charCodeAt source (index + 1)) (Some 113%Z) ||
   code_eq (charCodeAt source (index + 1)) (Some 119%Z)) = true ->
  index + 3 <= n -> n < length source ->
  (n < length source ->
   code_eq (charCodeAt source n)
           (closingDelimiter (charCodeAt source (index + 2))) = true) ->
  ((0 <= MAX_STRING_LENGTH)%Z ->
   (Z.of_nat n <= Z.of_nat (index + 3) + 2 * (MAX_STRING_LENGTH - 0))%Z) ->
  kindShape String_ (slice source index (S n)).
Proof.
  intros Hcc Hp Hle Hn Hclose Hbound.
  specialize (Hbound ltac:(unfold MAX_STRING_LENGTH; lia)).
  apply andb_true_iff in Hp. destruct Hp as [E Hqw].
  apply Z.eqb_eq in E. subst cc.
  right. split; [rewrite length_slice by lia; lia|].
  split.
  - rewrite (slice_cons source index (S n) _ Hcc) by lia.
    rewrite Nat.add_1_r in Hqw.
    destruct (charCodeAt source (S index)) as [c1|] eqn:Hc1;
      [|discriminate Hqw].
    rewrite (slice_cons source (S index) (S n) _ Hc1) by lia.
    cbn [code_eq] in Hqw.
    change (js "%q") with [PERCENT_CHARACTER; 113%Z].
    change (js "%w") with [PERCENT_CHARACTER; 119%Z].
    cbn [startsWith]. rewrite Z.eqb_refl, !startsWith_nil, !andb_true_r.
    exact Hqw.
  - split; [|rewrite length_slice by lia; lia].
    rewrite last_of_slice by lia.
    rewrite charCodeAt_slice by lia.
    destruct (code_eq_true _ _ (Hclose Hn)) as (x & -> & Hx).
    symmetry. exact Hx.
Qed.

Lemma shape_word (index n : nat) (cc : Z) :
  charCodeAt source index = Some cc -> isIdentifierStart cc = true ->
  index < n ->
  forallb isIdentifierChar (slice source index n) = true ->
  kindShape (wordKind (slice source index n)) (slice source index n).
Proof.
  intros Hcc Hs Hlt Hall. apply kindShape_word; [|exact Hall].
  rewrite (slice_cons source index n _ Hcc) by lia. exact Hs.
Qed.

Lemma shape_integer (index n : nat) :
  index < n -> n <= length source ->
  forallb isDigit (slice source index n) = true ->
  kindShape Integer (slice source index n).
Proof.
  intros Hlt Hn Hall. split; [apply slice_nonempty; lia | exact Hall].
Qed.

End TokenShapes.

Section LexStepShape.

Variable source : jsstring.
Variable max_tokens : Z.

Ltac shape_case :=
  match goal with
  | |- stepShape _ _ (match scanWhile ?s ?p ?f ?i ?c with _ => _ end) =>
      let H := fresh "Hscan" in
      destruct (scanWhile s p f i c) as [[? ?]| ? | |] eqn:H;
      [ apply scanWhile_shape in H
      | exfalso; apply (scanWhile_no_throw _ _ _ _ _ _ H)
      | exact I | exact I ]
  | |- stepShape _ _ (match scanLiteral ?s ?m ?e ?cl ?o ?t ?f ?l ?i ?ln ?c
                   with _ => _ end) =>
      let H := fresh "Hlit" in
      destruct (scanLiteral s m e cl o t f l i ln c) as [[[? ?] ?]| ? | |] eqn:H;
      [ apply scanLiteral_shape in H
      | apply scanLiteral_throw in H
      | exact I | exact I ]
  | |- stepShape _ _ (match push ?s ?m ?t ?i ?l ?c ?k ?a ?b with _ => _ end) =>
      let H := fresh "Hpush" in
      assert (H := push_spec s m t i l c k a b);
      destruct (push s m t i l c k a b)
  | |- stepShape _ _ (match ?x with _ => _ end) => destruct x eqn:?
  end.

Lemma lexStep_shape (st : LexState) :
  lx_index st < length source ->
  stepShape source st (lexStep source max_tokens st).
Proof.
  destruct st as [tokens index iterations line column].
  cbn [lx_index]; intros Hlt.
  unfold lexStep.
  destruct (length source * MAX_ITERATIONS <? S iterations) eqn:Hrun.
  { left; reflexivity. }
  destruct (charCodeAt source index) as [cc|] eqn:Hcc;
    [| right; right; left; reflexivity].
  repeat shape_case.
  all: unfold stepShape; cbn [lx_index lx_iterations lx_tokens message].
  all: repeat match goal with
         | H : False |- _ => destruct H
         | H : _ /\ _ |- _ => destruct H
         | H : (_ <=? _) = false |- _ => apply Nat.leb_gt in H
         end.
  all: try match goal with
           | |- In _ _ =>
               try match goal with
                   | H : message _ = _ |- _ => rewrite H
                   end;
               unfold runawayMessage, quotaMessage, lexerMessages; cbn [In];
               solve [intuition reflexivity]
           end.
  all: try (split; [lia | left; reflexivity]).
  all: subst.
  all: try match goal with
           | H : forall c : Z, charCodeAt _ _ = Some c -> _ |- _ =>
               specialize (H cc Hcc);
               match type of H with
               | ?prem -> _ =>
                   let Hp := fresh "Hp" in
                   assert (Hp : prem)
                     by first
                          [ assumption
                          | apply isIdentifierStart_char; assumption
                          | match goal with
                            | Hh : (_ =? HASH_CHARACTER)%Z = true |- _ =>
                                apply Z.eqb_eq in Hh; rewrite Hh; reflexivity
                            end ];
                   specialize (H Hp)
               end
           end.
  all: split; [lia|].
  all: right; eexists; split; [reflexivity|]; cbn [start end_ text kind].
  all: split; [first [reflexivity | lia] |].
  all: split; [first [reflexivity | lia] |].
  all: unfold tokenShape; cbn [start end_ text kind].
  all: split; [reflexivity|]. 
  all: split; [lia |].
  all: split; [lia |].
  - eapply shape_newline; eassumption.
  - eapply shape_single; eassumption.
  - eapply shape_colon; eassumption.
  - eapply shape_quoted_symbol; eassumption.
  - eapply shape_bare_symbol; first [eassumption | lia].
  - eapply shape_colon; eassumption.
  - eapply shape_pipe; eassumption.
  - eapply shape_quoted_string; eassumption.
  - eapply shape_percent; eassumption.
  - eapply shape_word; eassumption.
  - eapply shape_integer; first [eassumption | lia].
Qed.

End LexStepShape.

Lemma StronglySorted_snoc_rel {A} (R : A -> A -> Prop) (l : list A) (y : A) :
  StronglySorted R l -> Forall (fun x => R x y) l ->
  StronglySorted R (l ++ [y]).
Proof.
  induction l as [|x l IH]; intros Hs Hall; cbn.
  - constructor; constructor.
  - inversion Hs as [|? ? Hs' Hx]; subst.
    inversion Hall as [|? ? Hxy Hall']; subst.
    constructor; [apply IH; assumption|].
    apply Forall_app; split; [exact Hx|].
    constructor; [exact Hxy | constructor].
Qed.

Lemma StronglySorted_nth_lt {A} (R : A -> A -> Prop) (l : list A) :
  StronglySorted R l ->
  forall i j x y, i < j -> nth_error l i = Some x -> nth_error l j = Some y ->
                  R x y.
Proof.
  induction 1 as [|a l Hs IH Ha]; intros i j x y Hij Hi Hj.
  - destruct i; discriminate.
  - destruct j as [|j]; [lia|]. cbn in Hj.
    destruct i as [|i]; cbn in Hi.
    + injection Hi as <-. apply nth_error_In in Hj.
      rewrite Forall_forall in Ha. apply Ha; exact Hj.
    + eapply IH; [|eassumption|eassumption]. lia.
Qed.

Section TokenizerShape.

Variable source : jsstring.
Variable max_tokens : Z.

Lemma shapeInv_init : shapeInv source (mkLex [] 0 0 1 1).
Proof.
  unfold shapeInv; cbn. split; [lia|]. repeat split; constructor.
Qed.

Lemma lexStep_shapeInv (st st' : LexState) :
  lx_index st < length source ->
  shapeInv source st ->
  lexStep source max_tokens st = Ok st' ->
  shapeInv source st'.
Proof.
  intros Hlt (_ & Hshape & Hend & Hsorted) Hstep.
  pose proof (lexStep_spec source max_tokens st Hlt) as Hpost.
  pose proof (lexStep_shape source max_tokens st Hlt) as Hsh.
  rewrite Hstep in Hpost, Hsh. cbn [stepPost stepShape] in Hpost, Hsh.
  destruct Hpost as (Hadv & _ & _). destruct Hsh as (Hle & Htok).
  assert (Hend' : Forall (fun t => end_ t <= lx_index st') (lx_tokens st)).
  { eapply Forall_impl; [|exact Hend]. cbn; intros t ?; lia. }
  split; [exact Hle|].
  destruct Htok as [Heq | (t & Heq & Hs & He & Ht)]; rewrite Heq.
  - repeat split; assumption.
  - split; [apply Forall_app; split; [exact Hshape | constructor; [exact Ht | constructor]]|].
    split; [apply Forall_app; split; [exact Hend' | constructor; [lia | constructor]]|].
    apply StronglySorted_snoc_rel; [exact Hsorted|].
    eapply Forall_impl; [|exact Hend]. cbn; intros t0 ?; lia.
Qed.

Lemma lexLoop_shape :
  forall fuel st st',
    shapeInv source st ->
    lexLoop source max_tokens fuel st = Ok st' ->
    shapeInv source st' /\ lx_index st' = length source.
Proof.
  induction fuel as [|fuel IH]; intros st st' Hinv Hrun; [discriminate|].
  cbn [lexLoop] in Hrun.
  destruct (lx_index st <? length source) eqn:Hlt.
  - apply Nat.ltb_lt in Hlt.
    destruct (lexStep source max_tokens st) as [st1| | |] eqn:Hstep;
      try discriminate.
    apply (IH st1 st'); [|exact Hrun].
    apply (lexStep_shapeInv st st1 Hlt Hinv Hstep).
  - injection Hrun as <-. apply Nat.ltb_ge in Hlt.
    split; [exact Hinv|]. destruct Hinv as (Hle & _). lia.
Qed.

Lemma lexLoop_messages :
  forall fuel st e,
    lexLoop source max_tokens fuel st = Throw e ->
    In (message e) (runawayMessage :: lexerMessages).
Proof.
  induction fuel as [|fuel IH]; intros st e Hrun; [discriminate|].
  cbn [lexLoop] in Hrun.
  destruct (lx_index st <? length source) eqn:Hlt; [|discriminate].
  apply Nat.ltb_lt in Hlt.
  pose proof (lexStep_shape source max_tokens st Hlt) as Hsh.
  destruct (lexStep source max_tokens st) as [st1| e1 | |];
    try discriminate.
  - apply (IH st1 e Hrun).
  - injection Hrun as <-. exact Hsh.
Qed.

End TokenizerShape.

(** The tokens of a tokenizer run that returns: those of the main loop,
    well shaped and in order without overlap, and the final [EndOfFile]
    token at the end of the source. *)
Lemma tokenize_shapes (source : jsstring) (toks : list Token) :
  tokenize source = Ok toks ->
  exists body eof,
    toks = body ++ [eof] /\
    Forall (tokenShape source) body /\
    Forall (fun t => end_ t <= length source) body /\
    StronglySorted (fun a b => end_ a <= start b) body /\
    eof = mkToken EndOfFile [] (length source) (length source)
                  (line eof) (column eof).
Proof.
  unfold tokenize, tokenizeWith, tokenizeFuel. intros Hrun.
  destruct (lexLoop source MAX_TOKENS (S (length source)) (mkLex [] 0 0 1 1))
    as [st| | |] eqn:Hloop; try discriminate.
  apply lexLoop_shape in Hloop; [|apply shapeInv_init].
  destruct Hloop as ((_ & Hshape & Hend & Hsorted) & Hidx).
  pose proof (push_spec source MAX_TOKENS (lx_tokens st) (lx_index st)
                        (lx_line st) (lx_column st) EndOfFile
                        (lx_index st) (lx_index st)) as Hp.
  rewrite Hrun in Hp. destruct Hp as [-> _].
  eexists. eexists. split; [reflexivity|].
  split; [exact Hshape|].
  split; [rewrite <- Hidx; exact Hend|].
  split; [exact Hsorted|].
  cbn [line column]. rewrite slice_empty, Hidx. reflexivity.
Qed.

Lemma tokenShape_not_eof (source : jsstring) (t : Token) :
  tokenShape source t -> kind t <> EndOfFile.
Proof.
  intros (Htext & Hlt & Hle & Hkind) Hk. rewrite Hk in Hkind.
  cbn [kindShape] in Hkind. rewrite Htext in Hkind.
  apply (slice_nonempty source (start t) (end_ t)); assumption.
Qed.

(** X6: the tokens [tokenize] returns are tokens of the main loop followed
    by one [EndOfFile] token. A token of the main loop is not [EndOfFile],
    its text is the part of the source between its two offsets, which is
    not empty and lies within the source; the [EndOfFile] token has an
    empty text and both offsets at the end of the source. *)
Theorem tokenize_tokens_are_slices (source : jsstring) (toks : list Token) :
  tokenize source = Ok toks ->
  exists body eof,
    toks = body ++ [eof] /\
    Forall (fun t => kind t <> EndOfFile /\
                     text t = slice source (start t) (end_ t) /\
                     start t < end_ t /\ end_ t <= length source) body /\
    kind eof = EndOfFile /\ text eof = [] /\
    start eof = length source /\ end_ eof = length source.
Proof.
  intros Hrun.
  destruct (tokenize_shapes source toks Hrun)
    as (body & eof & Htoks & Hshape & _ & _ & Heof).
  exists body, eof. split; [exact Htoks|].
  split.
  - eapply Forall_impl; [|exact Hshape]. intros t Ht.
    split; [apply (tokenShape_not_eof source t Ht)|].
    destruct Ht as (H1 & H2 & H3 & _). repeat split; assumption.
  - rewrite Heof. repeat split; reflexivity.
Qed.

Lemma tokenize_tokens_are_slices_witness :
  exists body eof,
    gemLineTokens = body ++ [eof] /\
    Forall (fun t => kind t <> EndOfFile /\
                     text t = slice (js "gem 'a'") (start t) (end_ t) /\
                     start t < end_ t /\ end_ t <= length (js "gem 'a'")) body /\
    kind eof = EndOfFile /\ text eof = [] /\
    start eof = length (js "gem 'a'") /\ end_ eof = length (js "gem 'a'").
Proof.
  apply (tokenize_tokens_are_slices (js "gem 'a'") gemLineTokens).
  vm_compute; reflexivity.
Defined.

(** X7: the tokens [tokenize] returns do not overlap: a token ends before
    the next one starts. *)
Theorem tokenize_tokens_disjoint (source : jsstring) (toks : list Token) :
  tokenize source = Ok toks ->
  forall i j ti tj,
    i < j -> nth_error toks i = Some ti -> nth_error toks j = Some tj ->
    end_ ti <= start tj.
Proof.
  intros Hrun.
  destruct (tokenize_shapes source toks Hrun)
    as (body & eof & Htoks & _ & Hend & Hsorted & Heof).
  assert (Hs : StronglySorted (fun a b => end_ a <= start b) toks).
  { rewrite Htoks. apply StronglySorted_snoc_rel; [exact Hsorted|].
    eapply Forall_impl; [|exact Hend]. intros t Ht.
    rewrite Heof. exact Ht. }
  intros i j ti tj Hij Hi Hj.
  apply (StronglySorted_nth_lt _ toks Hs i j ti tj Hij Hi Hj).
Qed.

Lemma tokenize_tokens_disjoint_witness :
  tokenize (js "gem 'a'") = Ok gemLineTokens /\
  end_ (mkToken Identifier (js "gem") 0 3 1 4) <=
  start (mkToken String_ (js "'a'") 4 7 1 7).
Proof.
  split; [vm_compute; reflexivity|].
  apply (tokenize_tokens_disjoint (js "gem 'a'") gemLineTokens) with (i := 0) (j := 1).
  - vm_compute; reflexivity.
  - lia.
  - reflexivity.
  - reflexivity.
Defined.

(** X8: the text of every token [tokenize] returns fits its kind: a word
    token has the kind of its text, starts with an identifier start and
    holds identifier characters only; an integer token holds digits only;
    a punctuation token is its one character; a symbol token is a bar, or
    a colon followed by symbol characters or by a quoted body closed by
    the quote that opened it; a string token is closed by the quote that
    opened it, or is a percent literal closed by the closing form of its
    delimiter. *)
Theorem tokenize_kinds (source : jsstring) (toks : list Token) :
  tokenize source = Ok toks ->
  forall t, In t toks -> kindShape (kind t) (text t).
Proof.
  intros Hrun.
  destruct (tokenize_shapes source toks Hrun)
    as (body & eof & Htoks & Hshape & _ & _ & Heof).
  intros t Hin. rewrite Htoks in Hin.
  apply in_app_or in Hin. destruct Hin as [Hin | [<- | []]].
  - rewrite Forall_forall in Hshape. apply (Hshape t Hin).
  - rewrite Heof. reflexivity.
Qed.

Lemma tokenize_kinds_witness :
  tokenize (js "gem 'a'") = Ok gemLineTokens /\
  kindShape String_ (js "'a'").
Proof.
  split; [vm_compute; reflexivity|].
  apply (tokenize_kinds (js "gem 'a'") gemLineTokens
           ltac:(vm_compute; reflexivity)
           (mkToken String_ (js "'a'") 4 7 1 7)).
  right; left; reflexivity.
Defined.

(** X9: a lexer error that [tokenize] throws carries one of eight
    messages; "runaway lexer" is not among them. *)
Theorem tokenize_errors (source : jsstring) (e : RubyDslError) :
  tokenize source = Throw e -> In (message e) lexerMessages.
Proof.
  unfold tokenize, tokenizeWith, tokenizeFuel. intros Hrun.
  pose proof (tokenize_inv source MAX_TOKENS) as Hinv.
  destruct (lexLoop source MAX_TOKENS (S (length source)) (mkLex [] 0 0 1 1))
    as [st| e' | |] eqn:Hloop; try discriminate.
  - pose proof (push_spec source MAX_TOKENS (lx_tokens st) (lx_index st)
                          (lx_line st) (lx_column st) EndOfFile
                          (lx_index st) (lx_index st)) as Hp.
    rewrite Hrun in Hp. destruct Hp as [Hm _]. rewrite Hm.
    left; reflexivity.
  - injection Hrun as <-.
    apply lexLoop_messages in Hloop.
    destruct Hloop as [Hr | Hin]; [|exact Hin].
    exfalso. apply Hinv. symmetry. exact Hr.
Qed.

Lemma tokenize_errors_witness :
  tokenize (js "gem 'a") =
  Throw (mkError "unterminated string" 6 1 7 "67" (Some (1, 5))) /\
  In ("unterminated string"%string) lexerMessages.
Proof.
  split; [vm_compute; reflexivity|].
  apply (tokenize_errors (js "gem 'a")
           (mkError "unterminated string" 6 1 7 "67" (Some (1, 5)))).
  vm_compute; reflexivity.
Defined.

Lemma wordKind_keyword (x : jsstring) :
  (wordKind x = Do <-> x = js "do") /\
  (wordKind x = End_ <-> x = js "end") /\
  (wordKind x = If <-> x = js "if") /\
  (wordKind x = Else <-> x = js "else").
Proof.
  unfold wordKind.
  destruct (jseq x (js "do")) eqn:E1;
    [apply jseq_eq in E1; subst x; repeat split; intros; (reflexivity || discriminate)|].
  destruct (jseq x (js "end")) eqn:E2;
    [apply jseq_eq in E2; subst x; repeat split; intros; (reflexivity || discriminate)|].
  destruct (jseq x (js "if")) eqn:E3;
    [apply jseq_eq in E3; subst x; repeat split; intros; (reflexivity || discriminate)|].
  destruct (jseq x (js "else")) eqn:E4;
    [apply jseq_eq in E4; subst x; repeat split; intros; (reflexivity || discriminate)|].
  repeat split; intros H; try discriminate H; subst x; discriminate.
Qed.

Ltac keyword_absurd H :=
  vm_compute in H;
  repeat match goal with
         | H' : _ /\ _ |- _ => destruct H'
         | H' : exists _, _ |- _ => destruct H'
         | H' : _ \/ _ |- _ => destruct H'
         end;
  first [ discriminate | congruence | lia | contradiction ].

Lemma kindShape_keyword (k : TokenKind) (x : jsstring) :
  kindShape k x ->
  (k = Do <-> x = js "do") /\
  (k = End_ <-> x = js "end") /\
  (k = If <-> x = js "if") /\
  (k = Else <-> x = js "else").
Proof.
  intros H.
  assert (Hword : k = wordKind x \/
                  (x <> js "do" /\ x <> js "end" /\ x <> js "if" /\
                   x <> js "else" /\
                   k <> Do /\ k <> End_ /\ k <> If /\ k <> Else)).
  { destruct k; cbn [kindShape] in H;
      try (left; apply H);
      right;
      (split; [intros ->; keyword_absurd H|]);
      (split; [intros ->; keyword_absurd H|]);
      (split; [intros ->; keyword_absurd H|]);
      (split; [intros ->; keyword_absurd H|]);
      repeat split; discriminate. }
  destruct Hword as [-> | (N1 & N2 & N3 & N4 & K1 & K2 & K3 & K4)].
  - apply wordKind_keyword.
  - repeat split; intros; contradiction.
Qed.

(** X10: among the tokens [tokenize] returns, the tokens of kind [Do],
    [End], [If] and [Else] are exactly those whose text is [do], [end],
    [if] and [else]. *)
Theorem tokenize_keywords (source : jsstring) (toks : list Token) :
  tokenize source = Ok toks ->
  forall t, In t toks ->
    (kind t = Do <-> text t = js "do") /\
    (kind t = End_ <-> text t = js "end") /\
    (kind t = If <-> text t = js "if") /\
    (kind t = Else <-> text t = js "else").
Proof.
  intros Hrun.
  destruct (tokenize_shapes source toks Hrun)
    as (body & eof & Htoks & Hshape & _ & _ & Heof).
  intros t Hin. apply kindShape_keyword.
  rewrite Htoks in Hin.
  apply in_app_or in Hin. destruct Hin as [Hin | [<- | []]].
  - rewrite Forall_forall in Hshape. apply (Hshape t Hin).
  - rewrite Heof. reflexivity.
Qed.

Lemma tokenize_keywords_witness :
  tokenize unclosedGroup = Ok unclosedGroupTokens /\
  (Do = Do <-> js "do" = js "do") /\
  (Do = End_ <-> js "do" = js "end") /\
  (Do = If <-> js "do" = js "if") /\
  (Do = Else <-> js "do" = js "else").
Proof.
  split; [vm_compute; reflexivity|].
  apply (tokenize_keywords unclosedGroup unclosedGroupTokens
           ltac:(vm_compute; reflexivity)
           (mkToken Do (js "do") 9 11 1 12)).
  right; right; left; reflexivity.
Defined.

Lemma isBare_head (c : Z) (r : jsstring) :
  c <> PERCENT_CHARACTER -> c <> COLON_CHARACTER ->
  c <> SINGLE_QUOTE_CHARACTER -> c <> DOUBLE_QUOTE_CHARACTER ->
  isBare (c :: r) = true.
Proof.
  intros H1 H2 H3 H4. unfold isBare, isQuote.
  change (js "%q") with [PERCENT_CHARACTER; 113%Z].
  change (js "%w") with [PERCENT_CHARACTER; 119%Z].
  cbn [startsWith charCodeAt nth_error code_eq].
  apply Z.eqb_neq in H1, H2, H3, H4. rewrite H1, H2, H3, H4. reflexivity.
Qed.

Lemma isBare_word (x : jsstring) :
  firstIs isIdentifierStart x = true -> isBare x = true.
Proof.
  destruct x as [|c r]; [discriminate|]. cbn [firstIs]. intros H.
  unfold isIdentifierStart, LETTER_A_CHARACTER, LETTER_Z_CHARACTER,
    LOWERCASE_A_CHARACTER, LOWERCASE_Z_CHARACTER, UNDERSCORE_CHARACTER,
    DOLLAR_CHARACTER in H.
  apply isBare_head;
    unfold PERCENT_CHARACTER, COLON_CHARACTER, SINGLE_QUOTE_CHARACTER,
      DOUBLE_QUOTE_CHARACTER; intros ->; discriminate H.
Qed.

Lemma isBare_digits (x : jsstring) :
  x <> [] -> forallb isDigit x = true -> isBare x = true.
Proof.
  destruct x as [|c r]; [contradiction|]. intros _ H.
  cbn [forallb] in H. apply andb_true_iff in H. destruct H as [H _].
  unfold isDigit, DIGIT_ZERO_CHARACTER, DIGIT_NINE_CHARACTER in H.
  apply isBare_head;
    unfold PERCENT_CHARACTER, COLON_CHARACTER, SINGLE_QUOTE_CHARACTER,
      DOUBLE_QUOTE_CHARACTER; intros ->; discriminate H.
Qed.

(** X11: [strip] leaves the text of a word token or an integer token of
    [tokenize] as it is: such a text has no quoting to remove. *)
Theorem tokenize_words_are_bare (source : jsstring) (toks : list Token) :
  tokenize source = Ok toks ->
  forall t, In t toks ->
    kind t = Identifier \/ kind t = Do \/ kind t = End_ \/ kind t = If \/
    kind t = Else \/ kind t = Integer ->
    strip (text t) = text t.
Proof.
  intros Hrun.
  destruct (tokenize_shapes source toks Hrun)
    as (body & eof & Htoks & Hshape & _ & _ & Heof).
  intros t Hin Hk. apply strip_bare.
  assert (Hks : kindShape (kind t) (text t)).
  { rewrite Htoks in Hin.
    apply in_app_or in Hin. destruct Hin as [Hin | [<- | []]].
    - rewrite Forall_forall in Hshape. apply (Hshape t Hin).
    - rewrite Heof. reflexivity. }
  destruct Hk as [Hk | [Hk | [Hk | [Hk | [Hk | Hk]]]]];
    rewrite Hk in Hks; cbn [kindShape] in Hks;
    first [ apply isBare_word; apply Hks
          | apply isBare_digits; apply Hks ].
Qed.

Lemma tokenize_words_are_bare_witness :
  tokenize (js "gem 'a'") = Ok gemLineTokens /\
  strip (js "gem") = js "gem".
Proof.
  split; [vm_compute; reflexivity|].
  apply (tokenize_words_are_bare (js "gem 'a'") gemLineTokens
           ltac:(vm_compute; reflexivity)
           (mkToken Identifier (js "gem") 0 3 1 4)).
  - left; reflexivity.
  - left; reflexivity.
Defined.

(** X12: a string token of [tokenize] holds at most twice
    [MAX_STRING_LENGTH] code units between its delimiters: each of the at
    most [MAX_STRING_LENGTH] steps of the body scan takes one code unit, or
    two for a backslash and the code unit after it. *)
Theorem tokenize_string_length (source : jsstring) (toks : list Token) :
  tokenize source = Ok toks ->
  forall t, In t toks -> kind t = String_ ->
    (Z.of_nat (length (text t)) <= 2 * MAX_STRING_LENGTH + 4)%Z.
Proof.
  intros Hrun.
  destruct (tokenize_shapes source toks Hrun)
    as (body & eof & Htoks & Hshape & _ & _ & Heof).
  intros t Hin Hk.
  assert (Hks : kindShape (kind t) (text t)).
  { rewrite Htoks in Hin.
    apply in_app_or in Hin. destruct Hin as [Hin | [<- | []]].
    - rewrite Forall_forall in Hshape. apply (Hshape t Hin).
    - rewrite Heof. reflexivity. }
  rewrite Hk in Hks. cbn [kindShape] in Hks.
  destruct Hks as [(_ & _ & _ & Hb) | (_ & _ & _ & Hb)]; lia.
Qed.

Lemma tokenize_string_length_witness :
  tokenize (js "gem 'a'") = Ok gemLineTokens /\
  (Z.of_nat (length (js "'a'")) <= 2 * MAX_STRING_LENGTH + 4)%Z.
Proof.
  split; [vm_compute; reflexivity|].
  apply (tokenize_string_length (js "gem 'a'") gemLineTokens
           ltac:(vm_compute; reflexivity)
           (mkToken String_ (js "'a'") 4 7 1 7)).
  - right; left; reflexivity.
  - reflexivity.
Defined.

Lemma lexStep_silent (source : jsstring) (cap : Z) (tokens : list Token)
      (index iterations line column : nat) (cc : Z) :
  charCodeAt source index = Some cc -> isSilent cc = true ->
  iterations <= index ->
  lexStep source cap (mkLex tokens index iterations line column) =
  Ok (mkLex tokens (S index) (S iterations) line (S column)).
Proof.
  intros Hcc Hs Hit. unfold lexStep.
  pose proof (charCodeAt_Some_lt source index cc Hcc) as Hlt.
  assert (Hrun : (length source * MAX_ITERATIONS <? S iterations) = false)
    by (apply Nat.ltb_ge; unfold MAX_ITERATIONS; lia).
  rewrite Hrun, Hcc.
  unfold isSilent in Hs.
  destruct ((cc =? SPACE_CHARACTER)%Z || (cc =? CHARACTER_TAB)%Z) eqn:Ews;
    [reflexivity|].
  cbn [orb] in Hs. unfold isOtherPunctuation in Hs.
  repeat (apply orb_true_iff in Hs; destruct Hs as [Hs | Hs]);
    apply Z.eqb_eq in Hs; subst cc; reflexivity.
Qed.

Lemma lexLoop_silent (source : jsstring) (cap : Z) :
  forallb isSilent source = true ->
  forall fuel tokens index iterations line column,
    index <= length source -> length source - index < fuel ->
    iterations <= index ->
    lexLoop source cap fuel (mkLex tokens index iterations line column) =
    Ok (mkLex tokens (length source)
              (iterations + (length source - index)) line
              (column + (length source - index))).
Proof.
  intros Hall.
  induction fuel as [|fuel IH];
    intros tokens index iterations line column Hle Hfuel Hit; [lia|].
  cbn [lexLoop lx_index].
  destruct (index <? length source) eqn:Hlt.
  - apply Nat.ltb_lt in Hlt.
    destruct (charCodeAt source index) as [cc|] eqn:Hcc;
      [|apply charCodeAt_None_ge in Hcc; lia].
    assert (Hs : isSilent cc = true).
    { rewrite forallb_forall in Hall. apply Hall.
      apply (nth_error_In source index). exact Hcc. }
    rewrite (lexStep_silent source cap tokens index iterations line column cc
               Hcc Hs Hit).
    rewrite IH by lia. f_equal. f_equal; lia.
  - apply Nat.ltb_ge in Hlt.
    replace (length source - index) with 0 by lia.
    rewrite !Nat.add_0_r. f_equal. f_equal. lia.
Qed.

(** X13: a source made of spaces, tabs and ignored punctuation only
    (braces, angle brackets, minus, plus, ampersand, asterisk, slash,
    semicolon) yields the [EndOfFile] token and nothing else. *)
Theorem tokenize_silent (source : jsstring) :
  forallb isSilent source = true ->
  tokenize source =
  Ok [mkToken EndOfFile [] (length source) (length source) 1
              (S (length source))].
Proof.
  intros Hall. unfold tokenize, tokenizeWith, tokenizeFuel.
  rewrite (lexLoop_silent source MAX_TOKENS Hall) by (cbn [length]; lia).
  cbn [lx_tokens lx_index lx_line lx_column]. unfold push.
  cbn [length]. change (MAX_TOKENS <=? Z.of_nat 0)%Z with false. cbv iota.
  unfold slice. rewrite Nat.sub_diag, Nat.sub_0_r. reflexivity.
Qed.

Lemma tokenize_silent_witness :
  tokenize (js " { } ") = Ok [mkToken EndOfFile [] 5 5 1 6].
Proof.
  apply (tokenize_silent (js " { } ")).
  vm_compute; reflexivity.
Defined.

(* ------------------------------------------------------------------ *)
(** ** Tests that only move the cursor *)

Lemma state_eq (a b : PState) :
  cursor a = cursor b -> depth a = depth b -> out a = out b -> a = b.
Proof. destruct a, b; cbn; intros -> -> ->; reflexivity. Qed.

Lemma consumes_ret {A} (tokens : list Token) (a : A) : consumes tokens (ret a).
Proof. intros s. cbn. repeat split; auto. Qed.

Lemma consumes_bind {A B} (tokens : list Token) (m : M A) (k : A -> M B) :
  consumes tokens m -> (forall a, consumes tokens (k a)) ->
  consumes tokens (bind m k).
Proof.
  intros Hm Hk s. unfold bind. specialize (Hm s).
  destruct (m s) as [[a s1]| | |]; try exact Hm.
  specialize (Hk a s1).
  destruct (k a s1) as [[b s2]| | |]; try exact Hk.
  destruct Hm as (D1 & O1 & C1 & B1), Hk as (D2 & O2 & C2 & B2).
  split; [congruence|]. split; [congruence|]. split; [lia | auto].
Qed.

Lemma consumes_peek (tokens : list Token) : consumes tokens (peek tokens).
Proof.
  intros s. unfold peek.
  destruct (nth_error tokens (cursor s)); [|exact I].
  repeat split; auto.
Qed.

Lemma consumes_advance (tokens : list Token) : consumes tokens (advance tokens).
Proof.
  intros s. unfold advance, bind, peek.
  destruct (nth_error tokens (cursor s)) as [t|] eqn:E; [|exact I].
  cbn. assert (cursor s < length tokens) by (apply nth_error_Some; congruence).
  repeat split; lia.
Qed.

Create HintDb cons discriminated.

#[local] Hint Resolve consumes_ret consumes_peek consumes_advance : cons.

(** Takes a goal [consumes tokens m] apart along the structure of [m]. *)
Ltac cons_step :=
  first
    [ solve [auto 1 with cons nocore]
    | assumption
    | match goal with
      | H : forall _, consumes _ _ |- _ => apply H
      | |- consumes _ (if ?b then _ else _) => destruct b
      | |- consumes _ (match ?x with _ => _ end) => destruct x
      | |- consumes _ (bind _ _) => apply consumes_bind; [| intros ?]
      end ].

Ltac cons_all := repeat cons_step.

Lemma consumes_peekKind (tokens : list Token) : consumes tokens (peekKind tokens).
Proof. unfold peekKind. cons_all. Qed.

Lemma consumes_peekText (tokens : list Token) : consumes tokens (peekText tokens).
Proof. unfold peekText. cons_all. Qed.

#[local] Hint Resolve consumes_peekKind consumes_peekText : cons.

Lemma consumes_match (tokens : list Token) (k : TokenKind) :
  consumes tokens (match_ tokens k).
Proof. unfold match_. cons_all. Qed.

Lemma consumes_matchWord (tokens : list Token) (w : jsstring) :
  consumes tokens (matchWord tokens w).
Proof. unfold matchWord. cons_all. Qed.

Lemma consumes_matchSymbol (tokens : list Token) (w : jsstring) :
  consumes tokens (matchSymbol tokens w).
Proof. unfold matchSymbol. cons_all. Qed.

Lemma consumes_orM (tokens : list Token) (a b : M bool) :
  consumes tokens a -> consumes tokens b -> consumes tokens (orM a b).
Proof. intros Ha Hb. unfold orM. cons_all. Qed.

Lemma consumes_andM (tokens : list Token) (a b : M bool) :
  consumes tokens a -> consumes tokens b -> consumes tokens (andM a b).
Proof. intros Ha Hb. unfold andM. cons_all. Qed.

#[local] Hint Resolve consumes_match consumes_matchWord consumes_matchSymbol
  consumes_orM consumes_andM : cons.

Lemma guards_match (tokens : list Token) (k : TokenKind) :
  guards tokens (match_ tokens k).
Proof.
  intros s. destruct (nth_error tokens (cursor s)) as [t|] eqn:E.
  - rewrite (match_at tokens k s t E).
    assert (cursor s < length tokens) by (apply nth_error_Some; congruence).
    destruct (TokenKind_eqb (kind t) k); cbn; [|reflexivity].
    repeat split; lia.
  - unfold match_, bind, peekKind, bind, peek. rewrite E. exact I.
Qed.

Lemma guards_matchWord (tokens : list Token) (w : jsstring) :
  guards tokens (matchWord tokens w).
Proof.
  intros s. destruct (nth_error tokens (cursor s)) as [t|] eqn:E.
  - rewrite (matchWord_at tokens w s t E).
    assert (cursor s < length tokens) by (apply nth_error_Some; congruence).
    destruct (TokenKind_eqb (kind t) Identifier && jseq (text t) w); cbn;
      [|reflexivity].
    repeat split; lia.
  - unfold matchWord, bind, peekKind, bind, peek. rewrite E. exact I.
Qed.

Lemma guards_orM (tokens : list Token) (a b : M bool) :
  guards tokens a -> guards tokens b -> guards tokens (orM a b).
Proof.
  intros Ha Hb s. unfold orM, bind. specialize (Ha s).
  destruct (a s) as [[[|] s1]| | |]; try exact Ha.
  subst s1. apply Hb.
Qed.

(** A conjunction of tests whose first is a guard: when it succeeds the
    cursor has moved forward. *)
Lemma andM_guard (tokens : list Token) (a b : M bool) :
  guards tokens a -> consumes tokens b ->
  forall s,
    match andM a b s with
    | Ok (r, s') =>
        depth s' = depth s /\ out s' = out s /\
        (r = true -> cursor s < cursor s' /\ cursor s' <= length tokens)
    | Throw _ => False
    | TypeError => True
    | OutOfFuel => True
    end.
Proof.
  intros Ha Hb s. unfold andM, bind. specialize (Ha s).
  destruct (a s) as [[[|] s1]| | |]; try exact Ha.
  - specialize (Hb s1).
    destruct (b s1) as [[r s2]| | |]; try exact Hb.
    destruct Ha as (D1 & O1 & C1 & B1), Hb as (D2 & O2 & C2 & B2).
    split; [congruence|]. split; [congruence|].
    intros _. split; [lia|]. apply B2. lia.
  - subst s1. cbn. split; [reflexivity|]. split; [reflexivity|]. discriminate.
Qed.

(** [looksSpecNew] consumes the six tokens of [Gem::Specification.new]
    (or of its [Pod] and [Spec] variants) or nothing at all. *)
Lemma guards_looksSpecNew (tokens : list Token) :
  guards tokens (looksSpecNew tokens).
Proof.
  intros s. unfold looksSpecNew.
  unfold bind at 1. unfold getCursor. unfold bind at 1.
  match goal with
  | |- context [andM ?a ?b s] =>
      pose proof (andM_guard tokens a b) as Hchain
  end.
  specialize (Hchain
                ltac:(apply guards_orM; apply guards_matchWord)
                ltac:(cons_all; auto 8 with cons nocore) s).
  match goal with
  | |- context [andM ?a ?b s] => destruct (andM a b s) as [[[|] s1]| | |]
  end; try exact Hchain.
  - cbn. destruct Hchain as (D & O & C). destruct (C eq_refl) as [C1 C2].
    repeat split; assumption.
  - cbn. destruct Hchain as (D & O & _).
    apply state_eq; cbn; congruence.
Qed.

(* ------------------------------------------------------------------ *)
(** ** What every parser method keeps *)

Lemma extends_refl (P : GemDeclaration -> Prop) (tokens : list Token)
      (s : PState) :
  extends P tokens s s.
Proof.
  split; [lia|]. split; [auto|].
  split; exists []; (split; [symmetry; apply app_nil_r | constructor]).
Qed.

Lemma extends_trans (P : GemDeclaration -> Prop) (tokens : list Token)
      (s1 s2 s3 : PState) :
  extends P tokens s1 s2 -> extends P tokens s2 s3 -> extends P tokens s1 s3.
Proof.
  intros (C1 & B1 & (r1 & R1 & PR1) & (d1 & D1 & PD1))
         (C2 & B2 & (r2 & R2 & PR2) & (d2 & D2 & PD2)).
  split; [lia|]. split; [auto|].
  split.
  - exists (r1 ++ r2). rewrite R2, R1, app_assoc.
    split; [reflexivity | apply Forall_app; split; assumption].
  - exists (d1 ++ d2). rewrite D2, D1, app_assoc.
    split; [reflexivity | apply Forall_app; split; assumption].
Qed.

Lemma extends_same_out (P : GemDeclaration -> Prop) (tokens : list Token)
      (s s' : PState) :
  out s' = out s -> cursor s <= cursor s' ->
  (cursor s <= length tokens -> cursor s' <= length tokens) ->
  extends P tokens s s'.
Proof.
  intros Ho Hc Hb. split; [exact Hc|]. split; [exact Hb|]. rewrite Ho.
  split; exists []; (split; [symmetry; apply app_nil_r | constructor]).
Qed.

Lemma runs_ret {A} (P : GemDeclaration -> Prop) (tokens : list Token) (a : A) :
  runs P tokens (ret a).
Proof. intros s. apply extends_refl. Qed.

Lemma runs_outOfFuel {A} (P : GemDeclaration -> Prop) (tokens : list Token) :
  runs P tokens (@outOfFuel A).
Proof. intros s. exact I. Qed.

Lemma runs_bind_sat {A B} (P : GemDeclaration -> Prop) (tokens : list Token)
      (phi : A -> Prop) (m : M A) (k : A -> M B) :
  resultSat phi m -> runs P tokens m ->
  (forall a, phi a -> runs P tokens (k a)) ->
  runs P tokens (bind m k).
Proof.
  intros Hphi Hm Hk s. unfold bind.
  specialize (Hphi s). specialize (Hm s). unfold post in Hphi.
  destruct (m s) as [[a s1]| | |]; try exact Hm.
  specialize (Hk a Hphi s1).
  destruct (k a s1) as [[b s2]| | |]; try exact Hk.
  apply (extends_trans P tokens s s1 s2); assumption.
Qed.

Lemma runs_bind {A B} (P : GemDeclaration -> Prop) (tokens : list Token)
      (m : M A) (k : A -> M B) :
  runs P tokens m -> (forall a, runs P tokens (k a)) ->
  runs P tokens (bind m k).
Proof.
  intros Hm Hk.
  apply (runs_bind_sat P tokens (fun _ => True)); auto.
  intros s. unfold post. destruct (m s) as [[a s1]| | |]; exact I.
Qed.

Lemma runs_consumes {A} (P : GemDeclaration -> Prop) (tokens : list Token)
      (m : M A) :
  consumes tokens m -> runs P tokens m.
Proof.
  intros Hm s. specialize (Hm s).
  destruct (m s) as [[a s1]| | |]; try exact Hm; try contradiction.
  destruct Hm as (_ & O & C & B). apply extends_same_out; assumption.
Qed.

Lemma runs_guards (P : GemDeclaration -> Prop) (tokens : list Token)
      (m : M bool) :
  guards tokens m -> runs P tokens m.
Proof.
  intros Hm s. specialize (Hm s).
  destruct (m s) as [[[|] s1]| | |]; try exact Hm; try contradiction.
  - destruct Hm as (_ & O & C & B). apply extends_same_out; auto. lia.
  - subst s1. apply extends_refl.
Qed.

Lemma runs_throwError {A} (P : GemDeclaration -> Prop) (tokens : list Token)
      (msg : string) :
  In msg parserMessages -> runs P tokens (@throwError tokens A msg).
Proof.
  intros Hin s. unfold throwError.
  destruct (cursor s); [exact I|].
  destruct (nth_error tokens n); [exact Hin | exact I].
Qed.

Lemma runs_enter (P : GemDeclaration -> Prop) (tokens : list Token) :
  runs P tokens (enter tokens).
Proof.
  intros s. unfold enter.
  destruct (MAX_BLOCK_DEPTH <? (depth s + 1))%Z.
  - pose proof (runs_throwError (A := unit) P tokens "nesting too deep"
                  ltac:(right; left; reflexivity)
                  (mkState (cursor s) (depth s + 1)%Z (out s))) as H.
    destruct (throwError tokens "nesting too deep"
                         (mkState (cursor s) (depth s + 1)%Z (out s)))
      as [[a s1]| | |]; exact H.
  - apply extends_same_out; cbn; auto.
Qed.

Lemma runs_leave (P : GemDeclaration -> Prop) (tokens : list Token) :
  runs P tokens leave.
Proof. intros s. apply extends_same_out; cbn; auto. Qed.

Lemma runs_setSelfName (P : GemDeclaration -> Prop) (tokens : list Token)
      (v : jsstring) :
  runs P tokens (setSelfName v).
Proof.
  intros s. unfold setSelfName, setSelfVersion, extends.
  cbn [cursor out runtime development].
  split; [lia|]. split; [auto|].
  split; exists []; (split; [symmetry; apply app_nil_r | constructor]).
Qed.

Lemma runs_setSelfVersion (P : GemDeclaration -> Prop) (tokens : list Token)
      (v : jsstring) :
  runs P tokens (setSelfVersion v).
Proof.
  intros s. unfold setSelfName, setSelfVersion, extends.
  cbn [cursor out runtime development].
  split; [lia|]. split; [auto|].
  split; exists []; (split; [symmetry; apply app_nil_r | constructor]).
Qed.

Lemma runs_pushDecl (P : GemDeclaration -> Prop) (tokens : list Token)
      (isDev : bool) (d : GemDeclaration) :
  P d -> runs P tokens (pushDecl isDev d).
Proof.
  intros Hd s. unfold pushDecl, appendDecl, extends. cbn [cursor out].
  split; [lia|]. split; [auto|].
  destruct isDev; cbn [runtime development]; split;
    first [ exists []; split; [symmetry; apply app_nil_r | constructor]
          | exists [d]; split; [reflexivity | constructor; [exact Hd | constructor]] ].
Qed.

Lemma runs_orM (P : GemDeclaration -> Prop) (tokens : list Token)
      (a b : M bool) :
  runs P tokens a -> runs P tokens b -> runs P tokens (orM a b).
Proof.
  intros Ha Hb. unfold orM. apply runs_bind; [exact Ha|].
  intros [|]; [apply runs_ret | exact Hb].
Qed.

Lemma runs_andM (P : GemDeclaration -> Prop) (tokens : list Token)
      (a b : M bool) :
  runs P tokens a -> runs P tokens b -> runs P tokens (andM a b).
Proof.
  intros Ha Hb. unfold andM. apply runs_bind; [exact Ha|].
  intros [|]; [exact Hb | apply runs_ret].
Qed.

Lemma runs_peekKind (P : GemDeclaration -> Prop) (tokens : list Token) :
  runs P tokens (peekKind tokens).
Proof. apply runs_consumes, consumes_peekKind. Qed.

Lemma runs_peekText (P : GemDeclaration -> Prop) (tokens : list Token) :
  runs P tokens (peekText tokens).
Proof. apply runs_consumes, consumes_peekText. Qed.

Lemma runs_advance (P : GemDeclaration -> Prop) (tokens : list Token) :
  runs P tokens (advance tokens).
Proof. apply runs_consumes, consumes_advance. Qed.

Lemma runs_match (P : GemDeclaration -> Prop) (tokens : list Token)
      (k : TokenKind) :
  runs P tokens (match_ tokens k).
Proof. apply runs_consumes, consumes_match. Qed.

Lemma runs_matchWord (P : GemDeclaration -> Prop) (tokens : list Token)
      (w : jsstring) :
  runs P tokens (matchWord tokens w).
Proof. apply runs_consumes, consumes_matchWord. Qed.

Lemma runs_matchSymbol (P : GemDeclaration -> Prop) (tokens : list Token)
      (w : jsstring) :
  runs P tokens (matchSymbol tokens w).
Proof. apply runs_consumes, consumes_matchSymbol. Qed.

Lemma runs_looksSpecNew (P : GemDeclaration -> Prop) (tokens : list Token) :
  runs P tokens (looksSpecNew tokens).
Proof. apply runs_guards, guards_looksSpecNew. Qed.

Create HintDb runs discriminated.

#[local] Hint Resolve runs_ret runs_outOfFuel runs_enter runs_leave
  runs_setSelfName runs_setSelfVersion runs_peekKind runs_peekText
  runs_advance runs_match runs_matchWord runs_matchSymbol
  runs_looksSpecNew : runs.

(** Takes a goal [runs P tokens m] apart along the structure of [m]. *)
Ltac runs_step :=
  first
    [ solve [auto 1 with runs nocore]
    | assumption
    | match goal with
      | H : forall _, runs _ _ _ |- _ => apply H
      | H : forall _ _, runs _ _ _ |- _ => apply H
      | |- runs _ _ (throwError _ _) =>
          apply runs_throwError; cbn [parserMessages In]; tauto
      | |- runs _ _ (orM _ _) => apply runs_orM
      | |- runs _ _ (andM _ _) => apply runs_andM
      | |- runs _ _ (let _ := _ in _) => cbv zeta
      | |- runs _ _ (if ?b then _ else _) => destruct b
      | |- runs _ _ (match ?x with _ => _ end) => destruct x
      | |- runs _ _ (bind _ _) => apply runs_bind; [| intros ?]
      end ].

Ltac runs_all := repeat runs_step.

Lemma runs_skipToEol (P : GemDeclaration -> Prop) (tokens : list Token) :
  forall fuel, runs P tokens (skipToEol tokens fuel).
Proof. induction fuel as [|fuel IH]; cbn [skipToEol]; runs_all. Qed.

#[local] Hint Resolve runs_skipToEol : runs.

Lemma runs_skipLine (P : GemDeclaration -> Prop) (tokens : list Token)
      (fuel : nat) :
  runs P tokens (skipLine tokens fuel).
Proof. unfold skipLine. runs_all. Qed.

Lemma runs_skipBlockLoop (P : GemDeclaration -> Prop) (tokens : list Token) :
  forall fuel depth, runs P tokens (skipBlockLoop tokens fuel depth).
Proof.
  induction fuel as [|fuel IH]; intros d; cbn [skipBlockLoop]; runs_all.
Qed.

Lemma runs_skipBlock (P : GemDeclaration -> Prop) (tokens : list Token)
      (fuel : nat) :
  runs P tokens (skipBlock tokens fuel).
Proof. apply runs_skipBlockLoop. Qed.

Lemma runs_labelsLoop (P : GemDeclaration -> Prop) (tokens : list Token) :
  forall fuel arr, runs P tokens (labelsLoop tokens fuel arr).
Proof.
  induction fuel as [|fuel IH]; intros arr; cbn [labelsLoop]; runs_all.
Qed.

Lemma runs_labels (P : GemDeclaration -> Prop) (tokens : list Token)
      (fuel : nat) :
  runs P tokens (labels tokens fuel).
Proof. apply runs_labelsLoop. Qed.

Lemma runs_listItems (P : GemDeclaration -> Prop) (tokens : list Token)
      (k : TokenKind) (conv : jsstring -> jsstring) :
  forall fuel arr, runs P tokens (listItems tokens fuel k conv arr).
Proof.
  induction fuel as [|fuel IH]; intros arr; cbn [listItems]; runs_all.
Qed.

#[local] Hint Resolve runs_skipLine runs_skipBlock runs_labels
  runs_listItems : runs.

Lemma runs_declValue (P : GemDeclaration -> Prop) (tokens : list Token)
      (fuel : nat) (key : jsstring) (a : DeclArgs) :
  runs P tokens (declValue tokens fuel key a).
Proof. unfold declValue. runs_all. Qed.

#[local] Hint Resolve runs_declValue : runs.

Lemma runs_declArg (P : GemDeclaration -> Prop) (tokens : list Token)
      (fuel : nat) (a : DeclArgs) :
  runs P tokens (declArg tokens fuel a).
Proof. unfold declArg. runs_all. Qed.

#[local] Hint Resolve runs_declArg : runs.

Lemma runs_declArgs (P : GemDeclaration -> Prop) (tokens : list Token) :
  forall fuel a, runs P tokens (declArgs tokens fuel a).
Proof.
  induction fuel as [|fuel IH]; intros a; cbn [declArgs]; runs_all.
Qed.

#[local] Hint Resolve runs_declArgs : runs.

Lemma runs_parseDecl (P : GemDeclaration -> Prop) (tokens : list Token)
      (fuel : nat) (groups platforms : list jsstring) :
  runs P tokens (parseDecl tokens fuel groups platforms).
Proof. unfold parseDecl. runs_all. Qed.

Lemma runs_skipToEnd (P : GemDeclaration -> Prop) (tokens : list Token) :
  forall fuel, runs P tokens (skipToEnd tokens fuel).
Proof. induction fuel as [|fuel IH]; cbn [skipToEnd]; runs_all. Qed.

#[local] Hint Resolve runs_parseDecl runs_skipToEnd : runs.

Section RunsDeclarations.

Variable P : GemDeclaration -> Prop.
Variable tokens : list Token.
Hypothesis P_deleteGroups : forall d, P d -> P (deleteGroups d).
Hypothesis P_parseDecl :
  forall fuel groups platforms,
    resultSat P (parseDecl tokens fuel groups platforms).

Ltac decl_step :=
  first
    [ match goal with
      | |- runs _ _ (pushDecl _ (if ?c then _ else _)) => destruct c
      | |- runs _ _ (pushDecl _ _) =>
          apply runs_pushDecl;
          first [assumption | apply P_deleteGroups; assumption]
      | |- runs _ _ (bind (parseDecl _ _ _ _) _) =>
          apply (runs_bind_sat P tokens P);
          [ apply P_parseDecl | apply runs_parseDecl | intros ? ? ]
      end
    | runs_step ].

Ltac decl_all := repeat decl_step.

Lemma runs_parseSpecStatement (fuel : nat) (blockVar : option jsstring) :
  runs P tokens (parseSpecStatement tokens fuel blockVar).
Proof. unfold parseSpecStatement. decl_all. Qed.

Lemma runs_specBranch (blockVar : option jsstring) :
  forall fuel, runs P tokens (specBranch tokens fuel blockVar).
Proof.
  induction fuel as [|fuel IH]; cbn [specBranch]; decl_all.
  apply runs_parseSpecStatement.
Qed.

Lemma runs_specLoop (blockVar : option jsstring) :
  forall fuel, runs P tokens (specLoop tokens fuel blockVar).
Proof.
  induction fuel as [|fuel IH]; cbn [specLoop]; decl_all;
    first [ apply runs_specBranch | apply runs_parseSpecStatement ].
Qed.

Lemma runs_parseSpec (fuel : nat) : runs P tokens (parseSpec tokens fuel).
Proof.
  unfold parseSpec. decl_all; try apply runs_specLoop.
  all: intros s; destruct (Z.eqb (depth s) 0);
    [apply extends_refl | apply (runs_leave P tokens s)].
Qed.

Lemma runs_statement_block :
  forall fuel,
    (forall g p, runs P tokens (statement tokens fuel g p)) /\
    (forall g p, runs P tokens (block tokens fuel g p)).
Proof.
  induction fuel as [|fuel [IHs IHb]].
  - split; intros g p s; exact I.
  - split; intros g p.
    + cbn [statement].
      apply runs_bind; [decl_all | intros isGem].
      destruct isGem.
      * apply (runs_bind_sat P tokens P);
          [ apply P_parseDecl | apply runs_parseDecl | intros d Hd ].
        cbv zeta.
        apply runs_bind; [decl_all | intros k].
        apply (runs_bind_sat P tokens P).
        -- destruct (TokenKind_eqb k If).
           ++ apply resultSat_bind; intros ?.
              apply resultSat_bind; intros ?.
              apply resultSat_ret. apply P_deleteGroups.
              destruct (hasDevGroups d); [apply P_deleteGroups|]; exact Hd.
           ++ apply resultSat_ret.
              destruct (hasDevGroups d); [apply P_deleteGroups|]; exact Hd.
        -- decl_all.
        -- intros emitted He. decl_all.
      * decl_all; apply runs_parseSpec.
    + cbn [block]. decl_all.
Qed.

Lemma runs_parseLoop :
  forall fuel, runs P tokens (parseLoop tokens fuel).
Proof.
  induction fuel as [|fuel IH]; cbn [parseLoop]; decl_all.
  apply runs_statement_block.
Qed.

End RunsDeclarations.

Lemma resultSat_True {A} (m : M A) : resultSat (fun _ => True) m.
Proof. intros s. unfold post. destruct (m s) as [[a s1]| | |]; exact I. Qed.

(** The dispatcher and the block loop, for the trivial property of
    declarations. *)
Lemma statement_extends (tokens : list Token) (fuel : nat)
      (g p : list jsstring) :
  runs (fun _ => True) tokens (statement tokens fuel g p).
Proof.
  apply (runs_statement_block (fun _ => True) tokens);
    [auto | intros; apply resultSat_True].
Qed.

(** X14: an error that [parse] throws carries one of two messages: "name
    literal expected" or "nesting too deep". *)
Theorem parse_errors (tokens : list Token) (fuel : nat) (e : RubyDslError) :
  parse tokens fuel = Throw e -> In (message e) parserMessages.
Proof.
  unfold parse. intros H.
  pose proof (runs_parseLoop (fun _ => True) tokens
                ltac:(auto) ltac:(intros; apply resultSat_True) fuel
                (mkState 0 0 (mkOutput None None [] []))) as Hr.
  destruct (parseLoop tokens fuel (mkState 0 0 (mkOutput None None [] [])))
    as [[[] s]| e' | |]; try discriminate.
  injection H as <-. exact Hr.
Qed.

Lemma parse_errors_witness :
  parse missingNameTokens 8 =
  Throw (mkError "name literal expected" 5 1 5 "2c" None) /\
  In ("name literal expected"%string) parserMessages.
Proof.
  split; [vm_compute; reflexivity|].
  apply (parse_errors missingNameTokens 8
           (mkError "name literal expected" 5 1 5 "2c" None)).
  vm_compute; reflexivity.
Defined.

(** X15: [statement] never moves the cursor back, and never moves it out
    of the token array. *)
Theorem statement_cursor_monotone
        (tokens : list Token) (fuel : nat) (g p : list jsstring)
        (s s' : PState) :
  statement tokens fuel g p s = Ok (tt, s') ->
  cursor s <= cursor s' /\
  (cursor s <= length tokens -> cursor s' <= length tokens).
Proof.
  intros H. pose proof (statement_extends tokens fuel g p s) as Hr.
  rewrite H in Hr. destruct Hr as (C & B & _). split; assumption.
Qed.

Lemma statement_cursor_monotone_witness :
  exists s',
    statement devLineTokens 8 [] [] (mkState 0 0 (mkOutput None None [] []))
    = Ok (tt, s') /\
    0 <= cursor s' /\
    (0 <= length devLineTokens -> cursor s' <= length devLineTokens).
Proof.
  eexists. split; [vm_compute; reflexivity|].
  apply (statement_cursor_monotone devLineTokens 8 [] []
           (mkState 0 0 (mkOutput None None [] []))).
  vm_compute; reflexivity.
Defined.

(** X16: [statement] only appends to the two lists of the output: the
    declarations it found there stay, in their order. *)
Theorem statement_appends
        (tokens : list Token) (fuel : nat) (g p : list jsstring)
        (s s' : PState) :
  statement tokens fuel g p s = Ok (tt, s') ->
  (exists l, runtime (out s') = runtime (out s) ++ l) /\
  (exists l, development (out s') = development (out s) ++ l).
Proof.
  intros H. pose proof (statement_extends tokens fuel g p s) as Hr.
  rewrite H in Hr. destruct Hr as (_ & _ & (r & R & _) & (d & D & _)).
  split; [exists r; exact R | exists d; exact D].
Qed.

Lemma statement_appends_witness :
  exists s',
    statement devLineTokens 8 [] []
              (mkState 0 0 (mkOutput None None
                                     [mkDecl (js "x") [] None None None None []]
                                     []))
    = Ok (tt, s') /\
    (exists l, runtime (out s') =
               [mkDecl (js "x") [] None None None None []] ++ l) /\
    (exists l, development (out s') = [] ++ l).
Proof.
  eexists. split; [vm_compute; reflexivity|].
  apply (statement_appends devLineTokens 8 [] []
           (mkState 0 0 (mkOutput None None
                                  [mkDecl (js "x") [] None None None None []]
                                  []))).
  vm_compute; reflexivity.
Defined.

(* ------------------------------------------------------------------ *)
(** ** The versions of the declarations *)

Lemma parseDecl_versionsSpaced (tokens : list Token) (fuel : nat)
      (outer pls : list jsstring) :
  resultSat versionsSpaced (parseDecl tokens fuel outer pls).
Proof.
  intros s. unfold post.
  destruct (parseDecl tokens fuel outer pls s) as [[d s']| | |] eqn:H;
    try exact I.
  unfold parseDecl in H.
  repeat (apply bind_Ok in H; destruct H as (? & ? & _ & H)).
  apply ret_Ok in H. injection H as Hd _. subst d.
  unfold versionsSpaced. cbn [versions].
  apply Forall_map, Forall_forall. intros v _. apply spaced_formatVersion.
Qed.

(** X17: in every declaration [parse] returns, every version string is
    spaced: when it has a digit that is not its first code unit, a space
    stands before its first digit. *)
Theorem parse_versions_spaced
        (tokens : list Token) (fuel : nat) (o : ParseOutput) :
  parse tokens fuel = Ok o ->
  Forall versionsSpaced (runtime o) /\ Forall versionsSpaced (development o).
Proof.
  unfold parse. intros H.
  pose proof (runs_parseLoop versionsSpaced tokens
                ltac:(intros d Hd; exact Hd)
                (parseDecl_versionsSpaced tokens) fuel
                (mkState 0 0 (mkOutput None None [] []))) as Hr.
  destruct (parseLoop tokens fuel (mkState 0 0 (mkOutput None None [] [])))
    as [[[] s]| | |]; try discriminate.
  injection H as <-.
  destruct Hr as (_ & _ & (r & R & PR) & (d & D & PD)).
  cbn [out runtime development app] in R, D. rewrite R, D.
  split; assumption.
Qed.

Lemma parse_versions_spaced_witness :
  parse versionLineTokens 8 =
  Ok (mkOutput None None
               [mkDecl (js "a") [js ">= 1.0"] None None None (Some []) []] []) /\
  Forall versionsSpaced
         [mkDecl (js "a") [js ">= 1.0"] None None None (Some []) []] /\
  Forall versionsSpaced [].
Proof.
  split; [vm_compute; reflexivity|].
  apply (parse_versions_spaced versionLineTokens 8
           (mkOutput None None
                     [mkDecl (js "a") [js ">= 1.0"] None None None (Some []) []]
                     [])).
  vm_compute; reflexivity.
Defined.

(* ------------------------------------------------------------------ *)
(** ** Progress *)

Lemma match_Ok (tokens : list Token) (k : TokenKind) (s s' : PState) (b : bool) :
  match_ tokens k s = Ok (b, s') ->
  exists t, nth_error tokens (cursor s) = Some t /\
            b = TokenKind_eqb (kind t) k /\
            s' = if b then stepped s else s.
Proof.
  intros H. destruct (nth_error tokens (cursor s)) as [t|] eqn:E.
  - rewrite (match_at tokens k s t E) in H. exists t.
    split; [reflexivity|].
    destruct (TokenKind_eqb (kind t) k); injection H as <- <-;
      split; reflexivity.
  - unfold match_, bind, peekKind, bind, peek in H. rewrite E in H.
    discriminate.
Qed.

Lemma advancesFrom_guard {A} (P : GemDeclaration -> Prop)
      (tokens : list Token) (g : M bool) (k : bool -> M A) (s : PState) :
  guards tokens g -> runs P tokens (k true) -> advancesFrom s (k false) ->
  advancesFrom s (bind g k).
Proof.
  intros Hg Ht Hf. unfold advancesFrom, bind. specialize (Hg s).
  destruct (g s) as [[[|] s1]| | |]; try exact I.
  - specialize (Ht s1).
    destruct (k true s1) as [[a s2]| | |]; try exact I.
    destruct Hg as (_ & _ & C & _), Ht as (C' & _). lia.
  - subst s1. exact Hf.
Qed.

Lemma advancesFrom_first {A B} (P : GemDeclaration -> Prop)
      (tokens : list Token) (m : M A) (k : A -> M B) (s : PState) :
  advancesFrom s m -> (forall a, runs P tokens (k a)) ->
  advancesFrom s (bind m k).
Proof.
  intros Hm Hk. unfold advancesFrom, bind in *.
  destruct (m s) as [[a s1]| | |]; try exact I.
  specialize (Hk a s1).
  destruct (k a s1) as [[b s2]| | |]; try exact I.
  destruct Hk as (C & _). lia.
Qed.

Lemma advancesFrom_advance (tokens : list Token) (s : PState) :
  advancesFrom s (advance tokens).
Proof.
  unfold advancesFrom.
  destruct (advance tokens s) as [[t s1]| | |] eqn:E; try exact I.
  apply advance_Ok in E. destruct E as [-> _]. cbn. lia.
Qed.

Section Progress.

Variable tokens : list Token.

(** On any token but [EndOfFile], [skipLine] consumes at least one
    token. *)
Lemma skipLine_advances (fuel : nat) (s : PState) (t : Token) :
  nth_error tokens (cursor s) = Some t -> kind t <> EndOfFile ->
  advancesFrom s (skipLine tokens fuel).
Proof.
  intros Hn Hk. unfold skipLine.
  apply (advancesFrom_guard (fun _ => True) tokens);
    [apply guards_match | runs_all |].
  unfold advancesFrom, bind at 1, ret.
  unfold bind at 1.
  destruct (skipToEol tokens fuel s) as [[[] s3]| | |] eqn:Hskip; try exact I.
  apply skipToEol_spec in Hskip.
  destruct Hskip as (_ & _ & Hc & Hall & (t3 & Hn3 & Hk3)).
  unfold bind at 1. rewrite (match_at tokens NewLine s3 t3 Hn3).
  assert (Hcases : kind t3 = NewLine \/ cursor s < cursor s3).
  { destruct Hk3 as [Hnl | Heof]; [left; exact Hnl|]. right.
    destruct (Nat.eq_dec (cursor s3) (cursor s)) as [E|E]; [|lia].
    rewrite E, Hn in Hn3. injection Hn3 as <-. contradiction. }
  destruct (TokenKind_eqb (kind t3) NewLine) eqn:Enl; cbn.
  - lia.
  - apply TokenKind_eqb_neq in Enl. destruct Hcases; [contradiction | lia].
Qed.

Lemma parseSpec_extends (fuel : nat) :
  runs (fun _ => True) tokens (parseSpec tokens fuel).
Proof.
  apply (runs_parseSpec (fun _ => True) tokens);
    [auto | intros; apply resultSat_True].
Qed.

Lemma block_extends (fuel : nat) (g p : list jsstring) :
  runs (fun _ => True) tokens (block tokens fuel g p).
Proof.
  apply (runs_statement_block (fun _ => True) tokens);
    [auto | intros; apply resultSat_True].
Qed.

Ltac triv_step :=
  first
    [ match goal with
      | |- runs _ _ (pushDecl _ _) => apply runs_pushDecl; exact I
      | |- runs _ _ (parseSpec _ _) => apply parseSpec_extends
      | |- runs _ _ (block _ _ _ _) => apply block_extends
      end
    | runs_step ].

Ltac triv_all := repeat triv_step.

(** On any token but [EndOfFile], [statement] consumes at least one
    token. *)
Lemma statement_advances (fuel : nat) (g p : list jsstring)
      (s : PState) (t : Token) :
  nth_error tokens (cursor s) = Some t -> kind t <> EndOfFile ->
  advancesFrom s (statement tokens fuel g p).
Proof.
  intros Hn Hk. destruct fuel as [|fuel]; [exact I|].
  cbn [statement].
  apply (advancesFrom_guard (fun _ => True) tokens);
    [apply guards_orM; apply guards_matchWord | triv_all |].
  apply (advancesFrom_guard (fun _ => True) tokens);
    [apply guards_orM; apply guards_matchWord | triv_all |].
  apply (advancesFrom_guard (fun _ => True) tokens);
    [apply guards_matchWord | triv_all |].
  apply (advancesFrom_guard (fun _ => True) tokens);
    [apply guards_matchWord | triv_all |].
  apply (advancesFrom_guard (fun _ => True) tokens);
    [apply guards_looksSpecNew | triv_all |].
  apply (advancesFrom_guard (fun _ => True) tokens);
    [apply guards_orM; apply guards_match | triv_all |].
  apply (skipLine_advances fuel s t Hn Hk).
Qed.

(** On any token but [EndOfFile], [parseSpecStatement] consumes at least
    one token. *)
Lemma parseSpecStatement_advances (fuel : nat) (bv : option jsstring)
      (s : PState) (t : Token) :
  nth_error tokens (cursor s) = Some t -> kind t <> EndOfFile ->
  advancesFrom s (parseSpecStatement tokens fuel bv).
Proof.
  intros Hn Hk. unfold parseSpecStatement.
  unfold advancesFrom. unfold bind at 1.
  rewrite (peekKind_at tokens s t Hn).
  unfold bind at 1.
  match goal with
  | |- context [(if ?c then ?a else ?b) s] =>
      assert (Hvar : exists r, (if c then a else b) s = Ok (r, s))
  end.
  { destruct (TokenKind_eqb (kind t) Identifier); [|eexists; reflexivity].
    destruct bv as [[|c b]|]; try (eexists; reflexivity).
    unfold bind. rewrite (peekText_at tokens s t Hn). eexists; reflexivity. }
  destruct Hvar as (r & ->).
  destruct r.
  - apply (advancesFrom_first (fun _ => True) tokens);
      [apply advancesFrom_advance | intros ?; triv_all].
  - apply (skipLine_advances fuel s t Hn Hk).
Qed.

End Progress.

(** X18: [statement] makes progress: on any token but [EndOfFile] it
    consumes at least one token when it returns. *)
Theorem statement_progress
        (tokens : list Token) (fuel : nat) (g p : list jsstring)
        (s s' : PState) (t : Token) :
  nth_error tokens (cursor s) = Some t -> kind t <> EndOfFile ->
  statement tokens fuel g p s = Ok (tt, s') ->
  cursor s < cursor s'.
Proof.
  intros Hn Hk H.
  pose proof (statement_advances tokens fuel g p s t Hn Hk) as Ha.
  unfold advancesFrom in Ha. rewrite H in Ha. exact Ha.
Qed.

Lemma statement_progress_witness :
  exists s',
    statement devLineTokens 8 [] [] (mkState 0 0 (mkOutput None None [] []))
    = Ok (tt, s') /\
    0 < cursor s'.
Proof.
  eexists. split; [vm_compute; reflexivity|].
  apply (statement_progress devLineTokens 8 [] []
           (mkState 0 0 (mkOutput None None [] [])) _
           (mkToken Identifier (js "gem") 0 3 1 4)).
  - vm_compute; reflexivity.
  - discriminate.
  - vm_compute; reflexivity.
Defined.

(** X19: [looksSpecNew] is all or nothing: when it answers yes, it has
    moved the cursor forward within the token array and changed nothing
    else; when it answers no, it has put the state back as it found it. *)
Theorem looksSpecNew_backtracks
        (tokens : list Token) (s s' : PState) (b : bool) :
  looksSpecNew tokens s = Ok (b, s') ->
  if b
  then depth s' = depth s /\ out s' = out s /\
       cursor s < cursor s' /\ cursor s' <= length tokens
  else s' = s.
Proof.
  intros H. pose proof (guards_looksSpecNew tokens s) as Hg.
  rewrite H in Hg. exact Hg.
Qed.

Lemma looksSpecNew_backtracks_witness :
  looksSpecNew specHeadTokens (mkState 0 0 (mkOutput None None [] [])) =
  Ok (true, mkState 6 0 (mkOutput None None [] [])) /\
  0%Z = 0%Z /\ mkOutput None None [] [] = mkOutput None None [] [] /\
  0 < 6 /\ 6 <= length specHeadTokens.
Proof.
  split; [vm_compute; reflexivity|].
  apply (looksSpecNew_backtracks specHeadTokens
           (mkState 0 0 (mkOutput None None [] []))
           (mkState 6 0 (mkOutput None None [] [])) true).
  vm_compute; reflexivity.
Defined.

(* ------------------------------------------------------------------ *)
(** ** Skipping to the end of a line *)

(** X20: [skipLine] changes nothing but the cursor, and leaves it just
    past the first [NewLine] token at or after the place it started from,
    or on the [EndOfFile] token if that comes first. *)
Theorem skipLine_stops_after_line
        (tokens : list Token) (fuel : nat) (s s' : PState) :
  skipLine tokens fuel s = Ok (tt, s') ->
  depth s' = depth s /\ out s' = out s /\
  exists j tj,
    cursor s <= j /\
    (forall i, cursor s <= i < j ->
               exists ti, nth_error tokens i = Some ti /\
                          kind ti <> NewLine /\ kind ti <> EndOfFile) /\
    nth_error tokens j = Some tj /\
    ((kind tj = NewLine /\ cursor s' = S j) \/
     (kind tj = EndOfFile /\ cursor s' = j)).
Proof.
  intros H. unfold skipLine in H.
  apply bind_Ok in H. destruct H as (b & s1 & Hif & H).
  apply match_Ok in Hif. destruct Hif as (t0 & Hn0 & Hb & Hs1).
  apply bind_Ok in H. destruct H as ([] & s2 & Hfirst & H).
  apply bind_Ok in H. destruct H as ([] & s3 & Hsecond & H).
  apply bind_Ok in H. destruct H as (nl & s4 & Hnl & H).
  apply ret_Ok in H. injection H as Hs'. subst s'.
  apply match_Ok in Hnl. destruct Hnl as (t3 & Hn3 & Hnlb & Hs4).
  apply skipToEol_spec in Hsecond.
  destruct Hsecond as (D3 & O3 & C3 & Hall3 & (t3' & Hn3' & Hk3)).
  rewrite Hn3 in Hn3'. injection Hn3' as <-.
  (* the state after the optional first scan, and the tokens it passed *)
  assert (Hmid : depth s2 = depth s /\ out s2 = out s /\
                 cursor s <= cursor s2 /\
                 (forall i, cursor s <= i < cursor s2 ->
                            exists ti, nth_error tokens i = Some ti /\
                                       kind ti <> NewLine /\
                                       kind ti <> EndOfFile)).
  { destruct b; subst s1.
    - apply skipToEol_spec in Hfirst. cbn [stepped cursor depth out] in Hfirst.
      destruct Hfirst as (D2 & O2 & C2 & Hall2 & _).
      split; [exact D2|]. split; [exact O2|]. split; [lia|].
      intros i Hi. destruct (Nat.eq_dec i (cursor s)) as [->|Hne].
      + exists t0. split; [exact Hn0|].
        symmetry in Hb. apply TokenKind_eqb_eq in Hb. rewrite Hb.
        split; discriminate.
      + apply Hall2. lia.
    - apply ret_Ok in Hfirst. injection Hfirst as <-.
      split; [reflexivity|]. split; [reflexivity|]. split; [lia|].
      intros i Hi. lia. }
  destruct Hmid as (D2 & O2 & C2 & Hall2).
  assert (Hend : depth s4 = depth s3 /\ out s4 = out s3 /\
                 cursor s4 = if nl then S (cursor s3) else cursor s3)
    by (destruct nl; subst s4; repeat split; reflexivity).
  destruct Hend as (D4 & O4 & C4).
  split; [congruence|]. split; [congruence|].
  exists (cursor s3), t3.
  split; [lia|]. split.
  - intros i Hi. destruct (le_lt_dec (cursor s2) i) as [Hge|Hlt].
    + apply Hall3. lia.
    + apply Hall2. lia.
  - split; [exact Hn3|].
    destruct Hk3 as [Hk | Hk]; rewrite Hk in Hnlb; cbn in Hnlb; subst nl;
      [left | right]; split; assumption.
Qed.

Lemma skipLine_stops_after_line_witness :
  exists s',
    skipLine devLineTokens 8 (mkState 1 0 (mkOutput None None [] [])) =
    Ok (tt, s') /\
    depth s' = 0%Z /\ out s' = mkOutput None None [] [] /\
    exists j tj,
      1 <= j /\
      (forall i, 1 <= i < j ->
                 exists ti, nth_error devLineTokens i = Some ti /\
                            kind ti <> NewLine /\ kind ti <> EndOfFile) /\
      nth_error devLineTokens j = Some tj /\
      ((kind tj = NewLine /\ cursor s' = S j) \/
       (kind tj = EndOfFile /\ cursor s' = j)).
Proof.
  eexists. split; [vm_compute; reflexivity|].
  apply (skipLine_stops_after_line devLineTokens 8
           (mkState 1 0 (mkOutput None None [] []))).
  vm_compute; reflexivity.
Defined.

(* ------------------------------------------------------------------ *)
(** ** Termination

    Every loop of the parser but the block loop of [statement] stops at
    the [EndOfFile] token, and consumes a token in each round; so it
    returns, throws or fails once it is given more fuel than there are
    tokens left. *)

Lemma fuelFree_ret {A} (a : A) : fuelFree (ret a).
Proof. intros s; discriminate. Qed.

Lemma fuelFree_bind {A B} (m : M A) (k : A -> M B) :
  fuelFree m -> (forall a, fuelFree (k a)) -> fuelFree (bind m k).
Proof.
  intros Hm Hk s. unfold bind. specialize (Hm s).
  destruct (m s) as [[a s1]| | |]; try discriminate; [apply Hk | contradiction].
Qed.

Lemma fuelFree_peek (tokens : list Token) : fuelFree (peek tokens).
Proof.
  intros s. unfold peek. destruct (nth_error tokens (cursor s)); discriminate.
Qed.

Lemma fuelFree_getCursor : fuelFree getCursor.
Proof. intros s; discriminate. Qed.

Lemma fuelFree_setCursor (c : nat) : fuelFree (setCursor c).
Proof. intros s; discriminate. Qed.

Lemma fuelFree_throwError (tokens : list Token) {A} (msg : string) :
  fuelFree (@throwError tokens A msg).
Proof.
  intros s. unfold throwError. destruct (cursor s); [discriminate|].
  destruct (nth_error tokens n); discriminate.
Qed.

Lemma fuelFree_enter (tokens : list Token) : fuelFree (enter tokens).
Proof.
  intros s. unfold enter.
  destruct (MAX_BLOCK_DEPTH <? (depth s + 1))%Z; [|discriminate].
  apply fuelFree_throwError.
Qed.

Lemma fuelFree_leave : fuelFree leave.
Proof. intros s; discriminate. Qed.

Lemma fuelFree_setSelfName (v : jsstring) : fuelFree (setSelfName v).
Proof. intros s; discriminate. Qed.

Lemma fuelFree_setSelfVersion (v : jsstring) : fuelFree (setSelfVersion v).
Proof. intros s; discriminate. Qed.

Lemma fuelFree_pushDecl (isDev : bool) (d : GemDeclaration) :
  fuelFree (pushDecl isDev d).
Proof. intros s; discriminate. Qed.

Create HintDb ff discriminated.

#[local] Hint Resolve fuelFree_ret fuelFree_peek fuelFree_getCursor
  fuelFree_setCursor fuelFree_throwError fuelFree_enter fuelFree_leave
  fuelFree_setSelfName fuelFree_setSelfVersion fuelFree_pushDecl : ff.

Ltac ff_step :=
  first
    [ solve [auto 1 with ff nocore]
    | assumption
    | match goal with
      | |- fuelFree (if ?b then _ else _) => destruct b
      | |- fuelFree (match ?x with _ => _ end) => destruct x
      | |- fuelFree (bind _ _) => apply fuelFree_bind; [| intros ?]
      end ].

Ltac ff_all := repeat ff_step.

Lemma fuelFree_peekKind (tokens : list Token) : fuelFree (peekKind tokens).
Proof. unfold peekKind. ff_all. Qed.

Lemma fuelFree_peekText (tokens : list Token) : fuelFree (peekText tokens).
Proof. unfold peekText. ff_all. Qed.

Lemma fuelFree_advance (tokens : list Token) : fuelFree (advance tokens).
Proof. unfold advance. ff_all. Qed.

#[local] Hint Resolve fuelFree_peekKind fuelFree_peekText fuelFree_advance : ff.

Lemma fuelFree_match (tokens : list Token) (k : TokenKind) :
  fuelFree (match_ tokens k).
Proof. unfold match_. ff_all. Qed.

Lemma fuelFree_matchWord (tokens : list Token) (w : jsstring) :
  fuelFree (matchWord tokens w).
Proof. unfold matchWord. ff_all. Qed.

Lemma fuelFree_matchSymbol (tokens : list Token) (w : jsstring) :
  fuelFree (matchSymbol tokens w).
Proof. unfold matchSymbol. ff_all. Qed.

Lemma fuelFree_orM (a b : M bool) :
  fuelFree a -> fuelFree b -> fuelFree (orM a b).
Proof. intros Ha Hb. unfold orM. ff_all. Qed.

Lemma fuelFree_andM (a b : M bool) :
  fuelFree a -> fuelFree b -> fuelFree (andM a b).
Proof. intros Ha Hb. unfold andM. ff_all. Qed.

#[local] Hint Resolve fuelFree_match fuelFree_matchWord fuelFree_matchSymbol
  fuelFree_orM fuelFree_andM : ff.

Lemma fuelFree_looksSpecNew (tokens : list Token) :
  fuelFree (looksSpecNew tokens).
Proof. unfold looksSpecNew. ff_all; auto 12 with ff nocore. Qed.

#[local] Hint Resolve fuelFree_looksSpecNew : ff.

Lemma lands_fuelFree {A} (tokens : list Token) (k n : nat) (m : M A) :
  fuelFree m -> lands tokens k n m.
Proof. intros H s _. apply H. Qed.

Lemma lands_outOfFuel {A} (tokens : list Token) (k : nat) :
  lands tokens k 0 (@outOfFuel A).
Proof. intros s H. lia. Qed.

Lemma lands_weaken {A} (tokens : list Token) (k k' n : nat) (m : M A) :
  k <= k' -> lands tokens k n m -> lands tokens k' n m.
Proof. intros Hk H s Hs. apply H. lia. Qed.

Lemma lands_shift {A} (tokens : list Token) (k n : nat) (m : M A) :
  lands tokens k n m -> lands tokens (S k) (S n) m.
Proof. intros H s Hs. apply H. lia. Qed.

Lemma lands_bind {A B} (tokens : list Token) (k n : nat)
      (m : M A) (f : A -> M B) :
  runs (fun _ => True) tokens m -> lands tokens k n m ->
  (forall a, lands tokens k n (f a)) ->
  lands tokens k n (bind m f).
Proof.
  intros Hr Hm Hf s Hs. unfold bind.
  specialize (Hr s). specialize (Hm s Hs).
  destruct (m s) as [[a s1]| | |]; try discriminate; [|contradiction].
  apply Hf. destruct Hr as (C & _). lia.
Qed.

(** After [advance] there is one token less to read. *)
Lemma lands_advance {B} (tokens : list Token) (k n : nat)
      (f : Token -> M B) :
  (forall a, lands tokens k n (f a)) ->
  lands tokens k (S n) (bind (advance tokens) f).
Proof.
  intros Hf s Hs. unfold bind.
  destruct (advance tokens s) as [[t s1]| | |] eqn:E; try discriminate.
  - apply advance_Ok in E. destruct E as [-> Hn].
    apply Hf. cbn [stepped cursor].
    assert (cursor s < length tokens) by (apply nth_error_Some; congruence).
    lia.
  - exfalso. apply (fuelFree_advance tokens s E).
Qed.

(** After a guard has succeeded there is at least one token less to
    read. *)
Lemma lands_guard {B} (tokens : list Token) (k n : nat)
      (g : M bool) (f : bool -> M B) :
  guards tokens g -> fuelFree g ->
  lands tokens k n (f true) -> lands tokens k (S n) (f false) ->
  lands tokens k (S n) (bind g f).
Proof.
  intros Hg Hff Ht Hf s Hs. unfold bind.
  specialize (Hg s). specialize (Hff s).
  destruct (g s) as [[[|] s1]| | |]; try discriminate; [| |contradiction].
  - apply Ht. destruct Hg as (_ & _ & C & B'). lia.
  - subst s1. apply Hf. exact Hs.
Qed.

Lemma parseSpecStatement_extends (tokens : list Token) (fuel : nat)
      (bv : option jsstring) :
  runs (fun _ => True) tokens (parseSpecStatement tokens fuel bv).
Proof.
  apply (runs_parseSpecStatement (fun _ => True) tokens);
    [auto | intros; apply resultSat_True].
Qed.

Lemma specBranch_extends (tokens : list Token) (fuel : nat)
      (bv : option jsstring) :
  runs (fun _ => True) tokens (specBranch tokens fuel bv).
Proof.
  apply (runs_specBranch (fun _ => True) tokens);
    [auto | intros; apply resultSat_True].
Qed.

Lemma specLoop_extends (tokens : list Token) (fuel : nat)
      (bv : option jsstring) :
  runs (fun _ => True) tokens (specLoop tokens fuel bv).
Proof.
  apply (runs_specLoop (fun _ => True) tokens);
    [auto | intros; apply resultSat_True].
Qed.

(** Closes a goal [runs (fun _ => True) tokens m]. *)
Ltac mono_step :=
  first
    [ match goal with
      | |- runs _ _ (pushDecl _ _) => apply runs_pushDecl; exact I
      | |- runs _ _ (parseSpecStatement _ _ _) =>
          apply parseSpecStatement_extends
      | |- runs _ _ (specBranch _ _ _) => apply specBranch_extends
      | |- runs _ _ (specLoop _ _ _) => apply specLoop_extends
      | |- runs _ _ (parseSpec _ _) => apply parseSpec_extends
      | |- runs _ _ (statement _ _ _ _) => apply statement_extends
      | |- runs _ _ (block _ _ _ _) => apply block_extends
      end
    | runs_step ].

Ltac mono_all := repeat mono_step.

Create HintDb lands discriminated.

(** Takes a goal [lands tokens k n m] apart along the structure of [m];
    where [n] is the successor of the fuel of the calls in [m], an
    [advance] or a guard that succeeds pays for the difference. *)
Ltac lands_step :=
  first
    [ solve [apply lands_fuelFree;
             repeat first [ ff_step
                          | apply fuelFree_orM
                          | apply fuelFree_andM ]]
    | assumption
    | solve [auto 1 with lands nocore]
    | match goal with
      | H : forall _, lands _ _ _ _ |- _ => apply H
      | H : forall _ _, lands _ _ _ _ |- _ => apply H
      | |- lands _ _ _ (if ?b then _ else _) => destruct b
      | |- lands _ _ _ (match ?x with _ => _ end) => destruct x
      | |- lands _ _ (S _) (bind (advance _) _) =>
          apply lands_advance; intros ?
      | |- lands _ _ (S _) (bind (match_ _ _) _) =>
          apply lands_guard; [apply guards_match | apply fuelFree_match | |]
      | |- lands _ _ (S _) (bind (orM (match_ _ _) (match_ _ _)) _) =>
          apply lands_guard;
          [ apply guards_orM; apply guards_match
          | apply fuelFree_orM; apply fuelFree_match | |]
      | |- lands _ _ _ (bind _ _) =>
          apply lands_bind; [solve [mono_all] | | intros ?]
      end ].

Ltac lands_all := repeat lands_step.

Lemma lands_skipToEol (tokens : list Token) :
  forall fuel k, lands tokens k fuel (skipToEol tokens fuel).
Proof.
  induction fuel as [|fuel IH]; intros k; cbn [skipToEol];
    [apply lands_outOfFuel | lands_all].
Qed.

#[local] Hint Resolve lands_skipToEol : lands.

Lemma lands_skipLine (tokens : list Token) (fuel k : nat) :
  lands tokens k fuel (skipLine tokens fuel).
Proof. unfold skipLine. lands_all. Qed.

Lemma lands_skipBlockLoop (tokens : list Token) :
  forall fuel k depth, lands tokens k fuel (skipBlockLoop tokens fuel depth).
Proof.
  induction fuel as [|fuel IH]; intros k d; cbn [skipBlockLoop];
    [apply lands_outOfFuel | lands_all].
Qed.

Lemma lands_skipBlock (tokens : list Token) (fuel k : nat) :
  lands tokens k fuel (skipBlock tokens fuel).
Proof. apply lands_skipBlockLoop. Qed.

Lemma lands_labelsLoop (tokens : list Token) :
  forall fuel k arr, lands tokens k fuel (labelsLoop tokens fuel arr).
Proof.
  induction fuel as [|fuel IH]; intros k arr; cbn [labelsLoop];
    [apply lands_outOfFuel | lands_all].
Qed.

Lemma lands_labels (tokens : list Token) (fuel k : nat) :
  lands tokens k fuel (labels tokens fuel).
Proof. apply lands_labelsLoop. Qed.

Lemma lands_listItems (tokens : list Token) (kd : TokenKind)
      (conv : jsstring -> jsstring) :
  forall fuel k arr, lands tokens k fuel (listItems tokens fuel kd conv arr).
Proof.
  induction fuel as [|fuel IH]; intros k arr; cbn [listItems];
    [apply lands_outOfFuel | lands_all].
Qed.

#[local] Hint Resolve lands_skipLine lands_skipBlock lands_labels
  lands_listItems : lands.

Lemma lands_declValue (tokens : list Token) (fuel k : nat) (key : jsstring)
      (a : DeclArgs) :
  lands tokens k fuel (declValue tokens fuel key a).
Proof. unfold declValue. lands_all. Qed.

#[local] Hint Resolve lands_declValue : lands.

Lemma lands_declArg (tokens : list Token) (fuel k : nat) (a : DeclArgs) :
  lands tokens k fuel (declArg tokens fuel a).
Proof. unfold declArg. lands_all. Qed.

#[local] Hint Resolve lands_declArg : lands.

Lemma lands_declArgs (tokens : list Token) :
  forall fuel k a, lands tokens k fuel (declArgs tokens fuel a).
Proof.
  induction fuel as [|fuel IH]; intros k a; cbn [declArgs];
    [apply lands_outOfFuel | lands_all].
Qed.

#[local] Hint Resolve lands_declArgs : lands.

Lemma lands_parseDecl (tokens : list Token) (fuel k : nat)
      (g p : list jsstring) :
  lands tokens k fuel (parseDecl tokens fuel g p).
Proof. unfold parseDecl. lands_all. Qed.

Lemma lands_skipToEnd (tokens : list Token) :
  forall fuel k, lands tokens k fuel (skipToEnd tokens fuel).
Proof.
  induction fuel as [|fuel IH]; intros k; cbn [skipToEnd];
    [apply lands_outOfFuel | lands_all].
Qed.

#[local] Hint Resolve lands_parseDecl lands_skipToEnd : lands.

Lemma lands_parseSpecStatement (tokens : list Token) (fuel k : nat)
      (bv : option jsstring) :
  lands tokens k fuel (parseSpecStatement tokens fuel bv).
Proof. unfold parseSpecStatement. lands_all. Qed.

#[local] Hint Resolve lands_parseSpecStatement : lands.

Lemma peekKind_none (tokens : list Token) (s : PState) :
  nth_error tokens (cursor s) = None -> peekKind tokens s = TypeError.
Proof. intros H. unfold peekKind, bind, peek. rewrite H. reflexivity. Qed.

Lemma lands_specBranch (tokens : list Token) (bv : option jsstring) :
  forall fuel k, lands tokens (S k) fuel (specBranch tokens fuel bv).
Proof.
  induction fuel as [|fuel IH]; intros k; [apply lands_outOfFuel|].
  intros s Hs. cbn [specBranch]. unfold bind at 1.
  destruct (nth_error tokens (cursor s)) as [t|] eqn:Hn;
    [|rewrite (peekKind_none tokens s Hn); discriminate].
  rewrite (peekKind_at tokens s t Hn).
  assert (Hlt : cursor s < length tokens)
    by (apply nth_error_Some; congruence).
  destruct (TokenKind_eqb (kind t) EndOfFile) eqn:Eeof; [discriminate|].
  apply TokenKind_eqb_neq in Eeof. cbn [negb andb].
  destruct (negb (TokenKind_eqb (kind t) Else) &&
            negb (TokenKind_eqb (kind t) End_)); [|discriminate].
  unfold bind.
  pose proof (lands_parseSpecStatement tokens fuel k bv s ltac:(lia)) as Hl.
  pose proof (parseSpecStatement_advances tokens fuel bv s t Hn Eeof) as Ha.
  unfold advancesFrom in Ha.
  destruct (parseSpecStatement tokens fuel bv s) as [[[] s1]| | |];
    try discriminate; [|contradiction].
  apply (IH k s1). lia.
Qed.

#[local] Hint Resolve lands_specBranch : lands.

Lemma lands_specLoop (tokens : list Token) (bv : option jsstring) :
  forall fuel k, lands tokens (S k) fuel (specLoop tokens fuel bv).
Proof.
  induction fuel as [|fuel IH]; intros k; [apply lands_outOfFuel|].
  intros s Hs. cbn [specLoop]. unfold bind at 1.
  destruct (nth_error tokens (cursor s)) as [t|] eqn:Hn;
    [|rewrite (peekKind_none tokens s Hn); discriminate].
  rewrite (peekKind_at tokens s t Hn).
  assert (Hlt : cursor s < length tokens)
    by (apply nth_error_Some; congruence).
  destruct (TokenKind_eqb (kind t) EndOfFile) eqn:Eeof; [discriminate|].
  apply TokenKind_eqb_neq in Eeof.
  unfold bind at 1. rewrite (match_at tokens End_ s t Hn).
  destruct (TokenKind_eqb (kind t) End_); [discriminate|].
  unfold bind at 1. rewrite (match_at tokens If s t Hn).
  destruct (TokenKind_eqb (kind t) If).
  - match goal with
    | |- ?K (stepped s) <> _ => assert (HK : lands tokens (S k) fuel K)
    end.
    { lands_all. }
    apply HK. cbn [stepped cursor]. lia.
  - unfold bind.
    pose proof (lands_parseSpecStatement tokens fuel k bv s ltac:(lia)) as Hl.
    pose proof (parseSpecStatement_advances tokens fuel bv s t Hn Eeof) as Ha.
    unfold advancesFrom in Ha.
    destruct (parseSpecStatement tokens fuel bv s) as [[[] s1]| | |];
      try discriminate; [|contradiction].
    apply (IH k s1). lia.
Qed.

#[local] Hint Resolve lands_specLoop : lands.

Lemma lands_parseSpec (tokens : list Token) (fuel k : nat) :
  lands tokens (S k) fuel (parseSpec tokens fuel).
Proof.
  unfold parseSpec. lands_all.
  all: apply lands_fuelFree; intros s;
    destruct (Z.eqb (depth s) 0); discriminate.
Qed.

#[local] Hint Resolve lands_parseSpec : lands.

Section WithoutBlocks.

Variable tokens : list Token.
Hypothesis no_do : Forall (fun t => kind t <> Do) tokens.

Lemma lands_match_Do {B} (k n : nat) (f : bool -> M B) :
  lands tokens k n (f false) ->
  lands tokens k n (bind (match_ tokens Do) f).
Proof.
  intros Hf s Hs. unfold bind.
  destruct (match_ tokens Do s) as [[b s1]| | |] eqn:E; try discriminate.
  - apply match_Ok in E. destruct E as (t & Hn & Hb & Hs1).
    destruct b.
    + exfalso. symmetry in Hb. apply TokenKind_eqb_eq in Hb.
      rewrite Forall_forall in no_do.
      apply (no_do t (nth_error_In _ _ Hn) Hb).
    + subst s1. apply Hf. exact Hs.
  - exfalso. apply (fuelFree_match tokens Do s E).
Qed.

Ltac nodo_step :=
  first
    [ match goal with
      | |- lands _ _ _ (bind (match_ _ Do) _) => apply lands_match_Do
      end
    | lands_step ].

Ltac nodo_all := repeat nodo_step.

Lemma lands_statement (g p : list jsstring) :
  forall fuel k, lands tokens (S k) fuel (statement tokens fuel g p).
Proof.
  intros [|fuel] k; [apply lands_outOfFuel|].
  cbn [statement].
  apply lands_guard;
    [ apply guards_orM; apply guards_matchWord
    | apply fuelFree_orM; apply fuelFree_matchWord
    | nodo_all |].
  apply lands_guard;
    [ apply guards_orM; apply guards_matchWord
    | apply fuelFree_orM; apply fuelFree_matchWord
    | nodo_all |].
  apply lands_guard;
    [ apply guards_matchWord | apply fuelFree_matchWord | nodo_all |].
  apply lands_guard;
    [ apply guards_matchWord | apply fuelFree_matchWord | nodo_all |].
  apply lands_guard;
    [ apply guards_looksSpecNew | apply fuelFree_looksSpecNew | nodo_all |].
  apply lands_guard;
    [ apply guards_orM; apply guards_match
    | apply fuelFree_orM; apply fuelFree_match
    | nodo_all |].
  apply lands_shift. apply lands_skipLine.
Qed.

Lemma lands_parseLoop :
  forall fuel k, lands tokens (S (S k)) fuel (parseLoop tokens fuel).
Proof.
  induction fuel as [|fuel IH]; intros k; [apply lands_outOfFuel|].
  intros s Hs. cbn [parseLoop]. unfold bind at 1.
  destruct (nth_error tokens (cursor s)) as [t|] eqn:Hn;
    [|rewrite (peekKind_none tokens s Hn); discriminate].
  rewrite (peekKind_at tokens s t Hn).
  assert (Hlt : cursor s < length tokens)
    by (apply nth_error_Some; congruence).
  destruct (TokenKind_eqb (kind t) EndOfFile) eqn:Eeof; [discriminate|].
  apply TokenKind_eqb_neq in Eeof.
  unfold bind.
  pose proof (lands_statement [] [] fuel k s ltac:(lia)) as Hl.
  pose proof (statement_advances tokens fuel [] [] s t Hn Eeof) as Ha.
  unfold advancesFrom in Ha.
  destruct (statement tokens fuel [] [] s) as [[[] s1]| | |];
    try discriminate; [|contradiction].
  apply (IH k s1). lia.
Qed.

End WithoutBlocks.

(** X21: the loops of [parseSpec] terminate: with more fuel than there
    are tokens left to read, and one unit to spare, [parseSpec] does not
    run out of fuel. *)
Theorem parseSpec_terminates (tokens : list Token) (fuel : nat) (s : PState) :
  length tokens - cursor s + 1 < fuel ->
  parseSpec tokens fuel s <> OutOfFuel.
Proof. intros H. apply (lands_parseSpec tokens fuel 0 s). exact H. Qed.

Lemma parseSpec_terminates_witness :
  parseSpec specHeadTokens 8 (mkState 6 0 (mkOutput None None [] []))
  <> OutOfFuel.
Proof.
  apply (parseSpec_terminates specHeadTokens 8
           (mkState 6 0 (mkOutput None None [] []))).
  vm_compute. lia.
Defined.

(** X22: on a token array without a [do] token, [parse] terminates: with
    three units of fuel more than there are tokens it returns, throws or
    fails on a missing token, and does not run out of fuel. *)
Theorem parse_terminates_without_do (tokens : list Token) (fuel : nat) :
  Forall (fun t => kind t <> Do) tokens ->
  length tokens + 2 < fuel ->
  parse tokens fuel <> OutOfFuel.
Proof.
  intros Hdo Hfuel. unfold parse.
  pose proof (lands_parseLoop tokens Hdo fuel 0
                (mkState 0 0 (mkOutput None None [] []))) as H.
  cbn [cursor] in H. specialize (H ltac:(lia)).
  destruct (parseLoop tokens fuel (mkState 0 0 (mkOutput None None [] [])))
    as [[[] s]| | |]; try discriminate.
  contradiction.
Qed.

Lemma parse_terminates_without_do_witness :
  parse devLineTokens 11 <> OutOfFuel.
Proof.
  apply (parse_terminates_without_do devLineTokens 11).
  - repeat constructor; discriminate.
  - vm_compute. lia.
Defined.

(* ------------------------------------------------------------------ *)
(** ** Reading a declaration *)

(** X23: when the token [parseDecl] starts on is neither an opening
    parenthesis nor a string, a symbol or an identifier, [parseDecl]
    throws "name literal expected", and the error carries the end offset,
    the line and the column of that token. *)
Theorem parseDecl_name_expected
        (tokens : list Token) (fuel : nat) (g p : list jsstring)
        (s : PState) (t : Token) :
  nth_error tokens (cursor s) = Some t ->
  kind t <> LeftParen -> kind t <> String_ -> kind t <> Symbol ->
  kind t <> Identifier ->
  exists e,
    parseDecl tokens fuel g p s = Throw e /\
    message e = "name literal expected"%string /\
    offset e = end_ t /\ err_line e = line t /\ err_column e = column t.
Proof.
  intros Hn Hp Hs Hy Hi.
  apply TokenKind_eqb_neq in Hp, Hs, Hy, Hi.
  unfold parseDecl. unfold bind at 1.
  rewrite (match_at tokens LeftParen s t Hn), Hp.
  unfold bind at 1. rewrite (advance_at tokens s t Hn).
  rewrite Hs, Hy, Hi. cbn [negb andb].
  unfold bind at 1. unfold throwError. cbn [stepped cursor]. rewrite Hn.
  eexists. split; [reflexivity|]. repeat split; reflexivity.
Qed.

Lemma parseDecl_name_expected_witness :
  exists e,
    parseDecl missingNameTokens 7 [] []
              (mkState 1 0 (mkOutput None None [] [])) = Throw e /\
    message e = "name literal expected"%string /\
    offset e = 5 /\ err_line e = 1 /\ err_column e = 5.
Proof.
  apply (parseDecl_name_expected missingNameTokens 7 [] []
           (mkState 1 0 (mkOutput None None [] []))
           (mkToken Comma (js ",") 4 5 1 5)).
  - vm_compute; reflexivity.
  - discriminate.
  - discriminate.
  - discriminate.
  - discriminate.
Defined.

(** X24: [parseDecl] returns the declaration that the tokens spell from
    the cursor on: its name is the text of the name token, stripped
    unless the token is an identifier; its versions are those of the
    string arguments and of the bracketed lists, in their order and
    formatted; [git], [path] and [require] come from the value of the
    last pair with that key; its groups are the groups [parseDecl] was
    called with followed by the values of its [group] keys, its platforms
    the platforms it was called with followed by the symbols of its
    [platforms] lists. [parseDecl] changes nothing but the cursor, which
    it leaves where the declaration ends. *)
Theorem parseDecl_reads_declaration
        (tokens : list Token) (fuel : nat) (g p : list jsstring)
        (s s1 : PState) (d : GemDeclaration) :
  parseDecl tokens fuel g p s = Ok (d, s1) ->
  depth s1 = depth s /\ out s1 = out s /\
  exists nameTok args,
    declaration tokens (cursor s) nameTok args (cursor s1) /\
    d = declared g p nameTok args.
Proof.
  intros H.
  destruct (parseDecl_reads tokens fuel g p s s1 d H) as [[Hd Ho] Hdecl].
  split; [exact Hd|]. split; [exact Ho | exact Hdecl].
Qed.

Lemma parseDecl_reads_declaration_witness :
  exists d s1,
    parseDecl devLineTokens 7 [js "x"] [js "ruby"]
              (mkState 1 0 (mkOutput None None [] [])) = Ok (d, s1) /\
    d = mkDecl (js "a") [] None None None (Some [js "x"; js "test"])
               [js "ruby"] /\
    depth s1 = 0%Z /\ out s1 = mkOutput None None [] [] /\
    exists nameTok args,
      declaration devLineTokens 1 nameTok args (cursor s1) /\
      d = declared [js "x"] [js "ruby"] nameTok args.
Proof.
  eexists. eexists. split; [vm_compute; reflexivity|].
  split; [reflexivity|].
  apply (parseDecl_reads_declaration devLineTokens 7 [js "x"] [js "ruby"]
           (mkState 1 0 (mkOutput None None [] []))).
  vm_compute; reflexivity.
Defined.

(** *** The converse *)

Lemma commaList_le (tokens : list Token) (isItem : Token -> bool)
      (c c' : nat) (ts : list Token) :
  commaList tokens isItem c ts c' -> c <= c'.
Proof. induction 1; lia. Qed.

Lemma optionalAt_le (tokens : list Token) (k : TokenKind) (c c' : nat) :
  optionalAt tokens k c c' -> c <= c'.
Proof. intros (t & _ & ->). destruct (hasKind k t); lia. Qed.

Lemma argument_lt (tokens : list Token) (c c' : nat) (a : Argument) :
  argument tokens c a c' -> c < c'.
Proof.
  destruct 1;
    repeat match goal with
           | H : commaList _ _ _ _ _ |- _ => apply commaList_le in H
           | H : optionalAt _ _ _ _ |- _ => apply optionalAt_le in H
           end; lia.
Qed.

Lemma arguments_le (tokens : list Token) (c c' : nat) (args : list Argument) :
  arguments tokens c args c' -> c <= c'.
Proof.
  induction 1; try lia.
  - destruct H1 as (t' & _ & _ & _ & [[_ ->] | [_ (sep & _ & _ & ->)]]); lia.
  - apply argument_lt in H1. lia.
Qed.

Section Spelled.

Variable tokens : list Token.

Lemma state_eta (s : PState) :
  s = mkState (cursor s) (depth s) (out s).
Proof. destruct s; reflexivity. Qed.

Lemma match_spelled (k : TokenKind) (s : PState) (c : nat) (t : Token) :
  cursor s = c -> nth_error tokens c = Some t ->
  match_ tokens k s =
  Ok (hasKind k t,
      mkState (if hasKind k t then S c else c) (depth s) (out s)).
Proof.
  intros Hc Hn. subst c. rewrite (match_at tokens k s t Hn). unfold hasKind.
  destruct (TokenKind_eqb (kind t) k); [reflexivity|].
  rewrite (state_eta s) at 1. reflexivity.
Qed.

Lemma optional_spelled (k : TokenKind) (s : PState) (c c' : nat) :
  cursor s = c -> optionalAt tokens k c c' ->
  exists b, match_ tokens k s = Ok (b, mkState c' (depth s) (out s)).
Proof.
  intros Hc (t & Hn & ->). exists (hasKind k t).
  apply match_spelled; assumption.
Qed.

Lemma listItems_spelled (k : TokenKind) (conv : jsstring -> jsstring)
      (c c' : nat) (ts : list Token) :
  commaList tokens (hasKind k) c ts c' ->
  forall fuel arr s,
    cursor s = c -> c' - c < fuel ->
    listItems tokens fuel k conv arr s =
    Ok (arr ++ map (fun t => conv (text t)) ts,
        mkState c' (depth s) (out s)).
Proof.
  induction 1 as [c t Hn Hi | c t t' Hn Hi Hn' Hc' | c t t' ts c' Hn Hi Hn' Hc' Hl IH];
    intros fuel arr s Hc Hf; (destruct fuel as [|fuel]; [lia|]);
    cbn [listItems]; unfold bind at 1;
    rewrite (peekKind_at tokens s t) by (rewrite Hc; exact Hn);
    unfold hasKind in Hi; rewrite Hi.
  - unfold ret. cbn [map]. rewrite app_nil_r, <- Hc.
    rewrite <- (state_eta s). reflexivity.
  - unfold bind at 1.
    rewrite (advance_at tokens s t) by (rewrite Hc; exact Hn).
    unfold bind at 1.
    rewrite (match_spelled Comma (stepped s) (S c) t')
      by (cbn; congruence || exact Hn').
    rewrite Hc'. reflexivity.
  - unfold bind at 1.
    rewrite (advance_at tokens s t) by (rewrite Hc; exact Hn).
    unfold bind at 1.
    rewrite (match_spelled Comma (stepped s) (S c) t')
      by (cbn; congruence || exact Hn').
    rewrite Hc'.
    pose proof (commaList_le _ _ _ _ _ Hl) as Hle.
    rewrite (IH fuel (arr ++ [conv (text t)])
                (mkState (S (S c)) (depth (stepped s)) (out (stepped s)))
                eq_refl ltac:(lia)).
    cbn [map stepped depth out]. rewrite <- app_assoc. reflexivity.
Qed.

Lemma key_spelled (s : PState) (t : Token) :
  nth_error tokens (cursor s) = Some t ->
  (if TokenKind_eqb (kind t) Symbol
   then bind (advance tokens)
             (fun t0 => ret (Some (dropLeadingColon (strip (text t0)))))
   else if TokenKind_eqb (kind t) Identifier
        then bind (advance tokens) (fun t0 => ret (Some (text t0)))
        else ret None) s =
  Ok (keyOf t, match keyOf t with Some _ => stepped s | None => s end).
Proof.
  intros Hn. unfold keyOf, hasKind.
  destruct (TokenKind_eqb (kind t) Symbol);
    [| destruct (TokenKind_eqb (kind t) Identifier)];
    try reflexivity;
    unfold bind; rewrite (advance_at tokens s t Hn); reflexivity.
Qed.

Lemma keyOf_kind (t : Token) (key : jsstring) :
  keyOf t = Some key ->
  TokenKind_eqb (kind t) String_ = false /\ hasKind LeftBracket t = false.
Proof.
  unfold keyOf, hasKind. destruct (kind t); try discriminate;
    intros _; split; reflexivity.
Qed.

Lemma separator_spelled (s : PState) (sep : Token) :
  nth_error tokens (cursor s) = Some sep ->
  orM (match_ tokens Equals) (match_ tokens Colon) s =
  Ok (isSeparator sep, if isSeparator sep then stepped s else s).
Proof.
  intros Hn. unfold orM, bind, isSeparator, hasKind.
  rewrite (match_at tokens Equals s sep Hn).
  destruct (TokenKind_eqb (kind sep) Equals); [reflexivity|].
  rewrite (match_at tokens Colon s sep Hn).
  destruct (TokenKind_eqb (kind sep) Colon); reflexivity.
Qed.

Lemma stepped_eta (s : PState) (c : nat) :
  cursor s = c -> stepped s = mkState (S c) (depth s) (out s).
Proof. intros <-. reflexivity. Qed.

(** The head of one round of the argument loop on a key and its
    separator. *)
Lemma declArg_key (fuel : nat) (a : DeclArgs) (s : PState) (c : nat)
      (t sep : Token) (key : jsstring) :
  cursor s = c ->
  nth_error tokens c = Some t -> keyOf t = Some key ->
  nth_error tokens (S c) = Some sep -> isSeparator sep = true ->
  declArg tokens fuel a s =
  (a' <- declValue tokens fuel key a ;; ret (true, a'))
    (mkState (S (S c)) (depth s) (out s)).
Proof.
  intros Hc Hn Hkey Hsep Hs. subst c.
  destruct (keyOf_kind t key Hkey) as [Hstr Hbr].
  unfold declArg. unfold bind at 1. rewrite (peekKind_at tokens s t Hn), Hstr.
  unfold bind at 1. rewrite (match_spelled LeftBracket s (cursor s) t eq_refl Hn).
  rewrite Hbr. rewrite <- (state_eta s).
  unfold bind at 1. rewrite (peekKind_at tokens s t Hn).
  unfold bind at 1. rewrite (key_spelled s t Hn), Hkey.
  unfold bind at 1.
  rewrite (separator_spelled (stepped s) sep Hsep), Hs.
  cbn [negb]. reflexivity.
Qed.

Lemma declArg_spelled (c c' : nat) (x : Argument) :
  argument tokens c x c' ->
  forall fuel a s,
    cursor s = c -> c' - c < fuel ->
    declArg tokens fuel a s =
    Ok ((true, readInto a [x]), mkState c' (depth s) (out s)).
Proof.
  intros Hx fuel a s Hc Hf.
  destruct Hx as [c t Hn Hk
                 | c t ts c1 c' Hn Hk Hl Ho
                 | c t sep v Hn Hkey Hsep Hs Hv Hg
                 | c t sep v Hn Hkey Hsep Hs Hv Hg
                 | c t sep b ts c1 c' Hn Hkey Hsep Hs Hb Hbk Hl Ho
                 | c t sep b Hn Hkey Hsep Hs Hb Hbk
                 | c t key sep v Hn Hkey Hg Hp Hsep Hs Hv].
  - unfold declArg. unfold bind at 1.
    rewrite (peekKind_at tokens s t) by (rewrite Hc; exact Hn).
    unfold hasKind in Hk. rewrite Hk.
    unfold bind. rewrite (advance_at tokens s t) by (rewrite Hc; exact Hn).
    unfold ret. rewrite (stepped_eta s c Hc).
    f_equal. f_equal. f_equal. readInto_one.
  - assert (Hstr : TokenKind_eqb (kind t) String_ = false)
      by (unfold hasKind in Hk; destruct (kind t); try discriminate;
          reflexivity).
    pose proof (commaList_le _ _ _ _ _ Hl) as Hle1.
    pose proof (optionalAt_le _ _ _ _ Ho) as Hle2.
    unfold declArg. unfold bind at 1.
    rewrite (peekKind_at tokens s t) by (rewrite Hc; exact Hn).
    rewrite Hstr. unfold bind at 1.
    rewrite (match_spelled LeftBracket s c t Hc Hn), Hk.
    unfold bind at 1.
    rewrite (listItems_spelled String_ (fun s0 => trim (strip s0)) (S c) c1 ts
                               Hl fuel (a_versions a)
                               (mkState (S c) (depth s) (out s))
                               eq_refl ltac:(lia)).
    cbn [depth out].
    destruct (optional_spelled RightBracket
                (mkState c1 (depth s) (out s)) c1 c' eq_refl Ho) as (b & Hb).
    unfold bind at 1. rewrite Hb. cbn [depth out]. unfold ret.
    f_equal. f_equal. f_equal. readInto_one.
  - rewrite (declArg_key fuel a s c t sep (js "group") Hc Hn Hkey Hsep Hs).
    unfold bind at 1. unfold declValue.
    change (jseq (js "group") (js "group")) with true. cbv iota.
    unfold bind at 1.
    rewrite (peekKind_at tokens (mkState (S (S c)) (depth s) (out s)) v Hv).
    unfold isGroupValue, hasKind in Hg.
    destruct (TokenKind_eqb (kind v) Identifier) eqn:Ei.
    + unfold bind at 1.
      rewrite (advance_at tokens (mkState (S (S c)) (depth s) (out s)) v Hv).
      unfold ret, stepped. cbn [cursor depth out].
      f_equal. f_equal. f_equal. readInto_one.
      unfold labelText, hasKind. rewrite Ei. reflexivity.
    + cbn [orb] in Hg. rewrite Hg. unfold bind at 1.
      rewrite (advance_at tokens (mkState (S (S c)) (depth s) (out s)) v Hv).
      unfold ret, stepped. cbn [cursor depth out].
      f_equal. f_equal. f_equal. readInto_one.
      unfold labelText, hasKind. rewrite Ei. reflexivity.
  - rewrite (declArg_key fuel a s c t sep (js "group") Hc Hn Hkey Hsep Hs).
    unfold bind at 1. unfold declValue.
    change (jseq (js "group") (js "group")) with true. cbv iota.
    unfold bind at 1.
    rewrite (peekKind_at tokens (mkState (S (S c)) (depth s) (out s)) v Hv).
    unfold isGroupValue, hasKind in Hg.
    apply orb_false_iff in Hg. destruct Hg as [-> ->].
    unfold ret. f_equal. f_equal. f_equal. readInto_one. eta_args.
  - pose proof (commaList_le _ _ _ _ _ Hl) as Hle1.
    pose proof (optionalAt_le _ _ _ _ Ho) as Hle2.
    rewrite (declArg_key fuel a s c t sep (js "platforms") Hc Hn Hkey Hsep Hs).
    unfold bind at 1. unfold declValue.
    change (jseq (js "platforms") (js "group")) with false.
    change (jseq (js "platforms") (js "platforms")) with true. cbv iota.
    unfold bind at 1.
    rewrite (match_spelled LeftBracket (mkState (S (S c)) (depth s) (out s))
                           (S (S c)) b eq_refl Hb), Hbk.
    cbn [depth out]. unfold bind at 1.
    rewrite (listItems_spelled Symbol strip (S (S (S c))) c1 ts
                               Hl fuel (a_inlinePlatforms a)
                               (mkState (S (S (S c))) (depth s) (out s))
                               eq_refl ltac:(lia)).
    cbn [depth out].
    destruct (optional_spelled RightBracket
                (mkState c1 (depth s) (out s)) c1 c' eq_refl Ho) as (b2 & Hb2).
    unfold bind at 1. rewrite Hb2. cbn [depth out]. unfold ret.
    f_equal. f_equal. f_equal. readInto_one.
  - rewrite (declArg_key fuel a s c t sep (js "platforms") Hc Hn Hkey Hsep Hs).
    unfold bind at 1. unfold declValue.
    change (jseq (js "platforms") (js "group")) with false.
    change (jseq (js "platforms") (js "platforms")) with true. cbv iota.
    unfold bind at 1.
    rewrite (match_spelled LeftBracket (mkState (S (S c)) (depth s) (out s))
                           (S (S c)) b eq_refl Hb), Hbk.
    cbn [depth out]. unfold ret.
    f_equal. f_equal. f_equal. readInto_one. eta_args.
  - rewrite (declArg_key fuel a s c t sep key Hc Hn Hkey Hsep Hs).
    unfold bind at 1. unfold declValue. rewrite Hg, Hp.
    unfold bind at 1.
    rewrite (advance_at tokens (mkState (S (S c)) (depth s) (out s)) v Hv).
    cbv zeta. unfold stepped. cbn [cursor depth out].
    unfold readInto, gitOf, pathOf, requireOf.
    cbn [flat_map versionsOf groupsOf platformsOf lastValue option_map existsb].
    rewrite !app_nil_r, !orb_false_r.
    destruct (jseq key (js "git") || jseq key (js "github")) eqn:E1.
    { assert (jseq key (js "path") = false /\ jseq key (js "require") = false)
        as [-> ->].
      { apply orb_true_iff in E1. destruct E1 as [E|E]; apply jseq_eq in E;
          subst key; split; reflexivity. }
      reflexivity. }
    destruct (jseq key (js "path")) eqn:E2.
    { assert (jseq key (js "require") = false) as ->.
      { apply jseq_eq in E2. subst key. reflexivity. }
      reflexivity. }
    destruct (jseq key (js "require")) eqn:E3; [reflexivity|].
    unfold ret. f_equal. f_equal. f_equal. eta_args.
Qed.

Lemma declArg_stray (c c' : nat) :
  strayAt tokens c c' ->
  forall fuel a s,
    cursor s = c ->
    declArg tokens fuel a s = Ok ((false, a), mkState c' (depth s) (out s)).
Proof.
  intros (t & Hn & Hstr & Hbr & Hkey) fuel a s Hc. subst c.
  unfold hasKind in Hstr.
  unfold declArg. unfold bind at 1. rewrite (peekKind_at tokens s t Hn), Hstr.
  unfold bind at 1.
  rewrite (match_spelled LeftBracket s (cursor s) t eq_refl Hn), Hbr.
  rewrite <- (state_eta s).
  unfold bind at 1. rewrite (peekKind_at tokens s t Hn).
  unfold bind at 1. rewrite (key_spelled s t Hn).
  destruct Hkey as [[Hnone ->] | [Hsome (sep & Hsep & Hs & ->)]].
  - rewrite Hnone. unfold ret. rewrite <- (state_eta s). reflexivity.
  - destruct (keyOf t) as [key|]; [|contradiction].
    unfold bind at 1.
    rewrite (separator_spelled (stepped s) sep Hsep), Hs.
    reflexivity.
Qed.

(** The argument loop reads every list of arguments that the tokens
    spell, given one unit of fuel more than the tokens it takes. *)
Lemma declArgs_spelled (c c' : nat) (args : list Argument) :
  arguments tokens c args c' ->
  forall fuel a s,
    cursor s = c -> c' - c < fuel ->
    declArgs tokens fuel a s =
    Ok (readInto a args, mkState c' (depth s) (out s)).
Proof.
  induction 1 as [c t Hn Hk | c t c' Hn Hk Hstray
                 | c t x c1 args c' Hn Hk Hx Hargs IH];
    intros fuel a s Hc Hf; (destruct fuel as [|fuel]; [lia|]);
    cbn [declArgs]; unfold bind at 1;
    rewrite (match_spelled Comma s c t Hc Hn), Hk.
  - unfold ret. rewrite readInto_nil, <- Hc, <- (state_eta s). reflexivity.
  - unfold bind at 1.
    rewrite (declArg_stray (S c) c' Hstray fuel a
                           (mkState (S c) (depth s) (out s)) eq_refl).
    cbn [fst snd depth out]. unfold ret. rewrite readInto_nil. reflexivity.
  - pose proof (argument_lt _ _ _ _ Hx) as Hlt.
    pose proof (arguments_le _ _ _ _ Hargs) as Hle.
    unfold bind at 1.
    rewrite (declArg_spelled (S c) c1 x Hx fuel a
                             (mkState (S c) (depth s) (out s))
                             eq_refl ltac:(lia)).
    cbn [fst snd depth out].
    rewrite (IH fuel (readInto a [x]) (mkState c1 (depth s) (out s))
                eq_refl ltac:(lia)).
    cbn [depth out]. rewrite readInto_cons. reflexivity.
Qed.

Lemma isLabel_name (t : Token) :
  isLabel t = true ->
  negb (TokenKind_eqb (kind t) String_) &&
  negb (TokenKind_eqb (kind t) Symbol) &&
  negb (TokenKind_eqb (kind t) Identifier) = false /\
  hasKind LeftParen t = false.
Proof.
  unfold isLabel, hasKind. destruct (kind t); try discriminate;
    intros _; split; reflexivity.
Qed.

Lemma freeze_spelled (s : PState) (c c' : nat) :
  cursor s = c -> freezeAt tokens c c' ->
  exists b,
    andM (match_ tokens Dot) (matchWord tokens (js "freeze")) s =
    Ok (b, mkState c' (depth s) (out s)).
Proof.
  intros Hc (t & Hn & Hcase). unfold andM. unfold bind.
  rewrite (match_spelled Dot s c t Hc Hn).
  destruct Hcase as [[Hd ->] | [Hd (t' & Hn' & ->)]]; rewrite Hd.
  - exists false. reflexivity.
  - rewrite (matchWord_at tokens (js "freeze")
                          (mkState (S c) (depth s) (out s)) t' Hn').
    unfold hasKind.
    destruct (TokenKind_eqb (kind t') Identifier &&
              jseq (text t') (js "freeze"));
      [exists true | exists false]; reflexivity.
Qed.

(** [parseDecl] reads every declaration that the tokens spell, given one
    unit of fuel more than the tokens it takes. *)
Lemma parseDecl_spelled (fuel : nat) (groups platforms : list jsstring)
      (s : PState) (c c' : nat) (nameTok : Token) (args : list Argument) :
  declaration tokens c nameTok args c' ->
  cursor s = c -> c' - c < fuel ->
  parseDecl tokens fuel groups platforms s =
  Ok (declared groups platforms nameTok args,
      mkState c' (depth s) (out s)).
Proof.
  intros Hd Hc Hf.
  destruct Hd as [c nameTok c1 args c' Hn Hl Hfr Hargs
                 | c p nameTok c1 args c2 c' Hp Hpk Hn Hl Hfr Hargs Ho].
  - destruct (isLabel_name nameTok Hl) as [Hchk Hnp].
    pose proof (arguments_le _ _ _ _ Hargs) as Hle.
    assert (Hc1 : S c <= c1).
    { destruct Hfr as (t & _ & [[_ ->] | [_ (t' & _ & ->)]]);
        [lia | destruct (_ && _); lia]. }
    unfold parseDecl. unfold bind at 1.
    rewrite (match_spelled LeftParen s c nameTok Hc Hn), Hnp.
    unfold bind at 1.
    rewrite (advance_at tokens (mkState c (depth s) (out s)) nameTok Hn).
    unfold bind at 1. rewrite Hchk. unfold ret at 1.
    destruct (freeze_spelled (stepped (mkState c (depth s) (out s)))
                             (S c) c1 eq_refl Hfr) as (b & Hb).
    unfold bind at 1. rewrite Hb. cbn [stepped depth out].
    unfold bind at 1.
    rewrite (declArgs_spelled c1 c' args Hargs fuel
                              (mkArgs [] None None None [] [])
                              (mkState c1 (depth s) (out s))
                              eq_refl ltac:(lia)).
    cbn [depth out]. unfold bind at 1. unfold ret.
    f_equal. f_equal. apply readInto_declared.
  - destruct (isLabel_name nameTok Hl) as [Hchk _].
    pose proof (arguments_le _ _ _ _ Hargs) as Hle.
    pose proof (optionalAt_le _ _ _ _ Ho) as Hle2.
    assert (Hc1 : S (S c) <= c1).
    { destruct Hfr as (t & _ & [[_ ->] | [_ (t' & _ & ->)]]);
        [lia | destruct (_ && _); lia]. }
    unfold parseDecl. unfold bind at 1.
    rewrite (match_spelled LeftParen s c p Hc Hp), Hpk.
    unfold bind at 1.
    rewrite (advance_at tokens (mkState (S c) (depth s) (out s)) nameTok Hn).
    unfold bind at 1. rewrite Hchk. unfold ret at 1.
    destruct (freeze_spelled (stepped (mkState (S c) (depth s) (out s)))
                             (S (S c)) c1 eq_refl Hfr) as (b & Hb).
    unfold bind at 1. rewrite Hb. cbn [stepped depth out].
    unfold bind at 1.
    rewrite (declArgs_spelled c1 c2 args Hargs fuel
                              (mkArgs [] None None None [] [])
                              (mkState c1 (depth s) (out s))
                              eq_refl ltac:(lia)).
    cbn [depth out].
    destruct (optional_spelled RightParen
                (mkState c2 (depth s) (out s)) c2 c' eq_refl Ho) as (b2 & Hb2).
    unfold bind at 1. rewrite Hb2. cbn [depth out]. unfold ret.
    f_equal. f_equal. apply readInto_declared.
Qed.

End Spelled.

(** X30: [parseDecl] reads every declaration that the tokens spell: from
    a cursor where the tokens spell a declaration, and with more fuel
    than the declaration has tokens, it returns that declaration, throws
    nothing, and leaves the cursor where the declaration ends. *)
Theorem parseDecl_accepts_declaration
        (tokens : list Token) (fuel : nat) (g p : list jsstring)
        (s : PState) (c' : nat) (nameTok : Token) (args : list Argument) :
  declaration tokens (cursor s) nameTok args c' ->
  c' - cursor s < fuel ->
  parseDecl tokens fuel g p s =
  Ok (declared g p nameTok args, mkState c' (depth s) (out s)).
Proof.
  intros Hd Hf.
  apply (parseDecl_spelled tokens fuel g p s (cursor s) c' nameTok args Hd
                           eq_refl Hf).
Qed.

Lemma parseDecl_accepts_declaration_witness :
  declaration devLineTokens 1
              (mkToken String_ (js "'a'") 4 7 1 7)
              [Group (Some (mkToken Identifier (js "test") 16 20 1 21))] 6 /\
  parseDecl devLineTokens 6 [] [] (mkState 1 0 (mkOutput None None [] [])) =
  Ok (mkDecl (js "a") [] None None None (Some [js "test"]) [],
      mkState 6 0 (mkOutput None None [] [])).
Proof.
  assert (Hd : declaration devLineTokens 1
                 (mkToken String_ (js "'a'") 4 7 1 7)
                 [Group (Some (mkToken Identifier (js "test") 16 20 1 21))] 6).
  { apply (decl_plain devLineTokens 1 _ 2); try reflexivity.
    - eexists. split; [reflexivity|]. left. split; reflexivity.
    - apply (args_cons devLineTokens 2 (mkToken Comma (js ",") 7 8 1 8) _ 6);
        try reflexivity.
      + apply (arg_group devLineTokens 3
                 (mkToken Identifier (js "group") 9 14 1 15)
                 (mkToken Colon (js ":") 14 15 1 15)); reflexivity.
      + apply (args_end devLineTokens 6
                 (mkToken NewLine [LINE_FEED] 20 21 1 21)); reflexivity. }
  split; [exact Hd|].
  apply (parseDecl_accepts_declaration devLineTokens 6 [] []
           (mkState 1 0 (mkOutput None None [] [])) 6 _ _ Hd).
  vm_compute. lia.
Defined.

(* ------------------------------------------------------------------ *)
(** ** The statements of a gemspec *)

Lemma jseq_refl (x : jsstring) : jseq x x = true.
Proof. apply jseq_eq. reflexivity. Qed.

Lemma depMethods_isDev (x : jsstring) :
  In x depMethods ->
  jseq x (js "send") = false /\
  existsb (jseq x) depMethods = true /\
  includes x (js "development") = jseq x (js "add_development_dependency").
Proof.
  intros [<- | [<- | [<- | [<- | []]]]]; vm_compute; repeat split.
Qed.

(** The test on the block variable succeeds on an identifier when there
    is no block variable, or when the identifier is the block variable. *)
Lemma blockVar_matches (tokens : list Token) (bv : option jsstring)
      (s : PState) (v : Token) :
  nth_error tokens (cursor s) = Some v ->
  bv = None \/ bv = Some [] \/ bv = Some (text v) ->
  match bv with
  | Some ((_ :: _) as b) => t <- peekText tokens;; ret (jseq t b)
  | _ => ret true
  end s = Ok (true, s).
Proof.
  intros Hv [-> | [-> | ->]]; try reflexivity.
  destruct (text v) as [|c b] eqn:Etext; [reflexivity|].
  unfold bind. rewrite (peekText_at tokens s v Hv), Etext.
  unfold ret. rewrite jseq_refl. reflexivity.
Qed.

(** X25: in a gemspec, a call of [add_dependency],
    [add_runtime_dependency], [add_development_dependency] or
    [dependency] on the block variable appends the declaration that
    [parseDecl] reads after the method name: to the development list for
    [add_development_dependency], to the runtime list for the other
    three, and without its groups field for [dependency]. *)
Theorem parseSpecStatement_dependency
        (tokens : list Token) (fuel : nat) (bv : option jsstring)
        (s s' : PState) (v dot m a : Token) :
  nth_error tokens (cursor s) = Some v ->
  kind v = Identifier ->
  bv = None \/ bv = Some [] \/ bv = Some (text v) ->
  nth_error tokens (S (cursor s)) = Some dot ->
  kind dot = Dot ->
  nth_error tokens (S (S (cursor s))) = Some m ->
  kind m = Identifier ->
  In (text m) depMethods ->
  nth_error tokens (S (S (S (cursor s)))) = Some a ->
  kind a <> Equals ->
  parseSpecStatement tokens fuel bv s = Ok (tt, s') ->
  exists d s1,
    parseDecl tokens fuel [] [] (stepped (stepped (stepped s))) = Ok (d, s1) /\
    let emitted := if jseq (text m) (js "dependency")
                   then deleteGroups d else d in
    if jseq (text m) (js "add_development_dependency")
    then development (out s') = development (out s) ++ [emitted] /\
         runtime (out s') = runtime (out s)
    else runtime (out s') = runtime (out s) ++ [emitted] /\
         development (out s') = development (out s).
Proof.
  intros Hv Hkv Hbv Hdot Hkdot Hm Hkm Hdep Ha Hka H.
  destruct (depMethods_isDev (text m) Hdep) as (Hsend & Hex & Hdev).
  apply TokenKind_eqb_neq in Hka.
  unfold parseSpecStatement in H.
  unfold bind at 1 in H. rewrite (peekKind_at tokens s v Hv), Hkv in H.
  cbn [TokenKind_eqb] in H.
  unfold bind at 1 in H. rewrite (blockVar_matches tokens bv s v Hv Hbv) in H.
  unfold bind at 1 in H. rewrite (advance_at tokens s v Hv) in H.
  unfold bind at 1 in H.
  rewrite (match_at tokens Dot (stepped s) dot Hdot), Hkdot in H.
  cbn [TokenKind_eqb negb] in H.
  unfold bind at 1 in H.
  rewrite (advance_at tokens (stepped (stepped s)) m Hm), Hkm in H.
  cbn [TokenKind_eqb negb] in H.
  unfold bind at 1 in H. unfold andM at 1 in H. unfold bind at 1 in H.
  rewrite (match_at tokens Equals (stepped (stepped (stepped s))) a Ha), Hka in H.
  unfold ret at 1 in H.
  rewrite Hsend, Hex, Hdev in H.
  apply bind_Ok in H. destruct H as (d & s1 & Hd & H).
  apply bind_Ok in H. destruct H as ([] & s2 & Hpush & H).
  apply pushDecl_Ok in Hpush. destruct Hpush as (_ & Ho2).
  pose proof (pureOut_parseDecl tokens fuel [] []
                (stepped (stepped (stepped s)))) as Hpure.
  unfold post in Hpure. rewrite Hd in Hpure. cbn [stepped out] in Hpure.
  pose proof (pureOut_skipLine tokens fuel s2) as Hline.
  unfold post in Hline. rewrite H in Hline.
  exists d, s1. split; [exact Hd|]. cbv zeta.
  rewrite Hline, Ho2, Hpure. unfold appendDecl.
  destruct (jseq (text m) (js "add_development_dependency")); cbn;
    split; reflexivity.
Qed.

Lemma parseSpecStatement_dependency_witness :
  exists s',
    parseSpecStatement specDependencyTokens 7 (Some (js "s"))
                       (mkState 0 0 (mkOutput None None [] [])) = Ok (tt, s') /\
    exists d s1,
      parseDecl specDependencyTokens 7 [] []
                (stepped (stepped (stepped
                   (mkState 0 0 (mkOutput None None [] []))))) = Ok (d, s1) /\
      let emitted := if jseq (js "add_development_dependency") (js "dependency")
                     then deleteGroups d else d in
      if jseq (js "add_development_dependency")
              (js "add_development_dependency")
      then development (out s') = [] ++ [emitted] /\ runtime (out s') = []
      else runtime (out s') = [] ++ [emitted] /\ development (out s') = [].
Proof.
  eexists. split; [vm_compute; reflexivity|].
  apply (parseSpecStatement_dependency specDependencyTokens 7 (Some (js "s"))
           (mkState 0 0 (mkOutput None None [] [])) _
           (mkToken Identifier (js "s") 0 1 1 2)
           (mkToken Dot (js ".") 1 2 1 2)
           (mkToken Identifier (js "add_development_dependency") 2 28 1 29)
           (mkToken String_ (js "'rake'") 29 35 1 35)).
  - vm_compute; reflexivity.
  - reflexivity.
  - right; right; reflexivity.
  - vm_compute; reflexivity.
  - reflexivity.
  - vm_compute; reflexivity.
  - reflexivity.
  - right; right; left; reflexivity.
  - vm_compute; reflexivity.
  - discriminate.
  - vm_compute; reflexivity.
Defined.

(** X26: in a gemspec, an assignment of a string to [name] or [version]
    on the block variable sets the name or the version of the output to
    the stripped string; an assignment to another attribute changes
    nothing; none of them touches the lists of declarations. *)
Theorem parseSpecStatement_assignment
        (tokens : list Token) (fuel : nat) (bv : option jsstring)
        (s s' : PState) (v dot m eq lit : Token) :
  nth_error tokens (cursor s) = Some v ->
  kind v = Identifier ->
  bv = None \/ bv = Some [] \/ bv = Some (text v) ->
  nth_error tokens (S (cursor s)) = Some dot ->
  kind dot = Dot ->
  nth_error tokens (S (S (cursor s))) = Some m ->
  kind m = Identifier ->
  nth_error tokens (S (S (S (cursor s)))) = Some eq ->
  kind eq = Equals ->
  nth_error tokens (S (S (S (S (cursor s))))) = Some lit ->
  kind lit = String_ ->
  parseSpecStatement tokens fuel bv s = Ok (tt, s') ->
  selfName (out s') =
    (if jseq (text m) (js "name") then Some (strip (text lit))
     else selfName (out s)) /\
  selfVersion (out s') =
    (if jseq (text m) (js "name") then selfVersion (out s)
     else if jseq (text m) (js "version") then Some (strip (text lit))
          else selfVersion (out s)) /\
  runtime (out s') = runtime (out s) /\
  development (out s') = development (out s).
Proof.
  intros Hv Hkv Hbv Hdot Hkdot Hm Hkm Heq Hkeq Hlit Hklit H.
  unfold parseSpecStatement in H.
  unfold bind at 1 in H. rewrite (peekKind_at tokens s v Hv), Hkv in H.
  cbn [TokenKind_eqb] in H.
  unfold bind at 1 in H. rewrite (blockVar_matches tokens bv s v Hv Hbv) in H.
  unfold bind at 1 in H. rewrite (advance_at tokens s v Hv) in H.
  unfold bind at 1 in H.
  rewrite (match_at tokens Dot (stepped s) dot Hdot), Hkdot in H.
  cbn [TokenKind_eqb negb] in H.
  unfold bind at 1 in H.
  rewrite (advance_at tokens (stepped (stepped s)) m Hm), Hkm in H.
  cbn [TokenKind_eqb negb] in H.
  unfold bind at 1 in H. unfold andM at 1 in H. unfold bind at 1 in H.
  rewrite (match_at tokens Equals (stepped (stepped (stepped s))) eq Heq), Hkeq
    in H.
  cbn [TokenKind_eqb] in H.
  unfold bind at 1 in H.
  rewrite (peekKind_at tokens (stepped (stepped (stepped (stepped s)))) lit Hlit),
    Hklit in H.
  cbn [TokenKind_eqb] in H. unfold ret at 1 in H.
  unfold bind at 1 in H.
  rewrite (advance_at tokens (stepped (stepped (stepped (stepped s)))) lit Hlit)
    in H.
  apply bind_Ok in H. destruct H as ([] & s2 & Hset & H).
  pose proof (pureOut_skipLine tokens fuel s2) as Hline.
  unfold post in Hline. rewrite H in Hline. rewrite Hline.
  destruct (jseq (text m) (js "name")).
  - injection Hset as <-. cbn. repeat split; reflexivity.
  - destruct (jseq (text m) (js "version")).
    + injection Hset as <-. cbn. repeat split; reflexivity.
    + injection Hset as <-. cbn. repeat split; reflexivity.
Qed.

Lemma parseSpecStatement_assignment_witness :
  exists s',
    parseSpecStatement specNameTokens 7 (Some (js "s"))
                       (mkState 0 0 (mkOutput None None [] [])) = Ok (tt, s') /\
    selfName (out s') =
      (if jseq (js "name") (js "name") then Some (strip (js "'foo'"))
       else None) /\
    selfVersion (out s') =
      (if jseq (js "name") (js "name") then None
       else if jseq (js "name") (js "version") then Some (strip (js "'foo'"))
            else None) /\
    runtime (out s') = [] /\
    development (out s') = [].
Proof.
  eexists. split; [vm_compute; reflexivity|].
  apply (parseSpecStatement_assignment specNameTokens 7 (Some (js "s"))
           (mkState 0 0 (mkOutput None None [] [])) _
           (mkToken Identifier (js "s") 0 1 1 2)
           (mkToken Dot (js ".") 1 2 1 2)
           (mkToken Identifier (js "name") 2 6 1 7)
           (mkToken Equals (js "=") 7 8 1 8)
           (mkToken String_ (js "'foo'") 9 14 1 14)).
  - vm_compute; reflexivity.
  - reflexivity.
  - right; right; reflexivity.
  - vm_compute; reflexivity.
  - reflexivity.
  - vm_compute; reflexivity.
  - reflexivity.
  - vm_compute; reflexivity.
  - reflexivity.
  - vm_compute; reflexivity.
  - reflexivity.
  - vm_compute; reflexivity.
Defined.

(* ------------------------------------------------------------------ *)
(** ** Skipping a block *)

Lemma orM_match_at (tokens : list Token) (k1 k2 : TokenKind) (s : PState)
      (t : Token) :
  nth_error tokens (cursor s) = Some t ->
  orM (match_ tokens k1) (match_ tokens k2) s =
  if TokenKind_eqb (kind t) k1 || TokenKind_eqb (kind t) k2
  then Ok (true, stepped s) else Ok (false, s).
Proof.
  intros Hn. unfold orM, bind. rewrite (match_at tokens k1 s t Hn).
  destruct (TokenKind_eqb (kind t) k1); [reflexivity|].
  rewrite (match_at tokens k2 s t Hn).
  destruct (TokenKind_eqb (kind t) k2); reflexivity.
Qed.

Lemma between_cons (tokens : list Token) (a b : nat) (t : Token) :
  nth_error tokens a = Some t -> a < b ->
  between tokens a b = t :: between tokens (S a) b.
Proof.
  unfold between. intros Hn Hab.
  replace (b - a) with (S (b - S a)) by lia.
  revert a b Hn Hab. induction tokens as [|x l IH]; intros a b Hn Hab.
  - destruct a; discriminate.
  - destruct a as [|a].
    + cbn in Hn. injection Hn as ->. reflexivity.
    + cbn [skipn]. cbn [nth_error] in Hn.
      destruct b as [|b]; [lia|].
      apply (IH a b Hn). lia.
Qed.

Lemma between_nil (tokens : list Token) (a : nat) : between tokens a a = [].
Proof. unfold between. rewrite Nat.sub_diag. reflexivity. Qed.

Lemma balanced_step (tokens : list Token) (d d' : nat) (s s' : PState)
      (t : Token) :
  nth_error tokens (cursor s) = Some t ->
  kind t <> EndOfFile ->
  0 < d ->
  d' = (if opens t then S d else if closes t then d - 1 else d) ->
  balanced tokens d' (stepped s) s' ->
  balanced tokens d s s'.
Proof.
  intros Hn Hk Hd Hd' (D & O & C & Hall & Hpre & Hend).
  cbn [stepped cursor depth out] in *. unfold balanced.
  rewrite (between_cons tokens (cursor s) (cursor s') t Hn) by lia.
  split; [exact D|]. split; [exact O|]. split; [lia|].
  split; [constructor; assumption|].
  split.
  - intros [|n] Hlt; cbn [firstn nesting]; [exact Hd|].
    rewrite <- Hd'. apply Hpre. cbn [length] in Hlt. lia.
  - cbn [nesting]. rewrite <- Hd'. exact Hend.
Qed.

Lemma skipBlockLoop_balanced (tokens : list Token) :
  forall fuel d s s',
    skipBlockLoop tokens fuel d s = Ok (tt, s') ->
    balanced tokens d s s'.
Proof.
  induction fuel as [|fuel IH]; intros d s s' H; [discriminate|].
  cbn [skipBlockLoop] in H.
  destruct (Nat.eqb d 0) eqn:Ed.
  { apply Nat.eqb_eq in Ed. subst d.
    apply ret_Ok in H. injection H as <-.
    unfold balanced. rewrite between_nil.
    split; [reflexivity|]. split; [reflexivity|]. split; [lia|].
    split; [constructor|]. split; [intros n Hn; cbn in Hn; lia|].
    right; reflexivity. }
  apply Nat.eqb_neq in Ed.
  apply bind_Ok in H. destruct H as (k & s0 & Hk & H).
  apply peekKind_Ok in Hk. destruct Hk as (-> & t & Hn & <-).
  destruct (TokenKind_eqb (kind t) EndOfFile) eqn:Eeof.
  - apply ret_Ok in H. injection H as <-.
    apply TokenKind_eqb_eq in Eeof.
    unfold balanced. rewrite between_nil.
    split; [reflexivity|]. split; [reflexivity|]. split; [lia|].
    split; [constructor|]. split; [intros n Hlt; cbn in Hlt; lia|].
    left. exists t. split; assumption.
  - apply TokenKind_eqb_neq in Eeof.
    unfold bind at 1 in H.
    rewrite (orM_match_at tokens Do LeftParen s t Hn) in H.
    fold (opens t) in H.
    destruct (opens t) eqn:Eopen.
    + apply IH in H.
      apply (balanced_step tokens d (S d) s s' t Hn Eeof); [lia | | exact H].
      rewrite Eopen. reflexivity.
    + unfold bind at 1 in H.
      rewrite (orM_match_at tokens End_ RightParen s t Hn) in H.
      fold (closes t) in H.
      destruct (closes t) eqn:Eclose.
      * apply IH in H.
        apply (balanced_step tokens d (d - 1) s s' t Hn Eeof);
          [lia | | exact H].
        rewrite Eopen, Eclose. reflexivity.
      * apply bind_Ok in H. destruct H as (t0 & s1 & Ha & H).
        apply advance_Ok in Ha. destruct Ha as [-> _].
        apply IH in H.
        apply (balanced_step tokens d d s s' t Hn Eeof); [lia | | exact H].
        rewrite Eopen, Eclose. reflexivity.
Qed.

(** X27: [skipBlock] skips to the end of the block it is called in: it
    moves the cursor forward and changes nothing else; it passes no
    [EndOfFile] token; its counter, which starts at one, goes up on [do]
    and on an opening parenthesis and down on [end] and on a closing
    parenthesis, stays positive before each token it passes, and is zero
    where it stops - unless it stops on [EndOfFile]. *)
Theorem skipBlock_skips_balanced
        (tokens : list Token) (fuel : nat) (s s' : PState) :
  skipBlock tokens fuel s = Ok (tt, s') ->
  balanced tokens 1 s s'.
Proof. apply skipBlockLoop_balanced. Qed.

Lemma skipBlock_skips_balanced_witness :
  skipBlock nestedCallTokens 9 (mkState 1 0 (mkOutput None None [] [])) =
  Ok (tt, mkState 6 0 (mkOutput None None [] [])) /\
  balanced nestedCallTokens 1
           (mkState 1 0 (mkOutput None None [] []))
           (mkState 6 0 (mkOutput None None [] [])).
Proof.
  split; [vm_compute; reflexivity|].
  apply (skipBlock_skips_balanced nestedCallTokens 9).
  vm_compute; reflexivity.
Defined.

(* ------------------------------------------------------------------ *)
(** ** A key without a value at the end of the input *)

Lemma jseq_neq (a b : jsstring) : a <> b -> jseq a b = false.
Proof.
  intros H. destruct (jseq a b) eqn:E; [|reflexivity].
  apply jseq_eq in E. contradiction.
Qed.

(** For a key other than [group] and [platforms] the argument loop takes
    the next token as the value, whatever it is. *)
Lemma declValue_plain (tokens : list Token) (fuel : nat) (key : jsstring)
      (a : DeclArgs) (s : PState) (v : Token) :
  key <> js "group" -> key <> js "platforms" ->
  nth_error tokens (cursor s) = Some v ->
  exists a', declValue tokens fuel key a s = Ok (a', stepped s).
Proof.
  intros Hg Hp Hv. unfold declValue.
  rewrite (jseq_neq _ _ Hg), (jseq_neq _ _ Hp).
  unfold bind. rewrite (advance_at tokens s v Hv).
  repeat match goal with
         | |- context [if ?c then _ else _] => destruct c
         end; eexists; reflexivity.
Qed.

Lemma declArg_pair (tokens : list Token) (fuel : nat) (a : DeclArgs)
      (s : PState) (keyTok sep v : Token) (key : jsstring) :
  nth_error tokens (cursor s) = Some keyTok ->
  (kind keyTok = Identifier /\ key = text keyTok) \/
  (kind keyTok = Symbol /\ key = dropLeadingColon (strip (text keyTok))) ->
  key <> js "group" -> key <> js "platforms" ->
  nth_error tokens (S (cursor s)) = Some sep ->
  kind sep = Equals \/ kind sep = Colon ->
  nth_error tokens (S (S (cursor s))) = Some v ->
  exists a',
    declArg tokens fuel a s = Ok ((true, a'), stepped (stepped (stepped s))).
Proof.
  intros Hkey Hk Hg Hp Hsep Hs Hv.
  assert (Hnotstr : TokenKind_eqb (kind keyTok) String_ = false)
    by (destruct Hk as [[-> _] | [-> _]]; reflexivity).
  assert (Hnotbr : TokenKind_eqb (kind keyTok) LeftBracket = false)
    by (destruct Hk as [[-> _] | [-> _]]; reflexivity).
  unfold declArg, bind at 1.
  rewrite (peekKind_at tokens s keyTok Hkey), Hnotstr.
  unfold bind at 1. rewrite (match_at tokens LeftBracket s keyTok Hkey), Hnotbr.
  unfold bind at 1. rewrite (peekKind_at tokens s keyTok Hkey).
  assert (Hkeyval :
            (if TokenKind_eqb (kind keyTok) Symbol
             then bind (advance tokens)
                       (fun t => ret (Some (dropLeadingColon (strip (text t)))))
             else if TokenKind_eqb (kind keyTok) Identifier
                  then bind (advance tokens) (fun t => ret (Some (text t)))
                  else ret None) s
            = Ok (Some key, stepped s)).
  { destruct Hk as [[Hkk Htx] | [Hkk Htx]]; rewrite Hkk; cbn [TokenKind_eqb];
      unfold bind; rewrite (advance_at tokens s keyTok Hkey); unfold ret;
      rewrite Htx; reflexivity. }
  unfold bind at 1. rewrite Hkeyval.
  assert (Hsepval :
            orM (match_ tokens Equals) (match_ tokens Colon) (stepped s)
            = Ok (true, stepped (stepped s))).
  { rewrite (orM_match_at tokens Equals Colon (stepped s) sep Hsep).
    destruct Hs as [-> | ->]; reflexivity. }
  unfold bind at 1. rewrite Hsepval. cbn [negb].
  destruct (declValue_plain tokens fuel key a (stepped (stepped s)) v Hg Hp Hv)
    as (a' & Hval).
  unfold bind at 1. rewrite Hval. exists a'. reflexivity.
Qed.

(** X28: when the last argument of a declaration is a key with its
    separator and the token after it is the last token of the array (as
    in [gem 'a', git:], where that token is [EndOfFile]), the argument
    loop takes that token as the value of the key and then reads the kind
    of a token past the end of the array: the parser fails on a missing
    token instead of throwing a parser error or returning. *)
Theorem declArgs_reads_past_end
        (tokens : list Token) (fuel : nat) (a : DeclArgs) (s : PState)
        (comma keyTok sep v : Token) (key : jsstring) :
  nth_error tokens (cursor s) = Some comma ->
  kind comma = Comma ->
  nth_error tokens (S (cursor s)) = Some keyTok ->
  (kind keyTok = Identifier /\ key = text keyTok) \/
  (kind keyTok = Symbol /\ key = dropLeadingColon (strip (text keyTok))) ->
  key <> js "group" -> key <> js "platforms" ->
  nth_error tokens (S (S (cursor s))) = Some sep ->
  kind sep = Equals \/ kind sep = Colon ->
  nth_error tokens (S (S (S (cursor s)))) = Some v ->
  length tokens = S (S (S (S (cursor s)))) ->
  declArgs tokens (S (S fuel)) a s = TypeError.
Proof.
  intros Hc Hkc Hkey Hk Hg Hp Hsep Hs Hv Hlen.
  cbn [declArgs]. unfold bind at 1.
  rewrite (match_at tokens Comma s comma Hc), Hkc. cbn [TokenKind_eqb].
  destruct (declArg_pair tokens (S fuel) a (stepped s) keyTok sep v key
              Hkey Hk Hg Hp Hsep Hs Hv) as (a' & Harg).
  unfold bind at 1. rewrite Harg. cbn [fst snd].
  unfold bind at 1.
  assert (Hnone : nth_error tokens
                    (cursor (stepped (stepped (stepped (stepped s))))) = None).
  { apply nth_error_None. cbn [stepped cursor]. lia. }
  unfold match_, bind, peekKind, bind, peek. rewrite Hnone. reflexivity.
Qed.

Lemma declArgs_reads_past_end_witness :
  tokenize (js "gem 'a', git:") = Ok keyAtEndTokens /\
  declArgs keyAtEndTokens 2 (mkArgs [] None None None [] [])
           (mkState 2 0 (mkOutput None None [] [])) = TypeError /\
  parseRubyDsl 9 (js "gem 'a', git:") = TypeError.
Proof.
  split; [vm_compute; reflexivity|].
  split; [|vm_compute; reflexivity].
  apply (declArgs_reads_past_end keyAtEndTokens 0
           (mkArgs [] None None None [] [])
           (mkState 2 0 (mkOutput None None [] []))
           (mkToken Comma (js ",") 7 8 1 8)
           (mkToken Identifier (js "git") 9 12 1 13)
           (mkToken Colon (js ":") 12 13 1 13)
           (mkToken EndOfFile [] 13 13 1 14)
           (js "git")).
  - vm_compute; reflexivity.
  - reflexivity.
  - vm_compute; reflexivity.
  - left; split; reflexivity.
  - discriminate.
  - discriminate.
  - vm_compute; reflexivity.
  - right; reflexivity.
  - vm_compute; reflexivity.
  - vm_compute; reflexivity.
Defined.

(* ------------------------------------------------------------------ *)
(** ** The labels of a block *)

Lemma labelsLoop_spec (tokens : list Token) :
  forall fuel arr s arr' s',
    labelsLoop tokens fuel arr s = Ok (arr', s') ->
    depth s' = depth s /\ out s' = out s /\
    exists new,
      arr' = arr ++ new /\ Forall (labelOf tokens) new /\
      ((new = [] /\ cursor s' = cursor s) \/
       (new <> [] /\
        (cursor s' + 1 = cursor s + 2 * length new \/
         cursor s' = cursor s + 2 * length new))).
Proof.
  induction fuel as [|fuel IH]; intros arr s arr' s' H; [discriminate|].
  cbn [labelsLoop] in H.
  apply bind_Ok in H. destruct H as (k & s0 & Hk & H).
  apply peekKind_Ok in Hk. destruct Hk as (-> & t & Hn & <-).
  assert (Hin : In t tokens) by (apply (nth_error_In _ _ Hn)).
  assert (Hstep :
            forall l, labelOf tokens l ->
              (b <- match_ tokens Comma;;
               (if b then labelsLoop tokens fuel (arr ++ [l])
                else ret (arr ++ [l])))
                (stepped s) = Ok (arr', s') ->
              depth s' = depth s /\ out s' = out s /\
              exists new,
                arr' = arr ++ new /\ Forall (labelOf tokens) new /\
                ((new = [] /\ cursor s' = cursor s) \/
                 (new <> [] /\
                  (cursor s' + 1 = cursor s + 2 * length new \/
                   cursor s' = cursor s + 2 * length new)))).
  { intros l Hl H1.
    apply bind_Ok in H1. destruct H1 as (b & s2 & Hc & H1).
    apply match_Ok in Hc. destruct Hc as (tc & _ & _ & Hs2).
    destruct b; subst s2.
    - apply IH in H1. cbn [stepped cursor depth out] in H1.
      destruct H1 as (D & O & new & Harr & Hall & Hcur).
      split; [exact D|]. split; [exact O|].
      exists (l :: new).
      split; [subst arr'; rewrite <- app_assoc; reflexivity|].
      split; [constructor; assumption|].
      right. split; [discriminate|]. cbn [length].
      destruct Hcur as [[-> Hc] | [_ [Hc | Hc]]]; cbn [length]; lia.
    - apply ret_Ok in H1. injection H1 as -> ->.
      cbn [stepped cursor depth out].
      split; [reflexivity|]. split; [reflexivity|].
      exists [l]. split; [reflexivity|].
      split; [constructor; [assumption | constructor]|].
      right. split; [discriminate|]. cbn [length]. lia. }
  destruct (TokenKind_eqb (kind t) Symbol || TokenKind_eqb (kind t) String_)
           eqn:Esym.
  - apply bind_Ok in H. destruct H as (t0 & s1 & Ha & H).
    apply advance_Ok in Ha. destruct Ha as [-> Hn0].
    rewrite Hn in Hn0. injection Hn0 as <-.
    apply (Hstep (strip (text t))); [|exact H].
    exists t. split; [exact Hin|]. right. split; [|reflexivity].
    apply orb_true_iff in Esym.
    destruct Esym as [E | E]; apply TokenKind_eqb_eq in E; auto.
  - destruct (TokenKind_eqb (kind t) Identifier) eqn:Eid.
    + apply bind_Ok in H. destruct H as (t0 & s1 & Ha & H).
      apply advance_Ok in Ha. destruct Ha as [-> Hn0].
      rewrite Hn in Hn0. injection Hn0 as <-.
      apply (Hstep (text t)); [|exact H].
      exists t. split; [exact Hin|]. left.
      apply TokenKind_eqb_eq in Eid. split; [exact Eid | reflexivity].
    + apply ret_Ok in H. injection H as -> ->.
      split; [reflexivity|]. split; [reflexivity|].
      exists []. rewrite app_nil_r. split; [reflexivity|].
      split; [constructor|]. left; split; reflexivity.
Qed.

(** X29: [labels] changes nothing but the cursor; every label it returns
    is the text of an identifier token or the stripped text of a symbol
    or string token; and for [n] labels it has consumed the [n] label
    tokens and the commas between them, with or without a comma after
    the last. *)
Theorem labels_reads_labels
        (tokens : list Token) (fuel : nat) (s s' : PState)
        (arr : list jsstring) :
  labels tokens fuel s = Ok (arr, s') ->
  depth s' = depth s /\ out s' = out s /\
  Forall (labelOf tokens) arr /\
  ((arr = [] /\ cursor s' = cursor s) \/
   (arr <> [] /\
    (cursor s' + 1 = cursor s + 2 * length arr \/
     cursor s' = cursor s + 2 * length arr))).
Proof.
  unfold labels. intros H. apply labelsLoop_spec in H.
  destruct H as (D & O & new & Harr & Hall & Hcur).
  cbn [app] in Harr. subst new.
  split; [exact D|]. split; [exact O|]. split; [exact Hall | exact Hcur].
Qed.

Lemma labels_reads_labels_witness :
  labels groupHeadTokens 8 (mkState 1 0 (mkOutput None None [] [])) =
  Ok ([js "a"; js "b"], mkState 4 0 (mkOutput None None [] [])) /\
  0%Z = 0%Z /\ mkOutput None None [] [] = mkOutput None None [] [] /\
  Forall (labelOf groupHeadTokens) [js "a"; js "b"] /\
  (([js "a"; js "b"] = [] /\ 4 = 1) \/
   ([js "a"; js "b"] <> [] /\
    (4 + 1 = 1 + 2 * length [js "a"; js "b"] \/
     4 = 1 + 2 * length [js "a"; js "b"]))).
Proof.
  split; [vm_compute; reflexivity|].
  apply (labels_reads_labels groupHeadTokens 8
           (mkState 1 0 (mkOutput None None [] []))
           (mkState 4 0 (mkOutput None None [] []))).
  vm_compute; reflexivity.
Defined.
